(** * A shallow embedding of the PDDL front-end of unified-planning

    The development follows the two modules of the repository that carry
    logic: [unified_planning/model/types.py] (the type manager) and
    [unified_planning/io/pddl_reader.py] (the reader that turns parse trees
    into a planning problem).  Python objects that are never mutated after
    construction are values; lists and dictionaries are association lists in
    insertion order; raised exceptions are the [Raise] outcome of [Result]. *)

From Stdlib Require Import List String Ascii ZArith Lia Bool Arith PeanoNat.
Import ListNotations.
Local Open Scope string_scope.
Local Open Scope list_scope.

(** ** Exceptions and results *)

(** A source span: the pair ([locn_start], [locn_end]) that
    [CustomParseResults] keeps; the reader turns it into line and column
    numbers with pyparsing's [lineno] and [col]. *)
Definition Span : Type := (nat * nat)%type.

(** The texts of the [SyntaxError]s the reader raises, by kind. *)
Inductive SyntaxMsg : Type :=
| NotAbleToHandle
| UndefinedName (name : string)
| InvalidExpression
| UndefinedType
| TypeDeclaredTwice (name : string)
| ParameterDefinedTwice (fn param : string)
| DurationConstraint (action : string)
| NotATimedLiteral
| ExpectedNumber
| MissingGoal
| FluentExpError.

Inductive Exception : Type :=
| SyntaxError (what : SyntaxMsg) (span : option Span)
| UPUnreachableCodeError (span : Span)
| UPUsageError
| UPTypeError
| UPProblemDefinitionError
| AssertionError
| AttributeError
| IndexError
| KeyError
| TypeError
| ValueError
| ZeroDivisionError
| NotImplementedError
| RecursionError.

(** [OutOfFuel] is the outcome of a loop of the model whose step budget ran
    out; the budgets are computed from the input and shown to suffice. *)
Inductive Result (A : Type) : Type :=
| Ok (a : A)
| Raise (e : Exception)
| OutOfFuel.
Arguments Ok {A} a.
Arguments Raise {A} e.
Arguments OutOfFuel {A}.

Definition bind {A B} (r : Result A) (k : A -> Result B) : Result B :=
  match r with
  | Ok a => k a
  | Raise e => Raise e
  | OutOfFuel => OutOfFuel
  end.

Declare Scope result_scope.
Notation "x <- c1 ;; c2" := (bind c1 (fun x => c2))
  (at level 61, c1 at next level, right associativity) : result_scope.
Notation "' pat <- c1 ;; c2" := (bind c1 (fun x => match x with pat => c2 end))
  (at level 61, pat pattern, c1 at next level, right associativity) : result_scope.
Local Open Scope result_scope.

(** The exception an outcome carries, if it is one. *)
Definition raised {A} (r : Result A) : option Exception :=
  match r with Raise e => Some e | _ => None end.

(** Whether an exception's message embeds a source span. *)
Definition carries_span (e : Exception) : bool :=
  match e with
  | SyntaxError _ (Some _) => true
  | UPUnreachableCodeError _ => true
  | _ => false
  end.

(** ** Python's [fractions.Fraction] *)

(** A [Fraction] in lowest terms with a positive denominator. *)
Record Fraction : Type := mkFraction { numerator : Z; denominator : Z }.

(** [Fraction(n, d)] for [d > 0]: division of both by their gcd. *)
Definition Fraction_normalize (n d : Z) : Fraction :=
  let g := Z.gcd n d in
  mkFraction (n / g) (d / g).

Definition Fraction_eqb (a b : Fraction) : bool :=
  (numerator a =? numerator b)%Z && (denominator a =? denominator b)%Z.

Definition option_eqb {A} (eqb : A -> A -> bool) (a b : option A) : bool :=
  match a, b with
  | None, None => true
  | Some x, Some y => eqb x y
  | _, _ => false
  end.

(** ** [unified_planning/model/types.py] *)

Module Types.

(** The classes [_BoolType], [_IntType], [_RealType] and [_UserType].  A
    type object is never mutated once built, so it is the value of its
    fields; [father] is typed [Optional[Type]] as in the source, and it is
    the constructor of [_UserType] that rejects a father that is no user
    type. *)
#[local] Unset Elimination Schemes.
Inductive UPType : Type :=
| BoolT
| IntT (lower_bound upper_bound : option Z)
| RealT (lower_bound upper_bound : option Fraction)
| UserT (name : string) (father : option UPType).
#[local] Set Elimination Schemes.

Definition is_bool_type (t : UPType) : bool :=
  match t with BoolT => true | _ => false end.
Definition is_user_type (t : UPType) : bool :=
  match t with UserT _ _ => true | _ => false end.
Definition is_real_type (t : UPType) : bool :=
  match t with RealT _ _ => true | _ => false end.
Definition is_int_type (t : UPType) : bool :=
  match t with IntT _ _ => true | _ => false end.

(** [_UserType.name] and [_UserType.father]; the other classes have no such
    method, so the call raises [AttributeError]. *)
Definition name (t : UPType) : Result string :=
  match t with UserT n _ => Ok n | _ => Raise AttributeError end.
Definition father (t : UPType) : Result (option UPType) :=
  match t with UserT _ f => Ok f | _ => Raise AttributeError end.

(** [_UserType.__init__]. *)
Definition _UserType (n : string) (f : option UPType) : Result UPType :=
  match f with
  | Some ft => if is_user_type ft then Ok (UserT n f) else Raise UPTypeError
  | None => Ok (UserT n f)
  end.

Fixpoint UPType_eqb (a b : UPType) : bool :=
  match a, b with
  | BoolT, BoolT => true
  | IntT l u, IntT l' u' => option_eqb Z.eqb l l' && option_eqb Z.eqb u u'
  | RealT l u, RealT l' u' =>
      option_eqb Fraction_eqb l l' && option_eqb Fraction_eqb u u'
  | UserT n f, UserT n' f' =>
      String.eqb n n' &&
      match f, f' with
      | None, None => true
      | Some x, Some y => UPType_eqb x y
      | _, _ => false
      end
  | _, _ => false
  end.

(** Induction over a type and its father. *)
Fixpoint UPType_father_ind (P : UPType -> Prop)
  (HB : P BoolT) (HI : forall l u, P (IntT l u)) (HR : forall l u, P (RealT l u))
  (HU0 : forall n, P (UserT n None))
  (HU1 : forall n f, P f -> P (UserT n (Some f)))
  (t : UPType) : P t :=
  match t with
  | BoolT => HB
  | IntT l u => HI l u
  | RealT l u => HR l u
  | UserT n None => HU0 n
  | UserT n (Some f) => HU1 n f (UPType_father_ind P HB HI HR HU0 HU1 f)
  end.

(** The three interning dictionaries, in insertion order. *)
Record TypeManager : Type := mkTM {
  _ints : list ((option Z * option Z) * UPType);
  _reals : list ((option Fraction * option Fraction) * UPType);
  _user_types : list ((string * option UPType) * UPType)
}.

(** [TypeManager.__init__]. *)
Definition TypeManager_init : TypeManager := mkTM [] [] [].

Definition int_key_eqb (a b : option Z * option Z) : bool :=
  option_eqb Z.eqb (fst a) (fst b) && option_eqb Z.eqb (snd a) (snd b).
Definition real_key_eqb (a b : option Fraction * option Fraction) : bool :=
  option_eqb Fraction_eqb (fst a) (fst b) && option_eqb Fraction_eqb (snd a) (snd b).
Definition user_key_eqb (a b : string * option UPType) : bool :=
  String.eqb (fst a) (fst b) && option_eqb UPType_eqb (snd a) (snd b).

(** [k in d] and [d[k]] on a dictionary kept as an association list. *)
Fixpoint dict_get {K V} (eqb : K -> K -> bool) (d : list (K * V)) (k : K) : option V :=
  match d with
  | [] => None
  | (k', v) :: d' => if eqb k' k then Some v else dict_get eqb d' k
  end.

Definition BoolType (tm : TypeManager) : UPType := BoolT.

Definition IntType (tm : TypeManager) (lb ub : option Z) : UPType * TypeManager :=
  match dict_get int_key_eqb (_ints tm) (lb, ub) with
  | Some t => (t, tm)
  | None =>
      let it := IntT lb ub in
      (it, mkTM (_ints tm ++ [((lb, ub), it)]) (_reals tm) (_user_types tm))
  end.

Definition RealType (tm : TypeManager) (lb ub : option Fraction) : UPType * TypeManager :=
  match dict_get real_key_eqb (_reals tm) (lb, ub) with
  | Some t => (t, tm)
  | None =>
      let rt := RealT lb ub in
      (rt, mkTM (_ints tm) (_reals tm ++ [((lb, ub), rt)]) (_user_types tm))
  end.

(** The generator [user_type_ancestors] from the point where it yields [t]:
    the types it yields and the exception that ends it, if one does.  After
    yielding [t] it calls [t.father()], which only a user type has. *)
Fixpoint ancestors_from (t : UPType) : list UPType * option Exception :=
  match t with
  | UserT _ None => ([t], None)
  | UserT _ (Some f) => let (l, e) := ancestors_from f in (t :: l, e)
  | _ => ([t], Some AttributeError)
  end.

(** [TypeManager.user_type_ancestors]: the yielded types, and the exception
    raised instead of the normal end of the iteration. *)
Definition user_type_ancestors (t : UPType) : list UPType * option Exception :=
  if is_user_type t then ancestors_from t else ([], Some UPTypeError).

(** [any(ancestor.name() == name for ancestor in gen)]: the scan stops at the
    first match; [name()] on a yielded type that is no user type raises, and
    so does the generator's own exception once its items are used up. *)
Fixpoint any_name_is (n : string) (items : list UPType) (tail : option Exception)
  : Result bool :=
  match items with
  | [] => match tail with Some e => Raise e | None => Ok false end
  | a :: rest =>
      an <- name a ;;
      if String.eqb an n then Ok true else any_name_is n rest tail
  end.

(** [TypeManager.UserType]. *)
Definition UserType (tm : TypeManager) (n : string) (f : option UPType)
  : Result (UPType * TypeManager) :=
  match dict_get user_key_eqb (_user_types tm) (n, f) with
  | Some t => Ok (t, tm)
  | None =>
      _ <- match f with
           | Some ft =>
               let (items, tail) := user_type_ancestors ft in
               clash <- any_name_is n items tail ;;
               if clash then Raise UPTypeError else Ok tt
           | None => Ok tt
           end ;;
      ut <- _UserType n f ;;
      Ok (ut, mkTM (_ints tm) (_reals tm) (_user_types tm ++ [((n, f), ut)]))
  end.

(** The values of the user-type dictionary: the user types the manager has
    handed out. *)
Definition user_types_of (tm : TypeManager) : list UPType :=
  map snd (_user_types tm).

(** The managers a program obtains from a fresh one through the manager's
    own methods, every father handed to [UserType] being a type the same
    manager returned earlier. *)
Inductive built : TypeManager -> Prop :=
| built_init : built TypeManager_init
| built_IntType tm lb ub : built tm -> built (snd (IntType tm lb ub))
| built_RealType tm lb ub : built tm -> built (snd (RealType tm lb ub))
| built_UserType tm n f t tm' :
    built tm ->
    (forall ft, f = Some ft -> In ft (user_types_of tm)) ->
    UserType tm n f = Ok (t, tm') ->
    built tm'.

(** [l] starts at [t] and goes from each type to its father, up to a type
    that has none. *)
Fixpoint father_chain (t : UPType) (l : list UPType) {struct l} : Prop :=
  match l with
  | [] => False
  | x :: rest =>
      x = t /\
      match father t with
      | Ok None => rest = []
      | Ok (Some f) => father_chain f rest
      | _ => False
      end
  end.

Definition type_name (t : UPType) : string :=
  match t with UserT n _ => n | _ => "" end.

End Types.

(** ** Strings, as Python treats them *)

Definition is_digit (c : ascii) : bool :=
  let n := nat_of_ascii c in (48 <=? n)%nat && (n <=? 57)%nat.

Definition digit_value (c : ascii) : Z := Z.of_nat (nat_of_ascii c - 48).

(** The ASCII characters that count as blanks in a [str] pattern. *)
Definition is_space (c : ascii) : bool :=
  let n := nat_of_ascii c in
  ((9 <=? n)%nat && (n <=? 13)%nat) || ((28 <=? n)%nat && (n <=? 32)%nat).

Definition is_alpha (c : ascii) : bool :=
  let n := nat_of_ascii c in
  ((65 <=? n)%nat && (n <=? 90)%nat) || ((97 <=? n)%nat && (n <=? 122)%nat).

(** [str.lower] on ASCII text, which is all that the grammar's [name]
    ([Word(alphas, alphanums + "_-")]) lets through. *)
Definition lower_ascii (c : ascii) : ascii :=
  let n := nat_of_ascii c in
  if (65 <=? n)%nat && (n <=? 90)%nat then ascii_of_nat (n + 32) else c.

Fixpoint lower (s : string) : string :=
  match s with
  | EmptyString => EmptyString
  | String c r => String (lower_ascii c) (lower r)
  end.

(** [str.isdigit], for ASCII digits. *)
Definition isdigit (s : string) : bool :=
  match s with
  | EmptyString => false
  | _ => forallb is_digit (list_ascii_of_string s)
  end.

(** [s.replace(".", "", 1)]. *)
Fixpoint remove_first_dot (s : string) : string :=
  match s with
  | EmptyString => EmptyString
  | String c r => if Ascii.eqb c "." then r else String c (remove_first_dot r)
  end.

(** [" ".join(l)]. *)
Fixpoint join_space (l : list string) : string :=
  match l with
  | [] => ""
  | [s] => s
  | s :: r => s ++ " " ++ join_space r
  end.

(** The longest prefix of digits, and what follows it. *)
Fixpoint span_digits (l : list ascii) : list ascii * list ascii :=
  match l with
  | c :: r =>
      if is_digit c then let (d, rest) := span_digits r in (c :: d, rest)
      else ([], l)
  | [] => ([], [])
  end.

(** [int(digits)], with [int("" or "0")] for the empty run. *)
Definition int_of_digits (l : list ascii) : Z :=
  fold_left (fun acc c => (10 * acc + digit_value c)%Z) l 0%Z.

Fixpoint drop_spaces (l : list ascii) : list ascii :=
  match l with
  | c :: r => if is_space c then drop_spaces r else l
  | [] => []
  end.

(** Nothing but blanks up to the end. *)
Definition only_spaces (l : list ascii) : bool := forallb is_space l.

(** The optional group [sign] of the pattern: whether it is a minus, and
    the rest. *)
Definition take_sign (l : list ascii) : bool * list ascii :=
  match l with
  | "-"%char :: r => (true, r)
  | "+"%char :: r => (false, r)
  | _ => (false, l)
  end.

(** The lookahead of the pattern: a digit, or a point and a digit. *)
Definition starts_number (l : list ascii) : bool :=
  match l with
  | c :: r =>
      is_digit c ||
      (Ascii.eqb c "." && match r with d :: _ => is_digit d | [] => false end)
  | [] => false
  end.

(** The optional group [decimal] of the pattern: the digits after the point
    ([None] without a point) and the rest. *)
Definition take_decimal (l : list ascii) : option (list ascii) * list ascii :=
  match l with
  | "."%char :: r => let (d, rest) := span_digits r in (Some d, rest)
  | _ => (None, l)
  end.

(** The optional group [exp] of the pattern, case-insensitive: the exponent
    and the rest; an [E] that no digit follows is left in the rest. *)
Definition take_exponent (l : list ascii) : option Z * list ascii :=
  match l with
  | c :: r =>
      if Ascii.eqb c "E" || Ascii.eqb c "e" then
        let (neg, r1) := take_sign r in
        let (d, rest) := span_digits r1 in
        match d with
        | [] => (None, l)
        | _ => (Some (if neg then (- int_of_digits d)%Z else int_of_digits d), rest)
        end
      else (None, l)
  | [] => (None, l)
  end.

(** The end of [Fraction.__new__]: a zero denominator raises
    [ZeroDivisionError], anything else is reduced to lowest terms. *)
Definition Fraction_make (n d : Z) : Result Fraction :=
  if (d =? 0)%Z then Raise ZeroDivisionError else Ok (Fraction_normalize n d).

(** [Fraction(s)] for a string [s], after the pattern [_RATIONAL_FORMAT] of
    the standard library (as up to Python 3.11, ASCII input): optional
    blanks, an optional sign, digits, then either [/digits] or an optional
    [.digits] and an optional exponent, then optional blanks.  A string that
    does not match raises [ValueError]. *)
Definition Fraction_of_string (s : string) : Result Fraction :=
  let l0 := drop_spaces (list_ascii_of_string s) in
  let (neg, l1) := take_sign l0 in
  if negb (starts_number l1) then Raise ValueError else
  let (num, l2) := span_digits l1 in
  let n := int_of_digits num in
  let signed (x : Z) := if neg then (- x)%Z else x in
  match l2 with
  | "/"%char :: r =>
      let (den, rest) := span_digits r in
      match den with
      | [] => Raise ValueError
      | _ => if only_spaces rest
             then Fraction_make (signed n) (int_of_digits den)
             else Raise ValueError
      end
  | _ =>
      let (dec, l3) := take_decimal l2 in
      let (ex, l4) := take_exponent l3 in
      if negb (only_spaces l4) then Raise ValueError else
      let '(n1, d1) :=
        match dec with
        | Some ((_ :: _) as dd) =>
            let scale := (10 ^ Z.of_nat (List.length dd))%Z in
            ((n * scale + int_of_digits dd)%Z, scale)
        | _ => (n, 1%Z)
        end in
      let '(n2, d2) :=
        match ex with
        | Some e => if (0 <=? e)%Z then ((n1 * 10 ^ e)%Z, d1)
                    else (n1, (d1 * 10 ^ (- e))%Z)
        | None => (n1, d1)
        end in
      Fraction_make (signed n2) d2
  end.
(** ** [unified_planning/io/pddl_reader.py]: the data it works on *)

Module Reader.
Import Types.

(** *** Tokens and parse trees *)

(** [CaseInsensitiveToken]: [_canonical] is [_name.lower()], set once by
    [__init__]. *)
Record CaseInsensitiveToken : Type := mkToken { _name : string }.

Definition _canonical (t : CaseInsensitiveToken) : string := lower (_name t).

(** [CaseInsensitiveToken.__eq__] against another token, and against a
    [str]. *)
Definition token_eqb (a b : CaseInsensitiveToken) : bool :=
  String.eqb (_canonical a) (_canonical b).
Definition token_eq_str (a : CaseInsensitiveToken) (other : string) : bool :=
  String.eqb (lower other) (_canonical a).

(** The module constant [Object]. *)
Definition Object : CaseInsensitiveToken := mkToken "object".

(** [CustomParseResults]: a leaf holds the token text ([value] is a [str]),
    an inner node the list of its children ([value] is a [ParseResults]);
    both keep [locn_start] and [locn_end]. *)
#[local] Unset Elimination Schemes.
Inductive CustomParseResults : Type :=
| Tok (locn : Span) (value : string)
| Lst (locn : Span) (value : list CustomParseResults).
#[local] Set Elimination Schemes.

Definition locn (e : CustomParseResults) : Span :=
  match e with Tok l _ => l | Lst l _ => l end.

(** [__len__]: [len(self.value)]. *)
Definition len (e : CustomParseResults) : nat :=
  match e with
  | Tok _ s => String.length s
  | Lst _ l => List.length l
  end.

(** [__getitem__]: [CustomParseResults(self.value[i])].  On a leaf
    [self.value[i]] is a character, which has no [value] attribute. *)
Definition getitem (e : CustomParseResults) (i : nat) : Result CustomParseResults :=
  match e with
  | Lst _ l => match nth_error l i with Some c => Ok c | None => Raise IndexError end
  | Tok _ s => if (i <? String.length s)%nat then Raise AttributeError else Raise IndexError
  end.

(** [e.value == s] for a string [s]: false when [e.value] is a list. *)
Definition value_is (e : CustomParseResults) (s : string) : bool :=
  match e with Tok _ v => String.eqb v s | Lst _ _ => false end.

(** [e.value] when it is a string. *)
Definition value_str (e : CustomParseResults) : option string :=
  match e with Tok _ v => Some v | Lst _ _ => None end.

(** The number of nodes of a tree. *)
Fixpoint size (e : CustomParseResults) : nat :=
  match e with
  | Tok _ _ => 1
  | Lst _ l => S (list_sum (map size l))
  end.

(** One group of a typed list, as the grammar's
    [Group(Located(Group(OneOrMore(variable)) + Optional(Suppress("-") + tpe)))]
    delivers it: [g.value[0]] are the names, [g.value[1]] the type when one
    is written. *)
Record ParamGroup : Type := mkGroup {
  g_locn : Span;
  g_names : list string;
  g_type : option CaseInsensitiveToken
}.

(** *** Dictionaries *)

(** A [dict] with string keys, in insertion order: [d[k] = v] keeps the
    position of a key that is already there. *)
Fixpoint dict_set {V} (d : list (string * V)) (k : string) (v : V) : list (string * V) :=
  match d with
  | [] => [(k, v)]
  | (k', v') :: d' =>
      if String.eqb k' k then (k', v) :: d' else (k', v') :: dict_set d' k v
  end.

Definition str_get {V} (d : list (string * V)) (k : string) : option V :=
  dict_get String.eqb d k.

(** [d.update(other)]. *)
Definition dict_update {V} (d other : list (string * V)) : list (string * V) :=
  fold_left (fun acc kv => dict_set acc (fst kv) (snd kv)) other d.

(** [TypesMap]: a [dict] keyed by [CaseInsensitiveToken]. *)
Definition TypesMap : Type := list (CaseInsensitiveToken * UPType).

Definition types_get (m : TypesMap) (k : CaseInsensitiveToken) : option UPType :=
  dict_get token_eqb m k.

Fixpoint types_set (m : TypesMap) (k : CaseInsensitiveToken) (v : UPType) : TypesMap :=
  match m with
  | [] => [(k, v)]
  | (k', v') :: m' =>
      if token_eqb k' k then (k', v) :: m' else (k', v') :: types_set m' k v
  end.

(** *** The model classes the reader fills *)

Definition list_eqb {A} (eqb : A -> A -> bool) : list A -> list A -> bool :=
  fix go (l l' : list A) : bool :=
    match l, l' with
    | [], [] => true
    | x :: r, y :: r' => eqb x y && go r r'
    | _, _ => false
    end.

Definition typed_eqb (a b : string * UPType) : bool :=
  String.eqb (fst a) (fst b) && UPType_eqb (snd a) (snd b).

(** [up.model.Fluent(name, type, params, env)]. *)
Record Fluent : Type := mkFluent {
  fluent_name : string;
  fluent_type : UPType;
  signature : list (string * UPType)
}.

Definition Fluent_eqb (a b : Fluent) : bool :=
  String.eqb (fluent_name a) (fluent_name b) &&
  UPType_eqb (fluent_type a) (fluent_type b) &&
  list_eqb typed_eqb (signature a) (signature b).

(** [up.model.Parameter], [up.model.Variable] and [up.model.Object]: a name
    and a type each. *)
Record UPParameter : Type := mkParameter { param_name : string; param_type : UPType }.
Record UPVariable : Type := mkVariable { var_name : string; var_type : UPType }.
Record ModelObject : Type := mkObject { obj_name : string; obj_type : UPType }.

Definition Parameter_eqb (a b : UPParameter) : bool :=
  String.eqb (param_name a) (param_name b) && UPType_eqb (param_type a) (param_type b).
Definition Variable_eqb (a b : UPVariable) : bool :=
  String.eqb (var_name a) (var_name b) && UPType_eqb (var_type a) (var_type b).
Definition ModelObject_eqb (a b : ModelObject) : bool :=
  String.eqb (obj_name a) (obj_name b) && UPType_eqb (obj_type a) (obj_type b).

(** The node kinds the reader asks the expression manager for: the entries
    of [_operators], of [_trajectory_constraints], and the two
    quantifiers. *)
Inductive OperatorKind : Type :=
| AND | OR | NOT | IMPLIES | GE | LE | GT | LT | EQUALS
| PLUS | MINUS | DIV | TIMES
| ALWAYS | SOMETIME | SOMETIME_BEFORE | SOMETIME_AFTER | AT_MOST_ONCE.

Inductive QuantifierKind : Type := EXISTS | FORALL.

Definition OperatorKind_eqb (a b : OperatorKind) : bool :=
  match a, b with
  | AND, AND | OR, OR | NOT, NOT | IMPLIES, IMPLIES | GE, GE | LE, LE
  | GT, GT | LT, LT | EQUALS, EQUALS | PLUS, PLUS | MINUS, MINUS | DIV, DIV
  | TIMES, TIMES | ALWAYS, ALWAYS | SOMETIME, SOMETIME
  | SOMETIME_BEFORE, SOMETIME_BEFORE | SOMETIME_AFTER, SOMETIME_AFTER
  | AT_MOST_ONCE, AT_MOST_ONCE => true
  | _, _ => false
  end.

Definition QuantifierKind_eqb (a b : QuantifierKind) : bool :=
  match a, b with
  | EXISTS, EXISTS | FORALL, FORALL => true
  | _, _ => false
  end.

(** [up.model.FNode].  The expression manager is used as a factory only:
    every call the reader makes to it ([And], [Int], [FluentExp], ...) is the
    node it asks for, applied to the arguments in the order the reader
    passes them.  The manager's own type checks and rewritings are outside
    this file. *)
#[local] Unset Elimination Schemes.
Inductive FNode : Type :=
| BoolConstant (b : bool)
| IntConstant (z : Z)
| RealConstant (q : Fraction)
| ParameterExp (p : UPParameter)
| VariableExp (v : UPVariable)
| ObjectExp (o : ModelObject)
| FluentExp (f : Fluent) (args : list FNode)
| Apply (op : OperatorKind) (args : list FNode)
| Quantified (q : QuantifierKind) (body : FNode) (vars : list UPVariable).
#[local] Set Elimination Schemes.

Definition TRUE : FNode := BoolConstant true.
Definition FALSE : FNode := BoolConstant false.

(** [FNode.__eq__] between two nodes. *)
Fixpoint FNode_eqb (a b : FNode) : bool :=
  match a, b with
  | BoolConstant x, BoolConstant y => Bool.eqb x y
  | IntConstant x, IntConstant y => (x =? y)%Z
  | RealConstant x, RealConstant y => Fraction_eqb x y
  | ParameterExp x, ParameterExp y => Parameter_eqb x y
  | VariableExp x, VariableExp y => Variable_eqb x y
  | ObjectExp x, ObjectExp y => ModelObject_eqb x y
  | FluentExp f l, FluentExp f' l' => Fluent_eqb f f' && list_eqb FNode_eqb l l'
  | Apply o l, Apply o' l' => OperatorKind_eqb o o' && list_eqb FNode_eqb l l'
  | Quantified q x vs, Quantified q' x' vs' =>
      QuantifierKind_eqb q q' && FNode_eqb x x' && list_eqb Variable_eqb vs vs'
  | _, _ => false
  end.

Definition is_true (e : FNode) : bool :=
  match e with BoolConstant true => true | _ => false end.
Definition is_false (e : FNode) : bool :=
  match e with BoolConstant false => true | _ => false end.
Definition is_int_constant (e : FNode) : bool :=
  match e with IntConstant _ => true | _ => false end.
Definition is_real_constant (e : FNode) : bool :=
  match e with RealConstant _ => true | _ => false end.
Definition is_fluent_exp (e : FNode) : bool :=
  match e with FluentExp _ _ => true | _ => false end.
Definition is_not (e : FNode) : bool :=
  match e with Apply NOT _ => true | _ => false end.
Definition is_equals (e : FNode) : bool :=
  match e with Apply EQUALS _ => true | _ => false end.

(** [e.arg(i)]. *)
Definition arg (e : FNode) (i : nat) : Result FNode :=
  let l := match e with
           | FluentExp _ l => l
           | Apply _ l => l
           | Quantified _ x _ => [x]
           | _ => []
           end in
  match nth_error l i with Some x => Ok x | None => Raise IndexError end.

(** [e.fluent()]: asserts [is_fluent_exp]. *)
Definition fluent_of (e : FNode) : Result Fluent :=
  match e with FluentExp f _ => Ok f | _ => Raise AssertionError end.

(** Modelled from the spec: [FNode.constant_value], of the class [FNode]
    whose source is not at hand; the accumulator must "start at exactly
    zero", so the value of a constant is the rational it denotes, and asking
    it of another node breaks the method's assertion. *)
Definition constant_value (e : FNode) : Result Fraction :=
  match e with
  | IntConstant z => Ok (mkFraction z 1)
  | RealConstant q => Ok q
  | BoolConstant b => Ok (mkFraction (if b then 1 else 0) 1)
  | _ => Raise AssertionError
  end.

(** Modelled from the spec: [FreeVarsExtractor.get], of the walkers whose
    source is not at hand: the fluent expressions that "appear in" an
    expression, at any depth. *)
Fixpoint fve_get (e : FNode) : list FNode :=
  match e with
  | FluentExp _ l => e :: flat_map fve_get l
  | Apply _ l => flat_map fve_get l
  | Quantified _ x _ => fve_get x
  | _ => []
  end.

(** [x in s] for an optional node [x]: [None] is in no set of nodes. *)
Definition occurs_in (x : option FNode) (s : list FNode) : bool :=
  match x with
  | Some t => existsb (FNode_eqb t) s
  | None => false
  end.

(** [e == x] for an optional node [x]. *)
Definition is_node (e : FNode) (x : option FNode) : bool :=
  match x with
  | Some t => FNode_eqb e t
  | None => false
  end.

(** *** Timings, intervals, effects *)

Inductive TimepointKind : Type := START | END.

(** Modelled from the spec: the timing vocabulary of
    [unified_planning.model.timing] (source not at hand): a timing is a
    delay from the start or the end of the action; an interval has two
    timings and is open or closed at either end. *)
Record Timing : Type := mkTiming { delay : Fraction; timepoint : TimepointKind }.

Definition StartTiming (d : Fraction) : Timing := mkTiming d START.
Definition EndTiming (d : Fraction) : Timing := mkTiming d END.
Definition zero : Fraction := mkFraction 0 1.

Record TimeInterval : Type := mkInterval {
  interval_lower : Timing;
  interval_upper : Timing;
  is_left_open : bool;
  is_right_open : bool
}.

Definition ClosedTimeInterval (l u : Timing) : TimeInterval := mkInterval l u false false.
Definition OpenTimeInterval (l u : Timing) : TimeInterval := mkInterval l u true true.
Definition TimePointInterval (t : Timing) : TimeInterval := mkInterval t t false false.

Definition Timing_eqb (a b : Timing) : bool :=
  Fraction_eqb (delay a) (delay b) &&
  match timepoint a, timepoint b with
  | START, START | END, END => true
  | _, _ => false
  end.

Definition TimeInterval_eqb (a b : TimeInterval) : bool :=
  Timing_eqb (interval_lower a) (interval_lower b) &&
  Timing_eqb (interval_upper a) (interval_upper b) &&
  Bool.eqb (is_left_open a) (is_left_open b) &&
  Bool.eqb (is_right_open a) (is_right_open b).

(** Modelled from the spec: duration constraints ("fixed value or closed
    interval"), of [unified_planning.model.timing]. *)
Record DurationInterval : Type := mkDuration {
  duration_lower : FNode;
  duration_upper : FNode;
  duration_left_open : bool;
  duration_right_open : bool
}.

Definition ClosedDurationInterval (l u : FNode) : DurationInterval :=
  mkDuration l u false false.
Definition FixedDuration (v : FNode) : DurationInterval :=
  mkDuration v v false false.

Inductive EffectKind : Type := ASSIGN | INCREASE | DECREASE.

(** [up.model.Effect]: the fields the reader reads back. *)
Record Effect : Type := mkEffect {
  fluent : FNode;
  value : FNode;
  condition : FNode;
  kind : EffectKind
}.

Definition is_increase (e : Effect) : bool :=
  match kind e with INCREASE => true | _ => false end.

Definition Effect_eqb (a b : Effect) : bool :=
  FNode_eqb (fluent a) (fluent b) && FNode_eqb (value a) (value b) &&
  FNode_eqb (condition a) (condition b) &&
  match kind a, kind b with
  | ASSIGN, ASSIGN | INCREASE, INCREASE | DECREASE, DECREASE => true
  | _, _ => false
  end.

(** [l.remove(x)]: drops the first element equal to [x]; [ValueError] when
    there is none. *)
Fixpoint list_remove {A} (eqb : A -> A -> bool) (x : A) (l : list A) : Result (list A) :=
  match l with
  | [] => Raise ValueError
  | y :: r => if eqb y x then Ok r else r' <- list_remove eqb x r ;; Ok (y :: r')
  end.

(** *** Actions *)

(** [InstantaneousAction]; [observed_fluents] is [Some] for its subclass
    [SensingAction]. *)
Record InstantaneousAction : Type := mkInstantaneous {
  ia_name : string;
  ia_parameters : list (string * UPType);
  preconditions : list FNode;
  effects : list Effect;
  observed_fluents : option (list FNode)
}.

Record DurativeAction : Type := mkDurative {
  da_name : string;
  da_parameters : list (string * UPType);
  duration : DurationInterval;
  conditions : list (TimeInterval * list FNode);
  timed_effects_of : list (Timing * list Effect)
}.

Inductive Action : Type :=
| Instantaneous (a : InstantaneousAction)
| Durative (a : DurativeAction).

Definition action_name (a : Action) : string :=
  match a with Instantaneous i => ia_name i | Durative d => da_name d end.

Definition action_parameters (a : Action) : list (string * UPType) :=
  match a with Instantaneous i => ia_parameters i | Durative d => da_parameters d end.

(** [act.parameter(name)]: the lookup in the action's ordered dictionary of
    parameters, whose [KeyError] the reader catches. *)
Definition parameter (a : Action) (n : string) : Result UPParameter :=
  match str_get (action_parameters a) n with
  | Some t => Ok (mkParameter n t)
  | None => Raise KeyError
  end.

(** [InstantaneousAction(n, params, env)], [SensingAction(n, params, env)]
    and [DurativeAction(n, params, env)]. *)
Definition new_InstantaneousAction (n : string) (ps : list (string * UPType)) : InstantaneousAction :=
  mkInstantaneous n ps [] [] None.
Definition new_SensingAction (n : string) (ps : list (string * UPType)) : InstantaneousAction :=
  mkInstantaneous n ps [] [] (Some []).
Definition new_DurativeAction (n : string) (ps : list (string * UPType)) : DurativeAction :=
  mkDurative n ps (FixedDuration (IntConstant 0)) [] [].

(** Modelled from the spec: [add_precondition], of the action classes
    (source not at hand): "a true precondition" leaves "an empty
    precondition"; any other one is appended. *)
Definition add_precondition (a : InstantaneousAction) (c : FNode) : InstantaneousAction :=
  if is_true c then a
  else mkInstantaneous (ia_name a) (ia_parameters a) (preconditions a ++ [c])
         (effects a) (observed_fluents a).

Definition add_observed_fluent (a : InstantaneousAction) (c : FNode) : InstantaneousAction :=
  mkInstantaneous (ia_name a) (ia_parameters a) (preconditions a) (effects a)
    (match observed_fluents a with Some l => Some (l ++ [c]) | None => Some [c] end).

Definition set_effects (a : InstantaneousAction) (es : list Effect) : InstantaneousAction :=
  mkInstantaneous (ia_name a) (ia_parameters a) (preconditions a) es (observed_fluents a).

(** A dictionary of lists: append [v] to the list under [k], creating it
    when the key is new. *)
Fixpoint multi_add {K V} (eqb : K -> K -> bool) (d : list (K * list V)) (k : K) (v : V)
  : list (K * list V) :=
  match d with
  | [] => [(k, [v])]
  | (k', l) :: d' =>
      if eqb k' k then (k', l ++ [v]) :: d' else (k', l) :: multi_add eqb d' k v
  end.

(** Modelled from the spec: [DurativeAction.add_condition] (source not at
    hand): the durative action holds "a timing-indexed map of conditions";
    a condition given at a timing is held at the interval made of that one
    point. *)
Definition add_condition (a : DurativeAction) (i : TimeInterval) (c : FNode) : DurativeAction :=
  mkDurative (da_name a) (da_parameters a) (duration a)
    (multi_add TimeInterval_eqb (conditions a) i c) (timed_effects_of a).

Definition set_duration_constraint (a : DurativeAction) (d : DurationInterval) : DurativeAction :=
  mkDurative (da_name a) (da_parameters a) d (conditions a) (timed_effects_of a).

Definition set_fixed_duration (a : DurativeAction) (v : FNode) : DurativeAction :=
  set_duration_constraint a (FixedDuration v).

(** Modelled from the spec: [add_effect], [add_increase_effect] and
    [add_decrease_effect] of the action classes (source not at hand):
    effects are "plain or timed"; the instantaneous action takes (fluent,
    value, condition), the durative one a timing before them, and a call of
    the other shape does not fit the method's parameters. *)
Definition add_effect_kind (k : EffectKind) (a : Action) (timing : option Timing)
  (f v c : FNode) : Result Action :=
  match a, timing with
  | Instantaneous i, None =>
      Ok (Instantaneous (set_effects i (effects i ++ [mkEffect f v c k])))
  | Durative d, Some t =>
      Ok (Durative (mkDurative (da_name d) (da_parameters d) (duration d) (conditions d)
                      (multi_add Timing_eqb (timed_effects_of d) t (mkEffect f v c k))))
  | _, _ => Raise TypeError
  end.

(** *** The problem *)

Inductive ProblemClass : Type := Classical | Hierarchical | Contingent.

Inductive QualityMetric : Type :=
| MinimizeMakespan
| MinimizeSequentialPlanLength
| MinimizeActionCosts (costs : list (string * FNode)) (default : FNode)
| MinimizeExpressionOnFinalState (e : FNode)
| MaximizeExpressionOnFinalState (e : FNode).

(** Modelled from the spec: the problem container ([up.model.Problem] and
    its subclasses, source not at hand), "consumed as builder interfaces
    that the front-end populates": the collections the reader adds to and
    reads back, each in insertion order.  The container's own refusals (a
    name used twice, an ill-typed value) are outside this file. *)
Record Problem : Type := mkProblem {
  problem_class : ProblemClass;
  problem_name : string;
  fluents : list Fluent;
  objects_all : list ModelObject;
  actions : list Action;
  user_types : list UPType;
  initial_value_dict : list (FNode * FNode);
  timed_effects : list (Timing * list Effect);
  goals : list FNode;
  trajectory_constraints : list FNode;
  quality_metrics : list QualityMetric;
  oneof_constraints : list (list FNode);
  or_constraints : list (list FNode);
  unknown_constraints : list FNode
}.

Definition new_Problem (c : ProblemClass) (n : string) : Problem :=
  mkProblem c n [] [] [] [] [] [] [] [] [] [] [] [].

Definition has_fluent (P : Problem) (n : string) : bool :=
  existsb (fun f => String.eqb (fluent_name f) n) (fluents P).

Definition find_fluent (P : Problem) (n : string) : Result Fluent :=
  match find (fun f => String.eqb (fluent_name f) n) (fluents P) with
  | Some f => Ok f
  | None => Raise ValueError
  end.

Definition has_object (P : Problem) (n : string) : bool :=
  existsb (fun o => String.eqb (obj_name o) n) (objects_all P).

Definition find_object (P : Problem) (n : string) : Result ModelObject :=
  match find (fun o => String.eqb (obj_name o) n) (objects_all P) with
  | Some o => Ok o
  | None => Raise ValueError
  end.

(** [t] is [u] or one of its descendants. *)
Fixpoint is_subtype (t u : UPType) : bool :=
  UPType_eqb t u ||
  match t with
  | UserT _ (Some f) => is_subtype f u
  | _ => false
  end.

(** Modelled from the spec: [problem.objects(t)], "all the objects of that
    type": the objects whose type is [t] or descends from it, in the order
    they were added. *)
Definition objects (P : Problem) (t : UPType) : list ModelObject :=
  filter (fun o => is_subtype (obj_type o) t) (objects_all P).

Definition update_problem
  (P : Problem)
  (fl : list Fluent) (ob : list ModelObject) (ac : list Action) (ut : list UPType)
  (iv : list (FNode * FNode)) (te : list (Timing * list Effect)) (go : list FNode)
  (tc : list FNode) (qm : list QualityMetric) : Problem :=
  mkProblem (problem_class P) (problem_name P) fl ob ac ut iv te go tc qm
    (oneof_constraints P) (or_constraints P) (unknown_constraints P).

Definition add_fluent (P : Problem) (f : Fluent) : Problem :=
  update_problem P (fluents P ++ [f]) (objects_all P) (actions P) (user_types P)
    (initial_value_dict P) (timed_effects P) (goals P) (trajectory_constraints P)
    (quality_metrics P).

Definition add_object (P : Problem) (o : ModelObject) : Problem :=
  update_problem P (fluents P) (objects_all P ++ [o]) (actions P) (user_types P)
    (initial_value_dict P) (timed_effects P) (goals P) (trajectory_constraints P)
    (quality_metrics P).

Definition add_action (P : Problem) (a : Action) : Problem :=
  update_problem P (fluents P) (objects_all P) (actions P ++ [a]) (user_types P)
    (initial_value_dict P) (timed_effects P) (goals P) (trajectory_constraints P)
    (quality_metrics P).

Definition set_actions (P : Problem) (l : list Action) : Problem :=
  update_problem P (fluents P) (objects_all P) l (user_types P)
    (initial_value_dict P) (timed_effects P) (goals P) (trajectory_constraints P)
    (quality_metrics P).

Definition _add_user_type (P : Problem) (t : UPType) : Problem :=
  update_problem P (fluents P) (objects_all P) (actions P)
    (if existsb (UPType_eqb t) (user_types P) then user_types P else user_types P ++ [t])
    (initial_value_dict P) (timed_effects P) (goals P) (trajectory_constraints P)
    (quality_metrics P).

Fixpoint node_dict_set (d : list (FNode * FNode)) (k v : FNode) : list (FNode * FNode) :=
  match d with
  | [] => [(k, v)]
  | (k', v') :: d' =>
      if FNode_eqb k' k then (k', v) :: d' else (k', v') :: node_dict_set d' k v
  end.

Definition set_initial_value (P : Problem) (f v : FNode) : Problem :=
  update_problem P (fluents P) (objects_all P) (actions P) (user_types P)
    (node_dict_set (initial_value_dict P) f v) (timed_effects P) (goals P)
    (trajectory_constraints P) (quality_metrics P).

Definition add_timed_effect (P : Problem) (t : Timing) (f v : FNode) : Problem :=
  update_problem P (fluents P) (objects_all P) (actions P) (user_types P)
    (initial_value_dict P)
    (multi_add Timing_eqb (timed_effects P) t (mkEffect f v TRUE ASSIGN))
    (goals P) (trajectory_constraints P) (quality_metrics P).

Definition add_goal (P : Problem) (g : FNode) : Problem :=
  update_problem P (fluents P) (objects_all P) (actions P) (user_types P)
    (initial_value_dict P) (timed_effects P) (goals P ++ [g])
    (trajectory_constraints P) (quality_metrics P).

Definition add_trajectory_constraint (P : Problem) (g : FNode) : Problem :=
  update_problem P (fluents P) (objects_all P) (actions P) (user_types P)
    (initial_value_dict P) (timed_effects P) (goals P)
    (trajectory_constraints P ++ [g]) (quality_metrics P).

Definition add_quality_metric (P : Problem) (m : QualityMetric) : Problem :=
  update_problem P (fluents P) (objects_all P) (actions P) (user_types P)
    (initial_value_dict P) (timed_effects P) (goals P)
    (trajectory_constraints P) (quality_metrics P ++ [m]).

(** Modelled from the spec: [problem.initial_value(f)]: the value set for
    [f]; the reader gives a default to Boolean fluents only
    ([initial_defaults={BoolType: FALSE}]), so a numeric fluent without a
    value has none to return. *)
Definition initial_value (P : Problem) (f : FNode) : Result FNode :=
  match dict_get FNode_eqb (initial_value_dict P) f with
  | Some v => Ok v
  | None =>
      match f with
      | FluentExp fl _ => if is_bool_type (fluent_type fl) then Ok FALSE
                          else Raise UPProblemDefinitionError
      | _ => Raise UPProblemDefinitionError
      end
  end.

(** [problem.instantaneous_actions] and [problem.durative_actions]. *)
Definition instantaneous_actions (P : Problem) : list InstantaneousAction :=
  flat_map (fun a => match a with Instantaneous i => [i] | _ => [] end) (actions P).
Definition durative_actions (P : Problem) : list DurativeAction :=
  flat_map (fun a => match a with Durative d => [d] | _ => [] end) (actions P).

(** *** The reader object *)

(** [PDDLReader]: the attributes its methods use.  Four of them hold
    behaviour of libraries the reader calls, and stay parameters of the
    embedding.  [_pp_parameters s] stands for
    [self._pp_parameters.parseString(s)["params"]], the groups pyparsing
    reads off a typed list given as text ([None] when the result holds no
    such key, a [KeyError]).  [_simplify] stands for [FNode.simplify] of the
    environment's simplifier.  [_em_accepts f args] tells whether the call
    [self._em.FluentExp(f, args)] that [_parse_exp] makes inside a [try]
    returns, with the node [FluentExp f args], or raises; everywhere else
    the reader calls the manager without catching anything, and the
    manager is read as a factory whose nodes are the constructors of
    [FNode].  [_node_differs e n] stands for [e != n], the comparison that
    the class [FNode] defines between a node and a Python integer.
    [_totalcost] is the attribute that [_parse_problem] sets when it meets
    the function [total-cost]. *)
Record PDDLReader : Type := mkReader {
  _pp_parameters : string -> option (list ParamGroup);
  _simplify : FNode -> FNode;
  _em_accepts : Fluent -> list FNode -> bool;
  _node_differs : FNode -> Z -> bool;
  _totalcost : option FNode
}.

(** [self._pp_parameters.parseString(s)["params"]]. *)
Definition params_of (self : PDDLReader) (s : string) : Result (list ParamGroup) :=
  match _pp_parameters self s with
  | Some groups => Ok groups
  | None => Raise KeyError
  end.

Definition set_totalcost (self : PDDLReader) (tc : option FNode) : PDDLReader :=
  mkReader (_pp_parameters self) (_simplify self) (_em_accepts self) (_node_differs self) tc.

(** ** [PDDLReader._parse_exp] *)

(** The table [self._operators]. *)
Definition _operators (s : string) : option OperatorKind :=
  if String.eqb s "and" then Some AND
  else if String.eqb s "or" then Some OR
  else if String.eqb s "not" then Some NOT
  else if String.eqb s "imply" then Some IMPLIES
  else if String.eqb s ">=" then Some GE
  else if String.eqb s "<=" then Some LE
  else if String.eqb s ">" then Some GT
  else if String.eqb s "<" then Some LT
  else if String.eqb s "=" then Some EQUALS
  else if String.eqb s "+" then Some PLUS
  else if String.eqb s "-" then Some MINUS
  else if String.eqb s "/" then Some DIV
  else if String.eqb s "*" then Some TIMES
  else None.

(** The table [self._trajectory_constraints]. *)
Definition _trajectory_constraints (s : string) : option OperatorKind :=
  if String.eqb s "always" then Some ALWAYS
  else if String.eqb s "sometime" then Some SOMETIME
  else if String.eqb s "sometime-before" then Some SOMETIME_BEFORE
  else if String.eqb s "sometime-after" then Some SOMETIME_AFTER
  else if String.eqb s "at-most-once" then Some AT_MOST_ONCE
  else None.

(** [exp[0].value in ["exists", "forall"]], with the manager's constructor. *)
Definition quantifier_of (s : string) : option QuantifierKind :=
  if String.eqb s "exists" then Some EXISTS
  else if String.eqb s "forall" then Some FORALL
  else None.

(** A lookup keyed by [exp[0].value], which finds nothing when that value is
    a list and not a string. *)
Definition by_head {A} (table : string -> option A) (h : option string) : option A :=
  match h with Some s => table s | None => None end.

Definition head_is (h : option string) (s : string) : bool :=
  match h with Some v => String.eqb v s | None => false end.

Definition head_has_fluent (P : Problem) (h : option string) : bool :=
  match h with Some v => has_fluent P v | None => false end.

Definition head_assignment (asg : list (string * ModelObject)) (h : option string)
  : option ModelObject :=
  match h with Some v => str_get asg v | None => None end.

(** [[e.value for e in exp]] followed by [" ".join]: iterating a leaf
    builds a [CustomParseResults] from a character and fails; a child that
    is a list cannot be joined. *)
Definition joined_values (e : CustomParseResults) : Result string :=
  match e with
  | Tok _ EmptyString => Ok ""
  | Tok _ _ => Raise AttributeError
  | Lst _ l =>
      if forallb (fun c => match c with Tok _ _ => true | Lst _ _ => false end) l
      then Ok (join_space (flat_map (fun c => match value_str c with
                                              | Some s => [s] | None => [] end) l))
      else Raise TypeError
  end.

(** [types_map[g.value[1] if len(g.value) > 1 else Object]]. *)
Definition group_type (types_map : TypesMap) (g : ParamGroup) : option UPType :=
  types_get types_map (match g_type g with Some t => t | None => Object end).

(** The loop [for g in vars_res["params"]] of a quantifier: it fills a
    dictionary of variables, and turns the [KeyError] of an unknown type
    into a [SyntaxError]. *)
Fixpoint bind_variables (types_map : TypesMap) (groups : list ParamGroup)
  (vars : list (string * UPVariable)) : Result (list (string * UPVariable)) :=
  match groups with
  | [] => Ok vars
  | g :: rest =>
      match group_type types_map g with
      | None => Raise (SyntaxError UndefinedType (Some (g_locn g)))
      | Some t =>
          bind_variables types_map rest
            (fold_left (fun acc o => dict_set acc o (mkVariable o t)) (g_names g) vars)
      end
  end.

(** An entry of [stack]: [(var, exp, status)]. *)
Definition Frame : Type := (list (string * UPVariable) * CustomParseResults * bool)%type.

(** [[solved.pop() for _ in range(1, len(exp))]]: [solved] is kept with its
    last element first, so the popped values are its first [n]. *)
Definition pop_n (n : nat) (solved : list FNode) : Result (list FNode * list FNode) :=
  if (n <=? List.length solved)%nat then Ok (firstn n solved, skipn n solved)
  else Raise IndexError.

(** The branch [if status:] of the loop: the children of [exp] are solved,
    and the node for [exp] replaces them on [solved].  For a fluent the
    manager's [FluentExp] sits in a [try], and whatever it raises becomes a
    [SyntaxError] that carries the span of [exp]. *)
Definition combine (self : PDDLReader) (P : Problem) (asg : list (string * ModelObject))
  (var : list (string * UPVariable)) (exp : CustomParseResults) (solved : list FNode)
  : Result (list FNode) :=
  e0 <- getitem exp 0 ;;
  let h := value_str e0 in
  if head_is h "-" && (len exp =? 2)%nat then
    ' (xs, rest) <- pop_n 1 solved ;;
    Ok (Apply TIMES (IntConstant (-1) :: xs) :: rest)
  else match by_head _operators h with
  | Some op =>
      ' (xs, rest) <- pop_n (len exp - 1) solved ;;
      Ok (Apply op xs :: rest)
  | None =>
  match by_head quantifier_of h with
  | Some q =>
      ' (xs, rest) <- pop_n 1 solved ;;
      match xs with
      | x :: _ => Ok (Quantified q x (map snd var) :: rest)
      | [] => Raise IndexError
      end
  | None =>
  match by_head _trajectory_constraints h with
  | Some op =>
      ' (xs, rest) <- pop_n (len exp - 1) solved ;;
      Ok (Apply op xs :: rest)
  | None =>
  if head_has_fluent P h then
    f <- find_fluent P (match h with Some v => v | None => "" end) ;;
    ' (xs, rest) <- pop_n (len exp - 1) solved ;;
    if _em_accepts self f xs then Ok (FluentExp f xs :: rest)
    else Raise (SyntaxError FluentExpError (Some (locn exp)))
  else match head_assignment asg h with
  | Some o =>
      if (len exp =? 1)%nat then Ok (ObjectExp o :: solved) else Raise AssertionError
  | None => Raise (UPUnreachableCodeError (locn exp))
  end end end end.

(** The branch for a leaf, [isinstance(exp.value, str)]. *)
Definition resolve_token (P : Problem) (act : option Action)
  (asg : list (string * ModelObject)) (var : list (string * UPVariable))
  (span : Span) (tok : string) : Result FNode :=
  match tok with
  | EmptyString => Raise IndexError
  | String c rest =>
      match (if Ascii.eqb c "?" then str_get var rest else None) with
      | Some v => Ok (VariableExp v)
      | None =>
      match str_get asg tok with
      | Some o => Ok (ObjectExp o)
      | None =>
      if Ascii.eqb c "?" then
        match act with
        | None => Raise AssertionError
        | Some a =>
            match parameter a rest with
            | Ok p => Ok (ParameterExp p)
            | Raise KeyError => Raise (SyntaxError (UndefinedName rest) (Some span))
            | Raise e => Raise e
            | OutOfFuel => OutOfFuel
            end
        end
      else if has_fluent P tok then
        f <- find_fluent P tok ;; Ok (FluentExp f [])
      else if has_object P tok then
        o <- find_object P tok ;; Ok (ObjectExp o)
      else
        match Fraction_of_string tok with
        | Ok n => if (denominator n =? 1)%Z then Ok (IntConstant (numerator n))
                  else Ok (RealConstant n)
        | Raise ValueError => Raise (SyntaxError InvalidExpression (Some span))
        | Raise e => Raise e
        | OutOfFuel => OutOfFuel
        end
      end end
  end.

(** The branch for an inner node, [isinstance(exp.value, ParseResults)]: the
    frames it pushes, in the order of the [stack.append] calls, and the node
    it appends to [solved] when it does. *)
Definition descend (self : PDDLReader) (P : Problem) (types_map : TypesMap)
  (asg : list (string * ModelObject)) (var : list (string * UPVariable))
  (exp : CustomParseResults) (children : list CustomParseResults)
  : Result (list Frame * option FNode) :=
  match children with
  | [] => Ok ([], Some TRUE)
  | e0 :: others =>
      let h := value_str e0 in
      let all_children := (var, exp, true) :: map (fun c => (var, c, false)) others in
      if head_is h "-" && (len exp =? 2)%nat then
        e1 <- getitem exp 1 ;;
        Ok ([(var, exp, true); (var, e1, false)], None)
      else match by_head _operators h with
      | Some _ => Ok (all_children, None)
      | None =>
      match by_head quantifier_of h with
      | Some _ =>
          e1 <- getitem exp 1 ;;
          vars_string <- joined_values e1 ;;
          groups <- params_of self vars_string ;;
          new_vars <- bind_variables types_map groups [] ;;
          e2 <- getitem exp 2 ;;
          Ok ([(new_vars, exp, true); (dict_update var new_vars, e2, false)], None)
      | None =>
      match by_head _trajectory_constraints h with
      | Some _ => Ok (all_children, None)
      | None =>
      if head_has_fluent P h then Ok (all_children, None)
      else match head_assignment asg h with
      | Some _ =>
          if (len exp =? 1)%nat then Ok ([(var, exp, true)], None)
          else Raise AssertionError
      | None =>
          if (len exp =? 1)%nat then Ok ([(var, e0, false)], None)
          else Raise (SyntaxError NotAbleToHandle (Some (locn exp)))
      end end end end
  end.

(** The body of [while len(stack) > 0], once for each unit of [fuel], and
    the two statements after the loop.  [stack] and [solved] are kept with
    their last element first. *)
Fixpoint parse_loop (self : PDDLReader) (P : Problem) (act : option Action)
  (types_map : TypesMap) (asg : list (string * ModelObject))
  (fuel : nat) (stack : list Frame) (solved : list FNode) : Result FNode :=
  match stack with
  | [] =>
      match solved with
      | [x] => Ok x
      | _ => Raise AssertionError
      end
  | (var, exp, status) :: stack' =>
      match fuel with
      | O => OutOfFuel
      | S fuel' =>
          if status then
            solved' <- combine self P asg var exp solved ;;
            parse_loop self P act types_map asg fuel' stack' solved'
          else
            match exp with
            | Lst _ children =>
                ' (pushed, out) <- descend self P types_map asg var exp children ;;
                parse_loop self P act types_map asg fuel' (rev pushed ++ stack')
                  (match out with Some x => x :: solved | None => solved end)
            | Tok span tok =>
                x <- resolve_token P act asg var span tok ;;
                parse_loop self P act types_map asg fuel' stack' (x :: solved)
            end
      end
  end.

(** [_parse_exp]: an inner node costs two turns of the loop and a leaf one,
    so twice the size of [exp] bounds their number. *)
Definition _parse_exp (self : PDDLReader) (P : Problem) (act : option Action)
  (types_map : TypesMap) (var : list (string * UPVariable))
  (exp : CustomParseResults) (assignments : list (string * ModelObject))
  : Result FNode :=
  parse_loop self P act types_map assignments (2 * size exp) [(var, exp, false)] [].

(** ** Effects and conditions *)

(** [universal_assignments]: the quantified effects kept for later, under
    the action that owns them.  The action is named by its position in
    [problem.actions], which is where [problem.add_action] puts it once its
    effects are read. *)
Definition UniversalAssignments : Type := list (nat * list CustomParseResults).

(** [universal_assignments.setdefault(act, []).append(exp)]. *)
Definition record_universal (ua : UniversalAssignments) (key : nat)
  (exp : CustomParseResults) : UniversalAssignments :=
  multi_add Nat.eqb ua key exp.

(** [exp[1]], [exp[2]], ... of an inner node. *)
Definition tail_children (exp : CustomParseResults) : list CustomParseResults :=
  match exp with
  | Lst _ (_ :: r) => r
  | _ => []
  end.

(** The body of [while to_add] in [_add_effect], once for each unit of
    [fuel]. *)
Fixpoint add_effect_loop (self : PDDLReader) (P : Problem) (key : nat)
  (types_map : TypesMap) (timing : option Timing) (asg : list (string * ModelObject))
  (fuel : nat) (to_add : list (CustomParseResults * FNode))
  (act : Action) (ua : option UniversalAssignments)
  : Result (Action * option UniversalAssignments) :=
  match to_add with
  | [] => Ok (act, ua)
  | (exp, cond) :: rest =>
      match fuel with
      | O => OutOfFuel
      | S fuel' =>
          let continue_with q a u :=
            add_effect_loop self P key types_map timing asg fuel' q a u in
          let compile e := _parse_exp self P (Some act) types_map [] e asg in
          if (len exp =? 0)%nat then continue_with rest act ua else
          e0 <- getitem exp 0 ;;
          let op := value_str e0 in
          if head_is op "and" then
            continue_with (rest ++ map (fun c => (c, cond)) (tail_children exp)) act ua
          else if head_is op "when" then
            e1 <- getitem exp 1 ;;
            c <- compile e1 ;;
            let c' := _simplify self c in
            if is_false c' then continue_with rest act ua
            else e2 <- getitem exp 2 ;; continue_with (rest ++ [(e2, c')]) act ua
          else if head_is op "not" then
            e1 <- getitem exp 1 ;;
            f <- compile e1 ;;
            act' <- add_effect_kind ASSIGN act timing f FALSE cond ;;
            continue_with rest act' ua
          else if head_is op "assign" then
            e1 <- getitem exp 1 ;;
            f <- compile e1 ;;
            e2 <- getitem exp 2 ;;
            v <- compile e2 ;;
            act' <- add_effect_kind ASSIGN act timing f v cond ;;
            continue_with rest act' ua
          else if head_is op "increase" then
            e1 <- getitem exp 1 ;;
            f <- compile e1 ;;
            e2 <- getitem exp 2 ;;
            v <- compile e2 ;;
            act' <- add_effect_kind INCREASE act timing f v cond ;;
            continue_with rest act' ua
          else if head_is op "decrease" then
            e1 <- getitem exp 1 ;;
            f <- compile e1 ;;
            e2 <- getitem exp 2 ;;
            v <- compile e2 ;;
            act' <- add_effect_kind DECREASE act timing f v cond ;;
            continue_with rest act' ua
          else if head_is op "forall" then
            match ua with
            | None => Raise AssertionError
            | Some u => continue_with rest act (Some (record_universal u key exp))
            end
          else
            f <- compile exp ;;
            act' <- add_effect_kind ASSIGN act timing f TRUE cond ;;
            continue_with rest act' ua
      end
  end.

(** [_add_effect].  Every turn of its loop takes one tree off [to_add] and
    puts back trees that are parts of it, so the size of [exp] bounds the
    number of turns that take a non-empty tree; an empty one has size 1. *)
Definition _add_effect (self : PDDLReader) (P : Problem) (key : nat) (act : Action)
  (types_map : TypesMap) (ua : option UniversalAssignments)
  (exp : CustomParseResults) (cond : FNode) (timing : option Timing)
  (assignments : list (string * ModelObject))
  : Result (Action * option UniversalAssignments) :=
  add_effect_loop self P key types_map timing assignments (size exp) [(exp, cond)] act ua.

(** The dictionaries of variables that [_add_condition] creates live in a
    store, and an entry of [to_add] holds the place of its dictionary in
    it: the entries queued under one [forall] share one dictionary, which a
    [forall] met later in the same scope updates for all of them. *)
Definition VarStore : Type := list (list (string * UPVariable)).

Definition store_get (s : VarStore) (r : option nat) : list (string * UPVariable) :=
  match r with
  | Some i => nth i s []
  | None => []
  end.

Fixpoint store_set (s : VarStore) (i : nat) (d : list (string * UPVariable)) : VarStore :=
  match s, i with
  | [], _ => []
  | _ :: r, O => d :: r
  | x :: r, S j => x :: store_set r j d
  end.

(** [cond = self._em.Forall(cond, *vars.values())] when [vars] is not
    [None]. *)
Definition close_over (s : VarStore) (r : option nat) (c : FNode) : FNode :=
  match r with
  | Some _ => Quantified FORALL c (map snd (store_get s r))
  | None => c
  end.

(** The body of [while to_add] in [_add_condition]. *)
Fixpoint add_condition_loop (self : PDDLReader) (P : Problem) (types_map : TypesMap)
  (fuel : nat) (to_add : list (CustomParseResults * option nat))
  (store : VarStore) (act : DurativeAction) : Result DurativeAction :=
  match to_add with
  | [] => Ok act
  | (exp, vars) :: rest =>
      match fuel with
      | O => OutOfFuel
      | S fuel' =>
          let continue_with q s a :=
            add_condition_loop self P types_map fuel' q s a in
          let compile e :=
            _parse_exp self P (Some (Durative act)) types_map (store_get store vars) e [] in
          let timed (tag : string) : Result bool :=
            if (len exp =? 3)%nat then e1 <- getitem exp 1 ;; Ok (value_is e1 tag)
            else Ok false in
          e0 <- getitem exp 0 ;;
          let op := value_str e0 in
          if head_is op "and" then
            continue_with (rest ++ map (fun c => (c, vars)) (tail_children exp)) store act
          else if head_is op "forall" then
            e1 <- getitem exp 1 ;;
            vars_string <- joined_values e1 ;;
            groups <- params_of self vars_string ;;
            let '(r, store1) :=
              match vars with
              | Some i => (i, store)
              | None => (List.length store, store ++ [[]])
              end in
            d <- bind_variables types_map groups (nth r store1 []) ;;
            e2 <- getitem exp 2 ;;
            continue_with (rest ++ [(e2, Some r)]) (store_set store1 r d) act
          else
          at_start <- (if head_is op "at" then timed "start" else Ok false) ;;
          if at_start then
            e2 <- getitem exp 2 ;;
            c <- compile e2 ;;
            continue_with rest store
              (add_condition act (TimePointInterval (StartTiming zero)) (close_over store vars c))
          else
          at_end <- (if head_is op "at" then timed "end" else Ok false) ;;
          if at_end then
            e2 <- getitem exp 2 ;;
            c <- compile e2 ;;
            continue_with rest store
              (add_condition act (TimePointInterval (EndTiming zero)) (close_over store vars c))
          else
          over_all <- (if head_is op "over" then timed "all" else Ok false) ;;
          if over_all then
            let t_all := OpenTimeInterval (StartTiming zero) (EndTiming zero) in
            e2 <- getitem exp 2 ;;
            c <- compile e2 ;;
            continue_with rest store (add_condition act t_all (close_over store vars c))
          else Raise (SyntaxError NotAbleToHandle (Some (locn exp)))
      end
  end.

(** [_add_condition], called with [vars=None]. *)
Definition _add_condition (self : PDDLReader) (P : Problem) (act : DurativeAction)
  (exp : CustomParseResults) (types_map : TypesMap) : Result DurativeAction :=
  add_condition_loop self P types_map (size exp) [(exp, None)] [] act.

(** The body of [while to_add] in [_add_timed_effects]. *)
Fixpoint add_timed_effects_loop (self : PDDLReader) (P : Problem) (key : nat)
  (types_map : TypesMap) (asg : list (string * ModelObject))
  (fuel : nat) (to_add : list CustomParseResults)
  (act : Action) (ua : option UniversalAssignments)
  : Result (Action * option UniversalAssignments) :=
  match to_add with
  | [] => Ok (act, ua)
  | eff :: rest =>
      match fuel with
      | O => OutOfFuel
      | S fuel' =>
          let continue_with q a u :=
            add_timed_effects_loop self P key types_map asg fuel' q a u in
          let timed (tag : string) : Result bool :=
            if (len eff =? 3)%nat then e1 <- getitem eff 1 ;; Ok (value_is e1 tag)
            else Ok false in
          e0 <- getitem eff 0 ;;
          let op := value_str e0 in
          if head_is op "and" then
            continue_with (rest ++ tail_children eff) act ua
          else
          at_start <- (if head_is op "at" then timed "start" else Ok false) ;;
          if at_start then
            e2 <- getitem eff 2 ;;
            ' (act', ua') <- _add_effect self P key act types_map ua e2 TRUE
                               (Some (StartTiming zero)) asg ;;
            continue_with rest act' ua'
          else
          at_end <- (if head_is op "at" then timed "end" else Ok false) ;;
          if at_end then
            e2 <- getitem eff 2 ;;
            ' (act', ua') <- _add_effect self P key act types_map ua e2 TRUE
                               (Some (EndTiming zero)) asg ;;
            continue_with rest act' ua'
          else if (len eff =? 3)%nat && head_is op "forall" then
            match ua with
            | None => Raise AssertionError
            | Some u => continue_with rest act (Some (record_universal u key eff))
            end
          else Raise (SyntaxError NotAbleToHandle (Some (locn eff)))
      end
  end.

Definition _add_timed_effects (self : PDDLReader) (P : Problem) (key : nat) (act : Action)
  (types_map : TypesMap) (ua : option UniversalAssignments)
  (eff : CustomParseResults) (assignments : list (string * ModelObject))
  : Result (Action * option UniversalAssignments) :=
  add_timed_effects_loop self P key types_map assignments (size eff) [eff] act ua.

(** ** The action-cost checks *)

Definition mentions (self : PDDLReader) (e : FNode) : bool :=
  occurs_in (_totalcost self) (fve_get e).

Definition effect_mentions (self : PDDLReader) (e : Effect) : bool :=
  mentions self (fluent e) || mentions self (value e) || mentions self (condition e).

(** [_durative_action_has_cost]. *)
Definition _durative_action_has_cost (self : PDDLReader) (dur_act : DurativeAction) : bool :=
  if mentions self (duration_lower (duration dur_act)) ||
     mentions self (duration_upper (duration dur_act)) then false
  else if existsb (fun icl => existsb (mentions self) (snd icl)) (conditions dur_act) then false
  else if existsb (fun tel => existsb (effect_mentions self) (snd tel))
            (timed_effects_of dur_act) then false
  else true.

(** One turn of the loop [for e in act.effects] of
    [_instantaneous_action_has_cost]: whether it goes on to the next
    effect. *)
Definition cost_effect_ok (self : PDDLReader) (e : Effect) : bool :=
  if mentions self (value e) || mentions self (condition e) then false
  else if is_node (fluent e) (_totalcost self) then
    if negb (is_increase e) || negb (is_true (condition e)) ||
       negb (is_int_constant (value e) || is_real_constant (value e))
    then false else true
  else true.

(** [_instantaneous_action_has_cost]. *)
Definition _instantaneous_action_has_cost (self : PDDLReader) (act : InstantaneousAction) : bool :=
  if existsb (mentions self) (preconditions act) then false
  else forallb (cost_effect_ok self) (effects act).

(** [_problem_has_actions_cost]. *)
Definition _problem_has_actions_cost (self : PDDLReader) (P : Problem) : Result bool :=
  match _totalcost self with
  | None => Ok false
  | Some tc =>
      v <- initial_value P tc ;;
      c <- constant_value v ;;
      if negb (Fraction_eqb c zero) then Ok false
      else if existsb (fun tel => existsb (effect_mentions self) (snd tel)) (timed_effects P)
      then Ok false
      else if existsb (mentions self) (goals P) then Ok false
      else Ok true
  end.

(** ** [PDDLReader._parse_problem] *)

(** What pyparsing hands over for a domain, restricted to the sections this
    file follows: requirements, types, constants, predicates, functions and
    actions.  The loops over [:task] and [:method] blocks run over nothing
    here. *)
Record PredicateRes : Type := mkPredicateRes {
  p_name : string;
  p_groups : list ParamGroup
}.

(** An [:action] block has no ["duration"] key, a [:durative-action] block
    has one. *)
Inductive ActionRes : Type :=
| ActionBlock (a_name : string) (a_params : list ParamGroup)
    (pre eff obs : option CustomParseResults)
| DurativeBlock (a_name : string) (a_params : list ParamGroup)
    (a_duration cond eff : CustomParseResults).

Record DomainRes : Type := mkDomainRes {
  domain_name : string;
  features : list string;
  types : list (list CaseInsensitiveToken * option CaseInsensitiveToken);
  constants : list ParamGroup;
  predicates : list PredicateRes;
  functions : list PredicateRes;
  domain_actions : list ActionRes
}.

(** What pyparsing hands over for a problem without [:htn] block; [metric]
    is the parenthesised form, which [nested_expr] reads. *)
Record ProblemRes : Type := mkProblemRes {
  res_name : string;
  res_objects : list (list string * option CaseInsensitiveToken);
  init : list CustomParseResults;
  goal : option CustomParseResults;
  res_constraints : option CustomParseResults;
  optimization : option string;
  metric : option CustomParseResults
}.

Definition block_params (a : ActionRes) : list ParamGroup :=
  match a with
  | ActionBlock _ ps _ _ _ => ps
  | DurativeBlock _ ps _ _ _ => ps
  end.

(** [len(g.value) <= 1 or g.value[1] == Object]. *)
Definition group_needs_object (g : ParamGroup) : bool :=
  match g_type g with
  | None => true
  | Some t => token_eqb t Object
  end.

(** [_check_if_object_type_is_needed]. *)
Definition _check_if_object_type_is_needed (dom : DomainRes) : bool :=
  existsb (fun p => existsb group_needs_object (p_groups p)) (predicates dom) ||
  existsb (fun p => existsb group_needs_object (p_groups p)) (functions dom) ||
  existsb group_needs_object (constants dom) ||
  existsb (fun a => existsb group_needs_object (block_params a)) (domain_actions dom).

(** The choice of the problem class from the requirement flags. *)
Definition class_of (dom : DomainRes) : ProblemClass :=
  if existsb (String.eqb ":hierarchy") (features dom) then Hierarchical
  else if existsb (String.eqb ":contingent") (features dom) then Contingent
  else Classical.

(** [type_declarations]: a dictionary from a type's token to its father's. *)
Definition TypeDeclarations : Type :=
  list (CaseInsensitiveToken * option CaseInsensitiveToken).

Definition declared (d : TypeDeclarations) (k : CaseInsensitiveToken) : bool :=
  existsb (fun kv => token_eqb (fst kv) k) d.

(** The inner loop [for declared_type in type_line[0]]. *)
Fixpoint declare_names (names : list CaseInsensitiveToken)
  (father_name : option CaseInsensitiveToken) (d : TypeDeclarations)
  : Result TypeDeclarations :=
  match names with
  | [] => Ok d
  | declared_type :: rest =>
      if declared d declared_type
      then Raise (SyntaxError (TypeDeclaredTwice (_name declared_type)) None)
      else declare_names rest father_name (d ++ [(declared_type, father_name)])
  end.

(** The loop [for type_line in domain_res.get("types", [])]. *)
Fixpoint extract_type_declarations (object_type_needed : bool)
  (lines : list (list CaseInsensitiveToken * option CaseInsensitiveToken))
  (d : TypeDeclarations) : Result TypeDeclarations :=
  match lines with
  | [] => Ok d
  | (names, written_father) :: rest =>
      let father_name :=
        match written_father with
        | Some f => Some f
        | None => if object_type_needed then Some Object else None
        end in
      d' <- declare_names names father_name d ;;
      extract_type_declarations object_type_needed rest d'
  end.

(** What [declare_type] reads and changes. *)
Record TypeState : Type := mkTypeState {
  ts_types_map : TypesMap;
  ts_manager : TypeManager;
  ts_problem : Problem
}.

(** The nested function [declare_type]; [depth] bounds the nesting of its
    calls, and a chain of fathers that outruns it is one that Python follows
    until its own recursion limit. *)
Fixpoint declare_type (type_declarations : TypeDeclarations) (object_type_needed : bool)
  (depth : nat) (type : CaseInsensitiveToken) (father_name : option CaseInsensitiveToken)
  (st : TypeState) : Result TypeState :=
  match depth with
  | O => Raise RecursionError
  | S depth' =>
      match types_get (ts_types_map st) type with
      | Some _ => Ok st
      | None =>
          ' (father, st1) <-
            match father_name with
            | None => Ok (None, st)
            | Some fn =>
                match types_get (ts_types_map st) fn with
                | Some f => Ok (Some f, st)
                | None =>
                    match dict_get token_eqb type_declarations fn with
                    | Some grandfather =>
                        st' <- declare_type type_declarations object_type_needed depth'
                                 fn grandfather st ;;
                        match types_get (ts_types_map st') fn with
                        | Some f => Ok (Some f, st')
                        | None => Raise KeyError
                        end
                    | None =>
                        if token_eqb fn Object && negb object_type_needed
                        then Ok (None, st)
                        else
                          ' (f, tm') <- UserType (ts_manager st) (_name fn) None ;;
                          Ok (Some f, mkTypeState (types_set (ts_types_map st) fn f)
                                        tm' (ts_problem st))
                    end
                end
            end ;;
          ' (t, tm2) <- UserType (ts_manager st1) (_name type) father ;;
          Ok (mkTypeState (types_set (ts_types_map st1) type t) tm2
                (_add_user_type (ts_problem st1) t))
      end
  end.

(** The loop [for declared_type, father_name in type_declarations.items()]. *)
Fixpoint declare_all (type_declarations : TypeDeclarations) (object_type_needed : bool)
  (todo : TypeDeclarations) (st : TypeState) : Result TypeState :=
  match todo with
  | [] => Ok st
  | (declared_type, father_name) :: rest =>
      st' <- declare_type type_declarations object_type_needed
               (S (List.length type_declarations)) declared_type father_name st ;;
      declare_all type_declarations object_type_needed rest st'
  end.

(** The typed lists of a signature: the loop [for g in ...] that fills an
    [OrderedDict] of parameters.  [unique] is set for [:functions], where a
    name met twice is refused. *)
Fixpoint collect_params (types_map : TypesMap) (unique : option string)
  (groups : list ParamGroup) (params : list (string * UPType))
  : Result (list (string * UPType)) :=
  match groups with
  | [] => Ok params
  | g :: rest =>
      match group_type types_map g with
      | None => Raise (SyntaxError UndefinedType (Some (g_locn g)))
      | Some t =>
          params' <-
            (fix names (l : list string) (acc : list (string * UPType)) :=
               match l with
               | [] => Ok acc
               | n :: l' =>
                   match unique, str_get acc n with
                   | Some fn, Some _ =>
                       Raise (SyntaxError (ParameterDefinedTwice fn n) (Some (g_locn g)))
                   | _, _ => names l' (dict_set acc n t)
                   end
               end) (g_names g) params ;;
          collect_params types_map unique rest params'
      end
  end.

(** The loop over [domain_res.get("predicates", [])]. *)
Fixpoint declare_predicates (types_map : TypesMap) (ps : list PredicateRes) (P : Problem)
  : Result Problem :=
  match ps with
  | [] => Ok P
  | p :: rest =>
      params <- collect_params types_map None (p_groups p) [] ;;
      declare_predicates types_map rest (add_fluent P (mkFluent (p_name p) BoolT params))
  end.

(** The loop over [domain_res.get("functions", [])]; [self._tm.RealType()]
    is the unbounded real type. *)
Fixpoint declare_functions (types_map : TypesMap) (ps : list PredicateRes)
  (self : PDDLReader) (has_actions_cost : bool) (P : Problem)
  : Result (PDDLReader * bool * Problem) :=
  match ps with
  | [] => Ok (self, has_actions_cost, P)
  | p :: rest =>
      params <- collect_params types_map (Some (p_name p)) (p_groups p) [] ;;
      let f := mkFluent (p_name p) (RealT None None) params in
      if String.eqb (p_name p) "total-cost"
      then declare_functions types_map rest (set_totalcost self (Some (FluentExp f [])))
             true (add_fluent P f)
      else declare_functions types_map rest self has_actions_cost (add_fluent P f)
  end.

(** The loop over [domain_res.get("constants", [])]. *)
Fixpoint declare_constants (types_map : TypesMap) (gs : list ParamGroup) (P : Problem)
  : Result Problem :=
  match gs with
  | [] => Ok P
  | g :: rest =>
      match group_type types_map g with
      | None => Raise (SyntaxError UndefinedType (Some (g_locn g)))
      | Some t =>
          declare_constants types_map rest
            (fold_left (fun acc o => add_object acc (mkObject o t)) (g_names g) P)
      end
  end.

(** The loop [for j in range(1, len(dur))] over the conjuncts of a
    duration. *)
Fixpoint duration_bounds (self : PDDLReader) (P : Problem) (dur_act : DurativeAction)
  (types_map : TypesMap) (dur : CustomParseResults) (conjuncts : list CustomParseResults)
  (lower upper : option FNode) : Result (option FNode * option FNode) :=
  match conjuncts with
  | [] => Ok (lower, upper)
  | dj :: rest =>
      let compile e := _parse_exp self P (Some (Durative dur_act)) types_map [] e [] in
      let refuse := Raise (SyntaxError (DurationConstraint (da_name dur_act))
                             (Some (locn dur))) in
      dj0 <- getitem dj 0 ;;
      if value_is dj0 ">=" && match lower with None => true | Some _ => false end then
        dj2 <- getitem dj 2 ;;
        l <- compile dj2 ;;
        duration_bounds self P dur_act types_map dur rest (Some l) upper
      else if value_is dj0 "<=" && match upper with None => true | Some _ => false end then
        dj2 <- getitem dj 2 ;;
        u <- compile dj2 ;;
        duration_bounds self P dur_act types_map dur rest lower (Some u)
      else refuse
  end.

(** The part of the action loop that reads [a["duration"]]. *)
Definition parse_duration (self : PDDLReader) (P : Problem) (dur_act : DurativeAction)
  (types_map : TypesMap) (dur : CustomParseResults) : Result DurativeAction :=
  let refuse := Raise (SyntaxError (DurationConstraint (da_name dur_act))
                         (Some (locn dur))) in
  dur0 <- getitem dur 0 ;;
  if value_is dur0 "=" then
    dur2 <- getitem dur 2 ;;
    v <- _parse_exp self P (Some (Durative dur_act)) types_map [] dur2 [] ;;
    Ok (set_fixed_duration dur_act v)
  else if value_is dur0 "and" then
    ' (lower, upper) <- duration_bounds self P dur_act types_map dur
                          (tail_children dur) None None ;;
    match lower, upper with
    | Some l, Some u => Ok (set_duration_constraint dur_act (ClosedDurationInterval l u))
    | _, _ => refuse
    end
  else refuse.

(** What the loop over the actions carries from one block to the next. *)
Record DomainState : Type := mkDomainState {
  ds_self : PDDLReader;
  ds_problem : Problem;
  ds_types_map : TypesMap;
  ds_universal : UniversalAssignments;
  ds_has_actions_cost : bool
}.

Definition the_instantaneous (r : Result (Action * option UniversalAssignments))
  : Result (InstantaneousAction * option UniversalAssignments) :=
  ' (a, u) <- r ;;
  match a with
  | Instantaneous i => Ok (i, u)
  | Durative _ => Raise TypeError
  end.

Definition the_universal (u : option UniversalAssignments) : UniversalAssignments :=
  match u with Some x => x | None => [] end.

(** One turn of the loop [for a in domain_res.get("actions", [])]. *)
Definition declare_action (a : ActionRes) (st : DomainState) : Result DomainState :=
  let self := ds_self st in
  let P := ds_problem st in
  let types_map := ds_types_map st in
  let key := List.length (actions P) in
  a_params <- collect_params types_map None (block_params a) [] ;;
  match a with
  | DurativeBlock n _ dur cond eff =>
      let dur_act := new_DurativeAction n a_params in
      dur_act <- parse_duration self P dur_act types_map dur ;;
      dur_act <- _add_condition self P dur_act cond types_map ;;
      ' (act, ua) <- _add_timed_effects self P key (Durative dur_act) types_map
                       (Some (ds_universal st)) eff [] ;;
      match act with
      | Durative dur_act =>
          Ok (mkDomainState self (add_action P act) types_map (the_universal ua)
                (ds_has_actions_cost st && _durative_action_has_cost self dur_act))
      | Instantaneous _ => Raise TypeError
      end
  | ActionBlock n _ pre eff obs =>
      act <-
        match obs with
        | Some o =>
            let act := new_SensingAction n a_params in
            let observe (act : InstantaneousAction) (e : CustomParseResults) :=
              f <- _parse_exp self P (Some (Instantaneous act)) types_map [] e [] ;;
              Ok (add_observed_fluent act f) in
            o0 <- getitem o 0 ;;
            if value_is o0 "and"
            then fold_left (fun r e => act <- r ;; observe act e) (tail_children o) (Ok act)
            else observe act o
        | None => Ok (new_InstantaneousAction n a_params)
        end ;;
      act <-
        match pre with
        | Some e =>
            c <- _parse_exp self P (Some (Instantaneous act)) types_map [] e [] ;;
            Ok (add_precondition act c)
        | None => Ok act
        end ;;
      ' (act, ua) <-
        match eff with
        | Some e =>
            the_instantaneous
              (_add_effect self P key (Instantaneous act) types_map
                 (Some (ds_universal st)) e TRUE None [])
        | None => Ok (act, Some (ds_universal st))
        end ;;
      Ok (mkDomainState self (add_action P (Instantaneous act)) types_map (the_universal ua)
            (ds_has_actions_cost st && _instantaneous_action_has_cost self act))
  end.

Fixpoint declare_actions (l : list ActionRes) (st : DomainState) : Result DomainState :=
  match l with
  | [] => Ok st
  | a :: rest => st' <- declare_action a st ;; declare_actions rest st'
  end.

(** The part of [_parse_problem] that reads the domain: everything before
    [if problem_res is not None]. *)
Definition parse_domain (self : PDDLReader) (tm : TypeManager) (dom : DomainRes)
  : Result DomainState :=
  let P := new_Problem (class_of dom) (domain_name dom) in
  let object_type_needed := _check_if_object_type_is_needed dom in
  type_declarations <- extract_type_declarations object_type_needed (types dom) [] ;;
  ts <- declare_all type_declarations object_type_needed type_declarations
          (mkTypeState [] tm P) ;;
  ' (types_map, tm1) <-
    (if object_type_needed && negb (existsb (fun kv => token_eqb (fst kv) Object)
                                     (ts_types_map ts))
     then ' (t, tm') <- UserType (ts_manager ts) "object" None ;;
          Ok (types_set (ts_types_map ts) Object t, tm')
     else Ok (ts_types_map ts, ts_manager ts)) ;;
  P <- declare_predicates types_map (predicates dom) (ts_problem ts) ;;
  ' (self, has_actions_cost, P) <-
    declare_functions types_map (functions dom) self false P ;;
  P <- declare_constants types_map (constants dom) P ;;
  declare_actions (domain_actions dom)
    (mkDomainState self P types_map [] has_actions_cost).

(** [itertools.product]: the last position moves fastest, and the product of
    no lists is the one empty tuple. *)
Fixpoint product {A} (ls : list (list A)) : list (list A) :=
  match ls with
  | [] => [[]]
  | l :: rest => flat_map (fun x => map (cons x) (product rest)) l
  end.

(** The loop that fills [var_names] and [var_types] from the groups of a
    kept quantified effect; an unknown type is a [KeyError] that nothing
    catches. *)
Fixpoint universal_variables (types_map : TypesMap) (groups : list ParamGroup)
  : Result (list string * list UPType) :=
  match groups with
  | [] => Ok ([], [])
  | g :: rest =>
      match group_type types_map g with
      | None => Raise KeyError
      | Some t =>
          ' (names, tys) <- universal_variables types_map rest ;;
          Ok (map (fun o => String "?" o) (g_names g) ++ names,
              map (fun _ => t) (g_names g) ++ tys)
      end
  end.

(** [{name: obj for name, obj in zip(var_names, objects)}]. *)
Definition assignments_of (var_names : list string) (objs : list ModelObject)
  : list (string * ModelObject) :=
  fold_left (fun acc kv => dict_set acc (fst kv) (snd kv)) (List.combine var_names objs) [].

(** The tuples of objects a kept effect is expanded over. *)
Definition instances (P : Problem) (var_types : list UPType) : list (list ModelObject) :=
  product (map (objects P) var_types).

Definition replace_action (P : Problem) (key : nat) (a : Action) : Problem :=
  set_actions P (firstn key (actions P) ++ a :: skipn (S key) (actions P)).

(** The body of [for objects in product(...)], for the action at [key]. *)
Definition expand_instance (self : PDDLReader) (types_map : TypesMap) (key : nat)
  (eff : CustomParseResults) (var_names : list string)
  (P : Problem) (objs : list ModelObject) : Result Problem :=
  if negb (List.length var_names =? List.length objs)%nat then Raise AssertionError else
  let assignments := assignments_of var_names objs in
  match nth_error (actions P) key with
  | None => Raise KeyError
  | Some action =>
      e2 <- getitem eff 2 ;;
      ' (action', _) <-
        match action with
        | Instantaneous _ =>
            _add_effect self P key action types_map None e2 TRUE None assignments
        | Durative _ =>
            _add_timed_effects self P key action types_map None e2 assignments
        end ;;
      Ok (replace_action P key action')
  end.

(** The body of [for eff in eff_list]. *)
Definition expand_universal (self : PDDLReader) (types_map : TypesMap) (key : nat)
  (P : Problem) (eff : CustomParseResults) : Result Problem :=
  e1 <- getitem eff 1 ;;
  vars_string <- joined_values e1 ;;
  groups <- params_of self vars_string ;;
  ' (var_names, var_types) <- universal_variables types_map groups ;;
  fold_left (fun r objs => P' <- r ;; expand_instance self types_map key eff var_names P' objs)
    (instances P var_types) (Ok P).

(** The loop [for action, eff_list in universal_assignments.items()]. *)
Definition expand_all (self : PDDLReader) (types_map : TypesMap)
  (ua : UniversalAssignments) (P : Problem) : Result Problem :=
  fold_left
    (fun r entry =>
       fold_left (fun r' eff => P' <- r' ;; expand_universal self types_map (fst entry) P' eff)
         (snd entry) r)
    ua (Ok P).

(** The loop over [problem_res.get("objects", [])]. *)
Fixpoint declare_objects (types_map : TypesMap)
  (gs : list (list string * option CaseInsensitiveToken)) (P : Problem) : Result Problem :=
  match gs with
  | [] => Ok P
  | (names, ty) :: rest =>
      match types_get types_map (match ty with Some t => t | None => Object end) with
      | None => Raise KeyError
      | Some t =>
          declare_objects types_map rest
            (fold_left (fun acc o => add_object acc (mkObject o t)) names P)
      end
  end.

(** The unwrapping of an [:init] section written as one [(and ...)]. *)
Definition init_items (init_list : list CustomParseResults)
  : Result (list CustomParseResults) :=
  match init_list with
  | [only] =>
      match only with
      | Lst _ [] => Raise IndexError
      | Lst _ (first :: others) => if value_is first "and" then Ok others else Ok init_list
      | Tok _ _ => Raise AttributeError
      end
  | _ => Ok init_list
  end.

Definition set_contingent (P : Problem) (oneof ors : list (list FNode))
  (unknown : list FNode) : Problem :=
  mkProblem (problem_class P) (problem_name P) (fluents P) (objects_all P) (actions P)
    (user_types P) (initial_value_dict P) (timed_effects P) (goals P)
    (trajectory_constraints P) (quality_metrics P) oneof ors unknown.

Fixpoint compile_all (compile : CustomParseResults -> Result FNode)
  (l : list CustomParseResults) : Result (list FNode) :=
  match l with
  | [] => Ok []
  | e :: rest => x <- compile e ;; xs <- compile_all compile rest ;; Ok (x :: xs)
  end.

(** One turn of the loop [for j in init_list].  In the test for a timed
    literal, [init[1].value.replace] is asked of a [ParseResults] when
    [init[1]] is a list: pyparsing answers an unknown attribute with the
    empty string, and calling it is a [TypeError]. *)
Definition parse_init_item (self : PDDLReader) (types_map : TypesMap)
  (P : Problem) (init : CustomParseResults) : Result Problem :=
  let compile e := _parse_exp self P None types_map [] e [] in
  let is_contingent := match problem_class P with Contingent => true | _ => false end in
  i0 <- getitem init 0 ;;
  let operator := value_str i0 in
  if head_is operator "=" then
    i1 <- getitem init 1 ;;
    f <- compile i1 ;;
    i2 <- getitem init 2 ;;
    v <- compile i2 ;;
    Ok (set_initial_value P f v)
  else
  timed <-
    (if (len init =? 3)%nat && head_is operator "at" then
       i1 <- getitem init 1 ;;
       match i1 with
       | Tok _ s => Ok (if isdigit (remove_first_dot s) then Some s else None)
       | Lst _ _ => Raise TypeError
       end
     else Ok None) ;;
  match timed with
  | Some s =>
      ti <- match Fraction_of_string s with
            | Ok q => Ok (StartTiming q)
            | Raise ValueError => Raise (SyntaxError ExpectedNumber (Some (locn init)))
            | Raise e => Raise e
            | OutOfFuel => OutOfFuel
            end ;;
      i2 <- getitem init 2 ;;
      va <- compile i2 ;;
      if is_fluent_exp va then Ok (add_timed_effect P ti va TRUE)
      else if is_not va then
        a0 <- arg va 0 ;; Ok (add_timed_effect P ti a0 FALSE)
      else if is_equals va then
        a0 <- arg va 0 ;; a1 <- arg va 1 ;; Ok (add_timed_effect P ti a0 a1)
      else Raise (SyntaxError NotATimedLiteral (Some (locn init)))
  | None =>
      if head_is operator "oneof" then
        if negb is_contingent then Raise AssertionError else
        fs <- compile_all compile (tail_children init) ;;
        Ok (set_contingent P (oneof_constraints P ++ [fs]) (or_constraints P)
              (unknown_constraints P))
      else if head_is operator "or" then
        if negb is_contingent then Raise AssertionError else
        fs <- compile_all compile (tail_children init) ;;
        Ok (set_contingent P (oneof_constraints P) (or_constraints P ++ [fs])
              (unknown_constraints P))
      else if head_is operator "unknown" then
        if negb is_contingent then Raise AssertionError else
        if negb (len init =? 2)%nat then Raise (SyntaxError NotAbleToHandle (Some (locn init)))
        else
          i1 <- getitem init 1 ;;
          a <- compile i1 ;;
          Ok (set_contingent P (oneof_constraints P) (or_constraints P)
                (unknown_constraints P ++ [a]))
      else
        f <- compile init ;;
        Ok (set_initial_value P f TRUE)
  end.

Definition remove_fluent (P : Problem) (f : Fluent) : Result Problem :=
  fl <- list_remove Fluent_eqb f (fluents P) ;;
  Ok (update_problem P fl (objects_all P) (actions P) (user_types P)
        (initial_value_dict P) (timed_effects P) (goals P) (trajectory_constraints P)
        (quality_metrics P)).

(** [problem._initial_value.pop(tc)] when [tc] is a key. *)
Definition pop_initial_value (P : Problem) (tc : FNode) : Problem :=
  update_problem P (fluents P) (objects_all P) (actions P) (user_types P)
    (filter (fun kv => negb (FNode_eqb (fst kv) tc)) (initial_value_dict P))
    (timed_effects P) (goals P) (trajectory_constraints P) (quality_metrics P).

(** What the loop [for a in problem.instantaneous_actions] of the metric
    carries: the actions seen so far (their cost effect removed), the cost
    table, and [use_plan_length]; [_node_differs self (value cost) 1] is
    the test [cost.value != 1]. *)
Fixpoint strip_costs (self : PDDLReader) (tc : FNode) (acts : list Action)
  (costs : list (string * FNode)) (use_plan_length : bool)
  : Result (list Action * list (string * FNode) * bool) :=
  match acts with
  | [] => Ok ([], costs, use_plan_length)
  | Durative d :: rest =>
      ' (rest', costs', upl) <- strip_costs self tc rest costs use_plan_length ;;
      Ok (Durative d :: rest', costs', upl)
  | Instantaneous a :: rest =>
      match find (fun e => FNode_eqb (fluent e) tc) (effects a) with
      | Some cost =>
          es <- list_remove Effect_eqb cost (effects a) ;;
          ' (rest', costs', upl) <-
            strip_costs self tc rest (dict_set costs (ia_name a) (value cost))
              (if _node_differs self (value cost) 1 then false else use_plan_length) ;;
          Ok (Instantaneous (set_effects a es) :: rest', costs', upl)
      | None =>
          ' (rest', costs', upl) <- strip_costs self tc rest costs false ;;
          Ok (Instantaneous a :: rest', costs', upl)
      end
  end.

(** The part of [_parse_problem] from [optimization = ...] on: the metric. *)
Definition parse_metric (self : PDDLReader) (types_map : TypesMap)
  (has_actions_cost : bool) (optimization : option string)
  (m : option CustomParseResults) (P : Problem) : Result Problem :=
  match m with
  | None => Ok P
  | Some metric =>
      let minimize := head_is optimization "minimize" in
      total_time <-
        (if minimize && (len metric =? 1)%nat
         then m0 <- getitem metric 0 ;; Ok (value_is m0 "total-time")
         else Ok false) ;;
      if total_time then Ok (add_quality_metric P MinimizeMakespan) else
      metric_exp <- _parse_exp self P None types_map [] metric [] ;;
      if has_actions_cost && minimize && is_node metric_exp (_totalcost self) then
        match _totalcost self with
        | None => Raise AttributeError
        | Some tc =>
            f <- fluent_of tc ;;
            P1 <- remove_fluent P f ;;
            let P2 := pop_initial_value P1 tc in
            let use_plan_length :=
              match durative_actions P2 with [] => true | _ => false end in
            ' (acts, costs, upl) <- strip_costs self tc (actions P2) [] use_plan_length ;;
            let P3 := set_actions P2 acts in
            if upl then Ok (add_quality_metric P3 MinimizeSequentialPlanLength)
            else Ok (add_quality_metric P3 (MinimizeActionCosts costs (IntConstant 0)))
        end
      else if minimize then
        Ok (add_quality_metric P (MinimizeExpressionOnFinalState metric_exp))
      else if head_is optimization "maximize" then
        Ok (add_quality_metric P (MaximizeExpressionOnFinalState metric_exp))
      else Ok P
  end.

(** The last statements of the branch [if problem_res is not None]: the
    flag [has_actions_cost] that the domain left is joined with
    [_problem_has_actions_cost], which is not called when the flag is
    already false, and the metric is read. *)
Definition cost_and_metric (self : PDDLReader) (types_map : TypesMap)
  (has_actions_cost : bool) (optimization : option string)
  (m : option CustomParseResults) (P : Problem) : Result Problem :=
  has_actions_cost <-
    (if has_actions_cost then _problem_has_actions_cost self P else Ok false) ;;
  parse_metric self types_map has_actions_cost optimization m P.

Definition set_name (P : Problem) (n : string) : Problem :=
  mkProblem (problem_class P) n (fluents P) (objects_all P) (actions P)
    (user_types P) (initial_value_dict P) (timed_effects P) (goals P)
    (trajectory_constraints P) (quality_metrics P)
    (oneof_constraints P) (or_constraints P) (unknown_constraints P).

(** The branch [if problem_res is not None], for a problem without [:htn]
    block. *)
Definition parse_problem_part (st : DomainState) (res : ProblemRes) : Result Problem :=
  let self := ds_self st in
  let types_map := ds_types_map st in
  let P := set_name (ds_problem st) (res_name res) in
  P <- declare_objects types_map (res_objects res) P ;;
  P <- expand_all self types_map (ds_universal st) P ;;
  items <- init_items (init res) ;;
  P <- fold_left (fun r j => P' <- r ;; parse_init_item self types_map P' j) items (Ok P) ;;
  P <- match goal res with
       | Some g =>
           c <- _parse_exp self P None types_map [] g [] ;; Ok (add_goal P c)
       | None =>
           match problem_class P with
           | Hierarchical => Ok P
           | _ => Raise (SyntaxError MissingGoal None)
           end
       end ;;
  P <- match res_constraints res with
       | Some c =>
           x <- _parse_exp self P None types_map [] c [] ;;
           Ok (add_trajectory_constraint P x)
       | None => Ok P
       end ;;
  cost_and_metric self types_map (ds_has_actions_cost st) (optimization res) (metric res) P.

(** [_parse_problem]. *)
Definition _parse_problem (self : PDDLReader) (tm : TypeManager)
  (domain_res : DomainRes) (problem_res : option ProblemRes) : Result Problem :=
  st <- parse_domain self tm domain_res ;;
  match problem_res with
  | Some res => parse_problem_part st res
  | None =>
      match ds_universal st with
      | [] => Ok (ds_problem st)
      | _ => Raise UPUsageError
      end
  end.

(** ** A reader to run the definitions with *)

(** The words of a text, cut at single blanks. *)
Fixpoint words_from (s : string) (cur : string) : list string :=
  match s with
  | EmptyString => match cur with EmptyString => [] | _ => [cur] end
  | String c r =>
      if Ascii.eqb c " "
      then match cur with EmptyString => words_from r "" | _ => cur :: words_from r "" end
      else words_from r (cur ++ String c "")
  end.

(** A typed list read word by word: names [?x], then [- type] or the end.
    It agrees with the grammar's [parameters] on the lists that PDDL files
    hold, and serves to run the definitions on examples. *)
Fixpoint groups_of_words (ws : list string) (names : list string) : list ParamGroup :=
  match ws with
  | [] => match names with [] => [] | _ => [mkGroup (0, 0) (rev names) None] end
  | w :: rest =>
      match w with
      | String "?" n => groups_of_words rest (n :: names)
      | _ =>
          match names, rest with
          | _ :: _, ty :: rest' =>
              if String.eqb w "-"
              then mkGroup (0, 0) (rev names) (Some (mkToken ty)) :: groups_of_words rest' []
              else [mkGroup (0, 0) (rev names) None]
          | _, _ => match names with [] => [] | _ => [mkGroup (0, 0) (rev names) None] end
          end
      end
  end.

(** The reader of the examples: it leaves expressions as they are, its
    manager takes a fluent applied to as many arguments as its signature
    has, and it tells a node from every integer, as the comparison of
    objects of two classes does. *)
Definition example_reader : PDDLReader :=
  mkReader (fun s => Some (groups_of_words (words_from s "") [])) (fun e => e)
    (fun f args => (List.length args =? List.length (signature f))%nat)
    (fun _ _ => true) None.
(** ** Measures and predicates the statements use *)

(** The turns of the loop of [_parse_exp] that an entry of the stack still
    stands for. *)
Definition frame_measure (f : Frame) : nat :=
  let '(_, exp, status) := f in if status then 1 else 2 * size exp.

Definition stack_measure (s : list Frame) : nat := list_sum (map frame_measure s).

(** The variable a leaf names among the quantifier variables in scope. *)
Definition bound_variable (var : list (string * UPVariable)) (tok : string)
  : option UPVariable :=
  match tok with
  | String "?" rest => str_get var rest
  | _ => None
  end.

(** A token that starts with the sigil [?]. *)
Definition has_sigil (tok : string) : bool :=
  match tok with
  | String "?" _ => true
  | _ => false
  end.

(** A leaf that no earlier rule of the resolution takes, so that it is read
    as a number. *)
Definition reaches_number (P : Problem) (asg : list (string * ModelObject))
  (tok : string) : bool :=
  match tok with
  | EmptyString => false
  | _ =>
      negb (has_sigil tok) &&
      match str_get asg tok with Some _ => false | None => true end &&
      negb (has_fluent P tok) && negb (has_object P tok)
  end.

(** The constant a rational compiles to. *)
Definition constant_of (q : Fraction) : FNode :=
  if (denominator q =? 1)%Z then IntConstant (numerator q) else RealConstant q.

(** [c] is held by [act] at the interval [i]. *)
Definition holds_condition (act : DurativeAction) (i : TimeInterval) (c : FNode) : Prop :=
  exists cl, In (i, cl) (conditions act) /\ In c cl.

(** [body] is the condition of an [(over all body)] inside the tree of a
    [:condition] section, under any nesting of [and] and [forall];
    [scoped] tells whether a [forall] is passed on the way. *)
Inductive tagged_over_all : bool -> CustomParseResults -> CustomParseResults -> Prop :=
| tagged_here loc l1 l2 body :
    tagged_over_all false (Lst loc [Tok l1 "over"; Tok l2 "all"; body]) body
| tagged_and scoped loc l0 children c body :
    In c children -> tagged_over_all scoped c body ->
    tagged_over_all scoped (Lst loc (Tok l0 "and" :: children)) body
| tagged_forall scoped loc l0 vs inner extra body :
    tagged_over_all scoped inner body ->
    tagged_over_all true (Lst loc (Tok l0 "forall" :: vs :: inner :: extra)) body.

(** The condition [act] holds for [body] at the open interval from start
    to end: the compiled [body], closed by a universal quantifier when it
    stands under a [forall]. *)
Definition attached_over_all (self : PDDLReader) (P : Problem) (types_map : TypesMap)
  (params : list (string * UPType)) (act : DurativeAction)
  (body : CustomParseResults) (scoped : bool) : Prop :=
  exists vars c,
    _parse_exp self P (Some (Durative (new_DurativeAction "" params))) types_map vars body []
      = Ok c /\
    (scoped = false -> vars = []) /\
    holds_condition act (OpenTimeInterval (StartTiming zero) (EndTiming zero))
      (if scoped then Quantified FORALL c (map snd vars) else c).

Definition is_some {A} (o : option A) : bool :=
  match o with Some _ => true | None => false end.

(** Parse trees without positions, to write examples with. *)
Definition tok (s : string) : CustomParseResults := Tok (0, 0) s.
Definition lst (l : list CustomParseResults) : CustomParseResults := Lst (0, 0) l.

(** The fluent of the function [total-cost], its expression, and a reader
    that has met it. *)
Definition fluent_total_cost : Fluent := mkFluent "total-cost" (RealT None None) [].
Definition total_cost : FNode := FluentExp fluent_total_cost [].
Definition cost_reader : PDDLReader := set_totalcost example_reader (Some total_cost).

(** The same reader over nodes that compare with an integer by the value
    they denote. *)
Definition comparing_reader : PDDLReader :=
  mkReader (_pp_parameters cost_reader) (_simplify cost_reader) (_em_accepts cost_reader)
    (fun e n => negb (FNode_eqb e (IntConstant n))) (_totalcost cost_reader).

(** The canonical names a dictionary of type declarations is keyed by. *)
Definition declared_names (d : TypeDeclarations) : list string :=
  map (fun kv => _canonical (fst kv)) d.

(** The names of fluents and objects start with a letter, as the grammar's
    [name] has it. *)
Definition starts_with_letter (s : string) : bool :=
  match s with
  | String c _ => is_alpha c
  | EmptyString => false
  end.

Definition named_by_grammar (P : Problem) : Prop :=
  Forall (fun f => starts_with_letter (fluent_name f) = true) (fluents P) /\
  Forall (fun o => starts_with_letter (obj_name o) = true) (objects_all P).

(** What the action loop looks at in a duration: the head of a list and
    its element of index 2.  [(op x y ...)] is a list headed by the token
    [op] with two operands at least, whatever [x] and the operands after
    [y] are. *)
Definition headed_with_two (op : string) (e : CustomParseResults) : bool :=
  match e with
  | Lst _ (h :: _ :: _ :: _) => value_is h op
  | _ => false
  end.

(** The durations the action loop reads to the end: a list headed by [=],
    or a conjunction of exactly two lists, one headed by [>=] and one by
    [<=], in either order. *)
Definition equality_form (dur : CustomParseResults) : bool := headed_with_two "=" dur.

Definition interval_form (dur : CustomParseResults) : bool :=
  match dur with
  | Lst _ [h; c1; c2] =>
      value_is h "and" &&
      ((headed_with_two ">=" c1 && headed_with_two "<=" c2) ||
       (headed_with_two "<=" c1 && headed_with_two ">=" c2))
  | _ => false
  end.

Definition accepted_duration_shape (dur : CustomParseResults) : bool :=
  equality_form dur || interval_form dur.

(** The two forms of a duration as the specification writes them:
    [(= ?duration v)], and [(and (>= ?duration l) (<= ?duration u))];
    [(op ?duration v)] is a list of exactly the token [op], the token
    [?duration] and a value. *)
Definition bound_on_duration (op : string) (e : CustomParseResults) : bool :=
  match e with
  | Lst _ [h; Tok _ d; _] => value_is h op && String.eqb d "?duration"
  | _ => false
  end.

Definition specified_duration_shape (dur : CustomParseResults) : bool :=
  bound_on_duration "=" dur ||
  match dur with
  | Lst _ [h; c1; c2] =>
      value_is h "and" && bound_on_duration ">=" c1 && bound_on_duration "<=" c2
  | _ => false
  end.

(** The durations [(and (>= ?duration 5) (<= ?duration 10))] and
    [(= ?duration 7)], with spans [s 0], [s 1], ... on their nodes. *)
Definition duration_5_10 (s : nat -> Span) : CustomParseResults :=
  Lst (s 0) [Tok (s 1) "and";
             Lst (s 2) [Tok (s 3) ">="; Tok (s 4) "?duration"; Tok (s 5) "5"];
             Lst (s 6) [Tok (s 7) "<="; Tok (s 8) "?duration"; Tok (s 9) "10"]].

Definition duration_7 (s : nat -> Span) : CustomParseResults :=
  Lst (s 0) [Tok (s 1) "="; Tok (s 2) "?duration"; Tok (s 3) "7"].

(** Induction over a node and the nodes under it. *)
Fixpoint FNode_nested_ind (Q : FNode -> Prop)
  (HB : forall b, Q (BoolConstant b)) (HI : forall z, Q (IntConstant z))
  (HR : forall q, Q (RealConstant q)) (HP : forall p, Q (ParameterExp p))
  (HV : forall v, Q (VariableExp v)) (HO : forall o, Q (ObjectExp o))
  (HF : forall f l, Forall Q l -> Q (FluentExp f l))
  (HA : forall o l, Forall Q l -> Q (Apply o l))
  (HQ : forall q x vs, Q x -> Q (Quantified q x vs))
  (e : FNode) : Q e :=
  let rec := FNode_nested_ind Q HB HI HR HP HV HO HF HA HQ in
  let all := fix all (l : list FNode) : Forall Q l :=
    match l with
    | [] => Forall_nil Q
    | x :: r => Forall_cons x (rec x) (all r)
    end in
  match e with
  | BoolConstant b => HB b
  | IntConstant z => HI z
  | RealConstant q => HR q
  | ParameterExp p => HP p
  | VariableExp v => HV v
  | ObjectExp o => HO o
  | FluentExp f l => HF f l (all l)
  | Apply o l => HA o l (all l)
  | Quantified q x vs => HQ q x vs (rec x)
  end.

(** The check of the action loop on one action, and the flag
    [has_actions_cost] as the loop leaves it after the actions [acts],
    starting from [declared] (true once the function [total-cost] is
    met). *)
Definition action_has_cost (self : PDDLReader) (a : Action) : bool :=
  match a with
  | Instantaneous i => _instantaneous_action_has_cost self i
  | Durative d => _durative_action_has_cost self d
  end.

Definition domain_cost_flag (self : PDDLReader) (declared : bool) (acts : list Action) : bool :=
  fold_left (fun b a => b && action_has_cost self a) acts declared.

(** The effects of [act] on the cost fluent. *)
Definition cost_effects (self : PDDLReader) (act : InstantaneousAction) : list Effect :=
  filter (fun e => is_node (fluent e) (_totalcost self)) (effects act).

(** The unconditional increase of [tc] by 1. *)
Definition unit_increase (tc : FNode) : Effect := mkEffect tc (IntConstant 1) TRUE INCREASE.

(** [a] has exactly one effect on [tc], the unconditional increase by 1,
    and reads [tc] nowhere. *)
Definition unit_cost_action (self : PDDLReader) (tc : FNode) (a : InstantaneousAction) : Prop :=
  (forall c, In c (preconditions a) -> mentions self c = false) /\
  exists before after,
    effects a = before ++ unit_increase tc :: after /\
    forall e, In e (before ++ after) ->
      FNode_eqb (fluent e) tc = false /\
      mentions self (value e) = false /\
      mentions self (condition e) = false.

(** The loop of the metric over actions that each add the constant 1: the
    cost table it fills gives every action the cost 1, and it leaves
    [use_plan_length] set when there is no action, or when the test
    [cost.value != 1] answers no for the node of the constant 1. *)
Definition unit_cost_table (acts : list InstantaneousAction) : list (string * FNode) :=
  fold_left (fun costs a => dict_set costs (ia_name a) (IntConstant 1)) acts [].

Definition unit_costs_keep_plan_length (self : PDDLReader) (acts : list InstantaneousAction)
  : bool :=
  match acts with
  | [] => true
  | _ :: _ => negb (_node_differs self (IntConstant 1) 1)
  end.

(** A model with the fluent [total-cost], started at 0, and one action that
    adds 1 to it; [guard] is the action's precondition. *)
Definition unit_cost_problem (guard : list FNode) : Problem :=
  set_initial_value
    (add_action (add_fluent (new_Problem Classical "d") fluent_total_cost)
       (Instantaneous (mkInstantaneous "step" [] guard [unit_increase total_cost] None)))
    total_cost (IntConstant 0).

(** An effect that is one effect: a non-empty list whose head is none of
    [and], [when] and [forall]. *)
Definition single_effect (e : CustomParseResults) : bool :=
  match e with
  | Lst _ (h :: _) =>
      negb (value_is h "and") && negb (value_is h "when") && negb (value_is h "forall")
  | _ => false
  end.

(** A domain with the type [truck], the predicate [(visited ?x - truck)]
    and the action [tour], whose effect visits every truck; and the model
    read from it and from a problem with two trucks, before the quantified
    effect is expanded. *)
Definition truck : UPType := UserT "truck" None.
Definition truck_types : TypesMap := [(mkToken "truck", truck)].
Definition fluent_visited : Fluent := mkFluent "visited" BoolT [("x", truck)].
Definition visit_all : CustomParseResults :=
  lst [tok "forall"; lst [tok "?y"; tok "-"; tok "truck"]; lst [tok "visited"; tok "?y"]].

Definition tour_domain : DomainRes :=
  mkDomainRes "tours" [":typing"] [([mkToken "truck"], None)] []
    [mkPredicateRes "visited" [mkGroup (0, 0) ["x"] (Some (mkToken "truck"))]] []
    [ActionBlock "tour" [] None (Some visit_all) None].

Definition tour_problem : Problem :=
  add_object
    (add_object
       (add_action (add_fluent (new_Problem Classical "tours") fluent_visited)
          (Instantaneous (new_InstantaneousAction "tour" [])))
       (mkObject "t1" truck))
    (mkObject "t2" truck).

(** The problem goes from [P] to [P'] by expanding a kept effect once for
    each tuple of the list, in order. *)
Inductive expansion_steps (self : PDDLReader) (types_map : TypesMap) (key : nat)
  (eff : CustomParseResults) (names : list string)
  : Problem -> list (list ModelObject) -> Problem -> Prop :=
| steps_done P : expansion_steps self types_map key eff names P [] P
| steps_next P objs rest P1 P2 :
    expand_instance self types_map key eff names P objs = Ok P1 ->
    expansion_steps self types_map key eff names P1 rest P2 ->
    expansion_steps self types_map key eff names P (objs :: rest) P2.

End Reader.
(** ** [unified_planning/model/types.py]: the domain of a type *)

Module Domains.
Import Types Reader.

(** [l[idx]] for a Python integer [idx]: a negative index counts from the
    end, and an index outside the list raises [IndexError]. *)
Definition list_index {A} (l : list A) (idx : Z) : Result A :=
  let n := Z.of_nat (List.length l) in
  let i := if (idx <? 0)%Z then (idx + n)%Z else idx in
  if ((i <? 0) || (n <=? i))%Z then Raise IndexError
  else match nth_error l (Z.to_nat i) with
       | Some x => Ok x
       | None => Raise IndexError
       end.

(** [domain_size(problem, typename)].  [objects_hierarchy] stands for the
    method [problem.objects_hierarchy] of the class [Problem], whose source
    is not among the files. *)
Definition domain_size (objects_hierarchy : UPType -> list ModelObject)
  (typename : UPType) : Result Z :=
  if is_bool_type typename then Ok 2%Z
  else if is_user_type typename then
    Ok (Z.of_nat (List.length (objects_hierarchy typename)))
  else if is_int_type typename then
    match typename with
    | IntT (Some lb) (Some ub) => Ok (ub - lb)%Z
    | _ => Raise UPProblemDefinitionError
    end
  else Raise UPProblemDefinitionError.

(** [domain_item(problem, typename, idx)]; [Bool], [ObjectExp] and [Int]
    are the expression manager's constructors. *)
Definition domain_item (objects_hierarchy : UPType -> list ModelObject)
  (typename : UPType) (idx : Z) : Result FNode :=
  if is_bool_type typename then Ok (BoolConstant (idx =? 0)%Z)
  else if is_user_type typename then
    o <- list_index (objects_hierarchy typename) idx ;; Ok (ObjectExp o)
  else if is_int_type typename then
    match typename with
    | IntT (Some lb) (Some ub) => Ok (IntConstant (lb + idx))
    | _ => Raise UPProblemDefinitionError
    end
  else Raise UPProblemDefinitionError.

End Domains.
(** ** Small models to run the definitions on *)

Module Samples.
Import Types Reader.

(** A problem with the nullary predicate [ready] and nothing else. *)
Definition fluent_ready : Fluent := mkFluent "ready" BoolT [].
Definition ready_problem : Problem := add_fluent (new_Problem Classical "d") fluent_ready.
Definition ready : FNode := FluentExp fluent_ready [].

(** The types [vehicle] and [truck - vehicle], as a manager interns them. *)
Definition vehicle : UPType := UserT "vehicle" None.
Definition truck_of_vehicle : UPType := UserT "truck" (Some vehicle).
Definition fleet_manager : TypeManager :=
  mkTM [] [] [(("vehicle", None), vehicle); (("truck", Some vehicle), truck_of_vehicle)].

(** A problem file for the domain [tours]: two trucks, the goal that the
    first one is visited, and the metric [minimize (total-time)]. *)
Definition tour_file : ProblemRes :=
  mkProblemRes "two-trucks" [(["t1"; "t2"], Some (mkToken "truck"))] []
    (Some (lst [tok "visited"; tok "t1"])) None
    (Some "minimize"%string) (Some (lst [tok "total-time"])).

(** The model read from the domain [tours] and that file. *)
Definition tour_model : Problem :=
  match _parse_problem example_reader TypeManager_init tour_domain (Some tour_file) with
  | Ok P => P
  | _ => new_Problem Classical ""
  end.

(** The same file with the metric [maximize (visited t2)], and the model
    read from it. *)
Definition tour_file_maximize : ProblemRes :=
  mkProblemRes "two-trucks" [(["t1"; "t2"], Some (mkToken "truck"))] []
    (Some (lst [tok "visited"; tok "t1"])) None
    (Some "maximize"%string) (Some (lst [tok "visited"; tok "t2"])).

Definition tour_model_maximize : Problem :=
  match _parse_problem example_reader TypeManager_init tour_domain (Some tour_file_maximize) with
  | Ok P => P
  | _ => new_Problem Classical ""
  end.

(** The same file without metric, and the model read from it. *)
Definition tour_file_plain : ProblemRes :=
  mkProblemRes "two-trucks" [(["t1"; "t2"], Some (mkToken "truck"))] []
    (Some (lst [tok "visited"; tok "t1"])) None None None.

Definition tour_model_plain : Problem :=
  match _parse_problem example_reader TypeManager_init tour_domain (Some tour_file_plain) with
  | Ok P => P
  | _ => new_Problem Classical ""
  end.

(** A reader whose simplifier knows that the negation of the true constant
    is the false one. *)
Definition simplifying_reader : PDDLReader :=
  mkReader (_pp_parameters example_reader)
    (fun e => match e with Apply NOT [BoolConstant true] => FALSE | _ => e end)
    (_em_accepts example_reader) (_node_differs example_reader) None.

(** The domain [tours] with its quantified effect under a condition that
    never holds: [(when (not ()) (forall (?y - truck) (visited ?y)))]. *)
Definition guarded_tour_domain : DomainRes :=
  mkDomainRes "tours" [":typing"] [([mkToken "truck"], None)] []
    [mkPredicateRes "visited" [mkGroup (0, 0) ["x"] (Some (mkToken "truck"))]] []
    [ActionBlock "tour" [] None
       (Some (lst [tok "when"; lst [tok "not"; lst []]; visit_all])) None].

(** The domain [tours] with a quantified effect whose body holds two
    effects: [(forall (?y - truck) (and (visited ?y) (ready)))]. *)
Definition double_tour_domain : DomainRes :=
  mkDomainRes "tours" [":typing"] [([mkToken "truck"], None)] []
    [mkPredicateRes "visited" [mkGroup (0, 0) ["x"] (Some (mkToken "truck"))];
     mkPredicateRes "ready" []] []
    [ActionBlock "tour" [] None
       (Some (lst [tok "forall"; lst [tok "?y"; tok "-"; tok "truck"];
                   lst [tok "and"; lst [tok "visited"; tok "?y"]; lst [tok "ready"]]]))
       None].

(** The domain [tours] with a durative action that visits every truck at
    its start: [(forall (?y - truck) (at start (visited ?y)))]; and the
    model read from it and the file without metric. *)
Definition timed_tour_block : ActionRes :=
  DurativeBlock "tour" [] (lst [tok "="; tok "?duration"; tok "7"]) (lst [tok "and"])
    (lst [tok "forall"; lst [tok "?y"; tok "-"; tok "truck"];
          lst [tok "at"; tok "start"; lst [tok "visited"; tok "?y"]]]).

Definition timed_tour_domain : DomainRes :=
  mkDomainRes "tours" [":typing"] [([mkToken "truck"], None)] []
    [mkPredicateRes "visited" [mkGroup (0, 0) ["x"] (Some (mkToken "truck"))]] []
    [timed_tour_block].

Definition timed_tour_model : Problem :=
  match _parse_problem example_reader TypeManager_init timed_tour_domain
          (Some tour_file_plain) with
  | Ok P => P
  | _ => new_Problem Classical ""
  end.

(** Every entry of the three dictionaries holds the type its key names. *)
Definition keyed (tm : TypeManager) : Prop :=
  (forall k t, In (k, t) (_ints tm) -> t = IntT (fst k) (snd k)) /\
  (forall k t, In (k, t) (_reals tm) -> t = RealT (fst k) (snd k)) /\
  (forall k t, In (k, t) (_user_types tm) -> t = UserT (fst k) (snd k)).

(** No name of [names] is a key of the map of types yet. *)
Definition cold (names : list string) (st : TypeState) : Prop :=
  forall t, In (_canonical t) names -> types_get (ts_types_map st) t = None.

End Samples.
(** ** Notions the statements use *)

Module Notions.
Import Types Reader.

(** A head token that the compiler reads as an operator, a quantifier or a
    trajectory constraint before it looks for a fluent of that name. *)
Definition keyword (s : string) : bool :=
  is_some (_operators s) || is_some (quantifier_of s) || is_some (_trajectory_constraints s).

(** The number of nodes of the trees that wait in a work list. *)
Definition pending {A} (tree : A -> CustomParseResults) (to_add : list A) : nat :=
  list_sum (map (fun x => size (tree x)) to_add).

(** The three intervals at which [_add_condition] attaches a condition. *)
Definition condition_interval (i : TimeInterval) : Prop :=
  i = TimePointInterval (StartTiming zero) \/
  i = TimePointInterval (EndTiming zero) \/
  i = OpenTimeInterval (StartTiming zero) (EndTiming zero).

(** The dictionary of type declarations a [:types] section stands for:
    every name of every line, in order, with the father written on its line,
    or [object] when none is written and the object type is needed. *)
Definition declarations_of (object_type_needed : bool)
  (lines : list (list CaseInsensitiveToken * option CaseInsensitiveToken))
  : TypeDeclarations :=
  flat_map
    (fun line =>
       map (fun n => (n, match snd line with
                         | Some f => Some f
                         | None => if object_type_needed then Some Object else None
                         end)) (fst line))
    lines.

(** [names] are canonical names of declared types each of which has, as
    its declared father, a type of [names] again: following the fathers
    from one of them never leaves [names]. *)
Definition cyclic (d : TypeDeclarations) (names : list string) : Prop :=
  names <> [] /\
  (forall n, In n names -> exists t fo, In (t, fo) d /\ _canonical t = n) /\
  (forall t fo, In (t, fo) d -> In (_canonical t) names ->
     exists f, fo = Some f /\ In (_canonical f) names).

(** The parameters a typed list declares when no name is written twice:
    every name, in order, with the type of its group. *)
Definition typed_names (types_map : TypesMap) (groups : list ParamGroup)
  : list (string * option UPType) :=
  flat_map (fun g => map (fun n => (n, group_type types_map g)) (g_names g)) groups.

(** [Q] has the class and the quality metrics of [P]. *)
Definition same_header (P Q : Problem) : Prop :=
  problem_class Q = problem_class P /\ quality_metrics Q = quality_metrics P.

(** A quality metric that stands for the action costs. *)
Definition cost_metric (q : QualityMetric) : bool :=
  match q with
  | MinimizeActionCosts _ _ => true
  | MinimizeSequentialPlanLength => true
  | _ => false
  end.

(** [act] holds the effect [e] at the timing [t]. *)
Definition has_effect (act : DurativeAction) (t : Timing) (e : Effect) : Prop :=
  exists el, In (t, el) (timed_effects_of act) /\ In e el.

(** [a'] is [a] with effects appended, and nothing else changed. *)
Definition appended (a a' : InstantaneousAction) : Prop :=
  ia_name a' = ia_name a /\
  ia_parameters a' = ia_parameters a /\
  preconditions a' = preconditions a /\
  observed_fluents a' = observed_fluents a /\
  exists added, effects a' = effects a ++ added.

(** [d'] is [d] with more effects, all of the new ones at a timing of
    [allowed], and nothing else changed. *)
Definition more_effects (allowed : Timing -> Prop) (d d' : DurativeAction) : Prop :=
  da_name d' = da_name d /\
  da_parameters d' = da_parameters d /\
  duration d' = duration d /\
  conditions d' = conditions d /\
  (forall t e, has_effect d t e -> has_effect d' t e) /\
  (forall t e, has_effect d' t e -> has_effect d t e \/ allowed t).

(** [act'] is [act] with effects added: appended for an instantaneous
    action, at a timing of [allowed] for a durative one. *)
Definition grows (allowed : Timing -> Prop) (act act' : Action) : Prop :=
  match act, act' with
  | Instantaneous a, Instantaneous a' => appended a a'
  | Durative d, Durative d' => more_effects allowed d d'
  | _, _ => False
  end.

End Notions.
(** ** Quantified effects of a domain *)

Module Quantified.
Import Types Reader Notions.

(** [q] is a [forall] effect that the tree of the [:effect] section of an
    [:action] holds at its top or under conjunctions. *)
Inductive quantified_effect_of : CustomParseResults -> CustomParseResults -> Prop :=
| quantified_here loc l0 rest :
    quantified_effect_of (Lst loc (Tok l0 "forall" :: rest)) (Lst loc (Tok l0 "forall" :: rest))
| quantified_under_and loc l0 children c q :
    In c children -> quantified_effect_of c q ->
    quantified_effect_of (Lst loc (Tok l0 "and" :: children)) q.

(** The same for the [:effect] section of a [:durative-action]: the
    [forall] stands among the timed effects, or in the effect that an
    [at start] or an [at end] tags. *)
Inductive timed_quantified_effect_of : CustomParseResults -> CustomParseResults -> Prop :=
| timed_quantified_here loc l0 vs body :
    timed_quantified_effect_of (Lst loc [Tok l0 "forall"; vs; body])
      (Lst loc [Tok l0 "forall"; vs; body])
| timed_quantified_under_and loc l0 children c q :
    In c children -> timed_quantified_effect_of c q ->
    timed_quantified_effect_of (Lst loc (Tok l0 "and" :: children)) q
| timed_quantified_at loc l0 l1 tag e q :
    tag = "start"%string \/ tag = "end"%string ->
    quantified_effect_of e q ->
    timed_quantified_effect_of (Lst loc [Tok l0 "at"; Tok l1 tag; e]) q.

(** The [:effect] section of the block holds the quantified effect [q] in
    one of these places. *)
Definition block_holds (a : ActionRes) (q : CustomParseResults) : Prop :=
  match a with
  | ActionBlock _ _ _ (Some e) _ => quantified_effect_of e q
  | ActionBlock _ _ _ None _ => False
  | DurativeBlock _ _ _ _ e => timed_quantified_effect_of e q
  end.

(** [universal_assignments[key]], or nothing when [key] is no key. *)
Definition kept (ua : UniversalAssignments) (key : nat) : list CustomParseResults :=
  match dict_get Nat.eqb ua key with
  | Some l => l
  | None => []
  end.

(** A list headed by the token [forall]. *)
Definition headed_by_forall (q : CustomParseResults) : Prop :=
  exists loc l0 rest, q = Lst loc (Tok l0 "forall" :: rest).

(** [universal_assignments] after the effects [new] are recorded under
    [key], one after the other. *)
Definition record_all (ua : UniversalAssignments) (key : nat) (new : list CustomParseResults)
  : UniversalAssignments :=
  fold_left (fun d q => record_universal d key q) new ua.

(** The keys of [universal_assignments] are positions among the first [n]
    actions of the problem, and no key stands twice. *)
Definition well_keyed (ua : UniversalAssignments) (n : nat) : Prop :=
  NoDup (map fst ua) /\ forall k, In k (map fst ua) -> k < n.

(** The number of effects an action holds. *)
Definition effect_count (a : Action) : nat :=
  match a with
  | Instantaneous i => List.length (effects i)
  | Durative d => list_sum (map (fun te => List.length (snd te)) (timed_effects_of d))
  end.

(** One effect under a tag: [(at start e)] or [(at end e)], with [e] one
    effect. *)
Definition single_timed_effect (body : CustomParseResults) : bool :=
  match body with
  | Lst _ [h; Tok _ tag; e] =>
      value_is h "at" && (String.eqb tag "start" || String.eqb tag "end") && single_effect e
  | _ => false
  end.

(** The two kinds of actions, and of blocks. *)
Definition is_durative (a : Action) : bool :=
  match a with Durative _ => true | Instantaneous _ => false end.

Definition durative_block (a : ActionRes) : bool :=
  match a with DurativeBlock _ _ _ _ _ => true | ActionBlock _ _ _ _ _ => false end.

(** A kept effect whose body [eff[2]] is one effect for the action it is
    kept for: one effect for an instantaneous action, one effect under a
    tag for a durative one. *)
Definition single_bodied (durative : bool) (eff : CustomParseResults) : bool :=
  match getitem eff 2 with
  | Ok body => if durative then single_timed_effect body else single_effect body
  | _ => false
  end.

(** The whole [:effect] section of the block is the quantified effect
    [q]. *)
Definition whole_effect (a : ActionRes) (q : CustomParseResults) : Prop :=
  match a with
  | ActionBlock _ _ _ eff _ => eff = Some q /\ headed_by_forall q
  | DurativeBlock _ _ _ _ eff =>
      eff = q /\ exists loc l0 vs body, q = Lst loc [Tok l0 "forall"; vs; body]
  end.

(** The timings of the effects of a durative action. *)
Definition start_or_end (t : Timing) : Prop := t = StartTiming zero \/ t = EndTiming zero.

(** The types of the variables of a kept effect, as the expansion reads
    them off [eff[1]]. *)
Definition quantified_types (self : PDDLReader) (types_map : TypesMap)
  (eff : CustomParseResults) : Result (list UPType) :=
  e1 <- getitem eff 1 ;;
  vars_string <- joined_values e1 ;;
  groups <- params_of self vars_string ;;
  ' (_, var_types) <- universal_variables types_map groups ;;
  Ok var_types.

(** The number of tuples of the Cartesian product of the objects of the
    types [tys]. *)
Definition tuples (P : Problem) (tys : list UPType) : nat :=
  fold_right Nat.mul 1 (map (fun t => List.length (objects P t)) tys).

(** The kept effect [eff] is expanded over [n] tuples. *)
Definition expanded_over (self : PDDLReader) (types_map : TypesMap) (P : Problem)
  (eff : CustomParseResults) (n : nat) : Prop :=
  exists tys, quantified_types self types_map eff = Ok tys /\ n = tuples P tys.

(** The loop over [universal_assignments] takes the problem from [P] to
    [P']: entry after entry and, within an entry, kept effect after kept
    effect, each expanded by one run of the assembler on its body for every
    tuple of objects of the types of its variables, in the order of
    [itertools.product]. *)
Inductive expansions (self : PDDLReader) (types_map : TypesMap)
  : UniversalAssignments -> Problem -> Problem -> Prop :=
| expansions_done P : expansions self types_map [] P P
| expansions_next_entry key ua P P' :
    expansions self types_map ua P P' ->
    expansions self types_map ((key, []) :: ua) P P'
| expansions_effect key eff effs ua P P1 P' e1 s groups names tys :
    getitem eff 1 = Ok e1 ->
    joined_values e1 = Ok s ->
    _pp_parameters self s = Some groups ->
    universal_variables types_map groups = Ok (names, tys) ->
    expansion_steps self types_map key eff names P (instances P tys) P1 ->
    expansions self types_map ((key, effs) :: ua) P1 P' ->
    expansions self types_map ((key, eff :: effs) :: ua) P P'.

(** [Q] has the fluents and the objects of [P], and its actions but for
    the one at [key]. *)
Definition expands_at (key : nat) (P Q : Problem) : Prop :=
  fluents Q = fluents P /\ objects_all Q = objects_all P /\
  forall j, j <> key -> nth_error (actions Q) j = nth_error (actions P) j.

(** The action at [key] of [Q] is [act] with [n] effects more, and nothing
    else changed. *)
Definition grown_by (Q : Problem) (key : nat) (act : Action) (n : nat) : Prop :=
  exists act',
    nth_error (actions Q) key = Some act' /\
    grows start_or_end act act' /\
    effect_count act' = effect_count act + n.

End Quantified.
(** * Properties *)

Lemma option_eqb_eq {A} (eqb : A -> A -> bool) :
  (forall x y, eqb x y = true <-> x = y) ->
  forall a b, option_eqb eqb a b = true <-> a = b.
Proof.
  intros H [x|] [y|]; simpl; try (split; congruence).
  rewrite H. split; congruence.
Qed.

Lemma Fraction_eqb_eq a b : Fraction_eqb a b = true <-> a = b.
Proof.
  destruct a as [n d], b as [n' d']; unfold Fraction_eqb; simpl.
  rewrite andb_true_iff, !Z.eqb_eq. split.
  - intros [-> ->]; reflexivity.
  - intros H; injection H; auto.
Qed.

Example Fraction_examples :
  Fraction_of_string "3" = Ok (mkFraction 3 1) /\
  Fraction_of_string "3.0" = Ok (mkFraction 3 1) /\
  Fraction_of_string "3/1" = Ok (mkFraction 3 1) /\
  Fraction_of_string "1.5" = Ok (mkFraction 3 2) /\
  Fraction_of_string "-2.50e1" = Ok (mkFraction (-25) 1) /\
  Fraction_of_string ".5" = Ok (mkFraction 1 2) /\
  Fraction_of_string "1e-2" = Ok (mkFraction 1 100) /\
  Fraction_of_string "6/4" = Ok (mkFraction 3 2) /\
  Fraction_of_string "1/0" = Raise ZeroDivisionError /\
  Fraction_of_string "1/" = Raise ValueError /\
  Fraction_of_string "." = Raise ValueError /\
  Fraction_of_string "1e" = Raise ValueError /\
  Fraction_of_string "abc" = Raise ValueError /\
  Fraction_of_string "-" = Raise ValueError.
Proof. repeat split; vm_compute; reflexivity. Qed.

(** ** The type manager *)

Module TypesFacts.
Import Types.

Lemma UPType_eqb_eq : forall a b, UPType_eqb a b = true <-> a = b.
Proof.
  induction a using UPType_father_ind; destruct b as [|l' u'|l' u'|n' [f'|]];
    simpl; try (split; congruence).
  - rewrite andb_true_iff, !(option_eqb_eq Z.eqb Z.eqb_eq). split.
    + intros [-> ->]; reflexivity.
    + intros H; injection H; auto.
  - rewrite andb_true_iff, !(option_eqb_eq Fraction_eqb Fraction_eqb_eq). split.
    + intros [-> ->]; reflexivity.
    + intros H; injection H; auto.
  - rewrite andb_true_iff, String.eqb_eq. split; [intros [_ H]|intros H]; congruence.
  - rewrite andb_true_iff, String.eqb_eq. split.
    + intros [-> _]; reflexivity.
    + intros H; injection H; auto.
  - rewrite andb_true_iff, String.eqb_eq, IHa. split.
    + intros [-> ->]; reflexivity.
    + intros H; injection H; auto.
  - rewrite andb_true_iff, String.eqb_eq. split; [intros [_ H]|intros H]; congruence.
Qed.

Lemma UPType_eqb_refl t : UPType_eqb t t = true.
Proof. apply UPType_eqb_eq; reflexivity. Qed.


(** A user type whose generator ends normally and meets no name twice. *)
Definition good (t : UPType) : Prop :=
  is_user_type t = true /\
  snd (ancestors_from t) = None /\
  NoDup (map type_name (fst (ancestors_from t))).

Lemma dict_get_In {K V} (eqb : K -> K -> bool) (d : list (K * V)) k v :
  dict_get eqb d k = Some v -> In v (map snd d).
Proof.
  induction d as [|[k' v'] d IH]; simpl; [discriminate|].
  destruct (eqb k' k); [intros [= ->]; auto | auto].
Qed.

Lemma any_name_is_false n items tail :
  any_name_is n items tail = Ok false ->
  tail = None /\ ~ In n (map type_name items).
Proof.
  induction items as [|a items IH]; simpl.
  - destruct tail; [discriminate|]. auto.
  - destruct a as [| | |an af]; simpl; try discriminate.
    destruct (String.eqb an n) eqn:E; [discriminate|].
    intros H. destruct (IH H) as [-> Hn]. split; [reflexivity|].
    intros [->|Hin]; [rewrite String.eqb_refl in E; discriminate | auto].
Qed.

Lemma ancestors_from_chain t :
  snd (ancestors_from t) = None -> father_chain t (fst (ancestors_from t)).
Proof.
  induction t using UPType_father_ind; simpl; try discriminate.
  - auto.
  - destruct (ancestors_from t) as [l e] eqn:E. simpl in *. auto.
Qed.

Lemma UserType_good tm n f t tm' :
  (forall ft, f = Some ft -> good ft) ->
  (forall u, In u (user_types_of tm) -> good u) ->
  UserType tm n f = Ok (t, tm') ->
  forall u, In u (user_types_of tm') -> good u.
Proof.
  intros Hf Htm. unfold UserType.
  destruct (dict_get user_key_eqb (_user_types tm) (n, f)) as [t0|] eqn:Eg.
  - intros [= <- <-]. exact Htm.
  - destruct f as [ft|].
    + destruct (Hf ft eq_refl) as (Hu & He & Hn).
      unfold user_type_ancestors. rewrite Hu.
      destruct (ancestors_from ft) as [items tail] eqn:Ea. simpl in He, Hn.
      destruct (any_name_is n items tail) as [[|]| |] eqn:Ean; simpl; try discriminate.
      rewrite Hu. intros [= <- <-]. unfold user_types_of; simpl.
      rewrite map_app. intros u [Hin|[<-|[]]]%in_app_or; [auto|].
      apply any_name_is_false in Ean. destruct Ean as [_ Hni].
      split; [reflexivity|]. simpl. rewrite Ea. simpl.
      split; [assumption|]. constructor; assumption.
    + simpl. intros [= <- <-]. unfold user_types_of; simpl.
      rewrite map_app. intros u [Hin|[<-|[]]]%in_app_or; [auto|].
      split; [reflexivity|]. simpl. split; [reflexivity|].
      constructor; [intros []|constructor].
Qed.

Lemma built_good {tm} : built tm -> forall {u}, In u (user_types_of tm) -> good u.
Proof.
  induction 1 as [|tm lb ub Hb IH|tm lb ub Hb IH|tm n f t tm' Hb IH Hf Hu].
  - intros u [].
  - unfold IntType. destruct (dict_get _ _ _); exact IH.
  - unfold RealType. destruct (dict_get _ _ _); exact IH.
  - eapply UserType_good; eauto.
Qed.

Lemma NoDup_of_map {A B} (g : A -> B) (l : list A) : NoDup (map g l) -> NoDup l.
Proof.
  induction l as [|a l IH]; simpl; intros H; [constructor|].
  inversion H as [|? ? Hn Hd]; subst. constructor; [|auto].
  intros Hin. apply Hn. apply in_map. exact Hin.
Qed.

(** C9. For a user type [t] handed out by a type manager built through its
    own methods, [user_type_ancestors t] ends normally after finitely many
    types: it yields [t] first, then the father of each yielded type up to a
    type without father, and it yields no type (and no type name) twice. *)
Theorem user_type_ancestors_chain tm t :
  built tm -> In t (user_types_of tm) ->
  exists chain,
    user_type_ancestors t = (chain, None) /\
    father_chain t chain /\
    NoDup chain /\
    NoDup (map type_name chain).
Proof.
  intros Hb Hin. destruct (built_good Hb Hin) as (Hu & He & Hn).
  exists (fst (ancestors_from t)). unfold user_type_ancestors. rewrite Hu.
  split; [|split; [|split]].
  - destruct (ancestors_from t); simpl in *; congruence.
  - apply ancestors_from_chain; assumption.
  - eapply NoDup_of_map; eassumption.
  - assumption.
Qed.

(** The manager that declared [vehicle] and then [truck - vehicle]. *)
Definition tm_vehicle_truck : TypeManager :=
  mkTM [] []
    [(("vehicle", None), UserT "vehicle" None);
     (("truck", Some (UserT "vehicle" None)),
      UserT "truck" (Some (UserT "vehicle" None)))].

Lemma built_tm_vehicle_truck : built tm_vehicle_truck.
Proof.
  eapply (built_UserType (mkTM [] [] [(("vehicle", None), UserT "vehicle" None)])
            "truck" (Some (UserT "vehicle" None))).
  - eapply (built_UserType TypeManager_init "vehicle" None).
    + exact built_init.
    + discriminate.
    + reflexivity.
  - intros ft [= <-]. simpl. auto.
  - reflexivity.
Defined.

Lemma user_type_ancestors_chain_witness :
  exists chain,
    user_type_ancestors (UserT "truck" (Some (UserT "vehicle" None))) = (chain, None) /\
    father_chain (UserT "truck" (Some (UserT "vehicle" None))) chain /\
    NoDup chain /\
    NoDup (map type_name chain).
Proof.
  apply (user_type_ancestors_chain tm_vehicle_truck).
  - exact built_tm_vehicle_truck.
  - simpl. auto.
Defined.

End TypesFacts.
(** ** The expression compiler *)

Module ReaderFacts.
Import Types Reader.

Ltac break_match :=
  match goal with
  | |- context [match ?x with _ => _ end] =>
      lazymatch x with
      | context [match _ with _ => _ end] => fail
      | _ => destruct x eqn:?
      end
  end.

Lemma size_pos e : 1 <= size e.
Proof. destruct e; simpl; lia. Qed.

Lemma size_In_le c l : In c l -> size c <= list_sum (map size l).
Proof.
  induction l as [|x l IH]; simpl; [intros []|].
  intros [->|H]; [lia|]. specialize (IH H). lia.
Qed.

Lemma getitem_In loc l i c : getitem (Lst loc l) i = Ok c -> In c l.
Proof.
  simpl. destruct (nth_error l i) eqn:E; [|discriminate].
  intros [= <-]. eapply nth_error_In; eassumption.
Qed.

Lemma getitem_size e i c : getitem e i = Ok c -> size c < size e.
Proof.
  destruct e as [loc s|loc l].
  - simpl. destruct (i <? String.length s)%nat; discriminate.
  - intros H. apply getitem_In, size_In_le in H. simpl. lia.
Qed.

Lemma list_sum_rev l : list_sum (rev l) = list_sum l.
Proof.
  induction l as [|x l IH]; simpl; [reflexivity|].
  rewrite list_sum_app, IH. simpl. lia.
Qed.

Lemma stack_measure_app a b : stack_measure (a ++ b) = stack_measure a + stack_measure b.
Proof. unfold stack_measure. rewrite map_app, list_sum_app. reflexivity. Qed.

Lemma stack_measure_rev a : stack_measure (rev a) = stack_measure a.
Proof. unfold stack_measure. rewrite map_rev, list_sum_rev. reflexivity. Qed.

Lemma stack_measure_children (var : list (string * UPVariable)) l :
  stack_measure (map (fun c => (var, c, false)) l) = 2 * list_sum (map size l).
Proof.
  unfold stack_measure. induction l as [|x l IH]; simpl in *; [reflexivity|]. lia.
Qed.

Lemma pop_n_finishes n solved : pop_n n solved <> OutOfFuel.
Proof. unfold pop_n. destruct (n <=? List.length solved)%nat; discriminate. Qed.

Lemma getitem_finishes e i : getitem e i <> OutOfFuel.
Proof.
  destruct e; simpl; [destruct (_ <? _)%nat | destruct (nth_error _ _)]; discriminate.
Qed.

Lemma find_fluent_finishes P n : find_fluent P n <> OutOfFuel.
Proof. unfold find_fluent. destruct (find _ _); discriminate. Qed.

Lemma find_object_finishes P n : find_object P n <> OutOfFuel.
Proof. unfold find_object. destruct (find _ _); discriminate. Qed.

Lemma Fraction_make_finishes n d : Fraction_make n d <> OutOfFuel.
Proof. unfold Fraction_make. destruct (_ =? _)%Z; discriminate. Qed.

Lemma Fraction_of_string_finishes s : Fraction_of_string s <> OutOfFuel.
Proof.
  unfold Fraction_of_string.
  repeat (break_match; try discriminate; try apply Fraction_make_finishes).
Qed.

Lemma bind_finishes {A B} (r : Result A) (k : A -> Result B) :
  r <> OutOfFuel -> (forall a, r = Ok a -> k a <> OutOfFuel) -> bind r k <> OutOfFuel.
Proof. destruct r; simpl; intros H1 H2; [apply H2; reflexivity|discriminate|congruence]. Qed.

Lemma combine_finishes self P asg var exp solved : Reader.combine self P asg var exp solved <> OutOfFuel.
Proof.
  unfold Reader.combine.
  apply bind_finishes; [apply getitem_finishes|]. intros e0 _.
  repeat first
    [ discriminate
    | apply bind_finishes; [first [apply pop_n_finishes|apply find_fluent_finishes]|intros [? ?] _]
    | apply bind_finishes; [first [apply pop_n_finishes|apply find_fluent_finishes]|intros ? _]
    | break_match ].
Qed.

Lemma resolve_token_finishes P act asg var span tok :
  resolve_token P act asg var span tok <> OutOfFuel.
Proof.
  unfold resolve_token, parameter.
  repeat first
    [ discriminate
    | apply bind_finishes; [first [apply find_fluent_finishes|apply find_object_finishes]|intros ? _]
    | match goal with H : Fraction_of_string _ = OutOfFuel |- _ =>
        exfalso; exact (Fraction_of_string_finishes _ H) end
    | break_match ].
Qed.

Lemma bind_variables_finishes tm groups vars : bind_variables tm groups vars <> OutOfFuel.
Proof.
  revert vars. induction groups as [|g groups IH]; simpl; intros vars; [discriminate|].
  destruct (group_type tm g); [apply IH|discriminate].
Qed.

Lemma joined_values_finishes e : joined_values e <> OutOfFuel.
Proof.
  destruct e as [? [|? ?]|? l]; simpl; try discriminate.
  destruct (forallb _ l); discriminate.
Qed.

Lemma params_of_finishes self s : params_of self s <> OutOfFuel.
Proof. unfold params_of. destruct (_pp_parameters self s); discriminate. Qed.

Lemma descend_finishes self P tm asg var exp children :
  descend self P tm asg var exp children <> OutOfFuel.
Proof.
  unfold descend.
  repeat first
    [ discriminate
    | apply bind_finishes;
      [first [apply getitem_finishes|apply joined_values_finishes
             |apply params_of_finishes|apply bind_variables_finishes]|intros ? _]
    | break_match ].
Qed.

Lemma bind_Ok {A B} (r : Result A) (k : A -> Result B) b :
  bind r k = Ok b -> exists a, r = Ok a /\ k a = Ok b.
Proof. destruct r; simpl; [eauto|discriminate|discriminate]. Qed.

Ltac inv_bind H :=
  let a := fresh "x" in
  let H1 := fresh "E" in
  apply bind_Ok in H; destruct H as (a & H1 & H); cbv beta in H.

Ltac break_match_in H :=
  match type of H with
  | context [match ?x with _ => _ end] =>
      lazymatch x with
      | context [match _ with _ => _ end] => fail
      | _ => destruct x eqn:?
      end
  end.

(** Unfolds an equation [... = Ok _] down to the successful branch. *)
Ltac inv_ok H :=
  repeat first
    [ discriminate H
    | match type of H with
      | bind _ _ = Ok _ => inv_bind H
      end
    | break_match_in H ];
  try match type of H with
      | Ok _ = Ok _ => inversion H; subst; clear H
      end.

(** The same for every equation of that kind among the hypotheses. *)
Ltac inv_all :=
  repeat match goal with
  | H : bind _ _ = Ok _ |- _ => inv_bind H
  | H : Ok _ = Ok _ |- _ => inversion H; subst; clear H
  | H : Raise _ = Ok _ |- _ => discriminate H
  | H : OutOfFuel = Ok _ |- _ => discriminate H
  | H : (if ?c then _ else _) = Ok _ |- _ => destruct c eqn:?
  | H : match ?x with _ => _ end = Ok _ |- _ => destruct x eqn:?
  end.

Lemma descend_measure self P tm asg var loc children pushed out :
  descend self P tm asg var (Lst loc children) children = Ok (pushed, out) ->
  stack_measure pushed < 2 * size (Lst loc children).
Proof.
  unfold descend. destruct children as [|e0 others].
  - intros [= <- <-]. unfold stack_measure. simpl. lia.
  - pose proof (size_pos e0) as He0.
    assert (Hall : stack_measure ((var, Lst loc (e0 :: others), true)
                     :: map (fun c => (var, c, false)) others)
                   < 2 * size (Lst loc (e0 :: others))).
    { change (stack_measure (?a :: ?l)) with (frame_measure a + stack_measure l).
      rewrite stack_measure_children. simpl. lia. }
    assert (Hsub : forall i e, getitem (Lst loc (e0 :: others)) (S i) = Ok e ->
                     1 + 2 * size e < 2 * size (Lst loc (e0 :: others))).
    { intros i e H. simpl in H.
      destruct (nth_error others i) eqn:E; [|discriminate]. injection H as <-.
      apply nth_error_In, size_In_le in E. simpl. lia. }
    intros H. inv_ok H.
    all: try exact Hall.
    all: unfold stack_measure; simpl map; simpl list_sum.
    all: try (match goal with
              | H : getitem _ 2 = Ok ?e |- _ => apply Hsub in H
              | H : getitem _ 1 = Ok ?e |- _ => apply Hsub in H
              end).
    all: simpl in *; lia.
Qed.

(** The loop of [_parse_exp] ends within the turns its stack stands for. *)
Lemma parse_loop_finishes self P act tm asg fuel :
  forall stack solved,
    stack_measure stack <= fuel ->
    parse_loop self P act tm asg fuel stack solved <> OutOfFuel.
Proof.
  induction fuel as [|fuel IH]; intros [|[[var exp] status] stack] solved Hm.
  - simpl. destruct solved as [|? [|? ?]]; discriminate.
  - exfalso. unfold stack_measure in Hm. simpl in Hm.
    pose proof (size_pos exp). destruct status; lia.
  - simpl. destruct solved as [|? [|? ?]]; discriminate.
  - unfold stack_measure in Hm. simpl in Hm. simpl parse_loop.
    destruct status.
    + apply bind_finishes; [apply combine_finishes|]. intros solved' _.
      apply IH. unfold stack_measure. lia.
    + destruct exp as [span tok|loc children].
      * apply bind_finishes; [apply resolve_token_finishes|]. intros x _.
        apply IH. unfold stack_measure. simpl in Hm. lia.
      * apply bind_finishes; [apply descend_finishes|]. intros [pushed out] Hd.
        apply descend_measure in Hd.
        apply IH. rewrite stack_measure_app, stack_measure_rev.
        unfold stack_measure at 2. lia.
Qed.

(** [_parse_exp] returns a node or raises: the loop never needs more turns
    than it is given. *)
Lemma parse_exp_finishes self P act tm var exp asg :
  _parse_exp self P act tm var exp asg <> OutOfFuel.
Proof.
  unfold _parse_exp. apply parse_loop_finishes.
  unfold stack_measure. simpl. lia.
Qed.

(** On a leaf, [_parse_exp] is the resolution of the token. *)
Lemma parse_exp_leaf self P act tm var span tok asg :
  _parse_exp self P act tm var (Tok span tok) asg = resolve_token P act asg var span tok.
Proof.
  unfold _parse_exp. simpl. destruct (resolve_token P act asg var span tok); reflexivity.
Qed.

(** C10. An empty parenthesised expression [()] compiles, whatever the
    problem, the enclosing action and the scope, to the Boolean constant
    true: [_parse_exp] returns it and raises nothing. *)
Theorem empty_expression_is_true self P act tm var loc asg :
  _parse_exp self P act tm var (Lst loc []) asg = Ok TRUE.
Proof. reflexivity. Qed.

Lemma has_sigil_head c rest : has_sigil (String c rest) = Ascii.eqb c "?".
Proof.
  destruct c as [[] [] [] [] [] [] [] []]; reflexivity.
Qed.

Lemma bound_variable_head var c rest :
  bound_variable var (String c rest) = if Ascii.eqb c "?" then str_get var rest else None.
Proof.
  destruct c as [[] [] [] [] [] [] [] []]; reflexivity.
Qed.

Lemma has_fluent_find P n :
  has_fluent P n = true ->
  exists f, find_fluent P n = Ok f /\ In f (fluents P) /\ fluent_name f = n.
Proof.
  unfold has_fluent, find_fluent. intros H.
  destruct (find (fun f => String.eqb (fluent_name f) n) (fluents P)) as [f|] eqn:E.
  - exists f. apply find_some in E. destruct E as [Hin Hn].
    apply String.eqb_eq in Hn. auto.
  - apply existsb_exists in H. destruct H as (f & Hin & Hn).
    eapply find_none in E; [|eassumption]. congruence.
Qed.

Lemma has_object_find P n :
  has_object P n = true ->
  exists o, find_object P n = Ok o /\ In o (objects_all P) /\ obj_name o = n.
Proof.
  unfold has_object, find_object. intros H.
  destruct (find (fun o => String.eqb (obj_name o) n) (objects_all P)) as [o|] eqn:E.
  - exists o. apply find_some in E. destruct E as [Hin Hn].
    apply String.eqb_eq in Hn. auto.
  - apply existsb_exists in H. destruct H as (o & Hin & Hn).
    eapply find_none in E; [|eassumption]. congruence.
Qed.

Lemma number_leaf_compiles self P act tm var asg span tok q :
  reaches_number P asg tok = true ->
  Fraction_of_string tok = Ok q ->
  _parse_exp self P act tm var (Tok span tok) asg = Ok (constant_of q).
Proof.
  intros Hr Hq. rewrite parse_exp_leaf. unfold resolve_token, reaches_number in *.
  destruct tok as [|c rest]; [discriminate|].
  rewrite has_sigil_head in Hr.
  destruct (Ascii.eqb c "?"); [discriminate|].
  destruct (str_get asg (String c rest)); [discriminate|].
  destruct (has_fluent P (String c rest)); [discriminate|].
  destruct (has_object P (String c rest)); [discriminate|].
  rewrite Hq. unfold constant_of. destruct (denominator q =? 1)%Z; reflexivity.
Qed.

(** C8. A leaf that is read as a number and that [Fraction] accepts compiles
    to an integer constant when the fraction's denominator is 1 and to a
    real constant otherwise; so [3], [3.0] and [3/1] all compile to the
    integer constant 3, and [1.5] to the real constant 3/2. *)
Theorem numeric_literal_constant self P act tm var asg span tok :
  reaches_number P asg tok = true ->
  (forall q, Fraction_of_string tok = Ok q ->
     _parse_exp self P act tm var (Tok span tok) asg = Ok (constant_of q)) /\
  (In tok ["3"; "3.0"; "3/1"] ->
     _parse_exp self P act tm var (Tok span tok) asg = Ok (IntConstant 3)) /\
  (tok = "1.5" ->
     _parse_exp self P act tm var (Tok span tok) asg = Ok (RealConstant (mkFraction 3 2))).
Proof.
  intros Hr.
  assert (Hgen : forall q, Fraction_of_string tok = Ok q ->
            _parse_exp self P act tm var (Tok span tok) asg = Ok (constant_of q)).
  { intros q Hq. apply number_leaf_compiles; assumption. }
  split; [exact Hgen|split].
  - intros [<-|[<-|[<-|[]]]]; apply (Hgen (mkFraction 3 1)); reflexivity.
  - intros ->. apply (Hgen (mkFraction 3 2)). reflexivity.
Qed.

Lemma numeric_literal_constant_witness :
  _parse_exp example_reader (new_Problem Classical "d") None [] [] (Tok (0, 3) "3.0") []
  = Ok (IntConstant 3).
Proof.
  apply (numeric_literal_constant example_reader (new_Problem Classical "d") None [] [] []
           (0, 3) "3.0").
  - reflexivity.
  - simpl. auto.
Defined.

(** C5, as the code has it.  A leaf is resolved by the first rule that
    applies, in this order: a quantifier variable in scope; an object bound
    by a quantified assignment; with the sigil [?], a parameter of the
    enclosing action; a declared fluent, applied to no argument; a declared
    object; a number.  A leaf that no rule resolves yields no node: with the
    sigil it raises a [SyntaxError] with the leaf's span inside an action
    and fails the assertion [act is not None] outside of one; without the
    sigil, a text that is no rational raises a [SyntaxError] with the leaf's
    span. *)
Theorem leaf_resolution_order self P act tm var asg span c rest :
  let tok := String c rest in
  let r := _parse_exp self P act tm var (Tok span tok) asg in
  (forall v, bound_variable var tok = Some v -> r = Ok (VariableExp v)) /\
  (bound_variable var tok = None ->
   (forall o, str_get asg tok = Some o -> r = Ok (ObjectExp o)) /\
   (str_get asg tok = None ->
    (has_sigil tok = true ->
       match act with
       | None => r = Raise AssertionError
       | Some a =>
           match str_get (action_parameters a) rest with
           | Some t => r = Ok (ParameterExp (mkParameter rest t))
           | None => r = Raise (SyntaxError (UndefinedName rest) (Some span))
           end
       end) /\
    (has_sigil tok = false ->
     (has_fluent P tok = true ->
        exists f, In f (fluents P) /\ fluent_name f = tok /\ r = Ok (FluentExp f [])) /\
     (has_fluent P tok = false ->
      (has_object P tok = true ->
         exists o, In o (objects_all P) /\ obj_name o = tok /\ r = Ok (ObjectExp o)) /\
      (has_object P tok = false ->
         match Fraction_of_string tok with
         | Ok q => r = Ok (constant_of q)
         | Raise ValueError => r = Raise (SyntaxError InvalidExpression (Some span))
         | _ => True
         end))))).
Proof.
  intros tok r. subst r. rewrite parse_exp_leaf. subst tok.
  rewrite bound_variable_head, has_sigil_head. unfold resolve_token.
  destruct (Ascii.eqb c "?") eqn:Ec.
  - destruct (str_get var rest) as [v|] eqn:Ev.
    + split; [intros v' [= <-]; reflexivity|discriminate].
    + split; [discriminate|]. intros _.
      destruct (str_get asg (String c rest)) as [o|] eqn:Eo.
      * split; [intros o' [= <-]; reflexivity|discriminate].
      * split; [discriminate|]. intros _. split; [|discriminate]. intros _.
        destruct act as [a|]; [|reflexivity].
        unfold parameter. destruct (str_get (action_parameters a) rest); reflexivity.
  - split; [discriminate|]. intros _.
    destruct (str_get asg (String c rest)) as [o|] eqn:Eo.
    + split; [intros o' [= <-]; reflexivity|discriminate].
    + split; [discriminate|]. intros _. split; [discriminate|]. intros _.
      destruct (has_fluent P (String c rest)) eqn:Ef.
      * split; [|discriminate]. intros _.
        destruct (has_fluent_find _ _ Ef) as (f & Hf & Hin & Hn).
        exists f. rewrite Hf. auto.
      * split; [discriminate|]. intros _.
        destruct (has_object P (String c rest)) eqn:Eob.
        -- split; [|discriminate]. intros _.
           destruct (has_object_find _ _ Eob) as (o & Ho & Hin & Hn).
           exists o. rewrite Ho. auto.
        -- split; [discriminate|]. intros _.
           destruct (Fraction_of_string (String c rest)) as [q|e|]; [|destruct e|]; auto.
           unfold constant_of. destruct (denominator q =? 1)%Z; reflexivity.
Qed.

Lemma leaf_resolution_order_witness :
  _parse_exp example_reader (new_Problem Classical "d") None [] [] (Tok (5, 8) "abc") []
  = Raise (SyntaxError InvalidExpression (Some (5, 8))).
Proof.
  pose proof (leaf_resolution_order example_reader (new_Problem Classical "d") None
                [] [] [] (5, 8) "a" "bc") as H.
  cbv zeta in H. destruct H as [_ H].
  destruct (H eq_refl) as [_ H1].
  destruct (H1 eq_refl) as [_ H2].
  destruct (H2 eq_refl) as [_ H3].
  destruct (H3 eq_refl) as [_ H4].
  exact (H4 eq_refl).
Defined.

(** The claim C5 as the specification words it fails on a leaf with the
    sigil met outside of any action (in a goal, say): the leaf is no
    variable in scope, no bound object, no parameter, no fluent, no object
    and no number, and what is raised is the failed assertion, which
    carries no span. *)
Lemma sigil_leaf_outside_action_has_no_span :
  let P := new_Problem Classical "d" in
  bound_variable [] "?x" = None /\
  str_get (@nil (string * ModelObject)) "?x" = None /\
  has_fluent P "?x" = false /\ has_object P "?x" = false /\
  Fraction_of_string "?x" = Raise ValueError /\
  exists e,
    _parse_exp example_reader P None [] [] (Tok (5, 7) "?x") [] = Raise e /\
    carries_span e = false.
Proof.
  repeat split. exists AssertionError. split; reflexivity.
Qed.

End ReaderFacts.
(** ** Conditions, effects and the cost checks *)

Module AssembleFacts.
Import Types Reader ReaderFacts.

Arguments _parse_exp : simpl never.

(** The compiler looks at its enclosing action for the parameters only. *)
Lemma resolve_token_parameters P a b asg var span tok :
  action_parameters a = action_parameters b ->
  resolve_token P (Some a) asg var span tok = resolve_token P (Some b) asg var span tok.
Proof.
  intros H. unfold resolve_token, parameter. rewrite H. reflexivity.
Qed.

Lemma parse_loop_parameters self P a b tm asg fuel :
  action_parameters a = action_parameters b ->
  forall stack solved,
    parse_loop self P (Some a) tm asg fuel stack solved
    = parse_loop self P (Some b) tm asg fuel stack solved.
Proof.
  intros H. induction fuel as [|fuel IH]; intros [|[[var exp] status] stack] solved;
    try reflexivity.
  simpl. destruct status.
  - destruct (Reader.combine self P asg var exp solved); simpl; auto.
  - destruct exp as [span tok|loc children].
    + rewrite (resolve_token_parameters P a b asg var span tok H).
      destruct (resolve_token P (Some b) asg var span tok); simpl; auto.
    + destruct (descend self P tm asg var (Lst loc children) children) as [[pushed out]| |];
        simpl; auto.
Qed.

Lemma parse_exp_parameters self P a b tm var exp asg :
  action_parameters a = action_parameters b ->
  _parse_exp self P (Some a) tm var exp asg = _parse_exp self P (Some b) tm var exp asg.
Proof. intros H. unfold _parse_exp. apply parse_loop_parameters. exact H. Qed.

Lemma Timing_eqb_eq a b : Timing_eqb a b = true -> a = b.
Proof.
  destruct a as [d k], b as [d' k']. unfold Timing_eqb. simpl.
  rewrite andb_true_iff. intros [Hd Hk]. apply Fraction_eqb_eq in Hd. subst.
  destruct k, k'; try discriminate; reflexivity.
Qed.

Lemma TimeInterval_eqb_eq a b : TimeInterval_eqb a b = true -> a = b.
Proof.
  destruct a as [l u lo ro], b as [l' u' lo' ro']. unfold TimeInterval_eqb. simpl.
  rewrite !andb_true_iff. intros [[[Hl Hu] Hlo] Hro].
  apply Timing_eqb_eq in Hl, Hu. apply Bool.eqb_prop in Hlo, Hro. congruence.
Qed.

Lemma multi_add_new {K V} (eqb : K -> K -> bool) (d : list (K * list V)) k v :
  (forall a b, eqb a b = true -> a = b) ->
  exists l, In (k, l) (multi_add eqb d k v) /\ In v l.
Proof.
  intros Heq. induction d as [|[k' l] d IH]; simpl.
  - exists [v]. simpl. auto.
  - destruct (eqb k' k) eqn:E.
    + apply Heq in E. subst. exists (l ++ [v]). split; [left; reflexivity|].
      apply in_or_app. right. simpl. auto.
    + destruct IH as (l' & Hin & Hv). exists l'. simpl. auto.
Qed.

Lemma multi_add_old {K V} (eqb : K -> K -> bool) (d : list (K * list V)) k v j l x :
  In (j, l) d -> In x l ->
  exists l', In (j, l') (multi_add eqb d k v) /\ In x l'.
Proof.
  induction d as [|[k' l0] d IH]; simpl; [intros []|].
  intros [Heq|Hin] Hx.
  - injection Heq as -> ->. destruct (eqb j k).
    + exists (l ++ [v]). split; [left; reflexivity|apply in_or_app; left; exact Hx].
    + exists l. split; [left; reflexivity|exact Hx].
  - destruct (IH Hin Hx) as (l' & Hin' & Hx').
    destruct (eqb k' k).
    + exists l. split; [right; exact Hin|exact Hx].
    + exists l'. split; [right; exact Hin'|exact Hx'].
Qed.

Lemma holds_add_condition_new act i c : holds_condition (add_condition act i c) i c.
Proof.
  unfold holds_condition, add_condition. simpl.
  apply multi_add_new. exact TimeInterval_eqb_eq.
Qed.

Lemma holds_add_condition_old act i c j d :
  holds_condition act j d -> holds_condition (add_condition act i c) j d.
Proof.
  unfold holds_condition, add_condition. simpl.
  intros (cl & Hin & Hd). eapply multi_add_old; eassumption.
Qed.

(** One turn of the loop of [_add_condition] that ends well leaves the rest
    of the queue in place, keeps the parameters and loses no condition. *)
Lemma add_condition_step self P tm fuel exp vars rest store act act' :
  add_condition_loop self P tm (S fuel) ((exp, vars) :: rest) store act = Ok act' ->
  exists more store1 act1,
    add_condition_loop self P tm fuel (rest ++ more) store1 act1 = Ok act' /\
    da_parameters act1 = da_parameters act /\
    (forall j d, holds_condition act j d -> holds_condition act1 j d).
Proof.
  simpl. intros H. inv_ok H.
  all: first [ eexists _, _, _; split; [eassumption|]
             | exists []; eexists _, _; rewrite app_nil_r; split; [eassumption|] ].
  all: split; [reflexivity|]; intros j d Hd.
  all: first [exact Hd|apply holds_add_condition_old; exact Hd].
Qed.

Lemma add_condition_loop_keeps self P tm fuel :
  forall to_add store act act',
    add_condition_loop self P tm fuel to_add store act = Ok act' ->
    da_parameters act' = da_parameters act /\
    (forall j d, holds_condition act j d -> holds_condition act' j d).
Proof.
  induction fuel as [|fuel IH]; intros [|[exp vars] rest] store act act' H.
  - injection H as <-. auto.
  - discriminate.
  - injection H as <-. auto.
  - apply add_condition_step in H. destruct H as (more & store1 & act1 & H & Hp & Hc).
    apply IH in H. destruct H as [Hp' Hc']. split; [congruence|auto].
Qed.

Lemma add_condition_loop_over_all self P tm params fuel :
  forall to_add store act act',
    da_parameters act = params ->
    add_condition_loop self P tm fuel to_add store act = Ok act' ->
    forall e r scoped body,
      In (e, r) to_add -> tagged_over_all scoped e body ->
      attached_over_all self P tm params act' body (scoped || is_some r).
Proof.
  induction fuel as [|fuel IH]; intros [|[exp vars] rest] store act act' Hp H e r scoped body Hin Ht;
    try (destruct Hin; fail); try discriminate.
  destruct Hin as [Heq|Hin].
  - injection Heq as -> ->.
    inversion Ht as [loc l1 l2 body0|sc loc l0 children c body0 Hc Htc
                    |sc loc l0 vs inner extra body0 Hti]; subst.
    + simpl in H. inv_bind H.
      pose proof (add_condition_loop_keeps _ _ _ _ _ _ _ _ H) as [_ Hk].
      exists (store_get store r), x. split; [|split].
      * rewrite <- E. apply parse_exp_parameters. reflexivity.
      * destruct r; [discriminate|reflexivity].
      * apply Hk. destruct r; simpl; apply holds_add_condition_new.
    + simpl in H. eapply (IH _ _ _ _ eq_refl H c r); [|exact Htc].
      apply in_or_app. right. apply in_map_iff. exists c. auto.
    + simpl in H. inv_ok H.
      * pose proof (IH _ _ _ _ eq_refl H inner (Some n) sc body) as Ha.
        rewrite orb_true_r in Ha. apply Ha; [|exact Hti].
        apply in_or_app. right. simpl. auto.
      * pose proof (IH _ _ _ _ eq_refl H inner (Some (List.length store)) sc body) as Ha.
        rewrite orb_true_r in Ha. apply Ha; [|exact Hti].
        apply in_or_app. right. simpl. auto.
  - apply add_condition_step in H. destruct H as (more & store1 & act1 & H & Hp1 & _).
    eapply (IH _ _ _ _ _ H e r); [|exact Ht].
    apply in_or_app. left. exact Hin.
    Unshelve. congruence.
Qed.

(** C1, as the code has it.  When [_add_condition] reads the [:condition]
    section of a durative action to the end, every condition tagged [over
    all] in it, at any depth under [and] and [forall], is compiled and held
    by the action at the OPEN interval from its start timing to its end
    timing (closed by a universal quantifier when it stands under a
    [forall]). *)
Theorem over_all_condition_on_open_interval self P act exp tm act' scoped body :
  _add_condition self P act exp tm = Ok act' ->
  tagged_over_all scoped exp body ->
  attached_over_all self P tm (da_parameters act) act' body scoped.
Proof.
  intros H Ht. unfold _add_condition in H.
  pose proof (add_condition_loop_over_all self P tm (da_parameters act) _ _ _ _ _
                eq_refl H exp None scoped body (or_introl eq_refl) Ht) as Ha.
  rewrite orb_false_r in Ha. exact Ha.
Qed.

(** A problem with one fluent [p], and a durative action [move]. *)
Definition fluent_p : Fluent := mkFluent "p" BoolT [].
Definition problem_p : Problem := add_fluent (new_Problem Classical "d") fluent_p.
Definition action_move : DurativeAction := new_DurativeAction "move" [].

Lemma over_all_condition_on_open_interval_witness :
  attached_over_all example_reader problem_p [] [] 
    (add_condition action_move (OpenTimeInterval (StartTiming zero) (EndTiming zero))
       (FluentExp fluent_p []))
    (lst [tok "p"]) false.
Proof.
  apply (over_all_condition_on_open_interval example_reader problem_p action_move
           (lst [tok "and"; lst [tok "over"; tok "all"; lst [tok "p"]]]) []).
  - reflexivity.
  - eapply tagged_and; [|apply tagged_here]. left. reflexivity.
Defined.

(** The claim C1 as the specification words it fails: the interval at which
    the condition of [(over all (p))] is held is open at both ends, and the
    action holds nothing at the closed interval from start to end. *)
Lemma over_all_interval_is_not_closed :
  exists act',
    _add_condition example_reader problem_p action_move
      (lst [tok "over"; tok "all"; lst [tok "p"]]) [] = Ok act' /\
    conditions act'
    = [(OpenTimeInterval (StartTiming zero) (EndTiming zero), [FluentExp fluent_p []])] /\
    ~ holds_condition act' (ClosedTimeInterval (StartTiming zero) (EndTiming zero))
        (FluentExp fluent_p []).
Proof.
  eexists. split; [reflexivity|]. split; [reflexivity|].
  intros (cl & Hin & _). simpl in Hin. destruct Hin as [Heq|[]]. discriminate.
Qed.

Lemma cost_check_iff self act :
  _instantaneous_action_has_cost self act = true <->
  (forall c, In c (preconditions act) -> mentions self c = false) /\
  (forall e, In e (effects act) ->
     mentions self (value e) = false /\
     mentions self (condition e) = false /\
     (is_node (fluent e) (_totalcost self) = true ->
        is_increase e = true /\
        is_true (condition e) = true /\
        (is_int_constant (value e) || is_real_constant (value e)) = true)).
Proof.
  unfold _instantaneous_action_has_cost. split.
  - intros H. destruct (existsb (mentions self) (preconditions act)) eqn:Ep; [discriminate|].
    split.
    + intros c Hc. destruct (mentions self c) eqn:Em; [|reflexivity].
      assert (existsb (mentions self) (preconditions act) = true)
        by (apply existsb_exists; eauto). congruence.
    + intros e He. rewrite forallb_forall in H. specialize (H e He).
      unfold cost_effect_ok in H.
      destruct (mentions self (value e)); [discriminate|].
      destruct (mentions self (condition e)); [discriminate|]. simpl in H.
      split; [reflexivity|split; [reflexivity|]]. intros Hn. rewrite Hn in H.
      destruct (is_increase e); [|discriminate].
      destruct (is_true (condition e)); [|discriminate].
      destruct (is_int_constant (value e) || is_real_constant (value e)); [auto|discriminate].
  - intros [Hp He].
    destruct (existsb (mentions self) (preconditions act)) eqn:Ep.
    + apply existsb_exists in Ep. destruct Ep as (c & Hc & Hm).
      rewrite (Hp c Hc) in Hm. discriminate.
    + apply forallb_forall. intros e Hin. destruct (He e Hin) as (Hv & Hc & Hf).
      unfold cost_effect_ok. rewrite Hv, Hc. simpl.
      destruct (is_node (fluent e) (_totalcost self)); [|reflexivity].
      destruct (Hf eq_refl) as (-> & -> & ->). reflexivity.
Qed.

Lemma In_cost_effects self act e :
  In e (cost_effects self act) <->
  In e (effects act) /\ is_node (fluent e) (_totalcost self) = true.
Proof. unfold cost_effects. apply filter_In. Qed.

(** C2, as the code has it, for an action with one effect on the cost
    fluent at most.  [_instantaneous_action_has_cost] accepts it exactly
    when the cost fluent occurs in none of its preconditions and in no
    value or condition of its effects, and either it has no effect on the
    cost fluent, or its one effect on it is an unconditional [increase] by
    an integer or real constant, of either sign. *)
Theorem instantaneous_cost_check self act :
  (List.length (cost_effects self act) <= 1)%nat ->
  (_instantaneous_action_has_cost self act = true <->
   (forall c, In c (preconditions act) -> mentions self c = false) /\
   (forall e, In e (effects act) ->
      mentions self (value e) = false /\ mentions self (condition e) = false) /\
   (cost_effects self act = [] \/
    exists e,
      cost_effects self act = [e] /\
      kind e = INCREASE /\ condition e = TRUE /\
      ((exists z, value e = IntConstant z) \/ (exists q, value e = RealConstant q)))).
Proof.
  intros Hone. rewrite cost_check_iff. split.
  - intros [Hp He]. split; [exact Hp|]. split.
    + intros e Hin. destruct (He e Hin) as (Hv & Hc & _). auto.
    + destruct (cost_effects self act) as [|e [|e' rest]] eqn:Ec;
        [left; reflexivity| |simpl in Hone; lia].
      right. exists e. split; [reflexivity|].
      assert (Hin : In e (cost_effects self act)) by (rewrite Ec; left; reflexivity).
      apply In_cost_effects in Hin. destruct Hin as [Hin Hn].
      destruct (He e Hin) as (_ & _ & Hf). destruct (Hf Hn) as (Hi & Ht & Hk).
      unfold is_increase in Hi. unfold is_true in Ht.
      split; [destruct (kind e); try discriminate; reflexivity|].
      split; [destruct (condition e) as [[|]| | | | | | | |]; try discriminate; reflexivity|].
      destruct (value e); try discriminate; [left|right]; eexists; reflexivity.
  - intros (Hp & Hm & Hk). split; [exact Hp|]. intros e Hin.
    destruct (Hm e Hin) as [Hv Hc]. split; [exact Hv|]. split; [exact Hc|].
    intros Hn. assert (Hce : In e (cost_effects self act)) by (apply In_cost_effects; auto).
    destruct Hk as [Hnil|(e0 & Heq & Hi & Ht & Hv')].
    + rewrite Hnil in Hce. destruct Hce.
    + rewrite Heq in Hce. destruct Hce as [<-|[]].
      unfold is_increase, is_true. rewrite Hi, Ht.
      split; [reflexivity|]. split; [reflexivity|].
      destruct Hv' as [[z ->]|[q ->]]; reflexivity.
Qed.

Lemma instantaneous_cost_check_witness :
  _instantaneous_action_has_cost cost_reader
    (mkInstantaneous "a" [] [] [mkEffect total_cost (IntConstant 3) TRUE INCREASE] None)
  = true.
Proof.
  apply (instantaneous_cost_check cost_reader
           (mkInstantaneous "a" [] [] [mkEffect total_cost (IntConstant 3) TRUE INCREASE] None)).
  - simpl. lia.
  - split; [intros c []|]. split.
    + intros e [<-|[]]. split; reflexivity.
    + right. eexists. split; [reflexivity|]. split; [reflexivity|]. split; [reflexivity|].
      left. exists 3%Z. reflexivity.
Defined.

(** The claim C2 as the specification words it fails: an action whose one
    effect on the cost fluent is an unconditional increase by -1 passes the
    check. *)
Lemma negative_increase_passes :
  cost_effects cost_reader
    (mkInstantaneous "a" [] [] [mkEffect total_cost (IntConstant (-1)) TRUE INCREASE] None)
  = [mkEffect total_cost (IntConstant (-1)) TRUE INCREASE] /\
  _instantaneous_action_has_cost cost_reader
    (mkInstantaneous "a" [] [] [mkEffect total_cost (IntConstant (-1)) TRUE INCREASE] None)
  = true.
Proof. split; reflexivity. Qed.

End AssembleFacts.
(** ** [_parse_problem] *)

Module ProblemFacts.
Import Types Reader ReaderFacts AssembleFacts.

Arguments _parse_exp : simpl never.

Lemma declared_In d k : declared d k = true <-> In (_canonical k) (declared_names d).
Proof.
  unfold declared, declared_names. rewrite existsb_exists, in_map_iff. split.
  - intros ([k' f] & Hin & He). exists (k', f). split; [|exact Hin].
    unfold token_eqb in He. apply String.eqb_eq in He. exact He.
  - intros ([k' f] & He & Hin). exists (k', f). split; [exact Hin|].
    unfold token_eqb. apply String.eqb_eq. exact He.
Qed.

Lemma NoDup_snoc {A} (l : list A) x : NoDup l -> ~ In x l -> NoDup (l ++ [x]).
Proof.
  intros Hn Hx. induction Hn as [|y l Hy Hn IH]; simpl.
  - constructor; [intros []|constructor].
  - constructor.
    + intros Hin. apply in_app_or in Hin. destruct Hin as [Hin|[->|[]]]; [auto|].
      apply Hx. left. reflexivity.
    + apply IH. intros Hin. apply Hx. right. exact Hin.
Qed.

(** The inner loop over the names of one line either adds them all, or
    stops at a name met before. *)
Lemma declare_names_spec names f :
  forall d, NoDup (declared_names d) ->
    match declare_names names f d with
    | Ok d' =>
        declared_names d' = declared_names d ++ map _canonical names /\
        NoDup (declared_names d')
    | Raise e =>
        (exists n, e = SyntaxError (TypeDeclaredTwice n) None) /\
        ~ NoDup (declared_names d ++ map _canonical names)
    | OutOfFuel => False
    end.
Proof.
  induction names as [|x names IH]; intros d Hd; simpl.
  - rewrite app_nil_r. auto.
  - destruct (declared d x) eqn:E.
    + split; [eauto|]. apply declared_In in E. intros Hn.
      apply NoDup_remove_2 in Hn. apply Hn. apply in_or_app. left. exact E.
    + assert (Hx : ~ In (_canonical x) (declared_names d)).
      { intros Hin. apply declared_In in Hin. congruence. }
      specialize (IH (d ++ [(x, f)])).
      assert (Hk : declared_names (d ++ [(x, f)]) = declared_names d ++ [_canonical x]).
      { unfold declared_names. rewrite map_app. reflexivity. }
      rewrite Hk in IH. specialize (IH (NoDup_snoc _ _ Hd Hx)).
      rewrite <- app_assoc in IH. exact IH.
Qed.

Lemma extract_type_declarations_spec needed lines :
  forall d, NoDup (declared_names d) ->
    match extract_type_declarations needed lines d with
    | Ok d' =>
        declared_names d' = declared_names d ++ map _canonical (flat_map fst lines) /\
        NoDup (declared_names d')
    | Raise e =>
        (exists n, e = SyntaxError (TypeDeclaredTwice n) None) /\
        ~ NoDup (declared_names d ++ map _canonical (flat_map fst lines))
    | OutOfFuel => False
    end.
Proof.
  induction lines as [|[names wf] lines IH]; intros d Hd; simpl.
  - rewrite app_nil_r. auto.
  - pose proof (declare_names_spec names
                  (match wf with
                   | Some f => Some f
                   | None => if needed then Some Object else None
                   end) d Hd) as Hs.
    destruct (declare_names names _ d) as [d'|e|]; simpl.
    + destruct Hs as [Hk Hn]. specialize (IH d' Hn).
      rewrite Hk in IH. rewrite map_app, app_assoc. exact IH.
    + destruct Hs as [He Hn]. split; [exact He|].
      intros Hnd. apply Hn. rewrite map_app, app_assoc in Hnd.
      apply NoDup_app_remove_r in Hnd. exact Hnd.
    + exact Hs.
Qed.

(** C6. A domain whose [:types] section declares one name twice, the two
    spellings taken without regard to case, is refused: whatever the order
    of the declarations, the fathers they name and the rest of the domain
    and of the problem, [_parse_problem] raises the error "Type ... is
    declared more than once". *)
Theorem duplicate_type_declaration_fails self tm dom pr :
  ~ NoDup (map _canonical (flat_map fst (types dom))) ->
  exists n, _parse_problem self tm dom pr = Raise (SyntaxError (TypeDeclaredTwice n) None).
Proof.
  intros Hdup. unfold _parse_problem, parse_domain.
  pose proof (extract_type_declarations_spec (_check_if_object_type_is_needed dom)
                (types dom) [] (NoDup_nil _)) as Hs.
  destruct (extract_type_declarations _ (types dom) []) as [d|e|]; simpl in *.
  - destruct Hs as [Hk Hn]. exfalso. apply Hdup. rewrite <- Hk. exact Hn.
  - destruct Hs as [[n ->] _]. exists n. reflexivity.
  - destruct Hs.
Qed.

Lemma duplicate_type_declaration_fails_witness :
  exists n,
    _parse_problem example_reader TypeManager_init
      (mkDomainRes "d" [] [([mkToken "truck"], None); ([mkToken "Truck"], None)] [] [] [] [])
      None
    = Raise (SyntaxError (TypeDeclaredTwice n) None).
Proof.
  apply duplicate_type_declaration_fails. simpl. intros H.
  inversion H as [|x l Hin Hn]; subst. apply Hin. left. reflexivity.
Defined.

Lemma no_fluent_without_letter P n :
  named_by_grammar P -> starts_with_letter n = false ->
  has_fluent P n = false /\ has_object P n = false.
Proof.
  intros [Hf Ho] Hn. unfold has_fluent, has_object. split.
  - destruct (existsb _ (fluents P)) eqn:E; [|reflexivity].
    apply existsb_exists in E. destruct E as (f & Hin & He).
    apply String.eqb_eq in He. rewrite Forall_forall in Hf.
    specialize (Hf f Hin). congruence.
  - destruct (existsb _ (objects_all P)) eqn:E; [|reflexivity].
    apply existsb_exists in E. destruct E as (o & Hin & He).
    apply String.eqb_eq in He. rewrite Forall_forall in Ho.
    specialize (Ho o Hin). congruence.
Qed.

Lemma digit_leaf_compiles self P act tm span n q :
  named_by_grammar P -> starts_with_letter n = false -> has_sigil n = false ->
  n <> "" -> Fraction_of_string n = Ok q ->
  _parse_exp self P act tm [] (Tok span n) [] = Ok (constant_of q).
Proof.
  intros Hg Hl Hs Hne Hq. apply number_leaf_compiles; [|exact Hq].
  destruct (no_fluent_without_letter P n Hg Hl) as [Hf Ho].
  unfold reaches_number. destruct n; [congruence|]. rewrite Hs, Hf, Ho. reflexivity.
Qed.

Lemma duration_bounds_finishes self P dur_act tm dur conjuncts :
  forall lower upper,
    duration_bounds self P dur_act tm dur conjuncts lower upper <> OutOfFuel.
Proof.
  induction conjuncts as [|dj rest IH]; intros lower upper; simpl; [discriminate|].
  apply bind_finishes; [apply getitem_finishes|]. intros dj0 _.
  repeat first
    [ discriminate
    | apply IH
    | apply bind_finishes;
      [first [apply getitem_finishes|apply parse_exp_finishes]|intros ? _]
    | break_match ].
Qed.

Lemma parse_duration_finishes self P dur_act tm dur :
  parse_duration self P dur_act tm dur <> OutOfFuel.
Proof.
  unfold parse_duration.
  apply bind_finishes; [apply getitem_finishes|]. intros dur0 _.
  repeat first
    [ discriminate
    | apply bind_finishes;
      [first [apply getitem_finishes|apply parse_exp_finishes
             |apply duration_bounds_finishes]|intros ? _]
    | break_match ].
Qed.

Lemma getitem_two_headed e op x0 x2 :
  getitem e 0 = Ok x0 -> value_is x0 op = true -> getitem e 2 = Ok x2 ->
  headed_with_two op e = true.
Proof.
  destruct e as [? s|? [|a [|b [|c l]]]]; simpl; try discriminate.
  - destruct (0 <? String.length s)%nat; discriminate.
  - intros [= <-] H _. exact H.
Qed.

(** A duration that is read to the end has one of the two shapes. *)
Lemma parse_duration_shape self P dur_act tm dur d :
  parse_duration self P dur_act tm dur = Ok d -> accepted_duration_shape dur = true.
Proof.
  unfold parse_duration, accepted_duration_shape, equality_form, interval_form.
  intros H. inv_bind H. destruct (value_is x "=") eqn:Eeq.
  - inv_bind H. rewrite (getitem_two_headed _ _ _ _ E Eeq E0). reflexivity.
  - destruct (value_is x "and") eqn:Eand; [|discriminate].
    destruct dur as [? s|loc l]; [simpl in E; destruct (_ <? _)%nat; discriminate|].
    destruct l as [|h l]; [discriminate|]. simpl in E. injection E as ->.
    apply orb_true_iff. right. simpl tail_children in H.
    destruct l as [|c1 [|c2 [|c3 l]]]; simpl in H.
    + discriminate.
    + exfalso. inv_all.
    + rewrite Eand. simpl.
      inv_all;
        try (exfalso;
             match goal with
             | Hc : (_ && false)%bool = true |- _ => rewrite andb_false_r in Hc; discriminate Hc
             end);
        repeat match goal with
        | Hv : (value_is _ _ && _)%bool = true |- _ => apply andb_true_iff in Hv; destruct Hv as [Hv _]
        end;
        repeat match goal with
        | H0 : getitem ?e 0 = Ok ?a, Hv : value_is ?a ?op = true, H2 : getitem ?e 2 = Ok _ |- _ =>
            rewrite (getitem_two_headed e op _ _ H0 Hv H2); clear H0
        end;
        simpl; rewrite ?orb_true_r; try reflexivity.
    + exfalso. inv_all;
        match goal with
        | Hc : (_ && false)%bool = true |- _ => rewrite andb_false_r in Hc; discriminate Hc
        end.
Qed.

(** C7, as the code has it.  For a durative action of a problem whose
    names are the grammar's, [(and (>= ?duration 5) (<= ?duration 10))] is
    read as the closed duration interval from 5 to 10 and [(= ?duration 7)]
    as the fixed duration 7.  Of a duration the loop reads the heads and
    the element of index 2 of each bound only: a list headed by [=] is the
    fixed duration of its second operand, whatever its first operand and
    the operands after the second are, and a conjunction of a list headed
    by [>=] and a list headed by [<=], in either order, is the closed
    interval of their second operands.  A duration of no such shape raises
    an error. *)
Theorem duration_constraint_shapes self P dur_act tm :
  named_by_grammar P ->
  (forall s, parse_duration self P dur_act tm (duration_5_10 s)
             = Ok (set_duration_constraint dur_act
                     (ClosedDurationInterval (IntConstant 5) (IntConstant 10)))) /\
  (forall s, parse_duration self P dur_act tm (duration_7 s)
             = Ok (set_fixed_duration dur_act (IntConstant 7))) /\
  (forall dur, accepted_duration_shape dur = false ->
               exists e, parse_duration self P dur_act tm dur = Raise e) /\
  (forall loc l0 x v more,
     parse_duration self P dur_act tm (Lst loc (Tok l0 "=" :: x :: v :: more))
     = c <- _parse_exp self P (Some (Durative dur_act)) tm [] v [] ;;
       Ok (set_fixed_duration dur_act c)) /\
  (forall loc l0 loc1 l1 x1 v1 more1 loc2 l2 x2 v2 more2,
     parse_duration self P dur_act tm
       (Lst loc [Tok l0 "and"; Lst loc1 (Tok l1 ">=" :: x1 :: v1 :: more1);
                 Lst loc2 (Tok l2 "<=" :: x2 :: v2 :: more2)])
     = lower <- _parse_exp self P (Some (Durative dur_act)) tm [] v1 [] ;;
       upper <- _parse_exp self P (Some (Durative dur_act)) tm [] v2 [] ;;
       Ok (set_duration_constraint dur_act (ClosedDurationInterval lower upper))) /\
  (forall loc l0 loc1 l1 x1 v1 more1 loc2 l2 x2 v2 more2,
     parse_duration self P dur_act tm
       (Lst loc [Tok l0 "and"; Lst loc1 (Tok l1 "<=" :: x1 :: v1 :: more1);
                 Lst loc2 (Tok l2 ">=" :: x2 :: v2 :: more2)])
     = upper <- _parse_exp self P (Some (Durative dur_act)) tm [] v1 [] ;;
       lower <- _parse_exp self P (Some (Durative dur_act)) tm [] v2 [] ;;
       Ok (set_duration_constraint dur_act (ClosedDurationInterval lower upper))).
Proof.
  intros Hg.
  assert (H5 : forall act span, _parse_exp self P act tm [] (Tok span "5") [] = Ok (IntConstant 5)).
  { intros. apply (digit_leaf_compiles self P act tm span "5" (mkFraction 5 1) Hg);
      try reflexivity. discriminate. }
  assert (H10 : forall act span, _parse_exp self P act tm [] (Tok span "10") [] = Ok (IntConstant 10)).
  { intros. apply (digit_leaf_compiles self P act tm span "10" (mkFraction 10 1) Hg);
      try reflexivity. discriminate. }
  assert (H7 : forall act span, _parse_exp self P act tm [] (Tok span "7") [] = Ok (IntConstant 7)).
  { intros. apply (digit_leaf_compiles self P act tm span "7" (mkFraction 7 1) Hg);
      try reflexivity. discriminate. }
  split; [|split; [|split; [|split; [|split]]]].
  - intros s. unfold parse_duration, duration_5_10. simpl. rewrite H5. simpl.
    rewrite H10. reflexivity.
  - intros s. unfold parse_duration, duration_7. simpl. rewrite H7. reflexivity.
  - intros dur Hs.
    destruct (parse_duration self P dur_act tm dur) as [d|e|] eqn:E.
    + apply parse_duration_shape in E. congruence.
    + exists e. reflexivity.
    + exfalso. exact (parse_duration_finishes _ _ _ _ _ E).
  - intros loc l0 x v more. unfold parse_duration. reflexivity.
  - intros loc l0 loc1 l1 x1 v1 more1 loc2 l2 x2 v2 more2. unfold parse_duration.
    cbn [getitem nth_error bind value_is tail_children duration_bounds String.eqb Ascii.eqb
         Bool.eqb andb].
    destruct (_parse_exp self P (Some (Durative dur_act)) tm [] v1 []) as [lower| |];
      cbn [bind]; try reflexivity.
    destruct (_parse_exp self P (Some (Durative dur_act)) tm [] v2 []) as [upper| |];
      reflexivity.
  - intros loc l0 loc1 l1 x1 v1 more1 loc2 l2 x2 v2 more2. unfold parse_duration.
    cbn [getitem nth_error bind value_is tail_children duration_bounds String.eqb Ascii.eqb
         Bool.eqb andb].
    destruct (_parse_exp self P (Some (Durative dur_act)) tm [] v1 []) as [upper| |];
      cbn [bind]; try reflexivity.
    destruct (_parse_exp self P (Some (Durative dur_act)) tm [] v2 []) as [lower| |];
      reflexivity.
Qed.

Lemma duration_constraint_shapes_witness :
  parse_duration example_reader problem_p action_move [] (duration_7 (fun _ => (0, 0)))
  = Ok (set_fixed_duration action_move (IntConstant 7)).
Proof.
  apply (duration_constraint_shapes example_reader problem_p action_move []).
  repeat constructor.
Defined.

(** The claim C7 as the specification words it fails on its last part: the
    durations [(= banana 7)] and [(= ?duration 7 8 junk)] have neither of
    the two forms, and both are read as the fixed duration 7. *)
Lemma misshapen_durations_are_read :
  specified_duration_shape (lst [tok "="; tok "banana"; tok "7"]) = false /\
  parse_duration example_reader problem_p action_move []
    (lst [tok "="; tok "banana"; tok "7"])
  = Ok (set_fixed_duration action_move (IntConstant 7)) /\
  specified_duration_shape (lst [tok "="; tok "?duration"; tok "7"; tok "8"; tok "junk"])
  = false /\
  parse_duration example_reader problem_p action_move []
    (lst [tok "="; tok "?duration"; tok "7"; tok "8"; tok "junk"])
  = Ok (set_fixed_duration action_move (IntConstant 7)).
Proof. repeat split. Qed.

End ProblemFacts.
(** ** The metric *)

Module MetricFacts.
Import Types Reader ReaderFacts AssembleFacts ProblemFacts.

Arguments _parse_exp : simpl never.

Lemma list_eqb_refl {A} (eqb : A -> A -> bool) l :
  Forall (fun x => eqb x x = true) l -> list_eqb eqb l l = true.
Proof.
  induction 1 as [|x l Hx _ IH]; simpl; [reflexivity|]. rewrite Hx, IH. reflexivity.
Qed.

Lemma list_eqb_eq {A} (eqb : A -> A -> bool) :
  (forall x y, eqb x y = true -> x = y) ->
  forall l l', list_eqb eqb l l' = true -> l = l'.
Proof.
  intros H. induction l as [|x l IH]; intros [|y l']; simpl; try discriminate; [reflexivity|].
  rewrite andb_true_iff. intros [Hx Hl]. apply H in Hx. apply IH in Hl. congruence.
Qed.

Lemma typed_eqb_refl x : typed_eqb x x = true.
Proof.
  unfold typed_eqb. rewrite String.eqb_refl, TypesFacts.UPType_eqb_refl. reflexivity.
Qed.

Lemma typed_eqb_eq x y : typed_eqb x y = true -> x = y.
Proof.
  destruct x, y. unfold typed_eqb. simpl. rewrite andb_true_iff.
  intros [Hn Ht]. apply String.eqb_eq in Hn. apply TypesFacts.UPType_eqb_eq in Ht. congruence.
Qed.

Lemma Fluent_eqb_refl f : Fluent_eqb f f = true.
Proof.
  unfold Fluent_eqb. rewrite String.eqb_refl, TypesFacts.UPType_eqb_refl. simpl.
  apply list_eqb_refl. apply Forall_forall. intros x _. apply typed_eqb_refl.
Qed.

Lemma Fluent_eqb_eq f g : Fluent_eqb f g = true -> f = g.
Proof.
  destruct f, g. unfold Fluent_eqb. simpl. rewrite !andb_true_iff.
  intros [[Hn Ht] Hs]. apply String.eqb_eq in Hn. apply TypesFacts.UPType_eqb_eq in Ht.
  apply (list_eqb_eq typed_eqb typed_eqb_eq) in Hs. congruence.
Qed.

Lemma Fraction_eqb_refl q : Fraction_eqb q q = true.
Proof. apply Fraction_eqb_eq. reflexivity. Qed.

Lemma FNode_eqb_refl e : FNode_eqb e e = true.
Proof.
  induction e using FNode_nested_ind; simpl.
  - destruct b; reflexivity.
  - apply Z.eqb_refl.
  - apply Fraction_eqb_refl.
  - unfold Parameter_eqb. rewrite String.eqb_refl, TypesFacts.UPType_eqb_refl. reflexivity.
  - unfold Variable_eqb. rewrite String.eqb_refl, TypesFacts.UPType_eqb_refl. reflexivity.
  - unfold ModelObject_eqb. rewrite String.eqb_refl, TypesFacts.UPType_eqb_refl. reflexivity.
  - rewrite Fluent_eqb_refl. simpl. apply list_eqb_refl. assumption.
  - replace (OperatorKind_eqb o o) with true by (destruct o; reflexivity). simpl.
    apply list_eqb_refl. assumption.
  - replace (QuantifierKind_eqb q q) with true by (destruct q; reflexivity).
    rewrite IHe. simpl. apply list_eqb_refl. apply Forall_forall. intros v _.
    unfold Variable_eqb. rewrite String.eqb_refl, TypesFacts.UPType_eqb_refl. reflexivity.
Qed.

Lemma Effect_eqb_refl e : Effect_eqb e e = true.
Proof.
  unfold Effect_eqb. rewrite !FNode_eqb_refl. destruct (kind e); reflexivity.
Qed.

(** [l.remove(x)] takes out the first occurrence and nothing else. *)
Lemma list_remove_first {A} (eqb : A -> A -> bool) x before after :
  eqb x x = true ->
  (forall y, In y before -> eqb y x = false) ->
  list_remove eqb x (before ++ x :: after) = Ok (before ++ after).
Proof.
  intros Hx. induction before as [|y before IH]; simpl; intros Hb.
  - rewrite Hx. reflexivity.
  - rewrite (Hb y (or_introl eq_refl)). rewrite IH; [reflexivity|].
    intros z Hz. apply Hb. right. exact Hz.
Qed.

Lemma find_first {A} (p : A -> bool) x before after :
  p x = true -> (forall y, In y before -> p y = false) ->
  find p (before ++ x :: after) = Some x.
Proof.
  intros Hx. induction before as [|y before IH]; simpl; intros Hb.
  - rewrite Hx. reflexivity.
  - rewrite (Hb y (or_introl eq_refl)). apply IH. intros z Hz. apply Hb. right. exact Hz.
Qed.

Lemma find_split {A} (p : A -> bool) l x :
  find p l = Some x ->
  exists before after, l = before ++ x :: after /\ (forall y, In y before -> p y = false).
Proof.
  induction l as [|y l IH]; simpl; [discriminate|].
  destruct (p y) eqn:E.
  - intros [= ->]. exists [], l. split; [reflexivity|intros ? []].
  - intros H. destruct (IH H) as (b & a & -> & Hb). exists (y :: b), a.
    split; [reflexivity|]. intros z [<-|Hz]; auto.
Qed.

Lemma mentions_found self tc e :
  _totalcost self = Some tc -> mentions self e = existsb (FNode_eqb tc) (fve_get e).
Proof. intros H. unfold mentions, occurs_in. rewrite H. reflexivity. Qed.

Lemma unit_cost_action_passes self tc a :
  _totalcost self = Some tc -> unit_cost_action self tc a ->
  _instantaneous_action_has_cost self a = true.
Proof.
  intros Htc [Hp (before & after & He & Hrest)]. apply cost_check_iff. split; [exact Hp|].
  intros e Hin. rewrite He in Hin. apply in_app_or in Hin.
  assert (Hother : In e (before ++ after) ->
            mentions self (value e) = false /\ mentions self (condition e) = false /\
            (is_node (fluent e) (_totalcost self) = true ->
             is_increase e = true /\ is_true (condition e) = true /\
             (is_int_constant (value e) || is_real_constant (value e)) = true)).
  { intros Hi. destruct (Hrest e Hi) as (Hf & Hv & Hc). split; [exact Hv|split; [exact Hc|]].
    unfold is_node. rewrite Htc, Hf. discriminate. }
  destruct Hin as [Hin|[<-|Hin]].
  - apply Hother. apply in_or_app. left. exact Hin.
  - simpl. unfold mentions. simpl. destruct (_totalcost self); simpl; auto.
  - apply Hother. apply in_or_app. right. exact Hin.
Qed.

Lemma domain_cost_flag_true self tc acts :
  _totalcost self = Some tc ->
  Forall (unit_cost_action self tc) acts ->
  domain_cost_flag self true (map Instantaneous acts) = true.
Proof.
  intros Htc H. unfold domain_cost_flag. induction H as [|a acts Ha _ IH]; simpl.
  - reflexivity.
  - rewrite (unit_cost_action_passes self tc a Htc Ha). exact IH.
Qed.

(** The loop of the metric over actions that each add 1 to the cost: it
    takes the cost effect out of every one of them, gives each the cost 1
    in the table, and clears [use_plan_length] when the test
    [cost.value != 1] says so. *)
Lemma strip_unit_costs self tc acts :
  Forall (unit_cost_action self tc) acts ->
  forall costs upl,
  exists acts',
    strip_costs self tc (map Instantaneous acts) costs upl
    = Ok (map Instantaneous acts',
          fold_left (fun c a => dict_set c (ia_name a) (IntConstant 1)) acts costs,
          fold_left (fun b _ => if _node_differs self (IntConstant 1) 1 then false else b)
            acts upl) /\
    Forall (fun a => forall e, In e (effects a) -> FNode_eqb (fluent e) tc = false) acts'.
Proof.
  induction 1 as [|a acts [_ (before & after & He & Hrest)] _ IH]; intros costs upl.
  - exists []. simpl. auto.
  - assert (Hb : forall y, In y before -> FNode_eqb (fluent y) tc = false).
    { intros y Hy. apply Hrest. apply in_or_app. left. exact Hy. }
    simpl. rewrite He.
    rewrite (find_first (fun e => FNode_eqb (fluent e) tc) (unit_increase tc) before after);
      [|apply FNode_eqb_refl|exact Hb].
    rewrite (list_remove_first Effect_eqb (unit_increase tc) before after);
      [|apply Effect_eqb_refl|].
    + simpl.
      destruct (IH (dict_set costs (ia_name a) (IntConstant 1))
                  (if _node_differs self (IntConstant 1) 1 then false else upl))
        as (acts' & Hs & Hf).
      rewrite Hs. simpl.
      exists (set_effects a (before ++ after) :: acts'). split; [reflexivity|].
      constructor; [|exact Hf]. simpl. intros e Hin. apply Hrest. exact Hin.
    + intros y Hy. unfold Effect_eqb. simpl. rewrite (Hb y Hy). reflexivity.
Qed.

Lemma plan_length_after_unit_costs self (acts : list InstantaneousAction) :
  fold_left (fun b _ => if _node_differs self (IntConstant 1) 1 then false else b) acts true
  = unit_costs_keep_plan_length self acts.
Proof.
  destruct acts as [|a acts]; [reflexivity|]. simpl.
  destruct (_node_differs self (IntConstant 1) 1); simpl.
  - induction acts; simpl; auto.
  - induction acts; simpl; auto.
Qed.

Lemma list_remove_not_in f l :
  NoDup l -> In f l -> exists l', list_remove Fluent_eqb f l = Ok l' /\ ~ In f l'.
Proof.
  induction l as [|g l IH]; simpl; [intros _ []|].
  intros Hn Hin. inversion Hn as [|? ? Hg Hl]; subst.
  destruct (Fluent_eqb g f) eqn:E.
  - apply Fluent_eqb_eq in E. subst. exists l. auto.
  - destruct Hin as [->|Hin]; [rewrite Fluent_eqb_refl in E; discriminate|].
    destruct (IH Hl Hin) as (l' & Hr & Hni). rewrite Hr. simpl.
    exists (g :: l'). split; [reflexivity|]. intros [->|Hi]; [|auto].
    rewrite Fluent_eqb_refl in E. discriminate.
Qed.

Lemma find_fluent_has P n f : find_fluent P n = Ok f -> has_fluent P n = true /\ In f (fluents P).
Proof.
  unfold find_fluent, has_fluent.
  destruct (find _ (fluents P)) as [g|] eqn:E; [|discriminate]. intros [= <-].
  apply find_some in E. destruct E as [Hin Hn]. split; [|exact Hin].
  apply existsb_exists. eauto.
Qed.

(** A declared fluent applied to nothing, [(f)], compiles to its
    expression when the manager takes the application. *)
Lemma nullary_fluent_compiles self P act tm var loc l0 n f asg :
  find_fluent P n = Ok f ->
  _em_accepts self f [] = true ->
  _operators n = None -> quantifier_of n = None -> _trajectory_constraints n = None ->
  String.eqb n "-" = false ->
  _parse_exp self P act tm var (Lst loc [Tok l0 n]) asg = Ok (FluentExp f []).
Proof.
  intros Hf Ha Ho Hq Ht Hm. destruct (find_fluent_has _ _ _ Hf) as [Hh _].
  unfold _parse_exp.
  cbn -[String.eqb _operators quantifier_of _trajectory_constraints has_fluent find_fluent].
  rewrite Hm, Ho, Hq, Ht, Hh.
  cbn -[String.eqb _operators quantifier_of _trajectory_constraints has_fluent find_fluent].
  rewrite Hm, Ho, Hq, Ht, Hh, Hf.
  cbn -[String.eqb _operators quantifier_of _trajectory_constraints has_fluent find_fluent].
  rewrite Ha. reflexivity.
Qed.

Lemma existsb_none {A} (p : A -> bool) l :
  (forall x, In x l -> p x = false) -> existsb p l = false.
Proof.
  intros H. destruct (existsb p l) eqn:E; [|reflexivity].
  apply existsb_exists in E. destruct E as (x & Hin & Hp). rewrite (H x Hin) in Hp. discriminate.
Qed.

Lemma durative_of_instantaneous acts :
  flat_map (fun a => match a with Durative d => [d] | _ => [] end) (map Instantaneous acts) = [].
Proof. induction acts; simpl; auto. Qed.

Lemma instantaneous_of_instantaneous acts :
  flat_map (fun a => match a with Instantaneous i => [i] | _ => [] end) (map Instantaneous acts)
  = acts.
Proof. induction acts; simpl; congruence. Qed.

Lemma popped_key_is_gone (d : list (FNode * FNode)) tc :
  dict_get FNode_eqb (filter (fun kv => negb (FNode_eqb (fst kv) tc)) d) tc = None.
Proof.
  induction d as [|[k v] d IH]; simpl; [reflexivity|].
  destruct (FNode_eqb k tc) eqn:E; simpl; [exact IH|]. rewrite E. exact IH.
Qed.

Lemma problem_has_actions_cost_true self P tc :
  _totalcost self = Some tc ->
  (exists v, initial_value P tc = Ok v /\ constant_value v = Ok zero) ->
  (forall t el e, In (t, el) (timed_effects P) -> In e el -> effect_mentions self e = false) ->
  (forall g, In g (goals P) -> mentions self g = false) ->
  _problem_has_actions_cost self P = Ok true.
Proof.
  intros Htc (v & Hv & Hc) Ht Hg. unfold _problem_has_actions_cost.
  rewrite Htc, Hv. simpl. rewrite Hc. simpl.
  rewrite existsb_none.
  - rewrite existsb_none; [reflexivity|exact Hg].
  - intros [t el] Hin. apply existsb_none. intros e He. eapply Ht; eassumption.
Qed.

(** C3, as the code has it.  Take a model whose reader met the function
    [total-cost], whose actions are all instantaneous and each apply, as
    their one effect on [total-cost], an unconditional increase by 1, where
    [total-cost] starts at 0 and is read by no precondition, no other
    effect, no timed effect and no goal.  With the metric [minimize
    (total-cost)], the last step of [_parse_problem] takes [total-cost] out
    of the model's fluents, of its initial values and of the effects of its
    actions, and adds one metric.  Which one rests on the test
    [cost.value != 1] that the code makes between the node of the increment
    and the integer 1, a comparison defined by the class of the nodes: the
    metric is "minimize the length of the plan" when the test answers no
    (or the model has no action), and otherwise "minimize the costs of the
    actions" with the table that gives every action the cost 1. *)
Theorem unit_costs_are_normalised self tm P f acts loc l0 :
  _totalcost self = Some (FluentExp f []) ->
  _em_accepts self f [] = true ->
  find_fluent P "total-cost" = Ok f ->
  NoDup (fluents P) ->
  actions P = map Instantaneous acts ->
  Forall (unit_cost_action self (FluentExp f [])) acts ->
  (exists v, initial_value P (FluentExp f []) = Ok v /\ constant_value v = Ok zero) ->
  (forall t el e, In (t, el) (timed_effects P) -> In e el -> effect_mentions self e = false) ->
  (forall g, In g (goals P) -> mentions self g = false) ->
  exists P',
    cost_and_metric self tm (domain_cost_flag self true (actions P)) (Some "minimize")
      (Some (Lst loc [Tok l0 "total-cost"])) P = Ok P' /\
    quality_metrics P'
    = quality_metrics P ++
      [if unit_costs_keep_plan_length self acts then MinimizeSequentialPlanLength
       else MinimizeActionCosts (unit_cost_table acts) (IntConstant 0)] /\
    ~ In f (fluents P') /\
    dict_get FNode_eqb (initial_value_dict P') (FluentExp f []) = None /\
    durative_actions P' = [] /\
    (forall a e, In a (instantaneous_actions P') -> In e (effects a) ->
                 FNode_eqb (fluent e) (FluentExp f []) = false).
Proof.
  intros Htc Hacc Hf Hnd Hacts Hunit Hinit Htimed Hgoals.
  destruct (find_fluent_has _ _ _ Hf) as [_ Hin].
  destruct (list_remove_not_in f (fluents P) Hnd Hin) as (fl & Hrem & Hout).
  destruct (strip_unit_costs self (FluentExp f []) acts Hunit [] true) as (acts' & Hstrip & Hclean).
  rewrite plan_length_after_unit_costs in Hstrip.
  fold (unit_cost_table acts) in Hstrip.
  unfold cost_and_metric. rewrite Hacts.
  rewrite (domain_cost_flag_true self _ acts Htc Hunit).
  rewrite (problem_has_actions_cost_true self P _ Htc Hinit Htimed Hgoals).
  unfold parse_metric.
  cbn -[_parse_exp strip_costs remove_fluent pop_initial_value].
  rewrite (nullary_fluent_compiles self P None tm [] loc l0 "total-cost" f [] Hf Hacc)
    by reflexivity.
  cbn -[strip_costs remove_fluent pop_initial_value FNode_eqb].
  rewrite Htc. cbn -[strip_costs remove_fluent pop_initial_value FNode_eqb].
  rewrite FNode_eqb_refl. cbn -[strip_costs remove_fluent pop_initial_value].
  unfold remove_fluent. rewrite Hrem.
  cbn -[strip_costs]. unfold durative_actions. cbn -[strip_costs].
  rewrite Hacts, durative_of_instantaneous, Hstrip. cbn -[unit_costs_keep_plan_length unit_cost_table].
  assert (Hrest : forall m,
    ~ In f (fluents (add_quality_metric (set_actions (pop_initial_value
         (update_problem P fl (objects_all P) (actions P) (user_types P)
            (initial_value_dict P) (timed_effects P) (goals P) (trajectory_constraints P)
            (quality_metrics P)) (FluentExp f [])) (map Instantaneous acts')) m)) /\
    dict_get FNode_eqb (initial_value_dict (add_quality_metric (set_actions (pop_initial_value
         (update_problem P fl (objects_all P) (actions P) (user_types P)
            (initial_value_dict P) (timed_effects P) (goals P) (trajectory_constraints P)
            (quality_metrics P)) (FluentExp f [])) (map Instantaneous acts')) m))
      (FluentExp f []) = None /\
    durative_actions (add_quality_metric (set_actions (pop_initial_value
         (update_problem P fl (objects_all P) (actions P) (user_types P)
            (initial_value_dict P) (timed_effects P) (goals P) (trajectory_constraints P)
            (quality_metrics P)) (FluentExp f [])) (map Instantaneous acts')) m) = [] /\
    (forall a e, In a (instantaneous_actions (add_quality_metric (set_actions (pop_initial_value
         (update_problem P fl (objects_all P) (actions P) (user_types P)
            (initial_value_dict P) (timed_effects P) (goals P) (trajectory_constraints P)
            (quality_metrics P)) (FluentExp f [])) (map Instantaneous acts')) m)) ->
                 In e (effects a) -> FNode_eqb (fluent e) (FluentExp f []) = false)).
  { intros m. cbn. split; [exact Hout|]. split; [apply popped_key_is_gone|].
    unfold durative_actions, instantaneous_actions. cbn.
    rewrite durative_of_instantaneous, instantaneous_of_instantaneous.
    split; [reflexivity|]. intros a e Ha. rewrite Forall_forall in Hclean. apply Hclean.
    exact Ha. }
  destruct (unit_costs_keep_plan_length self acts);
    (eexists; split; [reflexivity|]; split; [reflexivity|]; apply Hrest).
Qed.

Lemma unit_costs_are_normalised_witness :
  (exists P',
     cost_and_metric cost_reader []
       (domain_cost_flag cost_reader true (actions (unit_cost_problem []))) (Some "minimize")
       (Some (lst [tok "total-cost"])) (unit_cost_problem []) = Ok P' /\
     quality_metrics P'
     = [MinimizeActionCosts [("step", IntConstant 1)] (IntConstant 0)] /\
     ~ In fluent_total_cost (fluents P')) /\
  (exists P',
     cost_and_metric comparing_reader []
       (domain_cost_flag comparing_reader true (actions (unit_cost_problem []))) (Some "minimize")
       (Some (lst [tok "total-cost"])) (unit_cost_problem []) = Ok P' /\
     quality_metrics P' = [MinimizeSequentialPlanLength] /\
     ~ In fluent_total_cost (fluents P')).
Proof.
  assert (H : forall self,
            _totalcost self = Some total_cost -> _em_accepts self fluent_total_cost [] = true ->
            exists P',
              cost_and_metric self []
                (domain_cost_flag self true (actions (unit_cost_problem []))) (Some "minimize")
                (Some (lst [tok "total-cost"])) (unit_cost_problem []) = Ok P' /\
              quality_metrics P'
              = [if unit_costs_keep_plan_length self
                      [mkInstantaneous "step" [] [] [unit_increase total_cost] None]
                 then MinimizeSequentialPlanLength
                 else MinimizeActionCosts
                        (unit_cost_table
                           [mkInstantaneous "step" [] [] [unit_increase total_cost] None])
                        (IntConstant 0)] /\
              ~ In fluent_total_cost (fluents P')).
  { intros self Htc Hacc.
    destruct (unit_costs_are_normalised self [] (unit_cost_problem []) fluent_total_cost
                [mkInstantaneous "step" [] [] [unit_increase total_cost] None] (0, 0) (0, 0))
      as (P' & H1 & H2 & H3 & _).
    - exact Htc.
    - exact Hacc.
    - reflexivity.
    - repeat constructor. intros [].
    - reflexivity.
    - constructor; [|constructor]. split.
      + intros c [].
      + exists [], []. split; [reflexivity|]. intros e [].
    - exists (IntConstant 0). split; reflexivity.
    - intros t el e [].
    - intros g [].
    - exists P'. split; [exact H1|]. split; [exact H2|exact H3]. }
  split.
  - exact (H cost_reader eq_refl eq_refl).
  - exact (H comparing_reader eq_refl eq_refl).
Defined.

(** The claim C3 as the specification words it fails on a model that meets
    all it asks for (the function [total-cost] started at 0, one action
    whose one effect on it is the unconditional increase by 1, no durative
    action, the metric [minimize (total-cost)]) and whose action moreover
    reads [total-cost] in its precondition: the metric stays the expression
    [total-cost], and the fluent stays in the model. *)
Lemma guarded_unit_cost_keeps_expression_metric :
  let guard := Apply GE [total_cost; IntConstant 0] in
  let P := unit_cost_problem [guard] in
  actions P = [Instantaneous (mkInstantaneous "step" [] [guard] [unit_increase total_cost] None)] /\
  initial_value P total_cost = Ok (IntConstant 0) /\
  exists P',
    cost_and_metric cost_reader [] (domain_cost_flag cost_reader true (actions P))
      (Some "minimize") (Some (lst [tok "total-cost"])) P = Ok P' /\
    quality_metrics P' = [MinimizeExpressionOnFinalState total_cost] /\
    In fluent_total_cost (fluents P').
Proof.
  split; [reflexivity|]. split; [reflexivity|].
  eexists. split; [reflexivity|]. split; [reflexivity|]. simpl. auto.
Qed.

(** An action with two increases of the cost fluent passes the cost check,
    and the loop of the metric takes out the first of them only: the second
    stays in the action, on a fluent that the model has lost, and the table
    of costs does not count it. *)
Lemma repeated_increase_is_half_removed :
  let b := mkInstantaneous "b" [] []
             [mkEffect total_cost (IntConstant 1) TRUE INCREASE;
              mkEffect total_cost (IntConstant 2) TRUE INCREASE] None in
  let P := set_initial_value
             (add_action (add_fluent (new_Problem Classical "d") fluent_total_cost)
                (Instantaneous b))
             total_cost (IntConstant 0) in
  _instantaneous_action_has_cost cost_reader b = true /\
  exists P',
    cost_and_metric cost_reader [] (domain_cost_flag cost_reader true (actions P))
      (Some "minimize") (Some (lst [tok "total-cost"])) P = Ok P' /\
    actions P'
    = [Instantaneous (mkInstantaneous "b" [] []
                        [mkEffect total_cost (IntConstant 2) TRUE INCREASE] None)] /\
    ~ In fluent_total_cost (fluents P') /\
    quality_metrics P' = [MinimizeActionCosts [("b", IntConstant 1)] (IntConstant 0)].
Proof.
  split; [reflexivity|].
  eexists. split; [reflexivity|]. split; [reflexivity|]. split; [|reflexivity].
  simpl. tauto.
Qed.

End MetricFacts.
(** ** Quantified effects *)

Module UniversalFacts.
Import Types Reader ReaderFacts AssembleFacts ProblemFacts MetricFacts.

Arguments _parse_exp : simpl never.

(** The compiler looks at the problem for its fluents and objects only. *)
Lemma parse_loop_problem self P Q act tm asg fuel :
  fluents P = fluents Q -> objects_all P = objects_all Q ->
  forall stack solved,
    parse_loop self P act tm asg fuel stack solved
    = parse_loop self Q act tm asg fuel stack solved.
Proof.
  intros Hf Ho.
  assert (Hhf : forall n, has_fluent P n = has_fluent Q n)
    by (intros; unfold has_fluent; rewrite Hf; reflexivity).
  assert (Hff : forall n, find_fluent P n = find_fluent Q n)
    by (intros; unfold find_fluent; rewrite Hf; reflexivity).
  assert (Hho : forall n, has_object P n = has_object Q n)
    by (intros; unfold has_object; rewrite Ho; reflexivity).
  assert (Hfo : forall n, find_object P n = find_object Q n)
    by (intros; unfold find_object; rewrite Ho; reflexivity).
  assert (Hhead : forall h, head_has_fluent P h = head_has_fluent Q h)
    by (intros [h|]; simpl; auto).
  induction fuel as [|fuel IH]; intros [|[[var exp] status] stack] solved; try reflexivity.
  simpl. destruct status.
  - assert (Hc : Reader.combine self P asg var exp solved = Reader.combine self Q asg var exp solved).
    { unfold Reader.combine. destruct (getitem exp 0); simpl; try reflexivity.
      rewrite Hhead. destruct (value_str a); simpl; rewrite ?Hff; reflexivity. }
    rewrite Hc. destruct (Reader.combine self Q asg var exp solved); simpl; auto.
  - destruct exp as [span tok|loc children].
    + assert (Hr : resolve_token P act asg var span tok = resolve_token Q act asg var span tok).
      { unfold resolve_token. destruct tok; [reflexivity|].
        rewrite Hhf, Hff, Hho, Hfo. reflexivity. }
      rewrite Hr. destruct (resolve_token Q act asg var span tok); simpl; auto.
    + assert (Hd : descend self P tm asg var (Lst loc children) children
                   = descend self Q tm asg var (Lst loc children) children).
      { unfold descend. destruct children; [reflexivity|]. rewrite Hhead. reflexivity. }
      rewrite Hd. destruct (descend self Q tm asg var (Lst loc children) children)
        as [[pushed out]| |]; simpl; auto.
Qed.

Lemma parse_exp_same self P Q a b tm var exp asg :
  fluents P = fluents Q -> objects_all P = objects_all Q ->
  action_parameters a = action_parameters b ->
  _parse_exp self P (Some a) tm var exp asg = _parse_exp self Q (Some b) tm var exp asg.
Proof.
  intros Hf Ho Hp. rewrite (parse_exp_parameters self P a b tm var exp asg Hp).
  unfold _parse_exp. apply parse_loop_problem; assumption.
Qed.

Lemma set_effects_same a : set_effects a (effects a ++ []) = a.
Proof. destruct a. unfold set_effects. simpl. rewrite app_nil_r. reflexivity. Qed.

Lemma product_length {A} (ls : list (list A)) :
  List.length (product ls) = fold_right Nat.mul 1 (map (@List.length A) ls).
Proof.
  induction ls as [|l ls IH]; simpl; [reflexivity|].
  rewrite <- IH. clear IH. induction l as [|x l IHl]; simpl; [reflexivity|].
  rewrite length_app, length_map, IHl. reflexivity.
Qed.

Lemma head_is_value h s : head_is (value_str h) s = value_is h s.
Proof. destruct h; reflexivity. Qed.

Lemma add_effect_loop_nil self P key tm timing asg fuel act ua :
  add_effect_loop self P key tm timing asg fuel [] act ua = Ok (act, ua).
Proof. destruct fuel; reflexivity. Qed.

(** A single effect adds exactly one effect to an instantaneous action, and
    which one does not depend on the effects the action has already, nor on
    the actions of the problem. *)
Lemma add_single_effect self P key a tm e2 asg r :
  single_effect e2 = true ->
  _add_effect self P key (Instantaneous a) tm None e2 TRUE None asg = Ok r ->
  exists e,
    r = (Instantaneous (set_effects a (effects a ++ [e])), None) /\
    forall Q b,
      fluents P = fluents Q -> objects_all P = objects_all Q ->
      ia_parameters a = ia_parameters b ->
      _add_effect self Q key (Instantaneous b) tm None e2 TRUE None asg
      = Ok (Instantaneous (set_effects b (effects b ++ [e])), None).
Proof.
  intros Hs H. destruct e2 as [? ?|loc [|h t]]; try discriminate.
  unfold single_effect in Hs. rewrite !andb_true_iff, !negb_true_iff in Hs.
  destruct Hs as [[Hand Hwhen] Hforall].
  unfold _add_effect in *. simpl size in *.
  cbn [add_effect_loop len List.length Nat.eqb getitem nth_error bind] in H |- *.
  rewrite !head_is_value in H. rewrite Hand, Hwhen, Hforall in H.
  assert (Hpe : forall Q b, fluents P = fluents Q -> objects_all P = objects_all Q ->
            ia_parameters a = ia_parameters b ->
            forall e, _parse_exp self Q (Some (Instantaneous b)) tm [] e asg
                      = _parse_exp self P (Some (Instantaneous a)) tm [] e asg).
  { intros Q b Hf Ho Hp e. symmetry. apply parse_exp_same; assumption. }
  destruct (value_is h "not") eqn:Hnot;
    [|destruct (value_is h "assign") eqn:Hassign;
      [|destruct (value_is h "increase") eqn:Hinc;
        [|destruct (value_is h "decrease") eqn:Hdec]]];
    inv_all;
    repeat match goal with
    | Hk : add_effect_kind _ _ _ _ _ _ = Ok _ |- _ =>
        cbn [add_effect_kind] in Hk; inversion Hk; subst; clear Hk
    | Hl : add_effect_loop _ _ _ _ _ _ _ [] _ _ = Ok _ |- _ =>
        rewrite add_effect_loop_nil in Hl; inversion Hl; subst; clear Hl
    end;
    (eexists; split; [reflexivity|]);
    intros Q b Hf Ho Hp;
    cbn [add_effect_loop len List.length Nat.eqb getitem nth_error bind];
    rewrite !head_is_value, ?Hand, ?Hwhen, ?Hforall, ?Hnot, ?Hassign, ?Hinc, ?Hdec;
    repeat match goal with
    | Hg : match ?t with _ => _ end = Some _ |- context [match ?t with _ => _ end] =>
        rewrite Hg
    | Hc : _parse_exp self P _ _ _ ?e _ = Ok _ |- _ =>
        rewrite (Hpe Q b Hf Ho Hp e), Hc; clear Hc
    | _ => progress cbn [bind add_effect_kind add_effect_loop]
    | _ => rewrite add_effect_loop_nil
    end;
    reflexivity.
Qed.

Lemma nth_error_replace {A} (l : list A) key x y :
  nth_error l key = Some y ->
  nth_error (firstn key l ++ x :: skipn (S key) l) key = Some x /\
  forall j, j <> key ->
    nth_error (firstn key l ++ x :: skipn (S key) l) j = nth_error l j.
Proof.
  revert key. induction l as [|z l IH]; intros [|key]; simpl; try discriminate.
  - intros _. split; [reflexivity|]. intros [|j] Hj; [congruence|reflexivity].
  - intros H. destruct (IH key H) as [H1 H2]. split; [exact H1|].
    intros [|j] Hj; [reflexivity|]. simpl. apply H2. congruence.
Qed.

Lemma fold_left_failed {A B} (f : A -> B -> Result A) l r :
  (forall a, r <> Ok a) ->
  forall a, fold_left (fun r o => x <- r ;; f x o) l r <> Ok a.
Proof.
  revert r. induction l as [|o l IH]; simpl; intros r Hr a; [apply Hr|].
  apply IH. intros a'. destruct r; simpl; [exfalso; eapply Hr; reflexivity|discriminate|discriminate].
Qed.

Lemma fold_left_steps self tm key eff names insts :
  forall P P',
    fold_left (fun r objs => x <- r ;; expand_instance self tm key eff names x objs)
      insts (Ok P) = Ok P' ->
    expansion_steps self tm key eff names P insts P'.
Proof.
  induction insts as [|objs insts IH]; simpl; intros P P' H.
  - injection H as <-. constructor.
  - destruct (expand_instance self tm key eff names P objs) as [P1| |] eqn:E.
    + econstructor; [exact E|]. apply IH. exact H.
    + exfalso. eapply fold_left_failed; [|exact H]. discriminate.
    + exfalso. eapply fold_left_failed; [|exact H]. discriminate.
Qed.

End UniversalFacts.
(** ** How the stack machine composes *)

Module ComposeFacts.
Import Types Reader ReaderFacts Samples Notions.

Arguments _parse_exp : simpl never.

Lemma pop_n_app n solved xs rest srest :
  pop_n n solved = Ok (xs, rest) -> pop_n n (solved ++ srest) = Ok (xs, rest ++ srest).
Proof.
  unfold pop_n. destruct (n <=? List.length solved)%nat eqn:E; [|discriminate].
  apply Nat.leb_le in E. intros [= <- <-].
  rewrite length_app.
  replace (n <=? List.length solved + List.length srest)%nat with true
    by (symmetry; apply Nat.leb_le; lia).
  rewrite firstn_app, skipn_app.
  replace (n - List.length solved) with 0 by lia. simpl. rewrite app_nil_r. reflexivity.
Qed.

Lemma combine_app self P asg var exp solved solved1 srest :
  Reader.combine self P asg var exp solved = Ok solved1 ->
  Reader.combine self P asg var exp (solved ++ srest) = Ok (solved1 ++ srest).
Proof.
  unfold Reader.combine. intros H. inv_bind H. rewrite E. cbn [bind].
  repeat match type of H with
  | (if ?c then _ else _) = Ok _ => destruct c eqn:?
  | match ?x with _ => _ end = Ok _ => destruct x eqn:?
  | bind (pop_n ?n solved) _ = Ok _ =>
      let E' := fresh "Ep" in
      destruct (pop_n n solved) as [[xs rest]| |] eqn:E'; [|discriminate H|discriminate H];
      rewrite (pop_n_app _ _ _ _ srest E'); cbn [bind] in H |- *
  | bind (find_fluent ?P ?n) _ = Ok _ =>
      destruct (find_fluent P n); [|discriminate H|discriminate H]; cbn [bind] in H |- *
  end;
  try discriminate H; try (injection H as <-; reflexivity).
Qed.

(** What a part of the stack computes does not depend on what lies under
    it: a run that ends with the node [x] is, with more frames and more
    solved nodes underneath, the start of a run that goes on with [x] on top
    of the solved nodes. *)
Lemma parse_loop_frame self P act tm asg fuel :
  forall stack solved x,
    parse_loop self P act tm asg fuel stack solved = Ok x ->
    forall rest srest,
    exists used, used <= fuel /\
      forall extra,
        parse_loop self P act tm asg (used + extra) (stack ++ rest) (solved ++ srest)
        = parse_loop self P act tm asg extra rest (x :: srest).
Proof.
  induction fuel as [|fuel IH]; intros [|[[var exp] status] stack] solved x H rest srest.
  - exists 0. split; [lia|]. intros extra. simpl in H.
    destruct solved as [|y [|? ?]]; try discriminate. injection H as <-. reflexivity.
  - discriminate.
  - exists 0. split; [lia|]. intros extra. simpl in H.
    destruct solved as [|y [|? ?]]; try discriminate. injection H as <-. reflexivity.
  - simpl in H. destruct status.
    + inv_bind H. destruct (IH _ _ _ H rest srest) as (used & Hu & Hrun).
      exists (S used). split; [lia|]. intros extra. simpl.
      rewrite (combine_app _ _ _ _ _ _ _ srest E). cbn [bind]. apply Hrun.
    + destruct exp as [span tok|loc children].
      * inv_bind H. destruct (IH _ _ _ H rest srest) as (used & Hu & Hrun).
        exists (S used). split; [lia|]. intros extra. simpl. rewrite E. cbn [bind].
        apply (Hrun extra).
      * inv_bind H. destruct x0 as [pushed out].
        destruct (IH _ _ _ H rest srest) as (used & Hu & Hrun).
        exists (S used). split; [lia|]. intros extra. simpl. rewrite E. cbn [bind].
        rewrite <- app_assoc in Hrun. destruct out; apply (Hrun extra).
Qed.

(** More fuel does not change a result. *)
Lemma parse_loop_more_fuel self P act tm asg f1 :
  forall f2 stack solved,
    f1 <= f2 ->
    parse_loop self P act tm asg f1 stack solved <> OutOfFuel ->
    parse_loop self P act tm asg f2 stack solved
    = parse_loop self P act tm asg f1 stack solved.
Proof.
  induction f1 as [|f1 IH]; intros f2 [|[[var exp] status] stack] solved Hle Hne.
  - destruct f2; reflexivity.
  - exfalso. apply Hne. reflexivity.
  - destruct f2; reflexivity.
  - destruct f2 as [|f2]; [lia|]. simpl in *.
    destruct status.
    + destruct (Reader.combine self P asg var exp solved); simpl in *; try reflexivity.
      apply IH; [lia|exact Hne].
    + destruct exp as [span tok|loc children].
      * destruct (resolve_token P act asg var span tok); simpl in *; try reflexivity.
        apply IH; [lia|exact Hne].
      * destruct (descend self P tm asg var (Lst loc children) children) as [[pushed out]| |];
          simpl in *; try reflexivity.
        apply IH; [lia|exact Hne].
Qed.

(** Two runs of the loop that both end agree. *)
Lemma parse_loop_agree self P act tm asg f1 f2 stack solved x :
  parse_loop self P act tm asg f1 stack solved = Ok x ->
  parse_loop self P act tm asg f2 stack solved <> OutOfFuel ->
  parse_loop self P act tm asg f2 stack solved = Ok x.
Proof.
  intros H1 H2. destruct (Nat.le_ge_cases f1 f2) as [Hle|Hle].
  - rewrite (parse_loop_more_fuel self P act tm asg f1 f2 stack solved Hle); [exact H1|].
    rewrite H1. discriminate.
  - rewrite <- (parse_loop_more_fuel self P act tm asg f2 f1 stack solved Hle H2). exact H1.
Qed.

(** The frames of a list of operands, pushed in order, leave their nodes on
    [solved] in the order of the operands. *)
Lemma operands_in_order self P act tm asg var es cs :
  Forall2 (fun e c => _parse_exp self P act tm var e asg = Ok c) es cs ->
  forall rest srest,
  exists used,
    forall extra,
      parse_loop self P act tm asg (used + extra)
        (rev (map (fun c => (var, c, false)) es) ++ rest) srest
      = parse_loop self P act tm asg extra rest (cs ++ srest).
Proof.
  induction 1 as [|e c es cs He _ IH]; intros rest srest.
  - exists 0. intros extra. reflexivity.
  - simpl. destruct (IH ((var, e, false) :: rest) srest) as (u1 & H1).
    unfold _parse_exp in He.
    destruct (parse_loop_frame self P act tm asg _ _ _ _ He rest (cs ++ srest)) as (u2 & _ & H2).
    exists (u1 + u2). intros extra. rewrite <- app_assoc. simpl.
    rewrite <- Nat.add_assoc, H1. apply (H2 extra).
Qed.


Lemma parse_exp_from_run self P act tm var exp asg fuel x :
  parse_loop self P act tm asg fuel [(var, exp, false)] [] = Ok x ->
  _parse_exp self P act tm var exp asg = Ok x.
Proof.
  intros H. unfold _parse_exp. eapply parse_loop_agree; [exact H|].
  apply (parse_exp_finishes self P act tm var exp asg).
Qed.

Lemma parse_exp_raises_from_run self P act tm var exp asg fuel e :
  parse_loop self P act tm asg fuel [(var, exp, false)] [] = Raise e ->
  _parse_exp self P act tm var exp asg = Raise e.
Proof.
  intros H. unfold _parse_exp.
  pose proof (parse_exp_finishes self P act tm var exp asg) as Hfin. unfold _parse_exp in Hfin.
  destruct (Nat.le_ge_cases fuel (2 * size exp)) as [Hle|Hle].
  - rewrite (parse_loop_more_fuel self P act tm asg fuel _ _ _ Hle); [exact H|].
    rewrite H. discriminate.
  - rewrite <- (parse_loop_more_fuel self P act tm asg _ fuel _ _ Hle Hfin). exact H.
Qed.

Lemma Forall2_length_eq {A B} (R : A -> B -> Prop) l l' :
  Forall2 R l l' -> List.length l = List.length l'.
Proof. induction 1; simpl; congruence. Qed.

Lemma pop_n_all (cs : list FNode) n :
  n = List.length cs -> pop_n n (cs ++ []) = Ok (cs, []).
Proof.
  intros ->. unfold pop_n. rewrite app_nil_r, Nat.leb_refl, firstn_all, skipn_all.
  reflexivity.
Qed.

(** A list whose head is a token [s] that is not taken as the unary minus,
    and whose operands compile to [cs]: the run pushes the operands, solves
    them, and hands [cs], in the order of the operands, to the branch that
    builds the node. *)
Lemma application_run self P act tm asg var loc l s es cs :
  let exp := Lst loc (Tok l s :: es) in
  (String.eqb s "-" && (len exp =? 2)%nat) = false ->
  descend self P tm asg var exp (Tok l s :: es)
    = Ok ((var, exp, true) :: map (fun c => (var, c, false)) es, None) ->
  Forall2 (fun e c => _parse_exp self P act tm var e asg = Ok c) es cs ->
  forall node,
    Reader.combine self P asg var exp (cs ++ []) = Ok [node] ->
    _parse_exp self P act tm var exp asg = Ok node.
Proof.
  intros exp Hminus Hd Hes node Hc.
  destruct (operands_in_order self P act tm asg var es cs Hes [(var, exp, true)] [])
    as (used & Hrun).
  apply (parse_exp_from_run self P act tm var exp asg (S (used + 1))).
  change (parse_loop self P act tm asg (S (used + 1)) [(var, exp, false)] [])
    with (bind (descend self P tm asg var exp (Tok l s :: es))
            (fun x => match x with (pushed, out) =>
               parse_loop self P act tm asg (used + 1) (rev pushed ++ [])
                 (match out with Some x => x :: [] | None => [] end) end)).
  rewrite Hd. cbn [bind]. rewrite app_nil_r.
  change (rev ((var, exp, true) :: map (fun c => (var, c, false)) es))
    with (rev (map (fun c : CustomParseResults => (var, c, false)) es) ++ [(var, exp, true)]).
  rewrite Hrun.
  change (parse_loop self P act tm asg 1 [(var, exp, true)] (cs ++ []))
    with (bind (Reader.combine self P asg var exp (cs ++ []))
            (fun solved' => parse_loop self P act tm asg 0 [] solved')).
  rewrite Hc. reflexivity.
Qed.

(** The same run when the branch that builds the node raises. *)
Lemma application_raises self P act tm asg var loc l s es cs :
  let exp := Lst loc (Tok l s :: es) in
  (String.eqb s "-" && (len exp =? 2)%nat) = false ->
  descend self P tm asg var exp (Tok l s :: es)
    = Ok ((var, exp, true) :: map (fun c => (var, c, false)) es, None) ->
  Forall2 (fun e c => _parse_exp self P act tm var e asg = Ok c) es cs ->
  forall e,
    Reader.combine self P asg var exp (cs ++ []) = Raise e ->
    _parse_exp self P act tm var exp asg = Raise e.
Proof.
  intros exp Hminus Hd Hes e Hc.
  destruct (operands_in_order self P act tm asg var es cs Hes [(var, exp, true)] [])
    as (used & Hrun).
  apply (parse_exp_raises_from_run self P act tm var exp asg (S (used + 1))).
  change (parse_loop self P act tm asg (S (used + 1)) [(var, exp, false)] [])
    with (bind (descend self P tm asg var exp (Tok l s :: es))
            (fun x => match x with (pushed, out) =>
               parse_loop self P act tm asg (used + 1) (rev pushed ++ [])
                 (match out with Some x => x :: [] | None => [] end) end)).
  rewrite Hd. cbn [bind]. rewrite app_nil_r.
  change (rev ((var, exp, true) :: map (fun c => (var, c, false)) es))
    with (rev (map (fun c : CustomParseResults => (var, c, false)) es) ++ [(var, exp, true)]).
  rewrite Hrun.
  change (parse_loop self P act tm asg 1 [(var, exp, true)] (cs ++ []))
    with (bind (Reader.combine self P asg var exp (cs ++ []))
            (fun solved' => parse_loop self P act tm asg 0 [] solved')).
  rewrite Hc. reflexivity.
Qed.

(** X8. A list [(op e1 ... en)] whose head is in the table of
    operators, other than the one-operand minus, compiles to the operator
    applied to the compiled operands, in the order they are written. *)
Theorem operator_operands_in_order self P act tm asg var loc l s op es cs :
  _operators s = Some op ->
  (s = "-"%string -> List.length es <> 1) ->
  Forall2 (fun e c => _parse_exp self P act tm var e asg = Ok c) es cs ->
  _parse_exp self P act tm var (Lst loc (Tok l s :: es)) asg = Ok (Apply op cs).
Proof.
  intros Hop Hminus Hes.
  assert (Hm : (String.eqb s "-" && (len (Lst loc (Tok l s :: es)) =? 2)%nat) = false).
  { destruct (String.eqb s "-") eqn:E; [|reflexivity]. apply String.eqb_eq in E.
    simpl. destruct es as [|? [|? ?]]; try reflexivity. exfalso. apply (Hminus E). reflexivity. }
  apply (application_run self P act tm asg var loc l s es cs Hm).
  - unfold descend. cbn [value_str head_is by_head]. rewrite Hm, Hop. reflexivity.
  - exact Hes.
  - unfold Reader.combine. cbn [getitem nth_error bind value_str head_is by_head].
    rewrite Hm, Hop. rewrite pop_n_all; [reflexivity|].
    simpl. rewrite Nat.sub_0_r. apply (Forall2_length_eq _ _ _ Hes).
Qed.

Lemma operator_operands_in_order_witness :
  _parse_exp example_reader ready_problem None [] []
    (lst [tok "imply"; lst [tok "ready"]; lst [tok "not"; lst [tok "ready"]]]) []
  = Ok (Apply IMPLIES [ready; Apply NOT [ready]]).
Proof.
  apply (operator_operands_in_order example_reader ready_problem None [] [] [] (0, 0) (0, 0)
           "imply" IMPLIES).
  - reflexivity.
  - discriminate.
  - repeat constructor.
Defined.


(** X9. A list [(f e1 ... en)] whose head names a fluent of the
    problem, and is no keyword, has its operands compiled and handed, in
    the order they are written, to the manager's [FluentExp]: when the
    manager takes them, the list compiles to the application of the fluent
    to the compiled operands; when the manager raises, the compiler raises
    a [SyntaxError] that carries the span of the list. *)
Theorem fluent_arguments_in_order self P act tm asg var loc l s f es cs :
  keyword s = false ->
  find_fluent P s = Ok f ->
  Forall2 (fun e c => _parse_exp self P act tm var e asg = Ok c) es cs ->
  _parse_exp self P act tm var (Lst loc (Tok l s :: es)) asg
  = if _em_accepts self f cs then Ok (FluentExp f cs)
    else Raise (SyntaxError FluentExpError (Some loc)).
Proof.
  intros Hk Hf Hes. unfold keyword in Hk.
  apply orb_false_iff in Hk. destruct Hk as [Hk Ht].
  apply orb_false_iff in Hk. destruct Hk as [Ho Hq].
  destruct (_operators s) as [?|] eqn:Eo; [discriminate|].
  destruct (quantifier_of s) as [?|] eqn:Eq; [discriminate|].
  destruct (_trajectory_constraints s) as [?|] eqn:Et; [discriminate|].
  assert (Hm : (String.eqb s "-" && (len (Lst loc (Tok l s :: es)) =? 2)%nat) = false).
  { destruct (String.eqb s "-") eqn:E; [|reflexivity]. apply String.eqb_eq in E.
    subst s. discriminate Eo. }
  assert (Hh : has_fluent P s = true).
  { unfold find_fluent in Hf. unfold has_fluent.
    destruct (find _ (fluents P)) as [g|] eqn:E; [|discriminate].
    apply find_some in E. apply existsb_exists. exists g. exact E. }
  assert (Hd : descend self P tm asg var (Lst loc (Tok l s :: es)) (Tok l s :: es)
               = Ok ((var, Lst loc (Tok l s :: es), true)
                       :: map (fun c => (var, c, false)) es, None)).
  { unfold descend. cbn [value_str head_is by_head head_has_fluent].
    rewrite Hm, Eo, Eq, Et, Hh. reflexivity. }
  assert (Hc : Reader.combine self P asg var (Lst loc (Tok l s :: es)) (cs ++ [])
               = if _em_accepts self f cs then Ok [FluentExp f cs]
                 else Raise (SyntaxError FluentExpError (Some loc))).
  { unfold Reader.combine.
    cbn [getitem nth_error bind value_str head_is by_head head_has_fluent].
    rewrite Hm, Eo, Eq, Et, Hh, Hf. cbn [bind]. rewrite pop_n_all; [reflexivity|].
    simpl. rewrite Nat.sub_0_r. apply (Forall2_length_eq _ _ _ Hes). }
  destruct (_em_accepts self f cs).
  - apply (application_run self P act tm asg var loc l s es cs Hm Hd Hes). exact Hc.
  - apply (application_raises self P act tm asg var loc l s es cs Hm Hd Hes). exact Hc.
Qed.

Lemma fluent_arguments_in_order_witness :
  _parse_exp example_reader tour_problem None [] [] (lst [tok "visited"; tok "t2"]) []
  = Ok (FluentExp fluent_visited [ObjectExp (mkObject "t2" truck)]) /\
  _parse_exp example_reader tour_problem None [] []
    (lst [tok "visited"; tok "t1"; tok "t2"]) []
  = Raise (SyntaxError FluentExpError (Some (0, 0))).
Proof.
  split.
  - apply (fluent_arguments_in_order example_reader tour_problem None [] [] [] (0, 0) (0, 0)
             "visited" fluent_visited [tok "t2"] [ObjectExp (mkObject "t2" truck)]).
    + reflexivity.
    + reflexivity.
    + repeat constructor.
  - apply (fluent_arguments_in_order example_reader tour_problem None [] [] [] (0, 0) (0, 0)
             "visited" fluent_visited [tok "t1"; tok "t2"]
             [ObjectExp (mkObject "t1" truck); ObjectExp (mkObject "t2" truck)]).
    + reflexivity.
    + reflexivity.
    + repeat constructor.
Defined.

(** A list that pushes its own frame and the frame of one part [e]:
    the node is built from the one node [e] compiles to. *)
Lemma single_child_run self P act tm asg var exp children v1 v2 e c node :
  exp = Lst (locn exp) children ->
  descend self P tm asg var exp children = Ok ([(v1, exp, true); (v2, e, false)], None) ->
  _parse_exp self P act tm v2 e asg = Ok c ->
  Reader.combine self P asg v1 exp [c] = Ok [node] ->
  _parse_exp self P act tm var exp asg = Ok node.
Proof.
  intros Hexp Hd He Hc. unfold _parse_exp in He.
  destruct (parse_loop_frame self P act tm asg _ _ _ _ He [(v1, exp, true)] [])
    as (used & _ & Hrun).
  apply (parse_exp_from_run self P act tm var exp asg (S (used + 1))).
  rewrite Hexp at 1.
  change (parse_loop self P act tm asg (S (used + 1)) [(var, Lst (locn exp) children, false)] [])
    with (bind (descend self P tm asg var (Lst (locn exp) children) children)
            (fun x => match x with (pushed, out) =>
               parse_loop self P act tm asg (used + 1) (rev pushed ++ [])
                 (match out with Some x => x :: [] | None => [] end) end)).
  rewrite <- Hexp, Hd. cbn [bind rev app]. cbn [app] in Hrun.
  etransitivity; [exact (Hrun 1)|].
  change (parse_loop self P act tm asg 1 [(v1, exp, true)] [c])
    with (bind (Reader.combine self P asg v1 exp [c])
            (fun solved' => parse_loop self P act tm asg 0 [] solved')).
  rewrite Hc. reflexivity.
Qed.

(** X10. A minus with one operand, [(- e)], compiles to the product of
    the integer -1 and the compiled operand. *)
Theorem unary_minus_is_times_minus_one self P act tm asg var loc l e c :
  _parse_exp self P act tm var e asg = Ok c ->
  _parse_exp self P act tm var (Lst loc [Tok l "-"; e]) asg
  = Ok (Apply TIMES [IntConstant (-1); c]).
Proof.
  intros He.
  apply (single_child_run self P act tm asg var (Lst loc [Tok l "-"; e])
           [Tok l "-"; e] var var e c); try reflexivity. exact He.
Qed.

Lemma unary_minus_is_times_minus_one_witness :
  _parse_exp example_reader ready_problem None [] [] (lst [tok "-"; tok "2.5"]) []
  = Ok (Apply TIMES [IntConstant (-1); RealConstant (mkFraction 5 2)]).
Proof.
  apply (unary_minus_is_times_minus_one example_reader ready_problem None [] [] []
           (0, 0) (0, 0) (tok "2.5")).
  reflexivity.
Defined.

(** X11. [(forall (vars) body)] and [(exists (vars) body)] compile
    [body] in the scope where the variables of the typed list are added to
    (and hide) the ones already bound, and quantify the compiled body over
    the variables of the typed list only, in the order of the list; what
    follows [body] in the list is not read. *)
Theorem quantifier_scopes_its_variables
  self P act tm asg var loc l s q vs body extra text groups new_vars c :
  quantifier_of s = Some q ->
  joined_values vs = Ok text ->
  params_of self text = Ok groups ->
  bind_variables tm groups [] = Ok new_vars ->
  _parse_exp self P act tm (dict_update var new_vars) body asg = Ok c ->
  _parse_exp self P act tm var (Lst loc (Tok l s :: vs :: body :: extra)) asg
  = Ok (Quantified q c (map snd new_vars)).
Proof.
  intros Hq Hj Hp Hb Hc.
  assert (Hs : (String.eqb s "-" = false) /\ _operators s = None).
  { unfold quantifier_of in Hq.
    destruct (String.eqb s "exists") eqn:E1;
      [apply String.eqb_eq in E1; subst s; split; reflexivity|].
    destruct (String.eqb s "forall") eqn:E2;
      [apply String.eqb_eq in E2; subst s; split; reflexivity|discriminate]. }
  destruct Hs as [Hm Ho].
  apply (single_child_run self P act tm asg var (Lst loc (Tok l s :: vs :: body :: extra))
           (Tok l s :: vs :: body :: extra) new_vars (dict_update var new_vars) body c).
  - reflexivity.
  - unfold descend. cbn [value_str head_is by_head getitem nth_error bind].
    rewrite Hm, Ho, Hq. cbn [andb bind]. rewrite Hj. cbn [bind]. rewrite Hp. cbn [bind].
    rewrite Hb. reflexivity.
  - exact Hc.
  - unfold Reader.combine. cbn [value_str head_is by_head getitem nth_error bind].
    rewrite Hm, Ho, Hq. reflexivity.
Qed.

Lemma quantifier_scopes_its_variables_witness :
  _parse_exp example_reader tour_problem None truck_types [("y", mkVariable "y" BoolT)]
    (lst [tok "exists"; lst [tok "?y"; tok "-"; tok "truck"]; lst [tok "visited"; tok "?y"]]) []
  = Ok (Quantified EXISTS (FluentExp fluent_visited [VariableExp (mkVariable "y" truck)])
          [mkVariable "y" truck]).
Proof.
  apply (quantifier_scopes_its_variables example_reader tour_problem None truck_types []
           [("y", mkVariable "y" BoolT)] (0, 0) (0, 0) "exists" EXISTS
           (lst [tok "?y"; tok "-"; tok "truck"]) (lst [tok "visited"; tok "?y"]) []
           "?y - truck" [mkGroup (0, 0) ["y"] (Some (mkToken "truck"))]
           [("y", mkVariable "y" truck)]); reflexivity.
Defined.

(** X7. The loop of [_parse_exp] ends on every input: with the
    turns it is given, twice the number of nodes of the tree, the compiler
    returns a node or raises, and a larger number of turns gives the same
    outcome. *)
Theorem parse_exp_terminates self P act tm var exp asg :
  _parse_exp self P act tm var exp asg <> OutOfFuel /\
  forall fuel, 2 * size exp <= fuel ->
    parse_loop self P act tm asg fuel [(var, exp, false)] []
    = _parse_exp self P act tm var exp asg.
Proof.
  split; [apply parse_exp_finishes|].
  intros fuel Hf. unfold _parse_exp. apply parse_loop_more_fuel; [exact Hf|].
  apply (parse_exp_finishes self P act tm var exp asg).
Qed.

End ComposeFacts.
(** ** The type manager's dictionaries *)

Module ManagerFacts.
Import Types TypesFacts Samples Notions.

Lemma dict_get_found {K V} (eqb : K -> K -> bool) (d : list (K * V)) k v :
  dict_get eqb d k = Some v -> exists k', In (k', v) d /\ eqb k' k = true.
Proof.
  induction d as [|[k' v'] d IH]; simpl; [discriminate|].
  destruct (eqb k' k) eqn:E.
  - intros [= ->]. exists k'. auto.
  - intros H. destruct (IH H) as (k0 & Hin & Hk). exists k0. auto.
Qed.

Lemma dict_get_appended {K V} (eqb : K -> K -> bool) (d : list (K * V)) k v :
  dict_get eqb d k = None -> eqb k k = true -> dict_get eqb (d ++ [(k, v)]) k = Some v.
Proof.
  induction d as [|[k' v'] d IH]; simpl; intros H Hr.
  - rewrite Hr. reflexivity.
  - destruct (eqb k' k); [discriminate|auto].
Qed.

Lemma int_key_eqb_eq a b : int_key_eqb a b = true <-> a = b.
Proof.
  destruct a as [l u], b as [l' u']. unfold int_key_eqb. simpl.
  rewrite andb_true_iff, !(option_eqb_eq Z.eqb Z.eqb_eq). split.
  - intros [-> ->]; reflexivity.
  - intros [= -> ->]; auto.
Qed.

Lemma real_key_eqb_eq a b : real_key_eqb a b = true <-> a = b.
Proof.
  destruct a as [l u], b as [l' u']. unfold real_key_eqb. simpl.
  rewrite andb_true_iff, !(option_eqb_eq Fraction_eqb Fraction_eqb_eq). split.
  - intros [-> ->]; reflexivity.
  - intros [= -> ->]; auto.
Qed.

Lemma user_key_eqb_eq a b : user_key_eqb a b = true <-> a = b.
Proof.
  destruct a as [n f], b as [n' f']. unfold user_key_eqb. simpl.
  rewrite andb_true_iff, String.eqb_eq, (option_eqb_eq UPType_eqb UPType_eqb_eq). split.
  - intros [-> ->]; reflexivity.
  - intros [= -> ->]; auto.
Qed.

Lemma UserType_result tm n f t tm' :
  UserType tm n f = Ok (t, tm') ->
  (dict_get user_key_eqb (_user_types tm) (n, f) = Some t /\ tm' = tm) \/
  (dict_get user_key_eqb (_user_types tm) (n, f) = None /\ t = UserT n f /\
   tm' = mkTM (_ints tm) (_reals tm) (_user_types tm ++ [((n, f), t)])).
Proof.
  unfold UserType. destruct (dict_get user_key_eqb (_user_types tm) (n, f)) as [t0|].
  - intros [= <- <-]. left. auto.
  - intros H. right. split; [reflexivity|].
    apply ReaderFacts.bind_Ok in H. destruct H as (_ & _ & H).
    apply ReaderFacts.bind_Ok in H. destruct H as (ut & Hut & H).
    injection H as <- <-.
    assert (ut = UserT n f) as ->; [|auto].
    unfold _UserType in Hut. destruct f as [ft|]; [destruct (is_user_type ft)|];
      congruence.
Qed.

Lemma built_keyed tm : built tm -> keyed tm.
Proof.
  induction 1 as [|tm lb ub Hb IH|tm lb ub Hb IH|tm n f t tm' Hb IH Hf Hu].
  - repeat split; intros ? ? [].
  - destruct IH as (Hi & Hr & Hu). unfold IntType.
    destruct (dict_get _ _ _); [repeat split; assumption|].
    repeat split; simpl; try assumption.
    intros k t [Hin|[[= <- <-]|[]]]%in_app_or; [auto|reflexivity].
  - destruct IH as (Hi & Hr & Hu). unfold RealType.
    destruct (dict_get _ _ _); [repeat split; assumption|].
    repeat split; simpl; try assumption.
    intros k t [Hin|[[= <- <-]|[]]]%in_app_or; [auto|reflexivity].
  - destruct IH as (Hi & Hr & Hut).
    destruct (UserType_result _ _ _ _ _ Hu) as [[_ ->]|(_ & -> & ->)];
      [repeat split; assumption|].
    repeat split; simpl; try assumption.
    intros k t [Hin|[[= <- <-]|[]]]%in_app_or; [auto|reflexivity].
Qed.

(** X1. A type asked for a second time is the type handed out the
    first time, and the second call adds nothing to the manager: for
    [IntType] and [RealType] the second call returns what the first did,
    manager included. *)
Theorem number_types_are_interned tm :
  (forall lb ub, IntType (snd (IntType tm lb ub)) lb ub = IntType tm lb ub) /\
  (forall lb ub, RealType (snd (RealType tm lb ub)) lb ub = RealType tm lb ub).
Proof.
  split; intros lb ub.
  - unfold IntType at 2 3.
    destruct (dict_get int_key_eqb (_ints tm) (lb, ub)) as [t|] eqn:E; simpl.
    + unfold IntType. rewrite E. reflexivity.
    + unfold IntType. simpl.
      rewrite (dict_get_appended _ _ _ _ E); [reflexivity|].
      apply int_key_eqb_eq. reflexivity.
  - unfold RealType at 2 3.
    destruct (dict_get real_key_eqb (_reals tm) (lb, ub)) as [t|] eqn:E; simpl.
    + unfold RealType. rewrite E. reflexivity.
    + unfold RealType. simpl.
      rewrite (dict_get_appended _ _ _ _ E); [reflexivity|].
      apply real_key_eqb_eq. reflexivity.
Qed.

(** X2. When [UserType] returns a type for a name and a
    father, asking again for the same name and father returns that same
    type and leaves the manager as it is. *)
Theorem user_types_are_interned tm n f t tm' :
  UserType tm n f = Ok (t, tm') -> UserType tm' n f = Ok (t, tm').
Proof.
  intros H. destruct (UserType_result _ _ _ _ _ H) as [[Hg ->]|(Hg & -> & ->)].
  - exact H.
  - unfold UserType at 1. simpl.
    rewrite (dict_get_appended _ _ _ _ Hg); [reflexivity|].
    apply user_key_eqb_eq. reflexivity.
Qed.

Lemma user_types_are_interned_witness :
  UserType
    (mkTM [] []
       [(("vehicle", None), vehicle); (("truck", Some vehicle), truck_of_vehicle);
        (("van", Some vehicle), UserT "van" (Some vehicle))]) "van" (Some vehicle)
  = Ok (UserT "van" (Some vehicle),
        mkTM [] []
          [(("vehicle", None), vehicle); (("truck", Some vehicle), truck_of_vehicle);
           (("van", Some vehicle), UserT "van" (Some vehicle))]).
Proof.
  apply (user_types_are_interned fleet_manager "van" (Some vehicle)).
  reflexivity.
Defined.

Lemma built_fleet_manager : built fleet_manager.
Proof.
  eapply (built_UserType (mkTM [] [] [(("vehicle", None), vehicle)])
            "truck" (Some vehicle)).
  - eapply (built_UserType TypeManager_init "vehicle" None).
    + exact built_init.
    + discriminate.
    + reflexivity.
  - intros ft [= <-]. simpl. auto.
  - reflexivity.
Defined.

(** X3. A manager built through its own methods hands out the
    type that is asked for: [IntType] and [RealType] return the type with
    the bounds given, and [UserType], when it returns, the user type with
    the name and the father given, which is then among the manager's user
    types. *)
Theorem manager_returns_requested_type tm :
  built tm ->
  (forall lb ub, fst (IntType tm lb ub) = IntT lb ub) /\
  (forall lb ub, fst (RealType tm lb ub) = RealT lb ub) /\
  (forall n f t tm', UserType tm n f = Ok (t, tm') ->
     t = UserT n f /\ In t (user_types_of tm')).
Proof.
  intros Hb. destruct (built_keyed tm Hb) as (Hi & Hr & Hu).
  split; [|split].
  - intros lb ub. unfold IntType.
    destruct (dict_get int_key_eqb (_ints tm) (lb, ub)) as [t|] eqn:E; [|reflexivity].
    apply dict_get_found in E. destruct E as (k' & Hin & Hk).
    apply int_key_eqb_eq in Hk. subst k'. apply (Hi _ _ Hin).
  - intros lb ub. unfold RealType.
    destruct (dict_get real_key_eqb (_reals tm) (lb, ub)) as [t|] eqn:E; [|reflexivity].
    apply dict_get_found in E. destruct E as (k' & Hin & Hk).
    apply real_key_eqb_eq in Hk. subst k'. apply (Hr _ _ Hin).
  - intros n f t tm' H.
    destruct (UserType_result _ _ _ _ _ H) as [[Hg ->]|(Hg & -> & ->)].
    + split; [|eapply dict_get_In; exact Hg].
      apply dict_get_found in Hg. destruct Hg as (k' & Hin & Hk).
      apply user_key_eqb_eq in Hk. subst k'. apply (Hu _ _ Hin).
    + split; [reflexivity|]. unfold user_types_of. simpl.
      rewrite map_app. apply in_or_app. right. simpl. auto.
Qed.

Lemma manager_returns_requested_type_witness :
  (forall lb ub, fst (IntType fleet_manager lb ub) = IntT lb ub) /\
  (forall lb ub, fst (RealType fleet_manager lb ub) = RealT lb ub) /\
  (forall n f t tm', UserType fleet_manager n f = Ok (t, tm') ->
     t = UserT n f /\ In t (user_types_of tm')).
Proof.
  apply (manager_returns_requested_type fleet_manager). exact built_fleet_manager.
Defined.

Lemma any_name_is_found n t :
  snd (ancestors_from t) = None ->
  In n (map type_name (fst (ancestors_from t))) ->
  any_name_is n (fst (ancestors_from t)) None = Ok true.
Proof.
  induction t using UPType_father_ind; simpl; try discriminate.
  - intros _ [->|[]]. rewrite String.eqb_refl. reflexivity.
  - destruct (ancestors_from t) as [l e] eqn:E. simpl in *.
    intros He Hin. destruct (String.eqb n0 n) eqn:En; [reflexivity|].
    destruct Hin as [->|Hin]; [rewrite String.eqb_refl in En; discriminate|].
    auto.
Qed.

(** X4. On a manager built through its own methods, [UserType]
    raises [UPTypeError] when the father given is no user type, and when
    the name given is the name of the father or of one of the father's
    ancestors; in both cases nothing is interned. *)
Theorem UserType_refuses_bad_father_and_reused_name tm n ft :
  built tm ->
  is_user_type ft = false \/
  (In ft (user_types_of tm) /\ In n (map type_name (fst (user_type_ancestors ft)))) ->
  UserType tm n (Some ft) = Raise UPTypeError.
Proof.
  intros Hb Hcase.
  assert (Hnew : dict_get user_key_eqb (_user_types tm) (n, Some ft) = None).
  { destruct (dict_get user_key_eqb (_user_types tm) (n, Some ft)) as [t|] eqn:E;
      [exfalso|reflexivity].
    pose proof (dict_get_In _ _ _ _ E) as Hin.
    apply dict_get_found in E. destruct E as (k' & Hk' & Hk).
    apply user_key_eqb_eq in Hk. subst k'.
    destruct (built_keyed tm Hb) as (_ & _ & Hu). apply Hu in Hk'. simpl in Hk'. subst t.
    destruct (built_good Hb Hin) as (_ & He & Hn). simpl in He, Hn.
    destruct (ancestors_from ft) as [l e] eqn:Ea. simpl in He, Hn. subst e.
    destruct Hcase as [Hnu|[Hft Hname]].
    - destruct ft; simpl in Hnu; try discriminate; simpl in Ea; congruence.
    - destruct (built_good Hb Hft) as (Hu' & _ & _).
      unfold user_type_ancestors in Hname. rewrite Hu', Ea in Hname. simpl in Hname.
      inversion Hn; contradiction. }
  unfold UserType. rewrite Hnew.
  destruct Hcase as [Hnu|[Hft Hname]].
  - unfold user_type_ancestors. rewrite Hnu. reflexivity.
  - destruct (built_good Hb Hft) as (Hu' & He & _).
    unfold user_type_ancestors in *. rewrite Hu' in *.
    pose proof (any_name_is_found n ft He Hname) as Hany.
    destruct (ancestors_from ft) as [l e]. simpl in He, Hany. subst e.
    rewrite Hany. reflexivity.
Qed.

Lemma UserType_refuses_bad_father_and_reused_name_witness :
  UserType fleet_manager "vehicle" (Some truck_of_vehicle) = Raise UPTypeError.
Proof.
  apply (UserType_refuses_bad_father_and_reused_name fleet_manager "vehicle" truck_of_vehicle).
  - exact built_fleet_manager.
  - right. split; simpl; auto.
Defined.

End ManagerFacts.
(** ** The domain of a type *)

Module DomainsFacts.
Import Types Reader Domains Samples Notions.

Lemma list_index_in_range {A} (l : list A) (i : Z) :
  (0 <= i < Z.of_nat (List.length l))%Z ->
  exists x, list_index l i = Ok x /\ nth_error l (Z.to_nat i) = Some x.
Proof.
  intros Hi. unfold list_index.
  replace (i <? 0)%Z with false by (symmetry; apply Z.ltb_ge; lia).
  replace (i <? 0)%Z with false by (symmetry; apply Z.ltb_ge; lia).
  replace (Z.of_nat (List.length l) <=? i)%Z with false by (symmetry; apply Z.leb_gt; lia).
  simpl. destruct (nth_error l (Z.to_nat i)) as [x|] eqn:E.
  - exists x. auto.
  - apply nth_error_None in E. lia.
Qed.

(** X5. When [domain_size] returns [n], every index from 0 up to
    [n - 1] has an item; for an integer type these items are the integers
    from the lower bound up to, and not including, the upper bound; and, the
    objects of a user type being pairwise different, different indexes give
    different items.  When [domain_size] raises, [domain_item] raises the
    same exception at every index. *)
Theorem domain_items_enumerate_the_domain objects_hierarchy t :
  NoDup (objects_hierarchy t) ->
  (forall n, domain_size objects_hierarchy t = Ok n ->
     (forall i, (0 <= i < n)%Z -> exists e, domain_item objects_hierarchy t i = Ok e) /\
     (forall i j, (0 <= i < n)%Z -> (0 <= j < n)%Z ->
        domain_item objects_hierarchy t i = domain_item objects_hierarchy t j -> i = j) /\
     (forall lb ub i, t = IntT (Some lb) (Some ub) -> (0 <= i < n)%Z ->
        domain_item objects_hierarchy t i = Ok (IntConstant (lb + i)) /\
        (lb <= lb + i < ub)%Z)) /\
  (forall e, domain_size objects_hierarchy t = Raise e ->
     forall i, domain_item objects_hierarchy t i = Raise e).
Proof.
  intros Hnd. split.
  - intros n Hn. destruct t as [|[lb|] [ub|]|lb ub|name f];
      unfold domain_size in Hn; simpl in Hn; try discriminate; injection Hn as <-.
    + split; [|split].
      * intros i _. eexists. reflexivity.
      * intros i j Hi Hj H. unfold domain_item in H. simpl in H. injection H as H.
        destruct (i =? 0)%Z eqn:Ei, (j =? 0)%Z eqn:Ej; try discriminate;
          rewrite ?Z.eqb_eq, ?Z.eqb_neq in *; lia.
      * discriminate.
    + split; [|split].
      * intros i _. eexists. reflexivity.
      * intros i j _ _ H. unfold domain_item in H. simpl in H. injection H as H. lia.
      * intros lb' ub' i [= <- <-] Hi. split; [reflexivity|lia].
    + split; [|split].
      * intros i Hi. unfold domain_item. simpl.
        destruct (list_index_in_range _ i Hi) as (x & -> & _). eexists. reflexivity.
      * intros i j Hi Hj H. unfold domain_item in H. simpl in H.
        destruct (list_index_in_range _ i Hi) as (x & Hx & Hxi).
        destruct (list_index_in_range _ j Hj) as (y & Hy & Hyj).
        rewrite Hx, Hy in H. simpl in H. injection H as <-.
        assert (Z.to_nat i = Z.to_nat j); [|lia].
        apply (proj1 (NoDup_nth_error _) Hnd); [|congruence].
        apply nth_error_Some. congruence.
      * discriminate.
  - intros e He i. destruct t as [|[lb|] [ub|]|lb ub|name f];
      unfold domain_size in He; simpl in He; try discriminate; injection He as <-;
      reflexivity.
Qed.

Lemma domain_items_enumerate_the_domain_witness :
  (forall n, domain_size (fun _ => []) (IntT (Some 2%Z) (Some 5%Z)) = Ok n ->
     (forall i, (0 <= i < n)%Z ->
        exists e, domain_item (fun _ => []) (IntT (Some 2%Z) (Some 5%Z)) i = Ok e) /\
     (forall i j, (0 <= i < n)%Z -> (0 <= j < n)%Z ->
        domain_item (fun _ => []) (IntT (Some 2%Z) (Some 5%Z)) i
        = domain_item (fun _ => []) (IntT (Some 2%Z) (Some 5%Z)) j -> i = j) /\
     (forall lb ub i, IntT (Some 2%Z) (Some 5%Z) = IntT (Some lb) (Some ub) ->
        (0 <= i < n)%Z ->
        domain_item (fun _ => []) (IntT (Some 2%Z) (Some 5%Z)) i = Ok (IntConstant (lb + i)) /\
        (lb <= lb + i < ub)%Z)) /\
  (forall e, domain_size (fun _ => []) (IntT (Some 2%Z) (Some 5%Z)) = Raise e ->
     forall i, domain_item (fun _ => []) (IntT (Some 2%Z) (Some 5%Z)) i = Raise e).
Proof.
  apply (domain_items_enumerate_the_domain (fun _ => []) (IntT (Some 2%Z) (Some 5%Z))).
  constructor.
Defined.

End DomainsFacts.
(** ** The loops over effects and conditions *)

Module EffectFacts.
Import Types Reader ReaderFacts AssembleFacts Samples Notions.

Arguments _parse_exp : simpl never.

Lemma pending_app {A} (tree : A -> CustomParseResults) a b :
  pending tree (a ++ b) = pending tree a + pending tree b.
Proof. unfold pending. rewrite map_app, list_sum_app. reflexivity. Qed.

Lemma pending_map {A} (tree : A -> CustomParseResults) (g : CustomParseResults -> A) l :
  (forall c, tree (g c) = c) ->
  pending tree (map g l) = list_sum (map size l).
Proof.
  intros H. unfold pending. rewrite map_map. f_equal. apply map_ext. intros c.
  rewrite H. reflexivity.
Qed.

Lemma tail_children_size exp : list_sum (map size (tail_children exp)) < size exp.
Proof.
  destruct exp as [? ?|? [|h r]]; simpl; lia.
Qed.

Lemma add_effect_kind_finishes k a timing f v c :
  add_effect_kind k a timing f v c <> OutOfFuel.
Proof. destruct a, timing; discriminate. Qed.

Ltac loop_finishes IH :=
  repeat first
    [ discriminate
    | apply IH
    | apply getitem_finishes
    | apply parse_exp_finishes
    | apply joined_values_finishes
    | apply params_of_finishes
    | apply bind_variables_finishes
    | apply add_effect_kind_finishes
    | apply bind_finishes; [|first [intros [? ?] ?|intros ? ?]]
    | progress cbv beta iota
    | break_match ].

(** The loop of [_add_effect] ends within the nodes that wait in its
    queue. *)
Lemma add_effect_loop_finishes self P key tm timing asg fuel :
  forall to_add act ua,
    pending fst to_add <= fuel ->
    add_effect_loop self P key tm timing asg fuel to_add act ua <> OutOfFuel.
Proof.
  induction fuel as [|fuel IH]; intros [|[exp cond] rest] act ua Hm.
  - discriminate.
  - exfalso. unfold pending in Hm. simpl in Hm. pose proof (size_pos exp). lia.
  - discriminate.
  - unfold pending in Hm. simpl in Hm. pose proof (size_pos exp) as Hs.
    cbn [add_effect_loop].
    loop_finishes IH.
    all: rewrite ?pending_app; try (rewrite pending_map by reflexivity).
    all: repeat match goal with
         | H : getitem ?e _ = Ok ?c |- _ => apply getitem_size in H
         end.
    all: pose proof (tail_children_size exp).
    all: unfold pending; simpl; lia.
Qed.

Lemma add_effect_finishes self P key act tm ua exp cond timing asg :
  _add_effect self P key act tm ua exp cond timing asg <> OutOfFuel.
Proof.
  unfold _add_effect. apply add_effect_loop_finishes. unfold pending. simpl. lia.
Qed.

Lemma add_condition_loop_finishes self P tm fuel :
  forall to_add store act,
    pending fst to_add <= fuel ->
    add_condition_loop self P tm fuel to_add store act <> OutOfFuel.
Proof.
  induction fuel as [|fuel IH]; intros [|[exp vars] rest] store act Hm.
  - discriminate.
  - exfalso. unfold pending in Hm. simpl in Hm. pose proof (size_pos exp). lia.
  - discriminate.
  - unfold pending in Hm. simpl in Hm. pose proof (size_pos exp) as Hs.
    cbn [add_condition_loop].
    loop_finishes IH.
    all: rewrite ?pending_app; try (rewrite pending_map by reflexivity).
    all: repeat match goal with
         | H : getitem ?e _ = Ok ?c |- _ => apply getitem_size in H
         end.
    all: pose proof (tail_children_size exp).
    all: unfold pending; simpl; lia.
Qed.

Lemma add_timed_effects_loop_finishes self P key tm asg fuel :
  forall to_add act ua,
    pending (fun e => e) to_add <= fuel ->
    add_timed_effects_loop self P key tm asg fuel to_add act ua <> OutOfFuel.
Proof.
  induction fuel as [|fuel IH]; intros [|eff rest] act ua Hm.
  - discriminate.
  - exfalso. unfold pending in Hm. simpl in Hm. pose proof (size_pos eff). lia.
  - discriminate.
  - unfold pending in Hm. simpl in Hm. pose proof (size_pos eff) as Hs.
    cbn [add_timed_effects_loop].
    repeat first [ apply add_effect_finishes | loop_finishes IH ].
    all: rewrite ?pending_app, ?(pending_map (fun e => e) (fun e => e)) by reflexivity.
    all: pose proof (tail_children_size eff).
    all: unfold pending in *; simpl in *.
    all: change (fun x : CustomParseResults => size x) with size in *; lia.
Qed.

Lemma add_condition_finishes self P act exp tm :
  _add_condition self P act exp tm <> OutOfFuel.
Proof.
  unfold _add_condition. apply add_condition_loop_finishes. unfold pending. simpl. lia.
Qed.

Lemma add_timed_effects_finishes self P key act tm ua eff asg :
  _add_timed_effects self P key act tm ua eff asg <> OutOfFuel.
Proof.
  unfold _add_timed_effects. apply add_timed_effects_loop_finishes.
  unfold pending. simpl. lia.
Qed.

(** X14. The work-list loops of [_add_effect], [_add_condition] and
    [_add_timed_effects] end on every input: each of them returns or
    raises within as many turns as the tree it is given has nodes. *)
Theorem assembler_loops_terminate self P key tm :
  (forall act ua exp cond timing asg,
     _add_effect self P key act tm ua exp cond timing asg <> OutOfFuel) /\
  (forall act exp, _add_condition self P act exp tm <> OutOfFuel) /\
  (forall act ua eff asg, _add_timed_effects self P key act tm ua eff asg <> OutOfFuel).
Proof.
  split; [|split]; intros.
  - apply add_effect_finishes.
  - apply add_condition_finishes.
  - apply add_timed_effects_finishes.
Qed.


(** Runs the two sides of an equation between turns of a loop through the
    same branches. *)
Ltac same_turn IH :=
  repeat first
    [ match goal with
      | |- context [bind ?r _] => destruct r as [?| |] eqn:?; cbn [bind]
      | |- context [if ?c then _ else _] => destruct c eqn:?
      | |- context [match ?x with _ => _ end] =>
          lazymatch x with
          | context [match _ with _ => _ end] => fail
          | _ => destruct x eqn:?
          end
      end
    | progress cbv beta iota ];
  try reflexivity; try congruence;
  try (intros ?; apply IH; [lia|assumption]).

(** More fuel does not change the outcome of the loop of [_add_effect]. *)
Lemma add_effect_loop_more_fuel self P key tm timing asg f1 :
  forall f2 to_add act ua,
    f1 <= f2 ->
    add_effect_loop self P key tm timing asg f1 to_add act ua <> OutOfFuel ->
    add_effect_loop self P key tm timing asg f2 to_add act ua
    = add_effect_loop self P key tm timing asg f1 to_add act ua.
Proof.
  induction f1 as [|f1 IH]; intros f2 [|[exp cond] rest] act ua Hle.
  - destruct f2; reflexivity.
  - intros H. exfalso. apply H. reflexivity.
  - destruct f2; reflexivity.
  - destruct f2 as [|f2]; [lia|]. cbn [add_effect_loop].
    same_turn IH.
Qed.

(** The outcome of [_add_effect] is the outcome of its loop with any larger
    number of turns. *)
Lemma add_effect_any_fuel self P key act tm ua exp cond timing asg fuel :
  size exp <= fuel ->
  add_effect_loop self P key tm timing asg fuel [(exp, cond)] act ua
  = _add_effect self P key act tm ua exp cond timing asg.
Proof.
  intros H. unfold _add_effect. apply add_effect_loop_more_fuel; [exact H|].
  apply (add_effect_finishes self P key act tm ua exp cond timing asg).
Qed.

Lemma add_effect_loop_empty self P key tm timing asg fuel act ua :
  add_effect_loop self P key tm timing asg fuel [] act ua = Ok (act, ua).
Proof. destruct fuel; reflexivity. Qed.

(** X15. A conditional effect [(when c body)] whose condition simplifies
    to false adds nothing, and its body is not read; otherwise its body is
    added under the simplified condition alone: the condition that was in
    force around the [when] is dropped, not conjoined. *)
Theorem when_sets_the_condition self P key act tm ua loc l c body extra cond timing asg cc :
  _parse_exp self P (Some act) tm [] c asg = Ok cc ->
  _add_effect self P key act tm ua (Lst loc (Tok l "when" :: c :: body :: extra))
    cond timing asg
  = if is_false (_simplify self cc) then Ok (act, ua)
    else _add_effect self P key act tm ua body (_simplify self cc) timing asg.
Proof.
  intros Hc. unfold _add_effect at 1.
  change (size (Lst loc (Tok l "when" :: c :: body :: extra)))
    with (S (list_sum (map size (Tok l "when" :: c :: body :: extra)))).
  cbn [add_effect_loop len List.length Nat.eqb getitem nth_error bind value_str head_is
       String.eqb Ascii.eqb Bool.eqb].
  rewrite Hc. cbn [bind].
  destruct (is_false (_simplify self cc)).
  - apply add_effect_loop_empty.
  - cbn [app]. apply add_effect_any_fuel. simpl. lia.
Qed.

Lemma when_sets_the_condition_witness :
  _add_effect example_reader ready_problem 0 (Instantaneous (new_InstantaneousAction "a" []))
    [] None
    (lst [tok "when"; lst [tok "not"; lst [tok "ready"]];
          lst [tok "when"; lst [tok "ready"]; lst [tok "ready"]]])
    (Apply NOT [ready]) None []
  = if is_false (_simplify example_reader (Apply NOT [ready]))
    then Ok (Instantaneous (new_InstantaneousAction "a" []), None)
    else _add_effect example_reader ready_problem 0
           (Instantaneous (new_InstantaneousAction "a" [])) [] None
           (lst [tok "when"; lst [tok "ready"]; lst [tok "ready"]])
           (_simplify example_reader (Apply NOT [ready])) None [].
Proof.
  apply (when_sets_the_condition example_reader ready_problem 0
           (Instantaneous (new_InstantaneousAction "a" [])) [] None (0, 0) (0, 0)
           (lst [tok "not"; lst [tok "ready"]])).
  reflexivity.
Defined.


Lemma fold_left_raised {A B} (step : Result A -> B -> Result A) l :
  (forall e b, step (Raise e) b = Raise e) ->
  forall e, fold_left step l (Raise e) = Raise e.
Proof. intros H. induction l as [|b l IH]; intros e; simpl; [reflexivity|]. rewrite H. apply IH. Qed.

Lemma fold_left_out {A B} (step : Result A -> B -> Result A) l :
  (forall b, step OutOfFuel b = OutOfFuel) ->
  fold_left step l OutOfFuel = OutOfFuel.
Proof. intros H. induction l as [|b l IH]; simpl; [reflexivity|]. rewrite H. apply IH. Qed.

(** A single effect at the head of the queue takes one turn: the loop adds
    it as [_add_effect] does and goes on with the rest of the queue. *)
Lemma single_effect_turn self P key tm timing asg fuel e cond q act ua :
  single_effect e = true ->
  add_effect_loop self P key tm timing asg (S fuel) ((e, cond) :: q) act ua
  = bind (_add_effect self P key act tm ua e cond timing asg)
      (fun r => add_effect_loop self P key tm timing asg fuel q (fst r) (snd r)).
Proof.
  intros Hs. destruct e as [? ?|loc [|h t]]; try discriminate.
  unfold single_effect in Hs. rewrite !andb_true_iff, !negb_true_iff in Hs.
  destruct Hs as [[Hand Hwhen] Hforall].
  unfold _add_effect.
  change (size (Lst loc (h :: t))) with (S (list_sum (map size (h :: t)))).
  cbn [add_effect_loop len List.length Nat.eqb getitem nth_error bind].
  rewrite !UniversalFacts.head_is_value, Hand, Hwhen, Hforall.
  repeat match goal with
  | |- bind ?r _ = _ => destruct r as [?| |]; cbn [bind fst snd]; try reflexivity
  | |- (if ?c then _ else _) = _ => destruct c eqn:?
  end.
  all: rewrite add_effect_loop_empty; reflexivity.
Qed.

Lemma single_effects_in_turn self P key tm timing asg cond es :
  Forall (fun e => single_effect e = true) es ->
  forall fuel act ua,
    List.length es <= fuel ->
    add_effect_loop self P key tm timing asg fuel (map (fun c => (c, cond)) es) act ua
    = fold_left
        (fun r e => bind r (fun au =>
           _add_effect self P key (fst au) tm (snd au) e cond timing asg))
        es (Ok (act, ua)).
Proof.
  induction 1 as [|e es He _ IH]; intros fuel act ua Hf.
  - apply add_effect_loop_empty.
  - destruct fuel as [|fuel]; [simpl in Hf; lia|].
    cbn [map fold_left bind fst snd]. rewrite (single_effect_turn _ _ _ _ _ _ _ _ _ _ _ _ He).
    destruct (_add_effect self P key act tm ua e cond timing asg) as [[a u]| |]; cbn [bind].
    + apply IH. simpl in Hf. lia.
    + symmetry. apply fold_left_raised. reflexivity.
    + symmetry. apply fold_left_out. reflexivity.
Qed.

(** X16. The effects of a conjunction [(and e1 ... en)] of single effects
    are added one after the other in the order they are written, each under
    the condition in force, and the first one that fails ends the reading
    with its error. *)
Theorem conjunction_adds_effects_in_order self P key act tm ua loc l es cond timing asg :
  Forall (fun e => single_effect e = true) es ->
  _add_effect self P key act tm ua (Lst loc (Tok l "and" :: es)) cond timing asg
  = fold_left
      (fun r e => bind r (fun au =>
         _add_effect self P key (fst au) tm (snd au) e cond timing asg))
      es (Ok (act, ua)).
Proof.
  intros Hes. unfold _add_effect at 1.
  change (size (Lst loc (Tok l "and" :: es)))
    with (S (list_sum (map size (Tok l "and" :: es)))).
  cbn [add_effect_loop len List.length Nat.eqb getitem nth_error bind value_str head_is
       String.eqb Ascii.eqb Bool.eqb tail_children app].
  apply single_effects_in_turn; [exact Hes|].
  simpl. clear Hes. induction es as [|e es IH]; simpl; [lia|].
  pose proof (size_pos e). lia.
Qed.

Lemma conjunction_adds_effects_in_order_witness :
  _add_effect example_reader ready_problem 0 (Instantaneous (new_InstantaneousAction "a" []))
    [] None (lst [tok "and"; lst [tok "ready"]; lst [tok "not"; lst [tok "ready"]]])
    TRUE None []
  = fold_left
      (fun r e => bind r (fun au =>
         _add_effect example_reader ready_problem 0 (fst au) [] (snd au) e TRUE None []))
      [lst [tok "ready"]; lst [tok "not"; lst [tok "ready"]]]
      (Ok (Instantaneous (new_InstantaneousAction "a" []), None)).
Proof.
  apply (conjunction_adds_effects_in_order example_reader ready_problem 0
           (Instantaneous (new_InstantaneousAction "a" [])) [] None (0, 0) (0, 0)).
  repeat constructor.
Defined.


Lemma multi_add_origin {K V} (eqb : K -> K -> bool) (d : list (K * list V)) k v j l x :
  (forall a b, eqb a b = true -> a = b) ->
  In (j, l) (multi_add eqb d k v) -> In x l ->
  (exists l0, In (j, l0) d /\ In x l0) \/ (j = k /\ x = v).
Proof.
  intros Heq. induction d as [|[k' l'] d IH]; simpl.
  - intros [[= <- <-]|[]] [<-|[]]. right. auto.
  - destruct (eqb k' k) eqn:E.
    + intros [[= <- <-]|Hin] Hx.
      * apply in_app_or in Hx. destruct Hx as [Hx|[<-|[]]].
        -- left. exists l'. auto.
        -- right. split; [apply Heq; exact E|reflexivity].
      * left. exists l. auto.
    + intros [[= <- <-]|Hin] Hx.
      * left. exists l'. auto.
      * destruct (IH Hin Hx) as [(l0 & H0 & H1)|H]; [left; exists l0; auto|right; exact H].
Qed.

Lemma add_condition_origin act i c j d :
  holds_condition (add_condition act i c) j d ->
  holds_condition act j d \/ (j = i /\ d = c).
Proof.
  intros (cl & Hin & Hd). unfold add_condition in Hin. simpl in Hin.
  apply (multi_add_origin TimeInterval_eqb _ _ _ _ _ _ TimeInterval_eqb_eq Hin Hd).
Qed.

(** What one turn of the loop of [_add_condition] leaves of the action. *)
Lemma add_condition_turn self P tm fuel exp vars rest store act act' :
  add_condition_loop self P tm (S fuel) ((exp, vars) :: rest) store act = Ok act' ->
  exists more store1 act1,
    add_condition_loop self P tm fuel (rest ++ more) store1 act1 = Ok act' /\
    da_name act1 = da_name act /\
    duration act1 = duration act /\
    timed_effects_of act1 = timed_effects_of act /\
    (forall j d, holds_condition act1 j d ->
       holds_condition act j d \/ condition_interval j).
Proof.
  simpl. intros H. inv_ok H.
  all: first [ eexists _, _, _; split; [eassumption|]
             | exists []; eexists _, _; rewrite app_nil_r; split; [eassumption|] ].
  all: repeat split; try reflexivity; intros j d Hd; auto.
  all: apply add_condition_origin in Hd; destruct Hd as [Hd|[-> _]]; [left; exact Hd|right].
  all: unfold condition_interval; auto.
Qed.

Lemma add_condition_loop_frame self P tm fuel :
  forall to_add store act act',
    add_condition_loop self P tm fuel to_add store act = Ok act' ->
    da_name act' = da_name act /\
    duration act' = duration act /\
    timed_effects_of act' = timed_effects_of act /\
    (forall j d, holds_condition act' j d ->
       holds_condition act j d \/ condition_interval j).
Proof.
  induction fuel as [|fuel IH]; intros [|[exp vars] rest] store act act' H.
  - injection H as <-. auto.
  - discriminate.
  - injection H as <-. auto.
  - apply add_condition_turn in H.
    destruct H as (more & store1 & act1 & H & Hn & Hd & He & Hc).
    apply IH in H. destruct H as (Hn' & Hd' & He' & Hc').
    repeat split; try congruence.
    intros j d Hj. destruct (Hc' j d Hj) as [H1|H1]; [auto|right; exact H1].
Qed.

(** X17. When [_add_condition] returns, the action has the name,
    the parameters, the duration and the effects it had; it holds every
    condition it held before; and every condition it holds that it did not
    hold before stands at the start point, at the end point, or on the open
    interval from start to end. *)
Theorem add_condition_only_adds_conditions self P act exp tm act' :
  _add_condition self P act exp tm = Ok act' ->
  da_name act' = da_name act /\
  da_parameters act' = da_parameters act /\
  duration act' = duration act /\
  timed_effects_of act' = timed_effects_of act /\
  (forall i c, holds_condition act i c -> holds_condition act' i c) /\
  (forall i c, holds_condition act' i c -> holds_condition act i c \/ condition_interval i).
Proof.
  unfold _add_condition. intros H.
  destruct (add_condition_loop_keeps _ _ _ _ _ _ _ _ H) as [Hp Hk].
  destruct (add_condition_loop_frame _ _ _ _ _ _ _ _ H) as (Hn & Hd & He & Hc).
  repeat split; assumption.
Qed.

Lemma add_condition_only_adds_conditions_witness :
  da_name (add_condition (new_DurativeAction "move" [])
             (TimePointInterval (StartTiming zero)) ready) = "move"%string /\
  da_parameters (add_condition (new_DurativeAction "move" [])
                   (TimePointInterval (StartTiming zero)) ready) = [] /\
  duration (add_condition (new_DurativeAction "move" [])
              (TimePointInterval (StartTiming zero)) ready)
  = duration (new_DurativeAction "move" []) /\
  timed_effects_of (add_condition (new_DurativeAction "move" [])
                      (TimePointInterval (StartTiming zero)) ready) = [] /\
  (forall i c, holds_condition (new_DurativeAction "move" []) i c ->
     holds_condition (add_condition (new_DurativeAction "move" [])
                        (TimePointInterval (StartTiming zero)) ready) i c) /\
  (forall i c,
     holds_condition (add_condition (new_DurativeAction "move" [])
                        (TimePointInterval (StartTiming zero)) ready) i c ->
     holds_condition (new_DurativeAction "move" []) i c \/ condition_interval i).
Proof.
  apply (add_condition_only_adds_conditions example_reader ready_problem
           (new_DurativeAction "move" [])
           (lst [tok "at"; tok "start"; lst [tok "ready"]]) []).
  reflexivity.
Defined.

Lemma add_timed_effects_loop_empty self P key tm asg fuel act ua :
  add_timed_effects_loop self P key tm asg fuel [] act ua = Ok (act, ua).
Proof. destruct fuel; reflexivity. Qed.

(** X18. A timed effect [(at start e)] is the effect [e] added at the
    start of the action, and [(at end e)] the effect [e] added at its end,
    both under the condition true; a list of three parts headed by [at]
    with another second part is refused with an error that carries the
    span of the list. *)
Theorem timed_effect_tags self P key act tm ua loc l0 l1 tag e asg :
  _add_timed_effects self P key act tm ua (Lst loc [Tok l0 "at"; Tok l1 tag; e]) asg
  = if String.eqb tag "start" then
      _add_effect self P key act tm ua e TRUE (Some (StartTiming zero)) asg
    else if String.eqb tag "end" then
      _add_effect self P key act tm ua e TRUE (Some (EndTiming zero)) asg
    else Raise (SyntaxError NotAbleToHandle (Some loc)).
Proof.
  unfold _add_timed_effects.
  change (size (Lst loc [Tok l0 "at"; Tok l1 tag; e]))
    with (S (list_sum (map size [Tok l0 "at"; Tok l1 tag; e]))).
  cbn [add_timed_effects_loop len List.length Nat.eqb getitem nth_error bind value_str
       head_is value_is String.eqb Ascii.eqb Bool.eqb andb locn].
  destruct (String.eqb tag "start"); cbn [bind].
  - destruct (_add_effect self P key act tm ua e TRUE (Some (StartTiming zero)) asg)
      as [[a u]| |]; cbn [bind]; [apply add_timed_effects_loop_empty|reflexivity|reflexivity].
  - destruct (String.eqb tag "end"); cbn [bind]; [|reflexivity].
    destruct (_add_effect self P key act tm ua e TRUE (Some (EndTiming zero)) asg)
      as [[a u]| |]; cbn [bind]; [apply add_timed_effects_loop_empty|reflexivity|reflexivity].
Qed.


Lemma appended_refl a : appended a a.
Proof. repeat split. exists []. rewrite app_nil_r. reflexivity. Qed.

Lemma appended_trans a b c : appended a b -> appended b c -> appended a c.
Proof.
  intros (H1 & H2 & H3 & H4 & l & H5) (G1 & G2 & G3 & G4 & m & G5).
  repeat split; try congruence. exists (l ++ m). rewrite G5, H5, app_assoc. reflexivity.
Qed.

Lemma more_effects_refl allowed d : more_effects allowed d d.
Proof. repeat split; auto. Qed.

Lemma more_effects_trans allowed a b c :
  more_effects allowed a b -> more_effects allowed b c -> more_effects allowed a c.
Proof.
  intros (H1 & H2 & H3 & H4 & H5 & H6) (G1 & G2 & G3 & G4 & G5 & G6).
  repeat split; try congruence; auto.
  intros t e H. destruct (G6 t e H) as [H'|H']; auto.
Qed.

Lemma grows_refl allowed act : grows allowed act act.
Proof. destruct act; simpl; [apply appended_refl|apply more_effects_refl]. Qed.

Lemma grows_trans allowed a b c : grows allowed a b -> grows allowed b c -> grows allowed a c.
Proof.
  destruct a, b, c; simpl; try tauto.
  - apply appended_trans.
  - apply more_effects_trans.
Qed.

Lemma grows_weaken (allowed allowed' : Timing -> Prop) a b :
  (forall t, allowed t -> allowed' t) -> grows allowed a b -> grows allowed' a b.
Proof.
  intros Hw. destruct a, b; simpl; try tauto.
  intros (H1 & H2 & H3 & H4 & H5 & H6). repeat split; auto.
  intros t e H. destruct (H6 t e H); auto.
Qed.

Lemma add_effect_kind_grows k act timing f v c act' :
  add_effect_kind k act timing f v c = Ok act' ->
  grows (fun t => timing = Some t) act act'.
Proof.
  destruct act as [a|d], timing as [t|]; simpl; try discriminate; intros [= <-]; simpl.
  - repeat split. eexists. reflexivity.
  - repeat split; simpl.
    + intros t' e (el & Hin & He). eapply multi_add_old; eassumption.
    + intros t' e (el & Hin & He).
      destruct (multi_add_origin Timing_eqb _ _ _ _ _ _ Timing_eqb_eq Hin He)
        as [H|[-> _]]; [left; exact H|right; reflexivity].
Qed.

(** One turn of the loop of [_add_effect] that ends well goes on with an
    action that has grown. *)
Lemma add_effect_turn self P key tm timing asg fuel exp cond rest act ua r :
  add_effect_loop self P key tm timing asg (S fuel) ((exp, cond) :: rest) act ua = Ok r ->
  exists q act1 ua1,
    add_effect_loop self P key tm timing asg fuel q act1 ua1 = Ok r /\
    grows (fun t => timing = Some t) act act1.
Proof.
  cbn [add_effect_loop]. intros H. inv_ok H.
  all: repeat match goal with
       | Hk : add_effect_kind _ _ _ _ _ _ = Ok _ |- _ => apply add_effect_kind_grows in Hk
       end.
  all: eexists _, _, _; (split; [eassumption|]); first [assumption|apply grows_refl].
Qed.

Lemma add_effect_loop_grows self P key tm timing asg fuel :
  forall to_add act ua act' ua',
    add_effect_loop self P key tm timing asg fuel to_add act ua = Ok (act', ua') ->
    grows (fun t => timing = Some t) act act'.
Proof.
  induction fuel as [|fuel IH]; intros [|[exp cond] rest] act ua act' ua' H.
  - injection H as <- _. apply grows_refl.
  - discriminate.
  - injection H as <- _. apply grows_refl.
  - apply add_effect_turn in H. destruct H as (q & act1 & ua1 & H & Hg).
    apply IH in H. eapply grows_trans; eassumption.
Qed.

(** X29. When [_add_effect] returns, the action has grown and nothing
    else: an instantaneous action has its name, parameters, preconditions
    and observed fluents, and its effects of before followed by the new
    ones; a durative action has its name, parameters, duration, conditions
    and effects of before, and its new effects stand at the timing
    given. *)
Theorem add_effect_only_adds_effects self P key act tm ua exp cond timing asg act' ua' :
  _add_effect self P key act tm ua exp cond timing asg = Ok (act', ua') ->
  grows (fun t => timing = Some t) act act'.
Proof. unfold _add_effect. apply add_effect_loop_grows. Qed.

Lemma add_effect_only_adds_effects_witness :
  grows (fun t => @None Timing = Some t)
    (Instantaneous (new_InstantaneousAction "a" []))
    (Instantaneous (mkInstantaneous "a" [] [] [mkEffect ready FALSE TRUE ASSIGN] None)).
Proof.
  apply (add_effect_only_adds_effects example_reader ready_problem 0
           (Instantaneous (new_InstantaneousAction "a" [])) [] None
           (lst [tok "not"; lst [tok "ready"]]) TRUE None [] _ None).
  reflexivity.
Defined.

Lemma add_timed_effects_turn self P key tm asg fuel eff rest act ua r :
  add_timed_effects_loop self P key tm asg (S fuel) (eff :: rest) act ua = Ok r ->
  exists q act1 ua1,
    add_timed_effects_loop self P key tm asg fuel q act1 ua1 = Ok r /\
    grows (fun t => t = StartTiming zero \/ t = EndTiming zero) act act1.
Proof.
  cbn [add_timed_effects_loop]. intros H. inv_ok H.
  all: repeat match goal with
       | Hk : _add_effect _ _ _ _ _ _ _ _ _ _ = Ok _ |- _ =>
           unfold _add_effect in Hk; apply add_effect_loop_grows in Hk;
           apply (grows_weaken _ (fun t => t = StartTiming zero \/ t = EndTiming zero)) in Hk;
           [|intros ? [= <-]; auto]
       end.
  all: eexists _, _, _; (split; [eassumption|]); first [assumption|apply grows_refl].
Qed.

Lemma add_timed_effects_loop_grows self P key tm asg fuel :
  forall to_add act ua act' ua',
    add_timed_effects_loop self P key tm asg fuel to_add act ua = Ok (act', ua') ->
    grows (fun t => t = StartTiming zero \/ t = EndTiming zero) act act'.
Proof.
  induction fuel as [|fuel IH]; intros [|eff rest] act ua act' ua' H.
  - injection H as <- _. apply grows_refl.
  - discriminate.
  - injection H as <- _. apply grows_refl.
  - apply add_timed_effects_turn in H. destruct H as (q & act1 & ua1 & H & Hg).
    apply IH in H. eapply grows_trans; eassumption.
Qed.

(** X30. When [_add_timed_effects] returns, the durative action has its
    name, parameters, duration and conditions, and every effect it had;
    every new effect stands at the start or at the end of the action. *)
Theorem timed_effects_stand_at_start_or_end self P key act tm ua eff asg act' ua' :
  _add_timed_effects self P key act tm ua eff asg = Ok (act', ua') ->
  grows (fun t => t = StartTiming zero \/ t = EndTiming zero) act act'.
Proof. unfold _add_timed_effects. apply add_timed_effects_loop_grows. Qed.

Lemma timed_effects_stand_at_start_or_end_witness :
  grows (fun t => t = StartTiming zero \/ t = EndTiming zero)
    (Durative (new_DurativeAction "move" []))
    (Durative (mkDurative "move" [] (FixedDuration (IntConstant 0)) []
                 [(EndTiming zero, [mkEffect ready TRUE TRUE ASSIGN])])).
Proof.
  apply (timed_effects_stand_at_start_or_end example_reader ready_problem 0
           (Durative (new_DurativeAction "move" [])) [] None
           (lst [tok "at"; tok "end"; lst [tok "ready"]]) [] _ None).
  reflexivity.
Defined.

End EffectFacts.
(** ** The [:types] section *)

Module TypesSectionFacts.
Import Types Reader ReaderFacts ProblemFacts ManagerFacts Samples Notions.

Lemma declare_names_shape names f :
  forall d d', declare_names names f d = Ok d' -> d' = d ++ map (fun n => (n, f)) names.
Proof.
  induction names as [|x names IH]; simpl; intros d d'.
  - intros [= <-]. rewrite app_nil_r. reflexivity.
  - destruct (declared d x); [discriminate|]. intros H. apply IH in H.
    rewrite <- app_assoc in H. exact H.
Qed.

Lemma extract_shape needed lines :
  forall d d', extract_type_declarations needed lines d = Ok d' ->
    d' = d ++ declarations_of needed lines.
Proof.
  induction lines as [|[names wf] lines IH]; simpl; intros d d'.
  - intros [= <-]. rewrite app_nil_r. reflexivity.
  - intros H. inv_bind H. apply declare_names_shape in E. subst x.
    apply IH in H. rewrite <- app_assoc in H. exact H.
Qed.

(** X20. The loop over the lines of [:types] accepts the section
    exactly when no name is declared twice, case put aside; it then keeps
    every declared name, in the order written, with the father written on
    its line, or [object] when the line has none and the object type is
    needed. *)
Theorem type_declarations_are_kept_in_order needed lines :
  (NoDup (map _canonical (flat_map fst lines)) ->
   extract_type_declarations needed lines [] = Ok (declarations_of needed lines)) /\
  (forall d, extract_type_declarations needed lines [] = Ok d ->
     d = declarations_of needed lines /\
     map fst d = flat_map fst lines /\
     NoDup (map _canonical (flat_map fst lines))).
Proof.
  pose proof (extract_type_declarations_spec needed lines [] (NoDup_nil _)) as Hs.
  split.
  - intros Hnd. destruct (extract_type_declarations needed lines []) as [d|e|] eqn:E.
    + apply extract_shape in E. subst d. reflexivity.
    + destruct Hs as [_ Hn]. exfalso. apply Hn. exact Hnd.
    + destruct Hs.
  - intros d E. rewrite E in Hs. destruct Hs as [Hk Hn].
    apply extract_shape in E. simpl in E. subst d. split; [reflexivity|]. split.
    + unfold declarations_of. clear. induction lines as [|[names wf] lines IH]; simpl.
      * reflexivity.
      * rewrite map_app, IH, map_map. simpl. rewrite map_id. reflexivity.
    + simpl in Hk. rewrite <- Hk. exact Hn.
Qed.

Lemma token_eqb_canonical a b : token_eqb a b = true <-> _canonical a = _canonical b.
Proof. unfold token_eqb. apply String.eqb_eq. Qed.

Lemma types_get_canonical m a b :
  _canonical a = _canonical b -> types_get m a = types_get m b.
Proof.
  intros H. unfold types_get. induction m as [|[k v] m IH]; simpl; [reflexivity|].
  unfold token_eqb in *. rewrite H, IH. reflexivity.
Qed.

Lemma types_get_set m k v k' :
  types_get (types_set m k v) k' = if token_eqb k k' then Some v else types_get m k'.
Proof.
  unfold types_get. induction m as [|[k0 v0] m IH]; simpl.
  - reflexivity.
  - destruct (token_eqb k0 k) eqn:E; simpl.
    + apply token_eqb_canonical in E. unfold token_eqb in *. rewrite E.
      destruct (String.eqb (_canonical k) (_canonical k')); reflexivity.
    + rewrite IH. destruct (token_eqb k0 k') eqn:E'; [|reflexivity].
      destruct (token_eqb k k') eqn:E''; [|reflexivity].
      apply token_eqb_canonical in E', E''. unfold token_eqb in E.
      rewrite E', E'', String.eqb_refl in E. discriminate.
Qed.


Lemma dict_get_token (d : TypeDeclarations) f fo :
  dict_get token_eqb d f = Some fo ->
  exists t, In (t, fo) d /\ _canonical t = _canonical f.
Proof.
  intros H. apply dict_get_found in H. destruct H as (t & Hin & Ht).
  exists t. split; [exact Hin|]. apply token_eqb_canonical. exact Ht.
Qed.

Lemma dict_get_token_none (d : TypeDeclarations) f :
  dict_get token_eqb d f = None ->
  forall t fo, In (t, fo) d -> _canonical t <> _canonical f.
Proof.
  induction d as [|[k v] d IH]; simpl; intros H t fo; [intros []|].
  destruct (token_eqb k f) eqn:E; [discriminate|].
  intros [[= <- <-]|Hin].
  - intros Hc. apply token_eqb_canonical in Hc. congruence.
  - apply (IH H t fo Hin).
Qed.

(** Inside a cycle of fathers, [declare_type] calls itself until the
    nesting of its calls is used up. *)
Lemma declare_type_in_cycle d needed names st :
  cyclic d names -> cold names st ->
  forall depth t f,
    In (_canonical t) names -> In (_canonical f) names ->
    declare_type d needed depth t (Some f) st = Raise RecursionError.
Proof.
  intros (_ & Hdecl & Hclosed) Hcold. induction depth as [|depth IH]; intros t f Ht Hf.
  - reflexivity.
  - cbn [declare_type]. rewrite (Hcold t Ht), (Hcold f Hf).
    destruct (dict_get token_eqb d f) as [gf|] eqn:E.
    + destruct (dict_get_token _ _ _ E) as (t' & Hin & Hc).
      rewrite <- Hc in Hf. destruct (Hclosed _ _ Hin Hf) as (g & -> & Hg).
      rewrite Hc in Hf. rewrite (IH f g Hf Hg). reflexivity.
    + destruct (Hdecl _ Hf) as (t' & fo & Hin & Hc).
      exfalso. apply (dict_get_token_none _ _ E _ _ Hin Hc).
Qed.

Lemma cold_set names st k v tm P :
  cold names st -> ~ In (_canonical k) names ->
  cold names (mkTypeState (types_set (ts_types_map st) k v) tm P).
Proof.
  intros Hc Hk t Ht. simpl. rewrite types_get_set.
  destruct (token_eqb k t) eqn:E; [|apply Hc; exact Ht].
  apply token_eqb_canonical in E. congruence.
Qed.

(** A call of [declare_type] that returns leaves the names of a cycle out
    of the map of types. *)
Lemma declare_type_keeps_cold d needed names :
  cyclic d names ->
  forall depth t fo st st',
    cold names st ->
    (exists t', In (t', fo) d /\ _canonical t' = _canonical t) ->
    declare_type d needed depth t fo st = Ok st' ->
    cold names st'.
Proof.
  intros Hcyc. pose proof Hcyc as (_ & Hdecl & Hclosed).
  induction depth as [|depth IH]; intros t fo st st' Hcold (t' & Hin & Hc) H;
    [discriminate|].
  assert (Hnot : ~ In (_canonical t) names).
  { intros Ht. rewrite <- Hc in Ht. destruct (Hclosed _ _ Hin Ht) as (f & -> & Hf).
    rewrite Hc in Ht.
    rewrite (declare_type_in_cycle d needed names st Hcyc Hcold (S depth) t f Ht Hf) in H.
    discriminate. }
  cbn [declare_type] in H.
  destruct (types_get (ts_types_map st) t); [injection H as <-; exact Hcold|].
  inv_bind H. destruct x as [father st1].
  assert (Hcold1 : cold names st1).
  { clear H. destruct fo as [fn|]; [|injection E as _ <-; exact Hcold].
    destruct (types_get (ts_types_map st) fn); [injection E as _ <-; exact Hcold|].
    destruct (dict_get token_eqb d fn) as [gf|] eqn:Eg.
    - inv_bind E. destruct (types_get (ts_types_map x) fn); [|discriminate].
      injection E as _ <-. eapply IH; [exact Hcold| |exact E0].
      apply (dict_get_token _ _ _ Eg).
    - destruct (token_eqb fn Object && negb needed); [injection E as _ <-; exact Hcold|].
      inv_bind E. destruct x as [f tm']. injection E as _ <-.
      apply cold_set; [exact Hcold|]. intros Hfn.
      destruct (Hdecl _ Hfn) as (t0 & fo0 & Hin0 & Hc0).
      apply (dict_get_token_none _ _ Eg _ _ Hin0 Hc0). }
  inv_bind H. destruct x as [ty tm2]. injection H as <-.
  apply cold_set; assumption.
Qed.

Lemma declare_all_with_cycle d needed names :
  cyclic d names ->
  forall todo st,
    cold names st ->
    (forall t fo, In (t, fo) todo -> In (t, fo) d) ->
    (exists t fo, In (t, fo) todo /\ In (_canonical t) names) ->
    forall st', declare_all d needed todo st <> Ok st'.
Proof.
  intros Hcyc. pose proof Hcyc as (_ & Hdecl & Hclosed).
  induction todo as [|[t fo] todo IH]; intros st Hcold Hsub (t0 & fo0 & Hin0 & Ht0) st'.
  - destruct Hin0.
  - cbn [declare_all].
    destruct (declare_type d needed (S (List.length d)) t fo st) as [st1| |] eqn:E;
      cbn [bind]; try discriminate.
    apply IH.
    + eapply declare_type_keeps_cold; [exact Hcyc|exact Hcold| |exact E].
      exists t. split; [apply Hsub; left; reflexivity|reflexivity].
    + intros t1 fo1 H1. apply Hsub. right. exact H1.
    + destruct Hin0 as [[= -> ->]|Hin0]; [|exists t0, fo0; auto].
      exfalso. assert (Hd : In (t0, fo0) d) by (apply Hsub; left; reflexivity).
      destruct (Hclosed _ _ Hd Ht0) as (f & -> & Hf).
      rewrite (declare_type_in_cycle d needed names st Hcyc Hcold _ t0 f Ht0 Hf) in E.
      discriminate.
Qed.

Lemma parse_domain_with_cycle self tm dom names :
  cyclic (declarations_of (_check_if_object_type_is_needed dom) (types dom)) names ->
  forall st, parse_domain self tm dom <> Ok st.
Proof.
  intros Hcyc st E. unfold parse_domain in E. inv_bind E.
  apply extract_shape in E0. simpl in E0. subst x.
  inv_bind E. clear E.
  match goal with Hd : declare_all _ _ _ _ = Ok _ |- _ => revert Hd end.
  apply declare_all_with_cycle with (names := names).
  - exact Hcyc.
  - intros t _. reflexivity.
  - auto.
  - destruct Hcyc as (Hne & Hdecl & _). destruct names as [|n names]; [congruence|].
    destruct (Hdecl n (or_introl eq_refl)) as (t & fo & Hin & Hc).
    exists t, fo. split; [exact Hin|]. rewrite Hc. left. reflexivity.
Qed.

Lemma types_set_keeps m k v k' :
  types_get m k' <> None -> types_get (types_set m k v) k' <> None.
Proof.
  intros H. rewrite types_get_set. destruct (token_eqb k k'); [discriminate|exact H].
Qed.

Lemma types_set_has m k v : types_get (types_set m k v) k <> None.
Proof.
  rewrite types_get_set. unfold token_eqb. rewrite String.eqb_refl. discriminate.
Qed.

(** A call of [declare_type] that returns has made [type] a key of the map
    of types, and has removed no key. *)
Lemma declare_type_declares d needed :
  forall depth t fo st st',
    declare_type d needed depth t fo st = Ok st' ->
    types_get (ts_types_map st') t <> None /\
    (forall k, types_get (ts_types_map st) k <> None ->
               types_get (ts_types_map st') k <> None).
Proof.
  induction depth as [|depth IH]; intros t fo st st' H; [discriminate|].
  cbn [declare_type] in H.
  destruct (types_get (ts_types_map st) t) eqn:Et.
  { injection H as <-. rewrite Et. split; [discriminate|auto]. }
  inv_bind H. destruct x as [father st1].
  assert (Hkeep : forall k, types_get (ts_types_map st) k <> None ->
                            types_get (ts_types_map st1) k <> None).
  { clear H. destruct fo as [fn|]; [|injection E as _ <-; auto].
    destruct (types_get (ts_types_map st) fn); [injection E as _ <-; auto|].
    destruct (dict_get token_eqb d fn) as [gf|].
    - inv_bind E. destruct (types_get (ts_types_map x) fn); [|discriminate].
      injection E as _ <-. apply (IH _ _ _ _ E0).
    - destruct (token_eqb fn Object && negb needed); [injection E as _ <-; auto|].
      inv_bind E. destruct x as [f tm']. injection E as _ <-. simpl.
      intros k Hk. apply types_set_keeps. exact Hk. }
  inv_bind H. destruct x as [ty tm2]. injection H as <-. simpl. split.
  - apply types_set_has.
  - intros k Hk. apply types_set_keeps. auto.
Qed.

Lemma declare_all_declares d needed :
  forall todo st st',
    declare_all d needed todo st = Ok st' ->
    (forall t fo, In (t, fo) todo -> types_get (ts_types_map st') t <> None) /\
    (forall k, types_get (ts_types_map st) k <> None ->
               types_get (ts_types_map st') k <> None).
Proof.
  induction todo as [|[t fo] todo IH]; intros st st' H.
  - injection H as <-. split; [intros ? ? []|auto].
  - cbn [declare_all] in H. inv_bind H.
    destruct (declare_type_declares _ _ _ _ _ _ _ E) as [Ht Hk].
    destruct (IH _ _ H) as [Hall Hk']. split.
    + intros t1 fo1 [[= <- <-]|Hin]; [auto|eauto].
    + auto.
Qed.

Lemma declare_action_types_map a st st' :
  declare_action a st = Ok st' -> ds_types_map st' = ds_types_map st.
Proof.
  unfold declare_action. intros H. inv_bind H. destruct a.
  - do 3 inv_bind H. destruct x2. injection H as <-. reflexivity.
  - do 3 inv_bind H. destruct x2 as [[i|d] u]; [discriminate|].
    injection H as <-. reflexivity.
Qed.

Lemma declare_actions_types_map l :
  forall st st', declare_actions l st = Ok st' -> ds_types_map st' = ds_types_map st.
Proof.
  induction l as [|a l IH]; simpl; intros st st' H.
  - injection H as <-. reflexivity.
  - inv_bind H. apply IH in H. apply declare_action_types_map in E. congruence.
Qed.

Lemma In_declarations_of needed lines names wf t :
  In (names, wf) lines -> In t names ->
  exists fo, In (t, fo) (declarations_of needed lines).
Proof.
  intros Hl Ht. eexists. unfold declarations_of. apply in_flat_map.
  exists (names, wf). split; [exact Hl|]. simpl.
  apply (in_map (fun n => (n, _)) names t Ht).
Qed.

(** X22. When the domain is read to the end, every name declared in
    [:types] is a key of the map of types, whatever the case it is then
    written in; and so is [object] when some typed list of the domain needs
    it. *)
Theorem declared_types_resolve self tm dom st :
  parse_domain self tm dom = Ok st ->
  (forall names wf t t',
     In (names, wf) (types dom) -> In t names -> _canonical t' = _canonical t ->
     types_get (ds_types_map st) t' <> None) /\
  (_check_if_object_type_is_needed dom = true ->
   types_get (ds_types_map st) Object <> None).
Proof.
  unfold parse_domain. intros H. inv_bind H. apply extract_shape in E. simpl in E. subst x.
  inv_bind H. rename x into ts. apply declare_all_declares in E. destruct E as [Hall _].
  inv_bind H. destruct x as [types_map tm1]. rename E into Eobj.
  inv_bind H. inv_bind H. destruct x0 as [[self' flag] P']. inv_bind H.
  apply declare_actions_types_map in H. simpl in H. rewrite H. clear H.
  set (needed := _check_if_object_type_is_needed dom) in *.
  assert (Hmap : (forall k, types_get (ts_types_map ts) k <> None ->
                            types_get types_map k <> None) /\
                 (needed = true -> types_get types_map Object <> None)).
  { destruct needed; cbn [andb negb] in Eobj.
    - destruct (existsb _ (ts_types_map ts)) eqn:Eo; cbn [andb negb] in Eobj.
      + injection Eobj as <- _. split; [auto|]. intros _.
        apply existsb_exists in Eo. destruct Eo as ([k v] & Hin & Hk). simpl in Hk.
        unfold types_get. clear - Hin Hk. induction (ts_types_map ts) as [|[k0 v0] m IH];
          [destruct Hin|]. simpl. destruct Hin as [[= -> ->]|Hin].
        * rewrite Hk. discriminate.
        * destruct (token_eqb k0 Object); [discriminate|auto].
      + inv_bind Eobj.
        match type of Eobj with (let (_, _) := ?p in _) = _ => destruct p as [t0 tm'] end.
        injection Eobj as <- _. split.
        * intros k Hk. apply types_set_keeps. exact Hk.
        * intros _. apply types_set_has.
    - injection Eobj as <- _. split; [auto|discriminate]. }
  destruct Hmap as [Hkeep Hobj]. split; [|exact Hobj].
  intros names wf t t' Hl Ht Hc.
  rewrite (types_get_canonical _ _ _ Hc). apply Hkeep.
  destruct (In_declarations_of needed _ _ _ _ Hl Ht) as (fo & Hin).
  apply (Hall _ _ Hin).
Qed.

Lemma declared_types_resolve_witness :
  (forall names wf t t',
     In (names, wf) (types tour_domain) -> In t names -> _canonical t' = _canonical t ->
     types_get truck_types t' <> None) /\
  (_check_if_object_type_is_needed tour_domain = true ->
   types_get truck_types Object <> None).
Proof.
  apply (declared_types_resolve example_reader TypeManager_init tour_domain
           (mkDomainState example_reader
              (add_action (_add_user_type (add_fluent (new_Problem Classical "tours")
                                             fluent_visited) truck)
                 (Instantaneous (new_InstantaneousAction "tour" [])))
              truck_types [(0, [visit_all])] false)).
  vm_compute. reflexivity.
Defined.

End TypesSectionFacts.
(** ** Typed lists of parameters *)

Module SignatureFacts.
Import Types Reader ReaderFacts ProblemFacts Samples Notions.

Lemma collect_params_cons tm unique g rest params :
  collect_params tm unique (g :: rest) params
  = bind (collect_params tm unique [g] params) (fun p => collect_params tm unique rest p).
Proof.
  simpl. destruct (group_type tm g); [|reflexivity].
  match goal with |- bind ?r _ = _ => destruct r end; reflexivity.
Qed.

Lemma str_get_None_keys {V} (d : list (string * V)) n :
  str_get d n = None <-> ~ In n (map fst d).
Proof.
  unfold str_get. induction d as [|[k v] d IH]; simpl.
  - split; [intros _ []|reflexivity].
  - destruct (String.eqb k n) eqn:E.
    + apply String.eqb_eq in E. split; [discriminate|]. intros H. exfalso. apply H. auto.
    + apply String.eqb_neq in E. rewrite IH. split.
      * intros H [Hk|Hin]; [congruence|auto].
      * intros H Hin. apply H. auto.
Qed.

Lemma dict_set_fresh {V} (d : list (string * V)) n v :
  str_get d n = None -> dict_set d n v = d ++ [(n, v)].
Proof.
  unfold str_get. induction d as [|[k v'] d IH]; simpl; [reflexivity|].
  destruct (String.eqb k n); [discriminate|]. intros H. rewrite IH; [reflexivity|exact H].
Qed.

Lemma dict_set_keys {V} (d : list (string * V)) n v :
  map fst (dict_set d n v)
  = if existsb (String.eqb n) (map fst d) then map fst d else map fst d ++ [n].
Proof.
  induction d as [|[k v'] d IH]; simpl; [reflexivity|].
  rewrite (String.eqb_sym n k). destruct (String.eqb k n) eqn:E; simpl.
  - reflexivity.
  - rewrite IH. destruct (existsb (String.eqb n) (map fst d)); reflexivity.
Qed.

(** The names of one group, for a function: added in order, or refused at
    the first name met before. *)
Lemma collect_unique_group tm fn loc ty t :
  group_type tm (mkGroup loc [] ty) = Some t ->
  forall names acc,
    NoDup (map fst acc) ->
    match collect_params tm (Some fn) [mkGroup loc names ty] acc with
    | Ok p => p = acc ++ map (fun n => (n, t)) names /\ NoDup (map fst p)
    | Raise e =>
        (exists n, e = SyntaxError (ParameterDefinedTwice fn n) (Some loc)) /\
        ~ NoDup (map fst acc ++ names)
    | OutOfFuel => False
    end.
Proof.
  intros Hty. unfold group_type in Hty. simpl in Hty.
  induction names as [|n names IH]; intros acc Hacc.
  - simpl. unfold group_type. simpl. rewrite Hty. simpl. rewrite app_nil_r. auto.
  - specialize (IH (dict_set acc n t)).
    simpl in IH |- *. unfold group_type in IH |- *. simpl in IH |- *.
    rewrite Hty in IH |- *.
    destruct (str_get acc n) eqn:E.
    + simpl. split; [eauto|]. intros Hnd. apply NoDup_remove_2 in Hnd.
      apply Hnd. apply in_or_app. left.
      destruct (in_dec string_dec n (map fst acc)) as [Hin|Hin]; [exact Hin|].
      apply str_get_None_keys in Hin. congruence.
    + pose proof (proj1 (str_get_None_keys acc n) E) as Hfresh.
      rewrite (dict_set_fresh acc n t E) in IH |- *.
      assert (Hnd : NoDup (map fst (acc ++ [(n, t)]))).
      { rewrite map_app. simpl. apply NoDup_snoc; assumption. }
      specialize (IH Hnd).
      match goal with |- match bind ?r _ with _ => _ end =>
        destruct r as [p|e|]; simpl in IH |- * end.
      * destruct IH as [Hs Hp]. subst p. rewrite <- app_assoc in *.
        split; [reflexivity|exact Hp].
      * destruct IH as [He Hn]. split; [exact He|].
        rewrite map_app, <- app_assoc in Hn. exact Hn.
      * exact IH.
Qed.

Lemma collect_unique tm fn groups :
  Forall (fun g => group_type tm g <> None) groups ->
  forall acc,
    NoDup (map fst acc) ->
    match collect_params tm (Some fn) groups acc with
    | Ok p =>
        map (fun kv => (fst kv, Some (snd kv))) p
        = map (fun kv => (fst kv, Some (snd kv))) acc ++ typed_names tm groups /\
        NoDup (map fst p)
    | Raise e =>
        (exists n span, e = SyntaxError (ParameterDefinedTwice fn n) (Some span)) /\
        ~ NoDup (map fst acc ++ flat_map g_names groups)
    | OutOfFuel => False
    end.
Proof.
  induction 1 as [|[loc names ty] groups Hg _ IH]; intros acc Hacc.
  - simpl. unfold typed_names. simpl. rewrite app_nil_r. auto.
  - rewrite collect_params_cons.
    destruct (group_type tm (mkGroup loc names ty)) as [t|] eqn:Et; [|congruence].
    pose proof (collect_unique_group tm fn loc ty t Et names acc Hacc) as Hone.
    destruct (collect_params tm (Some fn) [mkGroup loc names ty] acc) as [p|e|];
      cbn [bind].
    + destruct Hone as [-> Hp]. specialize (IH _ Hp).
      destruct (collect_params tm (Some fn) groups (acc ++ map (fun n => (n, t)) names))
        as [p'|e'|].
      * destruct IH as [Hshape Hnd]. split; [|exact Hnd]. rewrite Hshape.
        unfold typed_names. simpl. rewrite map_app, map_map, <- app_assoc. simpl.
        unfold group_type in Et |- *. simpl in Et |- *. rewrite Et. reflexivity.
      * destruct IH as [He Hn]. split; [exact He|].
        rewrite map_app, map_map in Hn. simpl in Hn. rewrite map_id, <- app_assoc in Hn.
        exact Hn.
      * exact IH.
    + destruct Hone as [[n ->] Hn]. split; [eauto|]. simpl.
      rewrite app_assoc. intros Hnd. apply NoDup_app_remove_r in Hnd. auto.
    + exact Hone.
Qed.

Lemma collect_merging_group tm loc ty t :
  group_type tm (mkGroup loc [] ty) = Some t ->
  forall names acc,
    NoDup (map fst acc) ->
    exists p,
      collect_params tm None [mkGroup loc names ty] acc = Ok p /\
      NoDup (map fst p) /\
      (forall n, In n (map fst p) <-> In n (map fst acc) \/ In n names).
Proof.
  intros Hty. unfold group_type in Hty. simpl in Hty.
  induction names as [|n names IH]; intros acc Hacc.
  - exists acc. simpl. unfold group_type. simpl. rewrite Hty. simpl.
    repeat split; auto. intros [H|[]]. exact H.
  - assert (Hnd : NoDup (map fst (dict_set acc n t))).
    { rewrite dict_set_keys. destruct (existsb (String.eqb n) (map fst acc)) eqn:E;
        [exact Hacc|]. apply NoDup_snoc; [exact Hacc|]. intros Hin.
      assert (existsb (String.eqb n) (map fst acc) = true); [|congruence].
      apply existsb_exists. exists n. split; [exact Hin|apply String.eqb_refl]. }
    destruct (IH (dict_set acc n t) Hnd) as (p & Hp & Hpn & Hkeys).
    exists p. simpl in Hp |- *. unfold group_type in Hp |- *. simpl in Hp |- *.
    rewrite Hty in Hp |- *. split; [exact Hp|]. split; [exact Hpn|].
    intros m. rewrite Hkeys, dict_set_keys.
    destruct (existsb (String.eqb n) (map fst acc)) eqn:E.
    + apply existsb_exists in E. destruct E as (k & Hk & Ek). apply String.eqb_eq in Ek.
      subst k. split.
      * intros [H|H]; auto.
      * intros [H|[<-|H]]; auto.
    + rewrite in_app_iff. simpl. split.
      * intros [[H|[<-|[]]]|H]; auto.
      * intros [H|[<-|H]]; auto.
Qed.

Lemma collect_merging tm groups :
  Forall (fun g => group_type tm g <> None) groups ->
  forall acc,
    NoDup (map fst acc) ->
    exists p,
      collect_params tm None groups acc = Ok p /\
      NoDup (map fst p) /\
      (forall n, In n (map fst p) <-> In n (map fst acc) \/ In n (flat_map g_names groups)).
Proof.
  induction 1 as [|[loc names ty] groups Hg _ IH]; intros acc Hacc.
  - exists acc. simpl. repeat split; auto. intros [H|[]]. exact H.
  - rewrite collect_params_cons.
    destruct (group_type tm (mkGroup loc names ty)) as [t|] eqn:Et; [|congruence].
    destruct (collect_merging_group tm loc ty t Et names acc Hacc) as (p & -> & Hp & Hk).
    cbn [bind]. destruct (IH p Hp) as (p' & -> & Hp' & Hk').
    exists p'. split; [reflexivity|]. split; [exact Hp'|].
    intros n. rewrite Hk', Hk. simpl. rewrite in_app_iff. tauto.
Qed.

(** X23. In a typed list whose types are all declared, a
    parameter name written twice is refused in the signature of a function,
    with the error "the parameter ... is defined twice"; in the signature of
    a predicate or of an action it is accepted, and the parameters kept are
    the different names of the list, each once.  A function without such a
    name gets its parameters in the order written, each with the type of
    its group. *)
Theorem repeated_parameter_names tm groups :
  Forall (fun g => group_type tm g <> None) groups ->
  (forall fn,
     match collect_params tm (Some fn) groups [] with
     | Ok p =>
         NoDup (flat_map g_names groups) /\
         map (fun kv => (fst kv, Some (snd kv))) p = typed_names tm groups
     | Raise e =>
         ~ NoDup (flat_map g_names groups) /\
         exists n span, e = SyntaxError (ParameterDefinedTwice fn n) (Some span)
     | OutOfFuel => False
     end) /\
  (exists p,
     collect_params tm None groups [] = Ok p /\
     NoDup (map fst p) /\
     forall n, In n (map fst p) <-> In n (flat_map g_names groups)).
Proof.
  intros Hty. split.
  - intros fn. pose proof (collect_unique tm fn groups Hty [] (NoDup_nil _)) as H.
    destruct (collect_params tm (Some fn) groups []) as [p|e|].
    + destruct H as [Hs Hn]. simpl in Hs. split; [|exact Hs].
      assert (Hk : map fst p = flat_map g_names groups).
      { apply (f_equal (map fst)) in Hs. rewrite map_map in Hs. simpl in Hs.
        change (map (fun x : string * UPType => fst x) p) with (map fst p) in Hs.
        rewrite Hs. unfold typed_names. clear. induction groups as [|g groups IH]; simpl.
        - reflexivity.
        - rewrite map_app, IH, map_map. simpl. rewrite map_id. reflexivity. }
      rewrite <- Hk. exact Hn.
    + destruct H as [He Hn]. auto.
    + exact H.
  - destruct (collect_merging tm groups Hty [] (NoDup_nil _)) as (p & Hp & Hn & Hk).
    exists p. split; [exact Hp|]. split; [exact Hn|].
    intros n. rewrite Hk. simpl. tauto.
Qed.

Lemma repeated_parameter_names_witness :
  (forall fn,
     match collect_params truck_types (Some fn)
             [mkGroup (0, 0) ["x"; "y"] (Some (mkToken "Truck"));
              mkGroup (1, 1) ["x"] (Some (mkToken "truck"))] [] with
     | Ok p =>
         NoDup (flat_map g_names
                  [mkGroup (0, 0) ["x"; "y"] (Some (mkToken "Truck"));
                   mkGroup (1, 1) ["x"] (Some (mkToken "truck"))]) /\
         map (fun kv => (fst kv, Some (snd kv))) p
         = typed_names truck_types
             [mkGroup (0, 0) ["x"; "y"] (Some (mkToken "Truck"));
              mkGroup (1, 1) ["x"] (Some (mkToken "truck"))]
     | Raise e =>
         ~ NoDup (flat_map g_names
                    [mkGroup (0, 0) ["x"; "y"] (Some (mkToken "Truck"));
                     mkGroup (1, 1) ["x"] (Some (mkToken "truck"))]) /\
         exists n span, e = SyntaxError (ParameterDefinedTwice fn n) (Some span)
     | OutOfFuel => False
     end) /\
  (exists p,
     collect_params truck_types None
       [mkGroup (0, 0) ["x"; "y"] (Some (mkToken "Truck"));
        mkGroup (1, 1) ["x"] (Some (mkToken "truck"))] [] = Ok p /\
     NoDup (map fst p) /\
     forall n, In n (map fst p) <->
               In n (flat_map g_names
                       [mkGroup (0, 0) ["x"; "y"] (Some (mkToken "Truck"));
                        mkGroup (1, 1) ["x"] (Some (mkToken "truck"))])).
Proof.
  apply (repeated_parameter_names truck_types).
  repeat constructor; discriminate.
Defined.

End SignatureFacts.
(** ** What the sections of a problem leave alone *)

Module SectionFacts.
Import Types Reader ReaderFacts AssembleFacts ProblemFacts Samples Notions.

Arguments _parse_exp : simpl never.
Arguments _add_effect : simpl never.
Arguments _add_timed_effects : simpl never.
Arguments _add_condition : simpl never.
Arguments parse_duration : simpl never.

Lemma same_header_refl P : same_header P P.
Proof. split; reflexivity. Qed.

Lemma same_header_trans P Q R : same_header P Q -> same_header Q R -> same_header P R.
Proof. intros [H1 H2] [H3 H4]. split; congruence. Qed.

(** A loop that threads the problem through steps that keep its header
    keeps it. *)
Lemma fold_keeps_header {B} (step : Problem -> B -> Result Problem) l :
  (forall P b P', step P b = Ok P' -> same_header P P') ->
  forall P P',
    fold_left (fun r b => bind r (fun Q => step Q b)) l (Ok P) = Ok P' ->
    same_header P P'.
Proof.
  intros Hstep. induction l as [|b l IH]; simpl; intros P P' H.
  - injection H as <-. apply same_header_refl.
  - destruct (step P b) as [Q| |] eqn:E.
    + apply (same_header_trans P Q P'); [apply (Hstep _ _ _ E)|apply (IH _ _ H)].
    + exfalso. clear - H. induction l as [|b' l IH]; simpl in H; [discriminate|auto].
    + exfalso. clear - H. induction l as [|b' l IH]; simpl in H; [discriminate|auto].
Qed.

Lemma add_objects_header t names :
  forall P, same_header P (fold_left (fun acc o => add_object acc (mkObject o t)) names P).
Proof.
  induction names as [|n names IH]; simpl; intros P; [apply same_header_refl|].
  apply (same_header_trans P (add_object P (mkObject n t))); [split; reflexivity|apply IH].
Qed.

Lemma declare_objects_header tm gs :
  forall P P', declare_objects tm gs P = Ok P' -> same_header P P'.
Proof.
  induction gs as [|[names ty] gs IH]; simpl; intros P P' H.
  - injection H as <-. apply same_header_refl.
  - destruct (types_get tm _) as [t|]; [|discriminate].
    eapply same_header_trans; [apply (add_objects_header t names)|apply (IH _ _ H)].
Qed.

Lemma expand_instance_header self tm key eff names P objs P' :
  expand_instance self tm key eff names P objs = Ok P' -> same_header P P'.
Proof.
  unfold expand_instance. intros H.
  destruct (negb _); [discriminate|].
  destruct (nth_error (actions P) key); [|discriminate].
  inv_bind H. inv_bind H. destruct x0. injection H as <-. split; reflexivity.
Qed.

Lemma expand_universal_header self tm key P eff P' :
  expand_universal self tm key P eff = Ok P' -> same_header P P'.
Proof.
  unfold expand_universal. intros H. do 4 inv_bind H. destruct x2 as [var_names var_types].
  revert H. apply fold_keeps_header. intros Q objs Q'. apply expand_instance_header.
Qed.

Lemma expand_all_header self tm ua :
  forall P P', expand_all self tm ua P = Ok P' -> same_header P P'.
Proof.
  unfold expand_all. induction ua as [|[key effs] ua IH]; simpl; intros P P' H.
  - injection H as <-. apply same_header_refl.
  - destruct (fold_left (fun r' eff => bind r' (fun Q => expand_universal self tm key Q eff))
                effs (Ok P)) as [Q| |] eqn:E.
    + apply (same_header_trans P Q P'); [|apply (IH _ _ H)].
      revert E. apply fold_keeps_header. intros R eff R'. apply expand_universal_header.
    + exfalso. clear - H. induction ua as [|[k es] ua IH]; simpl in H; [discriminate|].
      apply IH. replace (fold_left _ es (Raise e)) with (@Raise Problem e) in H; [exact H|].
      clear. induction es; simpl; auto.
    + exfalso. clear - H. induction ua as [|[k es] ua IH]; simpl in H; [discriminate|].
      apply IH. replace (fold_left _ es OutOfFuel) with (@OutOfFuel Problem) in H; [exact H|].
      clear. induction es; simpl; auto.
Qed.

Lemma parse_init_item_header self tm P init P' :
  parse_init_item self tm P init = Ok P' -> same_header P P'.
Proof.
  unfold parse_init_item. intros H. inv_ok H; split; reflexivity.
Qed.

(** Everything that [_parse_problem] does with the problem file before it
    looks for the goal keeps the class of the problem and adds no quality
    metric. *)
Lemma before_goal_header self tm ua res P0 P1 P2 items P3 :
  declare_objects tm (res_objects res) P0 = Ok P1 ->
  expand_all self tm ua P1 = Ok P2 ->
  fold_left (fun r j => bind r (fun Q => parse_init_item self tm Q j)) items (Ok P2) = Ok P3 ->
  same_header P0 P3.
Proof.
  intros H1 H2 H3.
  apply (same_header_trans P0 P1 P3); [apply (declare_objects_header _ _ _ _ H1)|].
  apply (same_header_trans P1 P2 P3); [apply (expand_all_header _ _ _ _ _ H2)|].
  revert H3. apply fold_keeps_header. intros Q j Q'. apply parse_init_item_header.
Qed.

Lemma declare_type_header d needed :
  forall depth t fo st st',
    declare_type d needed depth t fo st = Ok st' ->
    same_header (ts_problem st) (ts_problem st').
Proof.
  induction depth as [|depth IH]; intros t fo st st' H; [discriminate|].
  cbn [declare_type] in H.
  destruct (types_get (ts_types_map st) t); [injection H as <-; apply same_header_refl|].
  inv_bind H. destruct x as [father st1].
  assert (H1 : same_header (ts_problem st) (ts_problem st1)).
  { clear H. destruct fo as [fn|]; [|injection E as _ <-; apply same_header_refl].
    destruct (types_get (ts_types_map st) fn);
      [injection E as _ <-; apply same_header_refl|].
    destruct (dict_get token_eqb d fn) as [gf|].
    - inv_bind E. destruct (types_get (ts_types_map x) fn); [|discriminate].
      injection E as _ <-. apply (IH _ _ _ _ E0).
    - destruct (token_eqb fn Object && negb needed);
        [injection E as _ <-; apply same_header_refl|].
      inv_bind E. destruct x as [f tm']. injection E as _ <-. apply same_header_refl. }
  inv_bind H. destruct x as [ty tm2]. injection H as <-.
  apply (same_header_trans _ _ _ H1). split; reflexivity.
Qed.

Lemma declare_all_header d needed :
  forall todo st st',
    declare_all d needed todo st = Ok st' ->
    same_header (ts_problem st) (ts_problem st').
Proof.
  induction todo as [|[t fo] todo IH]; intros st st' H.
  - injection H as <-. apply same_header_refl.
  - cbn [declare_all] in H. inv_bind H.
    eapply same_header_trans; [apply (declare_type_header _ _ _ _ _ _ _ E)|apply (IH _ _ H)].
Qed.

Lemma declare_predicates_header tm ps :
  forall P P', declare_predicates tm ps P = Ok P' -> same_header P P'.
Proof.
  induction ps as [|p ps IH]; simpl; intros P P' H.
  - injection H as <-. apply same_header_refl.
  - inv_bind H. apply IH in H. eapply same_header_trans; [|exact H]. split; reflexivity.
Qed.

Lemma declare_functions_header tm ps :
  forall self flag P self' flag' P',
    declare_functions tm ps self flag P = Ok (self', flag', P') -> same_header P P'.
Proof.
  induction ps as [|p ps IH]; simpl; intros self flag P self' flag' P' H.
  - injection H as _ _ <-. apply same_header_refl.
  - inv_bind H. destruct (String.eqb (p_name p) "total-cost"); apply IH in H;
      (eapply same_header_trans; [|exact H]); split; reflexivity.
Qed.

Lemma declare_constants_header tm gs :
  forall P P', declare_constants tm gs P = Ok P' -> same_header P P'.
Proof.
  induction gs as [|g gs IH]; simpl; intros P P' H.
  - injection H as <-. apply same_header_refl.
  - destruct (group_type tm g) as [t|]; [|discriminate].
    eapply same_header_trans; [apply (add_objects_header t (g_names g))|apply (IH _ _ H)].
Qed.

Lemma declare_action_header a st st' :
  declare_action a st = Ok st' -> same_header (ds_problem st) (ds_problem st').
Proof.
  unfold declare_action. intros H. inv_bind H. destruct a.
  - do 3 inv_bind H. destruct x2. injection H as <-. split; reflexivity.
  - do 3 inv_bind H. destruct x2 as [[i|d] u]; [discriminate|].
    injection H as <-. split; reflexivity.
Qed.

Lemma declare_actions_header l :
  forall st st', declare_actions l st = Ok st' ->
    same_header (ds_problem st) (ds_problem st').
Proof.
  induction l as [|a l IH]; simpl; intros st st' H.
  - injection H as <-. apply same_header_refl.
  - inv_bind H. eapply same_header_trans; [apply (declare_action_header _ _ _ E)|].
    apply (IH _ _ H).
Qed.

(** The problem that the domain leaves has the class chosen from the
    requirements, and no quality metric. *)
Lemma parse_domain_header self tm dom st :
  parse_domain self tm dom = Ok st ->
  problem_class (ds_problem st) = class_of dom /\ quality_metrics (ds_problem st) = [].
Proof.
  unfold parse_domain. intros H. inv_bind H. inv_bind H. inv_bind H.
  destruct x1 as [types_map tm1]. inv_bind H. inv_bind H.
  destruct x2 as [[self' flag] P']. inv_bind H.
  repeat match goal with
  | Hx : declare_all _ _ _ _ = Ok _ |- _ => apply declare_all_header in Hx
  | Hx : declare_predicates _ _ _ = Ok _ |- _ => apply declare_predicates_header in Hx
  | Hx : declare_functions _ _ _ _ _ = Ok _ |- _ => apply declare_functions_header in Hx
  | Hx : declare_constants _ _ _ = Ok _ |- _ => apply declare_constants_header in Hx
  | Hx : declare_actions _ _ = Ok _ |- _ => apply declare_actions_header in Hx
  end.
  unfold same_header in *. simpl in *.
  repeat match goal with Hx : _ /\ _ |- _ => destruct Hx end.
  split; congruence.
Qed.

End SectionFacts.
(** ** The reader returns or raises *)

Module TotalityFacts.
Import Types Reader ReaderFacts AssembleFacts ProblemFacts EffectFacts SignatureFacts Samples Notions.

Arguments _parse_exp : simpl never.
Arguments _add_effect : simpl never.
Arguments _add_timed_effects : simpl never.
Arguments _add_condition : simpl never.
Arguments parse_duration : simpl never.
Arguments UserType : simpl never.
Arguments Fraction_of_string : simpl never.

Create HintDb finishes.

#[local] Hint Resolve getitem_finishes parse_exp_finishes joined_values_finishes
  params_of_finishes bind_variables_finishes add_effect_kind_finishes
  add_effect_finishes add_condition_finishes add_timed_effects_finishes
  parse_duration_finishes find_fluent_finishes find_object_finishes
  Fraction_of_string_finishes : finishes.

Ltac fin :=
  repeat first
    [ discriminate
    | solve [auto with finishes]
    | match goal with
      | H : ?r = OutOfFuel |- _ =>
          exfalso; assert (r <> OutOfFuel) by auto with finishes; contradiction
      end
    | apply bind_finishes; [|first [intros [? ?] ?|intros ? ?]]
    | progress cbv beta iota
    | break_match ].

Lemma any_name_is_finishes n items tail : any_name_is n items tail <> OutOfFuel.
Proof.
  induction items as [|a items IH]; simpl.
  - destruct tail; discriminate.
  - destruct a as [| | |an af]; simpl; try discriminate.
    destruct (String.eqb an n); [discriminate|exact IH].
Qed.

Lemma UserType_finishes tm n f : UserType tm n f <> OutOfFuel.
Proof.
  unfold UserType, _UserType, user_type_ancestors.
  pose proof any_name_is_finishes.
  fin.
Qed.
#[local] Hint Resolve UserType_finishes : finishes.

Lemma declare_names_finishes names f : forall d, declare_names names f d <> OutOfFuel.
Proof. induction names as [|x names IH]; simpl; intros d; fin. Qed.
#[local] Hint Resolve declare_names_finishes : finishes.

Lemma extract_finishes needed lines :
  forall d, extract_type_declarations needed lines d <> OutOfFuel.
Proof. induction lines as [|[names wf] lines IH]; simpl; intros d; fin. Qed.
#[local] Hint Resolve extract_finishes : finishes.

Lemma declare_type_finishes d needed :
  forall depth t fo st, declare_type d needed depth t fo st <> OutOfFuel.
Proof. induction depth as [|depth IH]; intros t fo st; cbn [declare_type]; fin. Qed.
#[local] Hint Resolve declare_type_finishes : finishes.

Lemma declare_all_finishes d needed :
  forall todo st, declare_all d needed todo st <> OutOfFuel.
Proof. induction todo as [|[t fo] todo IH]; intros st; cbn [declare_all]; fin. Qed.
#[local] Hint Resolve declare_all_finishes : finishes.

Lemma collect_group_finishes tm unique loc ty :
  forall names acc, collect_params tm unique [mkGroup loc names ty] acc <> OutOfFuel.
Proof.
  induction names as [|n names IH]; intros acc.
  - simpl. fin.
  - specialize (IH (dict_set acc n
                      (match group_type tm (mkGroup loc [] ty) with
                       | Some t => t | None => BoolT end))).
    simpl in IH |- *. unfold group_type in IH |- *. simpl in IH |- *.
    destruct (types_get tm _); [|discriminate].
    destruct unique; [destruct (str_get acc n)|]; try discriminate; exact IH.
Qed.

Lemma collect_params_finishes tm unique groups :
  forall acc, collect_params tm unique groups acc <> OutOfFuel.
Proof.
  induction groups as [|[loc names ty] groups IH]; intros acc; [discriminate|].
  rewrite collect_params_cons. apply bind_finishes; [apply collect_group_finishes|].
  intros p _. apply IH.
Qed.
#[local] Hint Resolve collect_params_finishes : finishes.

Lemma declare_predicates_finishes tm ps : forall P, declare_predicates tm ps P <> OutOfFuel.
Proof. induction ps as [|p ps IH]; simpl; intros P; fin. Qed.

Lemma declare_functions_finishes tm ps :
  forall self flag P, declare_functions tm ps self flag P <> OutOfFuel.
Proof. induction ps as [|p ps IH]; simpl; intros self flag P; fin. Qed.

Lemma declare_constants_finishes tm gs : forall P, declare_constants tm gs P <> OutOfFuel.
Proof. induction gs as [|g gs IH]; simpl; intros P; fin. Qed.

#[local] Hint Resolve declare_predicates_finishes declare_functions_finishes
  declare_constants_finishes : finishes.

(** A loop that threads a result through steps that end, ends. *)
Lemma fold_finishes {A B} (step : A -> B -> Result A) l :
  (forall a b, step a b <> OutOfFuel) ->
  forall r, r <> OutOfFuel ->
    fold_left (fun r b => bind r (fun a => step a b)) l r <> OutOfFuel.
Proof.
  intros Hs. induction l as [|b l IH]; simpl; intros r Hr; [exact Hr|].
  apply IH. apply bind_finishes; [exact Hr|]. intros a _. apply Hs.
Qed.

Lemma declare_action_finishes a st : declare_action a st <> OutOfFuel.
Proof.
  unfold declare_action, the_instantaneous.
  apply bind_finishes; [auto with finishes|]. intros a_params _.
  destruct a as [n ps pre eff obs|n ps dur cond eff].
  - apply bind_finishes.
    + destruct obs as [o|]; [|discriminate].
      apply bind_finishes; [auto with finishes|]. intros o0 _.
      destruct (value_is o0 "and").
      * apply (fold_finishes
                 (fun act e =>
                    bind (_parse_exp (ds_self st) (ds_problem st) (Some (Instantaneous act))
                            (ds_types_map st) [] e [])
                      (fun f => Ok (add_observed_fluent act f)))); [|discriminate].
        intros act e. fin.
      * fin.
    + intros act _. fin.
  - fin.
Qed.
#[local] Hint Resolve declare_action_finishes : finishes.

Lemma declare_actions_finishes l : forall st, declare_actions l st <> OutOfFuel.
Proof. induction l as [|a l IH]; simpl; intros st; fin. Qed.
#[local] Hint Resolve declare_actions_finishes : finishes.

Lemma parse_domain_finishes self tm dom : parse_domain self tm dom <> OutOfFuel.
Proof. unfold parse_domain. fin. Qed.

Lemma declare_objects_finishes tm gs : forall P, declare_objects tm gs P <> OutOfFuel.
Proof. induction gs as [|[names ty] gs IH]; simpl; intros P; fin. Qed.

Lemma universal_variables_finishes tm groups : universal_variables tm groups <> OutOfFuel.
Proof. induction groups as [|g groups IH]; simpl; fin. Qed.

#[local] Hint Resolve declare_objects_finishes universal_variables_finishes : finishes.

Lemma expand_instance_finishes self tm key eff names P objs :
  expand_instance self tm key eff names P objs <> OutOfFuel.
Proof. unfold expand_instance. fin. Qed.

Lemma expand_universal_finishes self tm key P eff :
  expand_universal self tm key P eff <> OutOfFuel.
Proof.
  unfold expand_universal.
  repeat (apply bind_finishes; [auto with finishes|]; intros ? _).
  destruct a2 as [var_names var_types].
  apply (fold_finishes (fun Q objs => expand_instance self tm key eff var_names Q objs));
    [|discriminate].
  intros Q objs. apply expand_instance_finishes.
Qed.

Lemma expand_all_finishes self tm ua : forall P, expand_all self tm ua P <> OutOfFuel.
Proof.
  unfold expand_all. intros P.
  assert (H : forall r, r <> OutOfFuel ->
            fold_left
              (fun r entry =>
                 fold_left (fun r' eff =>
                    bind r' (fun Q => expand_universal self tm (fst entry) Q eff))
                   (snd entry) r) ua r <> OutOfFuel).
  { induction ua as [|[key effs] ua IH]; simpl; intros r Hr; [exact Hr|].
    apply IH.
    apply (fold_finishes (fun Q eff => expand_universal self tm key Q eff)); [|exact Hr].
    intros Q eff. apply expand_universal_finishes. }
  apply H. discriminate.
Qed.

Lemma compile_all_finishes compile l :
  (forall e, compile e <> OutOfFuel) -> compile_all compile l <> OutOfFuel.
Proof. intros Hc. induction l as [|e l IH]; simpl; fin. Qed.

Lemma arg_finishes e i : arg e i <> OutOfFuel.
Proof. unfold arg. fin. Qed.

#[local] Hint Resolve expand_all_finishes arg_finishes : finishes.

Lemma parse_init_item_finishes self tm P init : parse_init_item self tm P init <> OutOfFuel.
Proof.
  unfold parse_init_item.
  pose proof (fun l => compile_all_finishes
                (fun e => _parse_exp self P None tm [] e []) l
                (fun e => parse_exp_finishes self P None tm [] e [])).
  fin.
Qed.

Lemma list_remove_finishes {A} (eqb : A -> A -> bool) x l : list_remove eqb x l <> OutOfFuel.
Proof. induction l as [|y l IH]; simpl; fin. Qed.

Lemma strip_costs_finishes self tc acts :
  forall costs upl, strip_costs self tc acts costs upl <> OutOfFuel.
Proof.
  pose proof (@list_remove_finishes Effect).
  induction acts as [|[a|d] acts IH]; simpl; intros costs upl; fin.
Qed.

Lemma problem_has_actions_cost_finishes self P : _problem_has_actions_cost self P <> OutOfFuel.
Proof. unfold _problem_has_actions_cost, initial_value, constant_value. fin. Qed.

Lemma parse_metric_finishes self tm flag opt m P : parse_metric self tm flag opt m P <> OutOfFuel.
Proof.
  unfold parse_metric, remove_fluent, fluent_of.
  pose proof (@list_remove_finishes Fluent). pose proof strip_costs_finishes.
  fin.
Qed.

Lemma parse_problem_part_finishes st res : parse_problem_part st res <> OutOfFuel.
Proof.
  unfold parse_problem_part, cost_and_metric, init_items.
  pose proof problem_has_actions_cost_finishes. pose proof parse_metric_finishes.
  repeat (apply bind_finishes; [solve [fin]|]; first [intros [? ?] _|intros ? _]).
  apply bind_finishes.
  - apply (fold_finishes
             (fun Q j => parse_init_item (ds_self st) (ds_types_map st) Q j)); [|discriminate].
    intros Q j. apply parse_init_item_finishes.
  - intros. fin.
Qed.

Lemma parse_problem_finishes self tm dom pr : _parse_problem self tm dom pr <> OutOfFuel.
Proof.
  unfold _parse_problem. apply bind_finishes; [apply parse_domain_finishes|].
  intros st _. destruct pr as [res|]; [apply parse_problem_part_finishes|].
  destruct (ds_universal st); discriminate.
Qed.

(** X28. [_parse_problem] returns a problem or raises an exception on
    every domain and problem: none of its loops needs more turns than the
    size of what it reads, and the recursion over the fathers of a type
    ends with the type declared or with [RecursionError]. *)
Theorem parse_problem_returns_or_raises self tm dom pr :
  (exists P, _parse_problem self tm dom pr = Ok P) \/
  (exists e, _parse_problem self tm dom pr = Raise e).
Proof.
  pose proof (parse_problem_finishes self tm dom pr) as H.
  destruct (_parse_problem self tm dom pr) as [P|e|]; [left|right|]; eauto.
  exfalso. apply H. reflexivity.
Qed.

End TotalityFacts.
(** ** The goal and the metric *)

Module GoalMetricFacts.
Import Types Reader ReaderFacts AssembleFacts ProblemFacts TypesSectionFacts SectionFacts
  TotalityFacts Samples Notions.

Arguments _parse_exp : simpl never.

(** What [parse_problem_part] has done when it reaches the goal. *)
Lemma reaches_goal st res P :
  parse_problem_part st res = Ok P ->
  exists P3,
    same_header (ds_problem st) P3 /\
    exists P5,
      match goal res with
      | Some g => exists c, P5 = add_goal P3 c
      | None => problem_class P3 = Hierarchical /\ P5 = P3
      end /\
      exists P6,
        same_header P5 P6 /\
        cost_and_metric (ds_self st) (ds_types_map st) (ds_has_actions_cost st)
          (optimization res) (metric res) P6 = Ok P.
Proof.
  unfold parse_problem_part. intros H.
  inv_bind H. rename x into P1. inv_bind H. rename x into P2.
  inv_bind H. rename x into items. inv_bind H. rename x into P3.
  inv_bind H. rename x into P5. inv_bind H. rename x into P6.
  exists P3. split.
  { apply (same_header_trans _ (set_name (ds_problem st) (res_name res)) _);
      [split; reflexivity|].
    eapply before_goal_header; eassumption. }
  exists P5. split.
  { destruct (goal res) as [g|].
    - inv_bind E3. injection E3 as <-. eauto.
    - destruct (problem_class P3) eqn:Ec; try discriminate. injection E3 as <-. auto. }
  exists P6. split; [|exact H].
  destruct (res_constraints res) as [c|].
  - inv_bind E4. injection E4 as <-. split; reflexivity.
  - injection E4 as <-. apply same_header_refl.
Qed.

(** X25. A problem file without [:goal] section is refused, unless the
    domain requires [:hierarchy]: [_parse_problem] raises an exception and
    returns no problem, whatever else the two files hold. *)
Theorem missing_goal_is_refused self tm dom res :
  class_of dom <> Hierarchical ->
  goal res = None ->
  exists e, _parse_problem self tm dom (Some res) = Raise e.
Proof.
  intros Hclass Hgoal.
  pose proof (parse_problem_finishes self tm dom (Some res)) as Hf.
  destruct (_parse_problem self tm dom (Some res)) as [P|e|] eqn:H.
  - exfalso. unfold _parse_problem in H. inv_bind H. rename x into st.
    apply parse_domain_header in E. destruct E as [Hc _].
    apply reaches_goal in H. destruct H as (P3 & [Hc3 _] & P5 & Hg & _).
    rewrite Hgoal in Hg. destruct Hg as [Hh _]. congruence.
  - eauto.
  - exfalso. apply Hf. reflexivity.
Qed.

Lemma missing_goal_is_refused_witness :
  exists e,
    _parse_problem example_reader TypeManager_init tour_domain
      (Some (mkProblemRes "p" [] [] None None None None)) = Raise e.
Proof.
  apply (missing_goal_is_refused example_reader TypeManager_init tour_domain
           (mkProblemRes "p" [] [] None None None None)).
  - discriminate.
  - reflexivity.
Defined.

(** X21. A [:types] section in which the fathers of some types form a
    cycle (a type that is its own father, two types that are each the
    father of the other, ...) is never accepted: [declare_type] follows the
    fathers without end, and [_parse_problem] raises an exception, whatever
    the rest of the domain and of the problem. *)
Theorem cyclic_types_are_refused self tm dom pr names :
  cyclic (declarations_of (_check_if_object_type_is_needed dom) (types dom)) names ->
  exists e, _parse_problem self tm dom pr = Raise e.
Proof.
  intros Hcyc.
  pose proof (parse_problem_finishes self tm dom pr) as Hf.
  destruct (_parse_problem self tm dom pr) as [P|e|] eqn:H.
  - exfalso. unfold _parse_problem in H. inv_bind H.
    apply (parse_domain_with_cycle self tm dom names Hcyc _ E).
  - eauto.
  - exfalso. apply Hf. reflexivity.
Qed.

Lemma cyclic_types_are_refused_witness :
  exists e,
    _parse_problem example_reader TypeManager_init
      (mkDomainRes "d" []
         [([mkToken "ship"], Some (mkToken "Boat")); ([mkToken "boat"], Some (mkToken "ship"))]
         [] [] [] [])
      None = Raise e.
Proof.
  apply (cyclic_types_are_refused example_reader TypeManager_init
           (mkDomainRes "d" []
              [([mkToken "ship"], Some (mkToken "Boat"));
               ([mkToken "boat"], Some (mkToken "ship"))] [] [] [] [])
           None ["ship"; "boat"]%string).
  split; [discriminate|]. split.
  - intros n [<-|[<-|[]]].
    + exists (mkToken "ship"), (Some (mkToken "Boat")). split; [left; reflexivity|reflexivity].
    + exists (mkToken "boat"), (Some (mkToken "ship")).
      split; [right; left; reflexivity|reflexivity].
  - intros t fo [[= <- <-]|[[= <- <-]|[]]] _.
    + exists (mkToken "Boat"). split; [reflexivity|right; left; reflexivity].
    + exists (mkToken "ship"). split; [reflexivity|left; reflexivity].
Defined.

(** What the metric leaves of the quality metrics of a problem that has
    none. *)
Lemma parse_metric_metrics self tm flag opt m P P' :
  quality_metrics P = [] ->
  parse_metric self tm flag opt m P = Ok P' ->
  List.length (quality_metrics P') <= 1 /\
  (m = None -> quality_metrics P' = []) /\
  (forall loc l, opt = Some "minimize"%string -> m = Some (Lst loc [Tok l "total-time"]) ->
     quality_metrics P' = [MinimizeMakespan]) /\
  (forall e, opt = Some "maximize"%string -> m = Some e ->
     exists c, _parse_exp self P' None tm [] e [] = Ok c /\
               quality_metrics P' = [MaximizeExpressionOnFinalState c]) /\
  (flag = false -> forall q, In q (quality_metrics P') -> cost_metric q = false).
Proof.
  intros Hq H. unfold parse_metric in H.
  destruct m as [metric|].
  2:{ injection H as <-. rewrite Hq. repeat split; auto; try discriminate.
      intros _ q []. }
  inv_bind H. rename x into total_time.
  destruct total_time.
  { injection H as <-. simpl. rewrite Hq. simpl.
    repeat split; auto; try discriminate.
    - intros e Hmax _. subst opt. simpl in E. discriminate.
    - intros _ q [<-|[]]. reflexivity. }
  assert (Hnot : forall loc l, opt = Some "minimize"%string ->
            Some metric = Some (Lst loc [Tok l "total-time"]) -> False).
  { intros loc l -> [= ->]. simpl in E. discriminate. }
  inv_bind H. rename x into metric_exp.
  destruct (flag && head_is opt "minimize" && is_node metric_exp (_totalcost self)) eqn:Ec.
  - apply andb_true_iff in Ec. destruct Ec as [Ec _].
    apply andb_true_iff in Ec. destruct Ec as [Hflag Hmin].
    destruct (_totalcost self) as [tc|]; [|discriminate].
    inv_bind H. inv_bind H. cbv zeta in H. inv_bind H.
    match goal with
    | Hr : remove_fluent _ _ = Ok _ |- _ =>
        unfold remove_fluent in Hr; inv_bind Hr; injection Hr as <-
    end.
    match type of H with
    | context [match ?x with _ => _ end] => destruct x as [[acts costs] upl]
    end.
    assert (Hres : exists q, quality_metrics P' = [q]).
    { destruct upl; injection H as <-; simpl; rewrite Hq; simpl; eauto. }
    destruct Hres as [q Hres]. rewrite Hres. simpl. repeat split; auto; try discriminate.
    + intros loc l Ho Hm. destruct (Hnot loc l Ho Hm).
    + intros e Hmax _. subst opt. discriminate.
    + intros Hf. congruence.
  - destruct (head_is opt "minimize") eqn:Emin.
    + injection H as <-. simpl. rewrite Hq. simpl. repeat split; auto; try discriminate.
      * intros loc l Ho Hm. destruct (Hnot loc l Ho Hm).
      * intros e Hmax _. subst opt. discriminate.
      * intros _ q [<-|[]]. reflexivity.
    + destruct (head_is opt "maximize") eqn:Emax.
      * injection H as <-. simpl. rewrite Hq. simpl. repeat split; auto; try discriminate.
        -- intros loc l Ho Hm. destruct (Hnot loc l Ho Hm).
        -- intros e _ [= <-]. exists metric_exp. split; [|reflexivity].
           unfold _parse_exp.
           rewrite <- (UniversalFacts.parse_loop_problem self P
                         (add_quality_metric P (MaximizeExpressionOnFinalState metric_exp))
                         None tm [] _ eq_refl eq_refl).
           assumption.
        -- intros _ q [<-|[]]. reflexivity.
      * injection H as <-. rewrite Hq. simpl. repeat split; auto; try discriminate.
        -- intros loc l Ho Hm. destruct (Hnot loc l Ho Hm).
        -- intros e Hmax _. subst opt. discriminate.
        -- intros _ q [].
Qed.

(** The metric of a problem file, read after a domain that left the flag
    [has_actions_cost] at [flag]. *)
Lemma parse_problem_metrics self tm dom res P :
  _parse_problem self tm dom (Some res) = Ok P ->
  exists st flag P6,
    parse_domain self tm dom = Ok st /\
    (ds_has_actions_cost st = false -> flag = false) /\
    quality_metrics P6 = [] /\
    parse_metric (ds_self st) (ds_types_map st) flag (optimization res) (metric res) P6 = Ok P.
Proof.
  unfold _parse_problem. intros H. inv_bind H. rename x into st.
  pose proof (parse_domain_header _ _ _ _ E) as [_ Hq].
  apply reaches_goal in H. destruct H as (P3 & [_ Hq3] & P5 & Hg & P6 & [_ Hq6] & H).
  unfold cost_and_metric in H. inv_bind H. rename x into flag.
  exists st, flag, P6. split; [exact E|]. split; [|split; [|exact H]].
  - intros Hf. rewrite Hf in E0. injection E0 as <-. reflexivity.
  - rewrite Hq6. destruct (goal res) as [g|].
    + destruct Hg as [c ->]. simpl. congruence.
    + destruct Hg as [_ ->]. congruence.
Qed.

(** X26. The model read from a domain and a problem has at most one
    quality metric, and none when the problem has no [:metric] section;
    [minimize (total-time)] gives the makespan metric, whatever the
    functions and the costs of the domain; and a [maximize] metric is
    always kept as the maximisation of the expression that the metric
    compiles to, outside any action, with the types of the domain. *)
Theorem metric_section_sets_the_quality_metric self tm dom res P :
  _parse_problem self tm dom (Some res) = Ok P ->
  List.length (quality_metrics P) <= 1 /\
  (metric res = None -> quality_metrics P = []) /\
  (forall loc l, optimization res = Some "minimize"%string ->
     metric res = Some (Lst loc [Tok l "total-time"]) ->
     quality_metrics P = [MinimizeMakespan]) /\
  (forall e, optimization res = Some "maximize"%string -> metric res = Some e ->
     exists st c,
       parse_domain self tm dom = Ok st /\
       _parse_exp (ds_self st) P None (ds_types_map st) [] e [] = Ok c /\
       quality_metrics P = [MaximizeExpressionOnFinalState c]).
Proof.
  intros H. apply parse_problem_metrics in H.
  destruct H as (st & flag & P6 & Hd & _ & Hq & H).
  destruct (parse_metric_metrics _ _ _ _ _ _ _ Hq H) as (H1 & H2 & H3 & H4 & _).
  split; [exact H1|]. split; [exact H2|]. split; [exact H3|].
  intros e Ho Hm. destruct (H4 e Ho Hm) as (c & Hc & Hk). exists st, c. auto.
Qed.

Lemma metric_section_sets_the_quality_metric_witness :
  List.length (quality_metrics tour_model_maximize) <= 1 /\
  exists st,
    parse_domain example_reader TypeManager_init tour_domain = Ok st /\
    _parse_exp (ds_self st) tour_model_maximize None (ds_types_map st) []
      (lst [tok "visited"; tok "t2"]) []
    = Ok (FluentExp fluent_visited [ObjectExp (mkObject "t2" truck)]) /\
    quality_metrics tour_model_maximize
    = [MaximizeExpressionOnFinalState
         (FluentExp fluent_visited [ObjectExp (mkObject "t2" truck)])].
Proof.
  destruct (metric_section_sets_the_quality_metric example_reader TypeManager_init
              tour_domain tour_file_maximize tour_model_maximize)
    as (H1 & _ & _ & H4).
  - vm_compute. reflexivity.
  - split; [exact H1|].
    destruct (H4 (lst [tok "visited"; tok "t2"]) eq_refl eq_refl) as (st & c & Hd & Hc & Hq).
    exists st. split; [exact Hd|].
    assert (Hc' : c = FluentExp fluent_visited [ObjectExp (mkObject "t2" truck)]).
    { vm_compute in Hq. injection Hq as <-. reflexivity. }
    subst c. split; [exact Hc|exact Hq].
Defined.

Lemma declare_functions_flag tm ps :
  (forall p, In p ps -> p_name p <> "total-cost"%string) ->
  forall self flag P self' flag' P',
    declare_functions tm ps self flag P = Ok (self', flag', P') -> flag' = flag.
Proof.
  induction ps as [|p ps IH]; simpl; intros Hn self flag P self' flag' P' H.
  - injection H as _ <- _. reflexivity.
  - inv_bind H. destruct (String.eqb (p_name p) "total-cost") eqn:E1.
    + apply String.eqb_eq in E1. exfalso. apply (Hn p); auto.
    + apply (IH (fun q Hq => Hn q (or_intror Hq)) _ _ _ _ _ _ H).
Qed.

Lemma declare_action_flag a st st' :
  declare_action a st = Ok st' ->
  ds_has_actions_cost st = false -> ds_has_actions_cost st' = false.
Proof.
  unfold declare_action. intros H Hf. inv_bind H. destruct a.
  - do 3 inv_bind H. destruct x2. injection H as <-. simpl. rewrite Hf. reflexivity.
  - do 3 inv_bind H. destruct x2 as [[i|d] u]; [discriminate|].
    injection H as <-. simpl. rewrite Hf. reflexivity.
Qed.

Lemma declare_actions_flag l :
  forall st st', declare_actions l st = Ok st' ->
    ds_has_actions_cost st = false -> ds_has_actions_cost st' = false.
Proof.
  induction l as [|a l IH]; simpl; intros st st' H Hf.
  - injection H as <-. exact Hf.
  - inv_bind H. apply (IH _ _ H). apply (declare_action_flag _ _ _ E Hf).
Qed.

(** X27. A domain that declares no function named [total-cost] never
    gets a metric on action costs: whatever the problem file asks to
    minimize, the model read holds neither a plan-length metric nor a table
    of action costs. *)
Theorem cost_metrics_need_total_cost self tm dom res P :
  (forall p, In p (functions dom) -> p_name p <> "total-cost"%string) ->
  _parse_problem self tm dom (Some res) = Ok P ->
  Forall (fun q => cost_metric q = false) (quality_metrics P).
Proof.
  intros Hn H. apply parse_problem_metrics in H.
  destruct H as (st & flag & P6 & Hd & Hflag & Hq & H).
  assert (Hst : ds_has_actions_cost st = false).
  { unfold parse_domain in Hd. inv_bind Hd. inv_bind Hd. inv_bind Hd.
    destruct x1 as [types_map tm1]. inv_bind Hd. inv_bind Hd.
    destruct x2 as [[self' flag0] P0]. inv_bind Hd.
    apply (declare_functions_flag _ _ Hn) in E3. subst flag0.
    apply (declare_actions_flag _ _ _ Hd). reflexivity. }
  destruct (parse_metric_metrics _ _ _ _ _ _ _ Hq H) as (_ & _ & _ & _ & Hc).
  apply Forall_forall. apply Hc. apply Hflag. exact Hst.
Qed.

Lemma cost_metrics_need_total_cost_witness :
  Forall (fun q => cost_metric q = false) (quality_metrics tour_model).
Proof.
  apply (cost_metrics_need_total_cost example_reader TypeManager_init tour_domain tour_file).
  - intros p [].
  - vm_compute. reflexivity.
Defined.

End GoalMetricFacts.
(** ** Tokens, costs of durative actions, numbers and timed literals *)

Module MoreFacts.
Import Types Reader ReaderFacts AssembleFacts ProblemFacts MetricFacts Samples Notions.

Arguments _parse_exp : simpl never.

Lemma lower_ascii_twice c : lower_ascii (lower_ascii c) = lower_ascii c.
Proof. destruct c as [[] [] [] [] [] [] [] []]; reflexivity. Qed.

Lemma lower_twice s : lower (lower s) = lower s.
Proof. induction s as [|c s IH]; simpl; [reflexivity|]. rewrite lower_ascii_twice, IH. reflexivity. Qed.

(** X6. The equality of [CaseInsensitiveToken] is an equivalence
    relation that ignores case: a token equals the token of its lower-cased
    name, and it equals a string exactly when it equals the token of that
    string. *)
Theorem token_equality_ignores_case :
  (forall a, token_eqb a a = true) /\
  (forall a b, token_eqb a b = token_eqb b a) /\
  (forall a b c, token_eqb a b = true -> token_eqb b c = true -> token_eqb a c = true) /\
  (forall s, token_eqb (mkToken (lower s)) (mkToken s) = true) /\
  (forall a s, token_eq_str a s = token_eqb a (mkToken s)).
Proof.
  unfold token_eqb, token_eq_str, _canonical. simpl. repeat split.
  - intros a. apply String.eqb_refl.
  - intros a b. apply String.eqb_sym.
  - intros a b c H1 H2. apply String.eqb_eq in H1, H2. apply String.eqb_eq. congruence.
  - intros s. rewrite lower_twice. apply String.eqb_refl.
  - intros a s. apply String.eqb_sym.
Qed.

Lemma parse_loop_reader self self' P act tm asg fuel :
  (forall s, _pp_parameters self s = _pp_parameters self' s) ->
  (forall f args, _em_accepts self f args = _em_accepts self' f args) ->
  forall stack solved,
    parse_loop self P act tm asg fuel stack solved
    = parse_loop self' P act tm asg fuel stack solved.
Proof.
  intros Hs Hm.
  assert (Hc : forall var exp solved,
            Reader.combine self P asg var exp solved = Reader.combine self' P asg var exp solved).
  { intros var exp solved. unfold Reader.combine.
    destruct (getitem exp 0) as [e0| |]; cbn [bind]; try reflexivity.
    destruct (head_is (value_str e0) "-" && (len exp =? 2)%nat); [reflexivity|].
    destruct (by_head _operators (value_str e0)); [reflexivity|].
    destruct (by_head quantifier_of (value_str e0)); [reflexivity|].
    destruct (by_head _trajectory_constraints (value_str e0)); [reflexivity|].
    destruct (head_has_fluent P (value_str e0)); [|reflexivity].
    destruct (find_fluent P _) as [f| |]; cbn [bind]; try reflexivity.
    destruct (pop_n _ solved) as [[xs rest]| |]; cbn [bind]; try reflexivity.
    rewrite Hm. reflexivity. }
  assert (Hd : forall var exp children,
            descend self P tm asg var exp children = descend self' P tm asg var exp children).
  { intros var exp children. unfold descend, params_of.
    destruct children as [|e0 others]; [reflexivity|].
    destruct (getitem exp 1) as [e1| |]; cbn [bind];
      [destruct (joined_values e1) as [text| |]; cbn [bind]; [rewrite Hs|..]|..];
      reflexivity. }
  induction fuel as [|fuel IH]; intros [|[[var exp] status] stack] solved; try reflexivity.
  simpl. destruct status.
  - rewrite Hc. destruct (Reader.combine self' P asg var exp solved); simpl; auto.
  - destruct exp as [span tok|loc children].
    + destruct (resolve_token P act asg var span tok); simpl; auto.
    + rewrite Hd. destruct (descend self' P tm asg var (Lst loc children) children)
        as [[pushed out]| |]; simpl; auto.
Qed.

(** X12. The compiler reads, of the reader, only the grammar of typed
    lists and the manager's answer to a fluent application; of the
    problem, only its fluents and its objects; of the enclosing action,
    only its parameters: two calls that agree on these give the same
    outcome, whatever the effects and conditions the action holds already
    and whatever else the problem and the reader hold. *)
Theorem compiler_reads_names_only self self' P Q a b tm var exp asg :
  (forall s, _pp_parameters self s = _pp_parameters self' s) ->
  (forall f args, _em_accepts self f args = _em_accepts self' f args) ->
  fluents P = fluents Q -> objects_all P = objects_all Q ->
  action_parameters a = action_parameters b ->
  _parse_exp self P (Some a) tm var exp asg = _parse_exp self' Q (Some b) tm var exp asg.
Proof.
  intros Hs Hm Hf Ho Hp.
  rewrite (UniversalFacts.parse_exp_same self P Q a b tm var exp asg Hf Ho Hp).
  unfold _parse_exp. apply parse_loop_reader; assumption.
Qed.

Lemma compiler_reads_names_only_witness :
  _parse_exp example_reader ready_problem
    (Some (Instantaneous (new_InstantaneousAction "a" [("x", BoolT)]))) []
    [] (lst [tok "not"; tok "?x"]) []
  = _parse_exp cost_reader (add_goal ready_problem ready)
      (Some (Durative (new_DurativeAction "b" [("x", BoolT)]))) []
      [] (lst [tok "not"; tok "?x"]) [].
Proof.
  apply (compiler_reads_names_only example_reader cost_reader ready_problem
           (add_goal ready_problem ready)); reflexivity.
Defined.

Lemma existsb_false_forall {A} (p : A -> bool) l :
  existsb p l = false <-> forall x, In x l -> p x = false.
Proof.
  induction l as [|y l IH]; simpl.
  - split; [intros _ x []|reflexivity].
  - rewrite orb_false_iff, IH. split.
    + intros [Hy Hl] x [<-|Hx]; auto.
    + intros H. split; [apply H; auto|intros x Hx; apply H; auto].
Qed.

(** X19. The cost check classifies a durative action as
    cost-eligible exactly when the cost fluent occurs nowhere in it: not in
    the bounds of its duration, in none of its conditions, and in no
    fluent, value or condition of its effects.  So a durative action with
    an effect on the cost fluent, an increase by a constant included, is
    never cost-eligible. *)
Theorem durative_cost_check self act :
  (_durative_action_has_cost self act = true <->
   mentions self (duration_lower (duration act)) = false /\
   mentions self (duration_upper (duration act)) = false /\
   (forall i cl c, In (i, cl) (conditions act) -> In c cl -> mentions self c = false) /\
   (forall t el e, In (t, el) (timed_effects_of act) -> In e el ->
      effect_mentions self e = false)) /\
  (forall tc t el e,
     _totalcost self = Some tc -> is_fluent_exp tc = true ->
     In (t, el) (timed_effects_of act) -> In e el -> fluent e = tc ->
     _durative_action_has_cost self act = false).
Proof.
  assert (Hiff : _durative_action_has_cost self act = true <->
     mentions self (duration_lower (duration act)) = false /\
     mentions self (duration_upper (duration act)) = false /\
     (forall i cl c, In (i, cl) (conditions act) -> In c cl -> mentions self c = false) /\
     (forall t el e, In (t, el) (timed_effects_of act) -> In e el ->
        effect_mentions self e = false)).
  { unfold _durative_action_has_cost.
    destruct (mentions self (duration_lower (duration act))) eqn:E1; simpl;
      [split; [discriminate|intros [H _]; discriminate]|].
    destruct (mentions self (duration_upper (duration act))) eqn:E2; simpl;
      [split; [discriminate|intros (_ & H & _); discriminate]|].
    destruct (existsb _ (conditions act)) eqn:E3.
    { split; [discriminate|]. intros (_ & _ & Hc & _). exfalso.
      apply existsb_exists in E3. destruct E3 as ([i cl] & Hin & Hcl).
      apply existsb_exists in Hcl. destruct Hcl as (c & Hc1 & Hc2).
      rewrite (Hc i cl c Hin Hc1) in Hc2. discriminate. }
    destruct (existsb _ (timed_effects_of act)) eqn:E4.
    { split; [discriminate|]. intros (_ & _ & _ & He). exfalso.
      apply existsb_exists in E4. destruct E4 as ([t el] & Hin & Hel).
      apply existsb_exists in Hel. destruct Hel as (e & He1 & He2).
      rewrite (He t el e Hin He1) in He2. discriminate. }
    split; [intros _|reflexivity].
    repeat split; auto.
    - intros i cl c Hin Hc. apply (proj1 (existsb_false_forall _ _) E3) in Hin.
      apply (proj1 (existsb_false_forall _ _) Hin). exact Hc.
    - intros t el e Hin He. apply (proj1 (existsb_false_forall _ _) E4) in Hin.
      apply (proj1 (existsb_false_forall _ _) Hin). exact He. }
  split; [exact Hiff|].
  intros tc t el e Htc Hfl Hin He Hf.
  apply not_true_is_false. intros E.
  apply Hiff in E. destruct E as (_ & _ & _ & Heff).
  specialize (Heff t el e Hin He). unfold effect_mentions in Heff.
  apply orb_false_iff in Heff. destruct Heff as [Heff _].
  apply orb_false_iff in Heff. destruct Heff as [Heff _].
  rewrite Hf, (mentions_found self tc tc Htc) in Heff.
  destruct tc; try discriminate. cbn [fve_get existsb] in Heff.
  rewrite FNode_eqb_refl in Heff. discriminate.
Qed.

Lemma durative_cost_check_witness :
  _durative_action_has_cost cost_reader
    (mkDurative "drive" [] (FixedDuration (IntConstant 1)) []
       [(EndTiming zero, [unit_increase total_cost])]) = false.
Proof.
  apply (proj2 (durative_cost_check cost_reader
                  (mkDurative "drive" [] (FixedDuration (IntConstant 1)) []
                     [(EndTiming zero, [unit_increase total_cost])]))
           total_cost (EndTiming zero) [unit_increase total_cost] (unit_increase total_cost));
    try reflexivity; simpl; auto.
Defined.


Lemma Fraction_make_raises n d e : Fraction_make n d = Raise e -> e = ZeroDivisionError.
Proof. unfold Fraction_make. destruct (d =? 0)%Z; [intros [= <-]; reflexivity|discriminate]. Qed.

(** [Fraction] raises [ValueError] on a string that is no rational, and
    [ZeroDivisionError] on a zero denominator; nothing else. *)
Lemma Fraction_of_string_raises s e :
  Fraction_of_string s = Raise e -> e = ValueError \/ e = ZeroDivisionError.
Proof.
  unfold Fraction_of_string. intros H.
  repeat match type of H with
  | Raise _ = Raise _ => injection H as <-; left; reflexivity
  | Fraction_make _ _ = Raise _ => right; apply (Fraction_make_raises _ _ _ H)
  | context [match ?x with _ => _ end] =>
      lazymatch x with
      | context [match _ with _ => _ end] => fail
      | _ => destruct x eqn:?
      end
  end.
Qed.

(** X13. A leaf that is read as a number and on which [Fraction] raises
    something else than [ValueError] makes [_parse_exp] raise that same
    exception: it is the [ZeroDivisionError] of a zero denominator, as in
    [1/0], which is not turned into a [SyntaxError] and carries no span. *)
Theorem number_error_passes_through self P act tm var asg span tok e :
  reaches_number P asg tok = true ->
  Fraction_of_string tok = Raise e ->
  e <> ValueError ->
  _parse_exp self P act tm var (Tok span tok) asg = Raise e /\
  e = ZeroDivisionError /\
  carries_span e = false.
Proof.
  intros Hr Hq He.
  assert (Hz : e = ZeroDivisionError).
  { destruct (Fraction_of_string_raises tok e Hq); [contradiction|assumption]. }
  split; [|split; [exact Hz|subst e; reflexivity]].
  rewrite parse_exp_leaf. unfold resolve_token, reaches_number in *.
  destruct tok as [|c rest]; [discriminate|].
  rewrite has_sigil_head in Hr.
  destruct (Ascii.eqb c "?"); [discriminate|].
  destruct (str_get asg (String c rest)); [discriminate|].
  destruct (has_fluent P (String c rest)); [discriminate|].
  destruct (has_object P (String c rest)); [discriminate|].
  rewrite Hq. subst e. reflexivity.
Qed.

Lemma number_error_passes_through_witness :
  _parse_exp example_reader ready_problem None [] [] (Tok (3, 6) "1/0") []
  = Raise ZeroDivisionError /\
  ZeroDivisionError = ZeroDivisionError /\
  carries_span ZeroDivisionError = false.
Proof.
  apply (number_error_passes_through example_reader ready_problem None [] [] [] (3, 6) "1/0").
  - reflexivity.
  - reflexivity.
  - discriminate.
Defined.

(** X24. An item [(at s e)] of [:init] is a timed initial
    literal exactly when [s], one point removed, is made of digits: it then
    adds, at the time [s] after the start, the effect that sets the
    compiled fluent [e] to true, or, for [e = (not x)], [x] to false.  With
    any other [s] the item is read like every other fact, as the
    application of a fluent named [at]. *)
Theorem timed_initial_literal self tm P loc l0 l1 s e :
  (isdigit (remove_first_dot s) = false ->
   parse_init_item self tm P (Lst loc [Tok l0 "at"; Tok l1 s; e])
   = bind (_parse_exp self P None tm [] (Lst loc [Tok l0 "at"; Tok l1 s; e]) [])
       (fun f => Ok (set_initial_value P f TRUE))) /\
  (forall q va,
     isdigit (remove_first_dot s) = true ->
     Fraction_of_string s = Ok q ->
     _parse_exp self P None tm [] e [] = Ok va ->
     (is_fluent_exp va = true ->
      parse_init_item self tm P (Lst loc [Tok l0 "at"; Tok l1 s; e])
      = Ok (add_timed_effect P (StartTiming q) va TRUE)) /\
     (forall x, va = Apply NOT [x] ->
      parse_init_item self tm P (Lst loc [Tok l0 "at"; Tok l1 s; e])
      = Ok (add_timed_effect P (StartTiming q) x FALSE))).
Proof.
  split.
  - intros Hd. unfold parse_init_item.
    cbn [getitem nth_error bind value_str head_is String.eqb Ascii.eqb Bool.eqb len
         List.length Nat.eqb andb].
    rewrite Hd. reflexivity.
  - intros q va Hd Hq Hva. unfold parse_init_item.
    cbn [getitem nth_error bind value_str head_is String.eqb Ascii.eqb Bool.eqb len
         List.length Nat.eqb andb].
    rewrite Hd, Hq. cbn [bind]. rewrite Hva. cbn [bind]. split.
    + intros ->. reflexivity.
    + intros x ->. reflexivity.
Qed.

Lemma timed_initial_literal_witness :
  (is_fluent_exp ready = true ->
   parse_init_item example_reader [] ready_problem
     (Lst (0, 0) [Tok (0, 0) "at"; Tok (0, 0) "2.5"; lst [tok "ready"]])
   = Ok (add_timed_effect ready_problem (StartTiming (mkFraction 5 2)) ready TRUE)) /\
  (forall x, ready = Apply NOT [x] ->
   parse_init_item example_reader [] ready_problem
     (Lst (0, 0) [Tok (0, 0) "at"; Tok (0, 0) "2.5"; lst [tok "ready"]])
   = Ok (add_timed_effect ready_problem (StartTiming (mkFraction 5 2)) x FALSE)).
Proof.
  apply (proj2 (timed_initial_literal example_reader [] ready_problem (0, 0) (0, 0) (0, 0)
                  "2.5" (lst [tok "ready"])) (mkFraction 5 2) ready); reflexivity.
Defined.

End MoreFacts.
(** ** Quantified effects, from the domain to the model *)

Module QuantifiedFacts.
Import Types Reader ReaderFacts AssembleFacts ProblemFacts MetricFacts UniversalFacts
  EffectFacts SectionFacts TotalityFacts Samples Notions Quantified.

Arguments _parse_exp : simpl never.
Arguments parse_duration : simpl never.
Arguments _add_condition : simpl never.

(** *** What the assembler keeps *)

Lemma record_all_app ua key l1 l2 :
  record_all (record_all ua key l1) key l2 = record_all ua key (l1 ++ l2).
Proof. unfold record_all. rewrite fold_left_app. reflexivity. Qed.

Lemma dict_get_record ua key q j :
  dict_get Nat.eqb (record_universal ua key q) j
  = if Nat.eqb j key
    then Some (match dict_get Nat.eqb ua key with Some l => l ++ [q] | None => [q] end)
    else dict_get Nat.eqb ua j.
Proof.
  unfold record_universal. induction ua as [|[k l] ua IH]; cbn [multi_add dict_get].
  - rewrite (Nat.eqb_sym key j). destruct (Nat.eqb j key); reflexivity.
  - destruct (Nat.eqb k key) eqn:Ek; cbn [dict_get].
    + apply Nat.eqb_eq in Ek. subst k. rewrite (Nat.eqb_sym key j).
      destruct (Nat.eqb j key); reflexivity.
    + rewrite IH. destruct (Nat.eqb j key) eqn:Ej.
      * apply Nat.eqb_eq in Ej. subst j. rewrite Ek. reflexivity.
      * reflexivity.
Qed.

Lemma kept_record ua key q j :
  kept (record_universal ua key q) j
  = if Nat.eqb j key then kept ua key ++ [q] else kept ua j.
Proof.
  unfold kept. rewrite dict_get_record.
  destruct (Nat.eqb j key); [|reflexivity].
  destruct (dict_get Nat.eqb ua key); reflexivity.
Qed.

Lemma kept_record_all ua key new j :
  kept (record_all ua key new) j
  = if Nat.eqb j key then kept ua key ++ new else kept ua j.
Proof.
  unfold record_all. revert ua. induction new as [|q new IH]; intros ua; simpl.
  - destruct (Nat.eqb j key) eqn:E; [|reflexivity].
    apply Nat.eqb_eq in E. subst j. rewrite app_nil_r. reflexivity.
  - rewrite IH, !kept_record, Nat.eqb_refl.
    destruct (Nat.eqb j key); [rewrite <- app_assoc|]; reflexivity.
Qed.

(** One turn of the loop of [_add_effect] that ends well: what it keeps,
    and where a [forall] of the tree it took goes. *)
Lemma add_effect_turn_keeps self P key tm timing asg fuel exp cond rest act u r :
  add_effect_loop self P key tm timing asg (S fuel) ((exp, cond) :: rest) act (Some u) = Ok r ->
  exists q act1 new,
    add_effect_loop self P key tm timing asg fuel q act1 (Some (record_all u key new)) = Ok r /\
    (forall x, In x rest -> In x q) /\
    (forall e, quantified_effect_of exp e ->
       In e new \/ exists c cnd, In (c, cnd) q /\ quantified_effect_of c e).
Proof.
  cbn [add_effect_loop]. intros H.
  inv_ok H;
    match goal with
    | Hl : add_effect_loop _ _ _ _ _ _ _ ?q ?a (Some (record_universal u key exp)) = Ok _ |- _ =>
        exists q, a, [exp]
    | Hl : add_effect_loop _ _ _ _ _ _ _ ?q ?a (Some u) = Ok _ |- _ =>
        exists q, a, (@nil CustomParseResults)
    end;
    (split; [eassumption|]);
    (split; [intros item Hitem; try (apply in_or_app; left); exact Hitem|]);
    intros e Hq; inversion Hq; subst;
    repeat match goal with
    | Hg : getitem (Lst _ (_ :: _)) 0 = Ok _ |- _ =>
        cbn [getitem nth_error] in Hg; injection Hg as <-
    end;
    cbn [value_str head_is String.eqb Ascii.eqb Bool.eqb len List.length Nat.eqb] in *;
    try discriminate.
  all: try (left; left; reflexivity).
  all: right; eexists _, _; split; [apply in_or_app; right; apply in_map_iff;
         eexists; split; [reflexivity|eassumption]|assumption].
Qed.

(** The loop of [_add_effect], when it ends well, has recorded under [key]
    every [forall] that a tree of its work list holds at its top or under
    conjunctions, and has touched no other entry. *)
Lemma add_effect_loop_keeps self P key tm timing asg fuel :
  forall to_add act u r,
    add_effect_loop self P key tm timing asg fuel to_add act (Some u) = Ok r ->
    exists act' new,
      r = (act', Some (record_all u key new)) /\
      forall exp cond e, In (exp, cond) to_add -> quantified_effect_of exp e -> In e new.
Proof.
  induction fuel as [|fuel IH]; intros [|[exp cond] rest] act u r H.
  - injection H as <-. exists act, []. split; [reflexivity|]. intros ? ? ? [].
  - discriminate.
  - injection H as <-. exists act, []. split; [reflexivity|]. intros ? ? ? [].
  - apply add_effect_turn_keeps in H. destruct H as (q & act1 & new1 & H & Hrest & Hexp).
    apply IH in H. destruct H as (act' & new2 & -> & Hq).
    exists act', (new1 ++ new2). rewrite record_all_app. split; [reflexivity|].
    intros x c e [[= <- <-]|Hin] He; apply in_or_app.
    + destruct (Hexp e He) as [H1|(c' & cnd & Hin' & He')]; [left; exact H1|].
      right. apply (Hq c' cnd e Hin' He').
    + right. apply (Hq x c e (Hrest _ Hin) He).
Qed.

Lemma add_effect_keeps self P key act tm u exp cond timing asg r :
  _add_effect self P key act tm (Some u) exp cond timing asg = Ok r ->
  exists act' new,
    r = (act', Some (record_all u key new)) /\
    forall e, quantified_effect_of exp e -> In e new.
Proof.
  unfold _add_effect. intros H. apply add_effect_loop_keeps in H.
  destruct H as (act' & new & -> & Hq). exists act', new. split; [reflexivity|].
  intros e He. apply (Hq exp cond e); [left; reflexivity|exact He].
Qed.

(** A [forall] that is the whole tree is what the loop records, and the
    action is left as it is. *)
Lemma add_effect_of_forall self P key act tm ua loc l0 rest cond timing asg :
  _add_effect self P key act tm (Some ua) (Lst loc (Tok l0 "forall" :: rest)) cond timing asg
  = Ok (act, Some (record_universal ua key (Lst loc (Tok l0 "forall" :: rest)))).
Proof.
  unfold _add_effect. cbn [size]. 
  cbn [add_effect_loop len List.length Nat.eqb getitem nth_error bind value_str head_is
       String.eqb Ascii.eqb Bool.eqb].
  apply add_effect_loop_empty.
Qed.

(** The same for the loop of [_add_timed_effects]. *)
Lemma add_timed_effects_turn_keeps self P key tm asg fuel eff rest act u r :
  add_timed_effects_loop self P key tm asg (S fuel) (eff :: rest) act (Some u) = Ok r ->
  exists q act1 new,
    add_timed_effects_loop self P key tm asg fuel q act1 (Some (record_all u key new)) = Ok r /\
    (forall x, In x rest -> In x q) /\
    (forall e, timed_quantified_effect_of eff e ->
       In e new \/ exists c, In c q /\ timed_quantified_effect_of c e).
Proof.
  cbn [add_timed_effects_loop]. intros H.
  inv_ok H;
    repeat match goal with
    | Ha : _add_effect _ _ _ _ _ (Some _) _ _ _ _ = Ok _ |- _ =>
        apply add_effect_keeps in Ha; destruct Ha as (? & ? & Ha & ?);
        injection Ha as -> ->
    end;
    match goal with
    | Hl : add_timed_effects_loop _ _ _ _ _ _ ?q ?a (Some (record_universal u key eff)) = Ok _
      |- _ => exists q, a, [eff]
    | Hl : add_timed_effects_loop _ _ _ _ _ _ ?q ?a (Some (record_all u key ?new)) = Ok _
      |- _ => exists q, a, new
    | Hl : add_timed_effects_loop _ _ _ _ _ _ ?q ?a (Some u) = Ok _ |- _ =>
        exists q, a, (@nil CustomParseResults)
    end;
    (split; [eassumption|]);
    (split; [intros item Hitem; try (apply in_or_app; left); exact Hitem|]);
    intros e Hq; inversion Hq; subst;
    repeat match goal with
    | Ht : _ = "start" \/ _ = "end" |- _ => destruct Ht; subst
    end;
    cbn [getitem nth_error bind value_str value_is head_is String.eqb Ascii.eqb Bool.eqb len
         List.length Nat.eqb andb tail_children] in *;
    repeat match goal with
    | Hg : Ok _ = Ok _ |- _ => injection Hg as <-
    end;
    cbn [getitem nth_error bind value_str value_is head_is String.eqb Ascii.eqb Bool.eqb len
         List.length Nat.eqb andb tail_children] in *;
    try discriminate.
  all: try (left; left; reflexivity).
  all: try (right; eexists; split; [apply in_or_app; right; eassumption|assumption]).
  all: try (left; auto).
Qed.

Lemma add_timed_effects_loop_keeps self P key tm asg fuel :
  forall to_add act u r,
    add_timed_effects_loop self P key tm asg fuel to_add act (Some u) = Ok r ->
    exists act' new,
      r = (act', Some (record_all u key new)) /\
      forall eff e, In eff to_add -> timed_quantified_effect_of eff e -> In e new.
Proof.
  induction fuel as [|fuel IH]; intros [|eff rest] act u r H.
  - injection H as <-. exists act, []. split; [reflexivity|]. intros ? ? [].
  - discriminate.
  - injection H as <-. exists act, []. split; [reflexivity|]. intros ? ? [].
  - apply add_timed_effects_turn_keeps in H.
    destruct H as (q & act1 & new1 & H & Hrest & Hexp).
    apply IH in H. destruct H as (act' & new2 & -> & Hq).
    exists act', (new1 ++ new2). rewrite record_all_app. split; [reflexivity|].
    intros x e [<-|Hin] He; apply in_or_app.
    + destruct (Hexp e He) as [H1|(c' & Hin' & He')]; [left; exact H1|].
      right. apply (Hq c' e Hin' He').
    + right. apply (Hq x e (Hrest _ Hin) He).
Qed.

Lemma add_timed_effects_keeps self P key act tm u eff asg r :
  _add_timed_effects self P key act tm (Some u) eff asg = Ok r ->
  exists act' new,
    r = (act', Some (record_all u key new)) /\
    forall e, timed_quantified_effect_of eff e -> In e new.
Proof.
  unfold _add_timed_effects. intros H. apply add_timed_effects_loop_keeps in H.
  destruct H as (act' & new & -> & Hq). exists act', new. split; [reflexivity|].
  intros e He. apply (Hq eff e); [left; reflexivity|exact He].
Qed.

(** A tagged effect is its effect, added at the start or at the end. *)
Lemma tagged_effect_run self P key act tm ua loc l0 l1 tag e asg :
  _add_timed_effects self P key act tm ua (Lst loc [Tok l0 "at"; Tok l1 tag; e]) asg
  = if String.eqb tag "start" then
      _add_effect self P key act tm ua e TRUE (Some (StartTiming zero)) asg
    else if String.eqb tag "end" then
      _add_effect self P key act tm ua e TRUE (Some (EndTiming zero)) asg
    else Raise (SyntaxError NotAbleToHandle (Some loc)).
Proof.
  unfold _add_timed_effects.
  change (size (Lst loc [Tok l0 "at"; Tok l1 tag; e]))
    with (S (list_sum (map size [Tok l0 "at"; Tok l1 tag; e]))).
  cbn [add_timed_effects_loop len List.length Nat.eqb getitem nth_error bind value_str
       head_is value_is String.eqb Ascii.eqb Bool.eqb andb locn].
  destruct (String.eqb tag "start"); cbn [bind].
  - destruct (_add_effect self P key act tm ua e TRUE (Some (StartTiming zero)) asg)
      as [[a u]| |]; cbn [bind]; [apply add_timed_effects_loop_empty|reflexivity|reflexivity].
  - destruct (String.eqb tag "end"); cbn [bind]; [|reflexivity].
    destruct (_add_effect self P key act tm ua e TRUE (Some (EndTiming zero)) asg)
      as [[a u]| |]; cbn [bind]; [apply add_timed_effects_loop_empty|reflexivity|reflexivity].
Qed.

(** A [forall] that is the whole list of timed effects is what the loop
    records. *)
Lemma add_timed_effects_of_forall self P key act tm ua loc l0 vs body asg :
  _add_timed_effects self P key act tm (Some ua) (Lst loc [Tok l0 "forall"; vs; body]) asg
  = Ok (act, Some (record_universal ua key (Lst loc [Tok l0 "forall"; vs; body]))).
Proof.
  unfold _add_timed_effects. cbn [size].
  cbn [add_timed_effects_loop len List.length Nat.eqb getitem nth_error bind value_str
       head_is value_is String.eqb Ascii.eqb Bool.eqb andb].
  apply add_timed_effects_loop_empty.
Qed.

Lemma parse_duration_effects self P d tm dur d' :
  parse_duration self P d tm dur = Ok d' -> timed_effects_of d' = timed_effects_of d.
Proof.
  unfold parse_duration. intros H. inv_ok H; reflexivity.
Qed.

(** *** What the action loop keeps *)

Lemma observe_all_effects self P tm l :
  forall (r : Result InstantaneousAction) act',
    fold_left
      (fun r e =>
         act <- r ;;
         (f <- _parse_exp self P (Some (Instantaneous act)) tm [] e [] ;;
          Ok (add_observed_fluent act f))) l r = Ok act' ->
    exists act, r = Ok act /\ effects act' = effects act.
Proof.
  induction l as [|e l IH]; simpl; intros r act' H.
  - exists act'. auto.
  - apply IH in H. destruct H as (act1 & H & He).
    destruct r as [act| |]; try discriminate. cbn [bind] in H. inv_bind H.
    injection H as <-. exists act. split; [reflexivity|]. rewrite He. reflexivity.
Qed.

Lemma add_precondition_effects a c : effects (add_precondition a c) = effects a.
Proof. unfold add_precondition. destruct (is_true c); reflexivity. Qed.

(** One block of the action loop: the action it adds to the problem, of
    the kind of the block, and the effects it records, all under the
    position of that action. *)
Lemma declare_action_keeps a st st' :
  declare_action a st = Ok st' ->
  exists act new,
    ds_problem st' = add_action (ds_problem st) act /\
    ds_universal st'
    = record_all (ds_universal st) (List.length (actions (ds_problem st))) new /\
    ds_self st' = ds_self st /\
    ds_types_map st' = ds_types_map st /\
    is_durative act = durative_block a /\
    (forall q, block_holds a q -> In q new) /\
    (forall q, whole_effect a q -> new = [q] /\ effect_count act = 0).
Proof.
  unfold declare_action. intros H. inv_bind H. destruct a as [n ps pre eff obs|n ps dur cond eff].
  - inv_bind H. rename x0 into act0. inv_bind H. rename x0 into act1.
    inv_bind H. destruct x0 as [act2 ua2]. injection H as <-. cbn.
    assert (H0 : effects act0 = []).
    { destruct obs as [o|]; [|injection E0 as <-; reflexivity].
      inv_bind E0. destruct (value_is x0 "and").
      - apply observe_all_effects in E0. destruct E0 as (a0 & [= <-] & ->). reflexivity.
      - inv_bind E0. injection E0 as <-. reflexivity. }
    assert (H1 : effects act1 = []).
    { destruct pre as [e|]; [|injection E1 as <-; exact H0].
      inv_bind E1. injection E1 as <-. rewrite add_precondition_effects. exact H0. }
    destruct eff as [e|].
    + unfold the_instantaneous in E2. inv_bind E2. destruct x0 as [a0 u0].
      destruct a0 as [i|d]; [|discriminate]. injection E2 as <- <-.
      pose proof E3 as Hk. apply add_effect_keeps in Hk.
      destruct Hk as (act' & new & [= <- ->] & Hq).
      exists (Instantaneous i), new. cbn.
      split; [reflexivity|]. split; [reflexivity|]. split; [reflexivity|].
      split; [reflexivity|]. split; [reflexivity|]. split; [exact Hq|].
      intros q [[= <-] (loc & l0 & rest & ->)].
      rewrite add_effect_of_forall in E3. injection E3 as <- Hu.
      split; [|rewrite H1; reflexivity].
      apply (f_equal (fun d => kept d (List.length (actions (ds_problem st))))) in Hu.
      rewrite kept_record, kept_record_all, Nat.eqb_refl in Hu.
      apply app_inv_head in Hu. symmetry. exact Hu.
    + injection E2 as <- <-. exists (Instantaneous act1), []. cbn.
      split; [reflexivity|]. split; [reflexivity|]. split; [reflexivity|].
      split; [reflexivity|]. split; [reflexivity|]. split; [intros q []|].
      intros q [Hq _]. discriminate Hq.
  - inv_bind H. rename x0 into d0. inv_bind H. rename x0 into d1.
    inv_bind H. destruct x0 as [act2 ua2].
    destruct act2 as [i|d]; [discriminate|]. injection H as <-. cbn.
    assert (H1 : timed_effects_of d1 = []).
    { unfold _add_condition in E1. apply add_condition_loop_frame in E1.
      destruct E1 as (_ & _ & -> & _). apply parse_duration_effects in E0.
      rewrite E0. reflexivity. }
    pose proof E2 as Hk. apply add_timed_effects_keeps in Hk.
    destruct Hk as (act' & new & [= <- ->] & Hq).
    exists (Durative d), new. cbn.
    split; [reflexivity|]. split; [reflexivity|]. split; [reflexivity|].
    split; [reflexivity|]. split; [reflexivity|]. split; [exact Hq|].
    intros q [<- (loc & l0 & vs & body & ->)].
    rewrite add_timed_effects_of_forall in E2. injection E2 as <- Hu.
    split; [|rewrite H1; reflexivity].
    apply (f_equal (fun d => kept d (List.length (actions (ds_problem st))))) in Hu.
    rewrite kept_record, kept_record_all, Nat.eqb_refl in Hu.
    apply app_inv_head in Hu. symmetry. exact Hu.
Qed.

Lemma record_keys ua key q :
  map fst (record_universal ua key q)
  = if existsb (fun k => Nat.eqb k key) (map fst ua) then map fst ua
    else map fst ua ++ [key].
Proof.
  unfold record_universal. induction ua as [|[k l] ua IH]; cbn [multi_add map fst existsb].
  - reflexivity.
  - destruct (Nat.eqb k key) eqn:E; cbn [map fst orb]; [reflexivity|].
    rewrite IH. destruct (existsb _ (map fst ua)); reflexivity.
Qed.

Lemma record_well_keyed ua key q n :
  well_keyed ua n -> key < n -> well_keyed (record_universal ua key q) n.
Proof.
  intros [Hnd Hlt] Hk. unfold well_keyed. rewrite record_keys.
  destruct (existsb _ (map fst ua)) eqn:E; [split; assumption|]. split.
  - apply NoDup_app; [exact Hnd|repeat constructor; intros []|].
    intros k Hin [->|[]].
    assert (existsb (fun k' => Nat.eqb k' k) (map fst ua) = true).
    { apply existsb_exists. exists k. split; [exact Hin|apply Nat.eqb_refl]. }
    congruence.
  - intros k Hin. apply in_app_or in Hin. destruct Hin as [Hin|[<-|[]]]; auto.
Qed.

Lemma record_all_well_keyed key n new :
  key < n -> forall ua, well_keyed ua n -> well_keyed (record_all ua key new) n.
Proof.
  intros Hk. unfold record_all. induction new as [|q new IH]; simpl; intros ua H; [exact H|].
  apply IH. apply record_well_keyed; assumption.
Qed.

Lemma well_keyed_more ua n m : well_keyed ua n -> n <= m -> well_keyed ua m.
Proof. intros [H1 H2] Hle. split; [exact H1|]. intros k Hk. specialize (H2 k Hk). lia. Qed.

Lemma record_not_empty ua key q : record_universal ua key q <> [].
Proof.
  unfold record_universal. destruct ua as [|[k l] ua]; simpl; [discriminate|].
  destruct (Nat.eqb k key); discriminate.
Qed.

Lemma record_all_not_empty key new :
  forall ua, ua <> [] \/ new <> [] -> record_all ua key new <> [].
Proof.
  unfold record_all. induction new as [|q new IH]; simpl; intros ua [H|H]; try congruence.
  - apply IH. left. apply record_not_empty.
  - apply IH. left. apply record_not_empty.
Qed.

Lemma kept_of_no_key ua n key : well_keyed ua n -> n <= key -> kept ua key = [].
Proof.
  intros [_ Hlt] Hle. unfold kept.
  destruct (dict_get Nat.eqb ua key) as [l|] eqn:E; [|reflexivity].
  exfalso. assert (Hin : In key (map fst ua)).
  { clear - E. induction ua as [|[k l'] ua IH]; simpl in *; [discriminate|].
    destruct (Nat.eqb k key) eqn:Ek; [left; apply Nat.eqb_eq; exact Ek|right; auto]. }
  specialize (Hlt key Hin). lia.
Qed.

(** The action loop gives the block at position [i] the key [i] past the
    actions that were there, records the quantified effects of every block
    under the key of that block, and touches nothing that was recorded for
    an earlier action. *)
Lemma declare_actions_keeps l :
  forall st st',
    declare_actions l st = Ok st' ->
    well_keyed (ds_universal st) (List.length (actions (ds_problem st))) ->
    well_keyed (ds_universal st') (List.length (actions (ds_problem st'))) /\
    ds_self st' = ds_self st /\
    ds_types_map st' = ds_types_map st /\
    (forall j, j < List.length (actions (ds_problem st)) ->
       kept (ds_universal st') j = kept (ds_universal st) j /\
       nth_error (actions (ds_problem st')) j = nth_error (actions (ds_problem st)) j) /\
    (forall i a,
       nth_error l i = Some a ->
       exists act,
         nth_error (actions (ds_problem st')) (List.length (actions (ds_problem st)) + i)
         = Some act /\
         is_durative act = durative_block a /\
         (forall q, block_holds a q ->
            In q (kept (ds_universal st') (List.length (actions (ds_problem st)) + i))) /\
         (forall q, whole_effect a q ->
            kept (ds_universal st') (List.length (actions (ds_problem st)) + i) = [q] /\
            effect_count act = 0)).
Proof.
  induction l as [|a l IH]; intros st st' H Hwk.
  - injection H as <-. split; [exact Hwk|]. split; [reflexivity|]. split; [reflexivity|].
    split; [auto|]. intros [|i]; discriminate.
  - cbn [declare_actions] in H. inv_bind H. rename x into st1.
    apply declare_action_keeps in E.
    destruct E as (act & new & Hp & Hu & Hs & Ht & Hkind & Hq & Hwhole).
    set (n0 := List.length (actions (ds_problem st))) in *.
    assert (Hn1 : List.length (actions (ds_problem st1)) = S n0).
    { rewrite Hp. cbn. rewrite length_app. simpl. unfold n0. lia. }
    assert (Hwk1 : well_keyed (ds_universal st1) (List.length (actions (ds_problem st1)))).
    { rewrite Hu, Hn1. apply record_all_well_keyed; [lia|].
      apply (well_keyed_more _ n0); [exact Hwk|lia]. }
    destruct (IH st1 st' H Hwk1) as (Hwk' & Hs' & Ht' & Hold & Hblocks).
    assert (Hact : forall j, j < S n0 ->
              kept (ds_universal st') j = kept (ds_universal st1) j /\
              nth_error (actions (ds_problem st')) j = nth_error (actions (ds_problem st1)) j).
    { intros j Hj. apply Hold. rewrite Hn1. exact Hj. }
    assert (Hlast : nth_error (actions (ds_problem st1)) n0 = Some act).
    { rewrite Hp. cbn. rewrite nth_error_app2; [|unfold n0; lia].
      replace (n0 - List.length (actions (ds_problem st))) with 0 by (unfold n0; lia).
      reflexivity. }
    split; [exact Hwk'|]. split; [congruence|]. split; [congruence|]. split.
    + intros j Hj. destruct (Hact j) as [Hk Ha]; [lia|]. split.
      * rewrite Hk, Hu, kept_record_all.
        replace (Nat.eqb j n0) with false; [reflexivity|].
        symmetry. apply Nat.eqb_neq. lia.
      * rewrite Ha, Hp. cbn. apply nth_error_app1. exact Hj.
    + intros [|i] b Hi.
      * injection Hi as <-. rewrite Nat.add_0_r. destruct (Hact n0) as [Hk Ha]; [lia|].
        exists act. split; [rewrite Ha; exact Hlast|]. split; [exact Hkind|]. split.
        -- intros q Hb. rewrite Hk, Hu, kept_record_all, Nat.eqb_refl.
           apply in_or_app. right. apply (Hq q Hb).
        -- intros q Hw. destruct (Hwhole q Hw) as [-> Hc]. split; [|exact Hc].
           rewrite Hk, Hu, kept_record_all, Nat.eqb_refl.
           rewrite (kept_of_no_key _ n0 n0 Hwk); [reflexivity|lia].
      * cbn [nth_error] in Hi. specialize (Hblocks i b Hi).
        rewrite Hn1 in Hblocks. replace (n0 + S i) with (S n0 + i) by lia. exact Hblocks.
Qed.

(** *** The sections before the actions add no action *)

Lemma add_objects_actions t names :
  forall P, actions (fold_left (fun acc o => add_object acc (mkObject o t)) names P) = actions P.
Proof. induction names as [|n names IH]; simpl; intros P; [reflexivity|]. rewrite IH. reflexivity. Qed.

Lemma add_objects_fluents t names :
  forall P, fluents (fold_left (fun acc o => add_object acc (mkObject o t)) names P) = fluents P.
Proof. induction names as [|n names IH]; simpl; intros P; [reflexivity|]. rewrite IH. reflexivity. Qed.

Lemma declare_type_actions d needed :
  forall depth t fo st st',
    declare_type d needed depth t fo st = Ok st' ->
    actions (ts_problem st') = actions (ts_problem st).
Proof.
  induction depth as [|depth IH]; intros t fo st st' H; [discriminate|].
  cbn [declare_type] in H.
  destruct (types_get (ts_types_map st) t); [injection H as <-; reflexivity|].
  inv_bind H. destruct x as [father st1].
  assert (H1 : actions (ts_problem st1) = actions (ts_problem st)).
  { clear H. destruct fo as [fn|]; [|injection E as _ <-; reflexivity].
    destruct (types_get (ts_types_map st) fn); [injection E as _ <-; reflexivity|].
    destruct (dict_get token_eqb d fn) as [gf|].
    - inv_bind E. destruct (types_get (ts_types_map x) fn); [|discriminate].
      injection E as _ <-. apply (IH _ _ _ _ E0).
    - destruct (token_eqb fn Object && negb needed); [injection E as _ <-; reflexivity|].
      inv_bind E. destruct x as [f tm']. injection E as _ <-. reflexivity. }
  inv_bind H. destruct x as [ty tm2]. injection H as <-. cbn. exact H1.
Qed.

Lemma declare_all_actions d needed :
  forall todo st st',
    declare_all d needed todo st = Ok st' ->
    actions (ts_problem st') = actions (ts_problem st).
Proof.
  induction todo as [|[t fo] todo IH]; intros st st' H.
  - injection H as <-. reflexivity.
  - cbn [declare_all] in H. inv_bind H.
    rewrite (IH _ _ H). apply (declare_type_actions _ _ _ _ _ _ _ E).
Qed.

Lemma declare_predicates_actions tm ps :
  forall P P', declare_predicates tm ps P = Ok P' -> actions P' = actions P.
Proof.
  induction ps as [|p ps IH]; simpl; intros P P' H.
  - injection H as <-. reflexivity.
  - inv_bind H. apply IH in H. rewrite H. reflexivity.
Qed.

Lemma declare_functions_actions tm ps :
  forall self flag P self' flag' P',
    declare_functions tm ps self flag P = Ok (self', flag', P') -> actions P' = actions P.
Proof.
  induction ps as [|p ps IH]; simpl; intros self flag P self' flag' P' H.
  - injection H as _ _ <-. reflexivity.
  - inv_bind H. destruct (String.eqb (p_name p) "total-cost"); apply IH in H;
      rewrite H; reflexivity.
Qed.

Lemma declare_constants_actions tm gs :
  forall P P', declare_constants tm gs P = Ok P' -> actions P' = actions P.
Proof.
  induction gs as [|g gs IH]; simpl; intros P P' H.
  - injection H as <-. reflexivity.
  - destruct (group_type tm g) as [t|]; [|discriminate].
    rewrite (IH _ _ H). apply add_objects_actions.
Qed.

(** What a domain that is read to the end has kept: the action of the
    block at position [i] stands at position [i] and is of the kind of the
    block; the quantified effects of the block stand under the key [i]; and
    when the whole effect of the block is a [forall], the action has no
    effect yet, and that [forall] alone is kept for it. *)
Lemma parse_domain_keeps self tm dom st :
  parse_domain self tm dom = Ok st ->
  well_keyed (ds_universal st) (List.length (actions (ds_problem st))) /\
  (forall i a,
     nth_error (domain_actions dom) i = Some a ->
     exists act,
       nth_error (actions (ds_problem st)) i = Some act /\
       is_durative act = durative_block a /\
       (forall q, block_holds a q -> In q (kept (ds_universal st) i)) /\
       (forall q, whole_effect a q ->
          kept (ds_universal st) i = [q] /\ effect_count act = 0)).
Proof.
  unfold parse_domain. intros H. inv_bind H. inv_bind H. inv_bind H.
  destruct x1 as [types_map tm1]. inv_bind H. inv_bind H.
  destruct x2 as [[self' flag] P']. inv_bind H.
  assert (Hnone : actions x2 = []).
  { repeat match goal with
    | Hx : declare_all _ _ _ _ = Ok _ |- _ => apply declare_all_actions in Hx
    | Hx : declare_predicates _ _ _ = Ok _ |- _ => apply declare_predicates_actions in Hx
    | Hx : declare_functions _ _ _ _ _ = Ok _ |- _ => apply declare_functions_actions in Hx
    | Hx : declare_constants _ _ _ = Ok _ |- _ => apply declare_constants_actions in Hx
    end.
    simpl in *. congruence. }
  apply declare_actions_keeps in H.
  - cbn [ds_universal ds_problem] in H. rewrite Hnone in H. cbn [List.length Nat.add] in H.
    destruct H as (Hwk & _ & _ & _ & Hb). auto.
  - cbn. split; [constructor|intros k []].
Qed.

(** *** The expansion *)

Lemma instances_length P tys : List.length (instances P tys) = tuples P tys.
Proof. unfold instances, tuples. rewrite product_length, map_map. reflexivity. Qed.

Lemma tuples_same P Q tys : objects_all Q = objects_all P -> tuples Q tys = tuples P tys.
Proof. intros H. unfold tuples, objects. rewrite H. reflexivity. Qed.

Lemma expanded_over_same self tm P Q eff n :
  objects_all Q = objects_all P -> expanded_over self tm P eff n -> expanded_over self tm Q eff n.
Proof.
  intros H (tys & Hq & ->). exists tys. split; [exact Hq|]. symmetry. apply tuples_same. exact H.
Qed.

Lemma expands_at_refl key P : expands_at key P P.
Proof. repeat split. Qed.

Lemma expands_at_trans key P Q R : expands_at key P Q -> expands_at key Q R -> expands_at key P R.
Proof.
  intros (H1 & H2 & H3) (H4 & H5 & H6). split; [congruence|]. split; [congruence|].
  intros j Hj. rewrite (H6 j Hj). apply (H3 j Hj).
Qed.

Lemma grown_by_start P key act :
  nth_error (actions P) key = Some act -> grown_by P key act 0.
Proof.
  intros H. exists act. split; [exact H|]. split; [apply grows_refl|]. lia.
Qed.

Lemma grown_by_more P key act n act' m :
  grows start_or_end act act' ->
  effect_count act' = effect_count act + n ->
  grown_by P key act' m -> grown_by P key act (n + m).
Proof.
  intros Hg Hn (act2 & Hk & Hg2 & Hm). exists act2. split; [exact Hk|].
  split; [eapply grows_trans; eassumption|]. lia.
Qed.

Lemma grows_same_kind allowed act act' :
  grows allowed act act' -> is_durative act' = is_durative act.
Proof. destruct act, act'; simpl; try contradiction; reflexivity. Qed.

Lemma fold_expands_at {B} key (step : Problem -> B -> Result Problem) l :
  (forall P b P', step P b = Ok P' -> expands_at key P P') ->
  forall P P',
    fold_left (fun r b => bind r (fun Q => step Q b)) l (Ok P) = Ok P' ->
    expands_at key P P'.
Proof.
  intros Hstep. induction l as [|b l IH]; simpl; intros P P' H.
  - injection H as <-. apply expands_at_refl.
  - destruct (step P b) as [Q| |] eqn:E.
    + apply (expands_at_trans key P Q P'); [apply (Hstep _ _ _ E)|apply (IH _ _ H)].
    + exfalso. eapply fold_left_failed; [|exact H]. discriminate.
    + exfalso. eapply fold_left_failed; [|exact H]. discriminate.
Qed.

(** One tuple: the action at [key] is replaced, and nothing else. *)
Lemma expand_instance_frame self tm key eff names P objs P1 :
  expand_instance self tm key eff names P objs = Ok P1 -> expands_at key P P1.
Proof.
  unfold expand_instance. intros H.
  destruct (negb _); [discriminate|].
  destruct (nth_error (actions P) key) as [action|] eqn:Ek; [|discriminate].
  inv_bind H. inv_bind H. destruct x0 as [action' u]. injection H as <-.
  split; [reflexivity|]. split; [reflexivity|].
  intros j Hj. cbn. apply (nth_error_replace (actions P) key action' action Ek). exact Hj.
Qed.

Lemma multi_add_count {K} (eqb : K -> K -> bool) (d : list (K * list Effect)) k v :
  list_sum (map (fun te => List.length (snd te)) (multi_add eqb d k v))
  = S (list_sum (map (fun te => List.length (snd te)) d)).
Proof.
  induction d as [|[k' l] d IH]; simpl; [reflexivity|].
  destruct (eqb k' k); simpl.
  - rewrite length_app. simpl. lia.
  - rewrite IH. lia.
Qed.

Lemma add_effect_kind_count k act timing f v c act' :
  add_effect_kind k act timing f v c = Ok act' -> effect_count act' = S (effect_count act).
Proof.
  destruct act as [a|d], timing as [t|]; simpl; try discriminate; intros [= <-]; simpl.
  - rewrite length_app. simpl. lia.
  - apply multi_add_count.
Qed.

(** One effect adds one effect, whatever the kind of the action. *)
Lemma add_single_effect_count self P key act tm e2 cond timing asg r :
  single_effect e2 = true ->
  _add_effect self P key act tm None e2 cond timing asg = Ok r ->
  effect_count (fst r) = S (effect_count act).
Proof.
  intros Hs H. destruct e2 as [? ?|loc [|h t]]; try discriminate.
  unfold single_effect in Hs. rewrite !andb_true_iff, !negb_true_iff in Hs.
  destruct Hs as [[Hand Hwhen] Hforall].
  unfold _add_effect in H. simpl size in H.
  cbn [add_effect_loop len List.length Nat.eqb getitem nth_error bind] in H.
  rewrite !head_is_value in H. rewrite Hand, Hwhen, Hforall in H.
  inv_ok H;
    repeat match goal with
    | Hl : add_effect_loop _ _ _ _ _ _ _ [] _ _ = Ok _ |- _ =>
        rewrite add_effect_loop_empty in Hl; injection Hl as <-
    end;
    cbn [fst]; eapply add_effect_kind_count; eassumption.
Qed.

(** One effect under a tag adds one effect. *)
Lemma add_single_timed_effect_count self P key act tm body asg r :
  single_timed_effect body = true ->
  _add_timed_effects self P key act tm None body asg = Ok r ->
  effect_count (fst r) = S (effect_count act).
Proof.
  intros Hs H. destruct body as [? ?|loc [|h [|[l1 tag|? ?] [|e [|? ?]]]]]; try discriminate.
  cbn [single_timed_effect] in Hs. rewrite !andb_true_iff in Hs.
  destruct Hs as [[Hat Htag] Hs]. destruct h as [l0 s|? ?]; [|discriminate].
  cbn [value_is] in Hat. apply String.eqb_eq in Hat. subst s.
  rewrite tagged_effect_run in H.
  destruct (String.eqb tag "start").
  - apply (add_single_effect_count _ _ _ _ _ _ _ _ _ _ Hs H).
  - destruct (String.eqb tag "end"); [|discriminate].
    apply (add_single_effect_count _ _ _ _ _ _ _ _ _ _ Hs H).
Qed.

(** One tuple, for a body that is one effect: the action gains one
    effect. *)
Lemma expand_instance_single self tm key eff names P objs P1 act :
  expand_instance self tm key eff names P objs = Ok P1 ->
  nth_error (actions P) key = Some act ->
  single_bodied (is_durative act) eff = true ->
  grown_by P1 key act 1.
Proof.
  unfold expand_instance, single_bodied. intros H Hk Hs.
  destruct (negb _); [discriminate|]. rewrite Hk in H.
  destruct (getitem eff 2) as [e2| |] eqn:H2; try discriminate. cbn [bind] in H.
  inv_bind H. destruct x as [action' u]. injection H as <-.
  exists action'. split; [cbn; apply (nth_error_replace (actions P) key _ _ Hk)|].
  destruct act as [a|d]; cbn [is_durative] in Hs.
  - split.
    + unfold _add_effect in E. apply add_effect_loop_grows in E.
      apply (grows_weaken _ start_or_end) in E; [exact E|]. intros t Ht. discriminate Ht.
    + rewrite Nat.add_1_r. apply (add_single_effect_count _ _ _ _ _ _ _ _ _ _ Hs E).
  - split.
    + unfold _add_timed_effects in E. apply add_timed_effects_loop_grows in E. exact E.
    + rewrite Nat.add_1_r. apply (add_single_timed_effect_count _ _ _ _ _ _ _ _ Hs E).
Qed.

Lemma expand_instances_single self tm key eff names :
  forall insts P P' act,
    fold_left (fun r objs => Q <- r ;; expand_instance self tm key eff names Q objs)
      insts (Ok P) = Ok P' ->
    nth_error (actions P) key = Some act ->
    single_bodied (is_durative act) eff = true ->
    grown_by P' key act (List.length insts).
Proof.
  induction insts as [|objs insts IH]; simpl; intros P P' act H Hk Hs.
  - injection H as <-. apply grown_by_start. exact Hk.
  - destruct (expand_instance self tm key eff names P objs) as [P1| |] eqn:E.
    + destruct (expand_instance_single _ _ _ _ _ _ _ _ _ E Hk Hs) as (act1 & Hk1 & Hg & Hn).
      change (S (List.length insts)) with (1 + List.length insts).
      apply (grown_by_more P' key act 1 act1 _ Hg Hn).
      apply (IH _ _ _ H Hk1). rewrite (grows_same_kind _ _ _ Hg). exact Hs.
    + exfalso. eapply fold_left_failed; [|exact H]. discriminate.
    + exfalso. eapply fold_left_failed; [|exact H]. discriminate.
Qed.

(** One kept effect. *)
Lemma expand_universal_frame self tm key P eff P' :
  expand_universal self tm key P eff = Ok P' -> expands_at key P P'.
Proof.
  unfold expand_universal. intros H. do 4 inv_bind H. destruct x2 as [var_names var_types].
  revert H. apply fold_expands_at. intros Q objs Q'. apply expand_instance_frame.
Qed.

Lemma expand_universal_single self tm key P eff P' act :
  expand_universal self tm key P eff = Ok P' ->
  nth_error (actions P) key = Some act ->
  single_bodied (is_durative act) eff = true ->
  exists n, expanded_over self tm P eff n /\ grown_by P' key act n.
Proof.
  unfold expand_universal. intros H Hk Hs.
  do 4 inv_bind H. destruct x2 as [names tys].
  pose proof (expand_instances_single self tm key eff names _ _ _ act H Hk Hs) as Hg.
  exists (tuples P tys). split.
  - exists tys. split; [|reflexivity]. unfold quantified_types.
    rewrite E. cbn [bind]. rewrite E0. cbn [bind]. rewrite E1. cbn [bind]. rewrite E2.
    reflexivity.
  - rewrite <- instances_length. exact Hg.
Qed.

(** The kept effects of one action. *)
Lemma expand_effects_frame self tm key effs :
  forall P P',
    fold_left (fun r eff => Q <- r ;; expand_universal self tm key Q eff) effs (Ok P) = Ok P' ->
    expands_at key P P'.
Proof. apply fold_expands_at. intros Q eff Q'. apply expand_universal_frame. Qed.

Lemma expand_effects_single self tm key effs :
  forall P P' act,
    fold_left (fun r eff => Q <- r ;; expand_universal self tm key Q eff) effs (Ok P) = Ok P' ->
    nth_error (actions P) key = Some act ->
    forallb (single_bodied (is_durative act)) effs = true ->
    exists counts,
      Forall2 (expanded_over self tm P) effs counts /\
      grown_by P' key act (list_sum counts).
Proof.
  induction effs as [|eff effs IH]; simpl; intros P P' act H Hk Hs.
  - injection H as <-. exists []. split; [constructor|]. apply grown_by_start. exact Hk.
  - apply andb_true_iff in Hs. destruct Hs as [Hs1 Hs2].
    destruct (expand_universal self tm key P eff) as [P1| |] eqn:E.
    + destruct (expand_universal_single _ _ _ _ _ _ _ E Hk Hs1)
        as (n & Hn & act1 & Hk1 & Hg & Hc1).
      pose proof (expand_universal_frame _ _ _ _ _ _ E) as (_ & Hobj & _).
      destruct (IH _ _ _ H Hk1) as (counts & Hc & Hg2).
      { rewrite (grows_same_kind _ _ _ Hg). exact Hs2. }
      exists (n :: counts). split.
      * constructor; [exact Hn|].
        clear - Hc Hobj. induction Hc; constructor; auto.
        eapply expanded_over_same; [|eassumption]. congruence.
      * cbn [list_sum]. apply (grown_by_more P' key act n act1 _ Hg Hc1 Hg2).
    + exfalso. eapply fold_left_failed; [|exact H]. discriminate.
    + exfalso. eapply fold_left_failed; [|exact H]. discriminate.
Qed.

Lemma kept_head k effs ua key :
  kept ((k, effs) :: ua) key = if Nat.eqb k key then effs else kept ua key.
Proof. unfold kept. cbn [dict_get]. destruct (Nat.eqb k key); reflexivity. Qed.

Lemma kept_absent ua key : ~ In key (map fst ua) -> kept ua key = [].
Proof.
  intros Hn. unfold kept. destruct (dict_get Nat.eqb ua key) as [l|] eqn:E; [|reflexivity].
  exfalso. apply Hn. clear Hn. induction ua as [|[k l'] ua IH]; simpl in *; [discriminate|].
  destruct (Nat.eqb k key) eqn:Ek; [left; apply Nat.eqb_eq; exact Ek|right; auto].
Qed.

Lemma Forall2_expanded_same self tm P Q effs counts :
  objects_all Q = objects_all P ->
  Forall2 (expanded_over self tm P) effs counts ->
  Forall2 (expanded_over self tm Q) effs counts.
Proof.
  intros H Hc. induction Hc; constructor; auto.
  eapply expanded_over_same; eassumption.
Qed.

(** All the kept effects: every action whose kept effects have one effect
    as body gains, for each of them in turn, as many effects as there are
    tuples of objects of the types of its variables; the fluents and the
    objects of the problem stay. *)
Lemma expand_all_counts self tm ua :
  NoDup (map fst ua) ->
  forall P P',
    expand_all self tm ua P = Ok P' ->
    fluents P' = fluents P /\
    objects_all P' = objects_all P /\
    forall key act,
      nth_error (actions P) key = Some act ->
      forallb (single_bodied (is_durative act)) (kept ua key) = true ->
      exists counts,
        Forall2 (expanded_over self tm P) (kept ua key) counts /\
        grown_by P' key act (list_sum counts).
Proof.
  unfold expand_all. induction ua as [|[k effs] ua IH]; intros Hnd P P' H.
  - injection H as <-. split; [reflexivity|]. split; [reflexivity|].
    intros key act Hk _. exists []. split; [constructor|]. apply grown_by_start. exact Hk.
  - cbn [fold_left fst snd] in H. inversion Hnd as [|? ? Hnk Hnd']; subst.
    destruct (fold_left (fun r' eff => bind r' (fun Q => expand_universal self tm k Q eff))
                effs (Ok P)) as [Q| |] eqn:E.
    + pose proof (expand_effects_frame _ _ _ _ _ _ E) as (Hf & Ho & Hother).
      destruct (IH Hnd' Q P' H) as (Hf' & Ho' & Hcount).
      split; [congruence|]. split; [congruence|].
      intros key act Hk Hs. rewrite kept_head in *.
      destruct (Nat.eqb k key) eqn:Ek.
      * apply Nat.eqb_eq in Ek. subst key.
        destruct (expand_effects_single _ _ _ _ _ _ _ E Hk Hs)
          as (counts & Hc & act1 & Hk1 & Hg & Hn).
        destruct (Hcount k act1 Hk1) as (counts' & Hc' & Hg').
        { rewrite (kept_absent ua k Hnk). reflexivity. }
        rewrite (kept_absent ua k Hnk) in Hc'. inversion Hc'; subst.
        exists counts. split; [exact Hc|].
        rewrite <- (Nat.add_0_r (list_sum counts)).
        apply (grown_by_more P' k act _ act1 _ Hg Hn Hg').
      * apply Nat.eqb_neq in Ek.
        destruct (Hcount key act) as (counts & Hc & Hg).
        { rewrite (Hother key); [exact Hk|congruence]. }
        { exact Hs. }
        exists counts. split; [|exact Hg].
        apply (Forall2_expanded_same self tm Q P); [congruence|exact Hc].
    + exfalso. clear - H. induction ua as [|[k' es] ua IH]; simpl in H; [discriminate|].
      apply IH. replace (fold_left _ es (Raise e)) with (@Raise Problem e) in H; [exact H|].
      clear. induction es; simpl; auto.
    + exfalso. clear - H. induction ua as [|[k' es] ua IH]; simpl in H; [discriminate|].
      apply IH. replace (fold_left _ es OutOfFuel) with (@OutOfFuel Problem) in H; [exact H|].
      clear. induction es; simpl; auto.
Qed.

Lemma expand_all_failed self tm ua :
  forall r, (forall P, r <> Ok P) ->
    forall P',
      fold_left
        (fun r entry =>
           fold_left (fun r' eff => Q <- r' ;; expand_universal self tm (fst entry) Q eff)
             (snd entry) r) ua r <> Ok P'.
Proof.
  induction ua as [|[k es] ua IH]; simpl; intros r Hr P'; [apply Hr|].
  apply IH. intros P. apply fold_left_failed. exact Hr.
Qed.

(** The loop over the kept effects as a chain of expansions. *)
Lemma expand_all_expansions self tm ua :
  forall P P', expand_all self tm ua P = Ok P' -> expansions self tm ua P P'.
Proof.
  induction ua as [|[key effs] ua IH]; intros P P' H.
  - injection H as <-. constructor.
  - revert P H. induction effs as [|eff effs IHe]; intros P H.
    + constructor. apply IH. exact H.
    + unfold expand_all in H. cbn [fold_left fst snd bind] in H.
      destruct (expand_universal self tm key P eff) as [P1| |] eqn:E.
      * pose proof E as Hs. unfold expand_universal, params_of in Hs.
        destruct (getitem eff 1) as [e1| |] eqn:E1; try discriminate. cbn [bind] in Hs.
        destruct (joined_values e1) as [s| |] eqn:Ej; try discriminate. cbn [bind] in Hs.
        destruct (_pp_parameters self s) as [groups|] eqn:Ep; try discriminate.
        cbn [bind] in Hs.
        destruct (universal_variables tm groups) as [[names tys]| |] eqn:Ev;
          try discriminate. cbn [bind] in Hs.
        apply fold_left_steps in Hs.
        eapply expansions_effect; try eassumption. apply IHe. exact H.
      * exfalso. revert H. apply expand_all_failed. intros Q.
        apply fold_left_failed. discriminate.
      * exfalso. revert H. apply expand_all_failed. intros Q.
        apply fold_left_failed. discriminate.
Qed.

(** *** The sections of the problem file around the expansion *)

Lemma declare_objects_actions tm gs :
  forall P P', declare_objects tm gs P = Ok P' -> actions P' = actions P.
Proof.
  induction gs as [|[names ty] gs IH]; simpl; intros P P' H.
  - injection H as <-. reflexivity.
  - destruct (types_get tm _) as [t|]; [|discriminate].
    rewrite (IH _ _ H). apply add_objects_actions.
Qed.

Lemma parse_init_item_settled self tm P init P' :
  parse_init_item self tm P init = Ok P' ->
  actions P' = actions P /\ objects_all P' = objects_all P.
Proof.
  unfold parse_init_item. intros H. inv_ok H; split; reflexivity.
Qed.

Lemma init_items_settled self tm items :
  forall P P',
    fold_left (fun r j => Q <- r ;; parse_init_item self tm Q j) items (Ok P) = Ok P' ->
    actions P' = actions P /\ objects_all P' = objects_all P.
Proof.
  induction items as [|j items IH]; simpl; intros P P' H.
  - injection H as <-. auto.
  - destruct (parse_init_item self tm P j) as [Q| |] eqn:E.
    + apply parse_init_item_settled in E. apply IH in H. destruct E, H. split; congruence.
    + exfalso. eapply fold_left_failed; [|exact H]. discriminate.
    + exfalso. eapply fold_left_failed; [|exact H]. discriminate.
Qed.

(** What [parse_problem_part] does: the objects, the expansion, and then
    sections that leave the objects alone, and the actions too when the
    file has no metric. *)
Lemma parse_problem_part_stages st res P' :
  parse_problem_part st res = Ok P' ->
  exists P1 P2,
    declare_objects (ds_types_map st) (res_objects res)
      (set_name (ds_problem st) (res_name res)) = Ok P1 /\
    expand_all (ds_self st) (ds_types_map st) (ds_universal st) P1 = Ok P2 /\
    objects_all P' = objects_all P2 /\
    (metric res = None -> actions P' = actions P2).
Proof.
  unfold parse_problem_part. intros H.
  inv_bind H. rename x into P1. inv_bind H. rename x into P2.
  inv_bind H. rename x into items. inv_bind H. rename x into P3.
  inv_bind H. rename x into P4. inv_bind H. rename x into P5.
  exists P1, P2. split; [exact E|]. split; [exact E0|].
  apply init_items_settled in E2. destruct E2 as [Ha3 Ho3].
  assert (H4 : actions P4 = actions P3 /\ objects_all P4 = objects_all P3).
  { destruct (goal res) as [g|].
    - inv_bind E3. injection E3 as <-. auto.
    - destruct (problem_class P3); try discriminate; injection E3 as <-; auto. }
  assert (H5 : actions P5 = actions P4 /\ objects_all P5 = objects_all P4).
  { destruct (res_constraints res) as [c|].
    - inv_bind E4. injection E4 as <-. auto.
    - injection E4 as <-. auto. }
  destruct H4 as [Ha4 Ho4], H5 as [Ha5 Ho5].
  unfold cost_and_metric in H. inv_bind H. unfold parse_metric in H.
  destruct (metric res) as [m|] eqn:Em.
  - split; [|discriminate].
    inv_bind H. destruct x0.
    { injection H as <-. cbn. congruence. }
    inv_bind H.
    repeat match type of H with
    | (if ?c then _ else _) = Ok _ => destruct c
    | match ?x with _ => _ end = Ok _ => destruct x eqn:?; try discriminate
    end;
    try (injection H as <-; cbn; congruence).
    inv_bind H. inv_bind H. cbv zeta in H. inv_bind H.
    match goal with
    | Hr : remove_fluent _ _ = Ok _ |- _ =>
        unfold remove_fluent in Hr; inv_bind Hr; injection Hr as <-
    end.
    destruct x3 as [[acts costs] upl].
    destruct upl; injection H as <-; cbn; congruence.
  - injection H as <-. split; [congruence|]. intros _. congruence.
Qed.

(** *** The claim *)

(** C4, as the code has it.  Take a domain and an action of it whose
    [:effect] holds a [forall] at its top or under conjunctions (for a
    durative action: among its timed effects, or in the effect that an [at
    start] or an [at end] tags).  Without problem file the reader returns
    no model: it raises the usage error as soon as the domain itself is
    read to the end.  With a problem file that is read to the end, the
    action of every block stands at the position of the block, with the
    quantified effects of the block kept under that position; once the
    objects are declared, each kept effect is expanded, whatever its body
    and the kind of its action, by one run of the assembler on its body for
    every tuple of the Cartesian product of the objects of the types of its
    variables, in order; every action whose kept effects each have one
    effect as body (one effect under [at start] or [at end] for a durative
    action) gains, for each kept effect, exactly as many effects as the
    product has tuples, and nothing of it changes otherwise; and the later
    sections leave the objects alone, and the actions too when the file has
    no metric.  So the action of a block whose whole effect is
    [(forall (vars) body)], with [body] one effect, has in the model read
    with a file without metric exactly one effect per tuple of that
    product: N effects for one variable over a type with N objects. *)
Theorem quantified_effects_expand_or_refuse self tm dom :
  (forall a q,
     In a (domain_actions dom) -> block_holds a q ->
     (exists err, _parse_problem self tm dom None = Raise err) /\
     (forall st, parse_domain self tm dom = Ok st ->
        _parse_problem self tm dom None = Raise UPUsageError)) /\
  (forall res P',
     _parse_problem self tm dom (Some res) = Ok P' ->
     exists st P1 P2,
       parse_domain self tm dom = Ok st /\
       declare_objects (ds_types_map st) (res_objects res)
         (set_name (ds_problem st) (res_name res)) = Ok P1 /\
       expand_all (ds_self st) (ds_types_map st) (ds_universal st) P1 = Ok P2 /\
       expansions (ds_self st) (ds_types_map st) (ds_universal st) P1 P2 /\
       objects_all P' = objects_all P1 /\
       (metric res = None -> actions P' = actions P2) /\
       (forall key a,
          nth_error (domain_actions dom) key = Some a ->
          exists act,
            nth_error (actions P1) key = Some act /\
            is_durative act = durative_block a /\
            (forall q, block_holds a q -> In q (kept (ds_universal st) key)) /\
            (forallb (single_bodied (durative_block a)) (kept (ds_universal st) key) = true ->
             exists counts,
               Forall2 (expanded_over (ds_self st) (ds_types_map st) P')
                 (kept (ds_universal st) key) counts /\
               grown_by P2 key act (list_sum counts)))) /\
  (forall res P' key a q,
     _parse_problem self tm dom (Some res) = Ok P' ->
     metric res = None ->
     nth_error (domain_actions dom) key = Some a ->
     whole_effect a q ->
     single_bodied (durative_block a) q = true ->
     exists st tys act,
       parse_domain self tm dom = Ok st /\
       quantified_types (ds_self st) (ds_types_map st) q = Ok tys /\
       nth_error (actions P') key = Some act /\
       is_durative act = durative_block a /\
       effect_count act = tuples P' tys).
Proof.
  split; [|split].
  - intros a q Hin Hb.
    assert (Husage : forall st, parse_domain self tm dom = Ok st ->
              _parse_problem self tm dom None = Raise UPUsageError).
    { intros st Hd. unfold _parse_problem. rewrite Hd. cbn [bind].
      destruct (parse_domain_keeps _ _ _ _ Hd) as (_ & Hkept).
      destruct (In_nth_error _ _ Hin) as [i Hi].
      destruct (Hkept i a Hi) as (act & _ & _ & Hq & _). specialize (Hq q Hb).
      destruct (ds_universal st); [destruct Hq|reflexivity]. }
    split; [|exact Husage].
    pose proof (parse_problem_finishes self tm dom None) as Hfin.
    destruct (parse_domain self tm dom) as [st|e|] eqn:Hd.
    + exists UPUsageError. apply (Husage st eq_refl).
    + exists e. unfold _parse_problem. rewrite Hd. reflexivity.
    + exfalso. apply Hfin. unfold _parse_problem. rewrite Hd. reflexivity.
  - intros res P' H. unfold _parse_problem in H. inv_bind H. rename x into st.
    apply parse_problem_part_stages in H. destruct H as (P1 & P2 & H1 & H2 & Ho & Ha).
    destruct (parse_domain_keeps _ _ _ _ E) as ((Hnd & _) & Hkept).
    destruct (expand_all_counts _ _ _ Hnd _ _ H2) as (_ & Ho2 & Hcount).
    exists st, P1, P2. split; [exact E|]. split; [exact H1|]. split; [exact H2|].
    split; [apply expand_all_expansions; exact H2|].
    split; [congruence|]. split; [exact Ha|].
    intros key a Hk. destruct (Hkept key a Hk) as (act & Hact & Hkind & Hq & _).
    assert (Hact1 : nth_error (actions P1) key = Some act).
    { rewrite (declare_objects_actions _ _ _ _ H1). exact Hact. }
    exists act. split; [exact Hact1|]. split; [exact Hkind|]. split; [exact Hq|].
    intros Hs. rewrite <- Hkind in Hs.
    destruct (Hcount key act Hact1 Hs) as (counts & Hc & Hg).
    exists counts. split; [|exact Hg].
    apply (Forall2_expanded_same _ _ P1 P'); [congruence|exact Hc].
  - intros res P' key a q H Hm Hk Hw Hs.
    unfold _parse_problem in H. inv_bind H. rename x into st.
    apply parse_problem_part_stages in H. destruct H as (P1 & P2 & H1 & H2 & Ho & Ha).
    destruct (parse_domain_keeps _ _ _ _ E) as ((Hnd & _) & Hblocks).
    destruct (Hblocks key a Hk) as (act & Hact & Hkind & _ & Hwhole).
    destruct (Hwhole q Hw) as [Hkept Hzero].
    destruct (expand_all_counts _ _ _ Hnd _ _ H2) as (_ & Ho2 & Hcount).
    assert (Hact1 : nth_error (actions P1) key = Some act).
    { rewrite (declare_objects_actions _ _ _ _ H1). exact Hact. }
    destruct (Hcount key act Hact1) as (counts & Hc & act' & Hk' & Hg & Hn).
    { rewrite Hkept, Hkind. cbn. rewrite Hs. reflexivity. }
    rewrite Hkept in Hc. inversion Hc as [|? n0 ? ? (tys & Hq & ->) Hrest]; subst.
    inversion Hrest; subst.
    exists st, tys, act'.
    split; [exact E|]. split; [exact Hq|]. split; [rewrite (Ha Hm); exact Hk'|].
    split; [rewrite (grows_same_kind _ _ _ Hg); exact Hkind|].
    rewrite Hn, Hzero. cbn. rewrite Nat.add_0_r. apply tuples_same. congruence.
Qed.

Lemma quantified_effects_expand_or_refuse_witness :
  _parse_problem example_reader TypeManager_init tour_domain None = Raise UPUsageError /\
  (exists act,
     nth_error (actions tour_model_plain) 0 = Some act /\
     is_durative act = false /\
     effect_count act = 2) /\
  (exists act,
     nth_error (actions timed_tour_model) 0 = Some act /\
     is_durative act = true /\
     effect_count act = 2).
Proof.
  split; [|split].
  - destruct (quantified_effects_expand_or_refuse example_reader TypeManager_init tour_domain)
      as (Hnone & _ & _).
    destruct (Hnone (ActionBlock "tour" [] None (Some visit_all) None) visit_all) as [_ Hu].
    + left. reflexivity.
    + apply quantified_here.
    + case_eq (parse_domain example_reader TypeManager_init tour_domain).
      * intros st Hst. apply (Hu st Hst).
      * intros e He. vm_compute in He. discriminate He.
      * intros He. vm_compute in He. discriminate He.
  - destruct (quantified_effects_expand_or_refuse example_reader TypeManager_init tour_domain)
      as (_ & _ & Hwhole).
    destruct (Hwhole tour_file_plain tour_model_plain 0
                (ActionBlock "tour" [] None (Some visit_all) None) visit_all)
      as (st & tys & act & Hd & Hq & Ha & Hk & Hl).
    + vm_compute. reflexivity.
    + reflexivity.
    + reflexivity.
    + split; [reflexivity|]. eexists _, _, _. reflexivity.
    + reflexivity.
    + exists act. split; [exact Ha|]. split; [exact Hk|]. rewrite Hl.
      vm_compute in Hd. injection Hd as <-. vm_compute in Hq. injection Hq as <-.
      reflexivity.
  - destruct (quantified_effects_expand_or_refuse example_reader TypeManager_init
                timed_tour_domain) as (_ & _ & Hwhole).
    destruct (Hwhole tour_file_plain timed_tour_model 0 timed_tour_block
                (lst [tok "forall"; lst [tok "?y"; tok "-"; tok "truck"];
                      lst [tok "at"; tok "start"; lst [tok "visited"; tok "?y"]]]))
      as (st & tys & act & Hd & Hq & Ha & Hk & Hl).
    + vm_compute. reflexivity.
    + reflexivity.
    + reflexivity.
    + split; [reflexivity|]. eexists _, _, _, _. reflexivity.
    + reflexivity.
    + exists act. split; [exact Ha|]. split; [exact Hk|]. rewrite Hl.
      vm_compute in Hd. injection Hd as <-. vm_compute in Hq. injection Hq as <-.
      reflexivity.
Defined.

(** The claim C4 as the specification words it fails on both of its parts.
    The domain whose quantified effect stands under a condition that
    simplifies to false is read without problem file and without error, the
    action left without effect.  And with two trucks, the quantified
    effect whose body holds two effects gives the action four effects, two
    for each truck. *)
Lemma guarded_or_double_quantified_effect :
  (exists P,
     _parse_problem simplifying_reader TypeManager_init guarded_tour_domain None = Ok P /\
     actions P = [Instantaneous (new_InstantaneousAction "tour" [])]) /\
  (exists P a,
     _parse_problem example_reader TypeManager_init double_tour_domain (Some tour_file_plain)
     = Ok P /\
     nth_error (actions P) 0 = Some (Instantaneous a) /\
     List.length (objects P truck) = 2 /\
     List.length (effects a) = 4).
Proof.
  split.
  - eexists. split; [vm_compute; reflexivity|]. reflexivity.
  - eexists _, _. split; [vm_compute; reflexivity|]. split; [reflexivity|].
    split; reflexivity.
Qed.

End QuantifiedFacts.
